(** * Snapshot state-sync coordinator: a shallow embedding

    The development follows the Go sources of the staged stream sync
    package: the state download manager (task registry, batch assembly,
    checkpoint load, account-response integration, slim account encoding,
    heal-request ordering) and the block verify-and-insert helper of the
    downloader.

    Conventions.
    - A Go run-time panic (nil dereference, write to a nil map, index out of
      range) is an explicit outcome [Panic] of the [Result] monad.
    - 256-bit hashes and 64-bit integers are [Z] with their ranges written
      out; byte strings are [list Z] with every element in [0, 256).
    - A Go map is an association list (its iteration order is the list
      order, so a statement over all maps covers every order the run time
      may pick) wrapped in [option], [None] being the nil map.
    - Pointers to account tasks are addresses into an explicit heap.
    - A byte counter, a [float64] that holds a whole number of bytes, is a
      [Z] with the rounding of the float written out.
    - What the libraries outside the sources do (the RLP codec, the sort,
      the stack trie, the key layout of the raw database) is modelled or
      left as a parameter, and said so where it is defined. *)

From Stdlib Require Import ZArith List Bool Lia Permutation Sorted.
Import ListNotations.
Open Scope Z_scope.

Set Implicit Arguments.

(** ** Go run-time outcomes *)

Module Go.

Inductive panic : Type :=
| NilDeref          (* invalid memory address or nil pointer dereference *)
| NilMapWrite       (* assignment to entry in nil map *)
| IndexOutOfRange   (* index out of range *)
| BadMakeCap        (* makeslice: cap out of range *)
| Explicit.         (* panic(err) *)

Inductive Result (A : Type) : Type :=
| Ok (a : A)
| Panic (p : panic)
| Stuck.            (* the random tape ended while a retry loop was drawing *)

Arguments Ok {A} a.
Arguments Panic {A} p.
Arguments Stuck {A}.

Definition bind {A B} (r : Result A) (k : A -> Result B) : Result B :=
  match r with
  | Ok a => k a
  | Panic p => Panic p
  | Stuck => Stuck
  end.

Definition faults {A} (r : Result A) : Prop :=
  exists p, r = Panic p.

Definition returns {A} (r : Result A) : Prop :=
  exists a, r = Ok a.

(** [p.f] on a pointer that may be nil. *)
Definition deref {A} (o : option A) : Result A :=
  match o with
  | Some a => Ok a
  | None => Panic NilDeref
  end.

(** [xs[i]] on a slice. *)
Definition index {A} (xs : list A) (i : nat) : Result A :=
  match nth_error xs i with
  | Some a => Ok a
  | None => Panic IndexOutOfRange
  end.

End Go.

Import Go.

Declare Scope go_scope.
Delimit Scope go_scope with go.
Notation "x <- c1 ;; c2" := (Go.bind c1 (fun x => c2))
  (at level 61, c1 at next level, right associativity) : go_scope.
Notation "' pat <- c1 ;; c2" := (Go.bind c1 (fun x => match x with pat => c2 end))
  (at level 61, pat pattern, c1 at next level, right associativity) : go_scope.
Open Scope go_scope.

(** ** Go maps *)

Module GoMap.

Section Assoc.

Variable V : Type.

Definition t := option (list (Z * V)).

Definition make : t := Some [].
Definition nil_map : t := None.

Definition items (m : t) : list (Z * V) :=
  match m with Some l => l | None => [] end.

Definition len (m : t) : Z := Z.of_nat (length (items m)).

Fixpoint find (k : Z) (l : list (Z * V)) : option V :=
  match l with
  | [] => None
  | (k', v) :: l' => if k =? k' then Some v else find k l'
  end.

(** [v, ok := m[k]]; reading a nil map is allowed. *)
Definition get (k : Z) (m : t) : option V := find k (items m).

Definition mem (k : Z) (m : t) : bool :=
  match get k m with Some _ => true | None => false end.

Fixpoint put (k : Z) (v : V) (l : list (Z * V)) : list (Z * V) :=
  match l with
  | [] => [(k, v)]
  | (k', v') :: l' => if k =? k' then (k, v) :: l' else (k', v') :: put k v l'
  end.

(** [m[k] = v]; a nil map panics. *)
Definition set (k : Z) (v : V) (m : t) : Result t :=
  match m with
  | Some l => Ok (Some (put k v l))
  | None => Panic NilMapWrite
  end.

Definition remove (k : Z) (l : list (Z * V)) : list (Z * V) :=
  filter (fun kv => negb (k =? fst kv)) l.

(** [delete(m, k)]; a no-op on a nil map and on a missing key. *)
Definition delete (k : Z) (m : t) : t :=
  match m with
  | Some l => Some (remove k l)
  | None => None
  end.

End Assoc.

Arguments make {V}.
Arguments nil_map {V}.

End GoMap.

(** ** Request-sizing constants (lines 34-83) *)

Definition minRequestSize : Z := 64 * 1024.
Definition maxRequestSize : Z := 512 * 1024.

(** Untyped integer constants: [/] truncates, and the expression associates
    to the left, [(maxRequestSize / (24 * 1024)) * 4]. *)
Definition maxCodeRequestCount : Z := maxRequestSize / (24 * 1024) * 4.
Definition maxTrieRequestCount : Z := maxRequestSize / 512.

Definition minTrienodeHealThrottle : Z := 1.
Definition maxTrienodeHealThrottle : Z := maxTrieRequestCount.

Definition accountConcurrency : Z := 16.
Definition storageConcurrency : Z := 16.

(** ** Hashes *)

Definition Hash := Z.

Definition hashModulus : Z := 2 ^ 256.

(** [MaxHash], all ones. *)
Definition MaxHash : Hash := hashModulus - 1.

Definition validHash (h : Hash) : Prop := 0 <= h < hashModulus.

(** [common.BigToHash]: the low 32 bytes of the big-endian representation. *)
Definition BigToHash (b : Z) : Hash := b mod hashModulus.

(** Modelled from the spec: [incHash] is not among the sources; the spec
    gives [incHash(h)] as [h+1], called below [MaxHash] only, and leaves
    the wrap-around open. *)
Definition incHash (h : Hash) : Hash := h + 1.

(** ** Byte strings and big-endian integers *)

Definition bytes := list Z.

Definition byteOK (b : Z) : Prop := 0 <= b < 256.
Definition bytesOK (bs : bytes) : Prop := Forall byteOK bs.

Definition blen (bs : bytes) : Z := Z.of_nat (length bs).

(** The [n] low-order bytes of [z], most significant first. *)
Fixpoint toBE (n : nat) (z : Z) : bytes :=
  match n with
  | O => []
  | S n' => toBE n' (z / 256) ++ [z mod 256]
  end.

Definition fromBE (bs : bytes) : Z :=
  fold_left (fun acc b => acc * 256 + b) bs 0.

(** Number of bytes of the minimal big-endian form; zero has none. *)
Definition byteLen (z : Z) : nat :=
  if z <=? 0 then O else Z.to_nat (Z.log2 z / 8 + 1).

Definition putint (z : Z) : bytes := toBE (byteLen z) z.

(** [h[:]] and [h.Bytes()]: the 32 bytes of a hash. *)
Definition hashBytes (h : Hash) : bytes := toBE 32 h.

(** [common.BytesToHash]: longer inputs are cropped from the left, shorter
    ones are left-padded with zeros. *)
Definition BytesToHash (b : bytes) : Hash := fromBE b mod hashModulus.

Fixpoint bytesEqual (a b : bytes) : bool :=
  match a, b with
  | [], [] => true
  | x :: a', y :: b' => (x =? y) && bytesEqual a' b'
  | _, _ => false
  end.

(** ** RLP, as the external codec [rlp.EncodeToBytes] / [rlp.DecodeBytes]
    treats byte strings, unsigned integers and structs of them *)

Module RLP.

(** Header of a payload of [n] bytes; [off] is 0x80 for a string and 0xc0
    for a list. *)
Definition header (off n : Z) : bytes :=
  if n <? 56 then [off + n]
  else let l := putint n in (off + 55 + blen l) :: l.

Definition encBytes (b : bytes) : bytes :=
  match b with
  | [x] => if x <? 128 then [x] else header 128 1 ++ b
  | _ => header 128 (blen b) ++ b
  end.

Definition encUint (z : Z) : bytes := encBytes (putint z).

Definition encList (payload : bytes) : bytes :=
  header 192 (blen payload) ++ payload.

Inductive kind : Type := Str | Lst.

Definition take (n : Z) (bs : bytes) : option (bytes * bytes) :=
  if (0 <=? n) && (n <=? blen bs)
  then Some (firstn (Z.to_nat n) bs, skipn (Z.to_nat n) bs)
  else None.

Definition noLeadingZero (bs : bytes) : bool :=
  match bs with
  | b :: _ => negb (b =? 0)
  | [] => true
  end.

(** The size field of a long header: [ll] bytes, canonical (no leading
    zero, and a size that the short form could not hold). *)
Definition readSize (ll : Z) (bs : bytes) : option (Z * bytes) :=
  match take ll bs with
  | Some (sz, rest) =>
      let n := fromBE sz in
      if noLeadingZero sz && (56 <=? n) then Some (n, rest) else None
  | None => None
  end.

(** One item off the front of the input: its kind, its content and what
    follows it. *)
Definition decItem (bs : bytes) : option (kind * bytes * bytes) :=
  match bs with
  | [] => None
  | b :: tl =>
      if b <? 128 then Some (Str, [b], tl)
      else if b <? 184 then
        match take (b - 128) tl with
        | Some ([x], rest) => if x <? 128 then None else Some (Str, [x], rest)
        | Some (c, rest) => Some (Str, c, rest)
        | None => None
        end
      else if b <? 192 then
        match readSize (b - 183) tl with
        | Some (n, tl') =>
            match take n tl' with
            | Some (c, rest) => Some (Str, c, rest)
            | None => None
            end
        | None => None
        end
      else if b <? 248 then
        match take (b - 192) tl with
        | Some (c, rest) => Some (Lst, c, rest)
        | None => None
        end
      else
        match readSize (b - 247) tl with
        | Some (n, tl') =>
            match take n tl' with
            | Some (c, rest) => Some (Lst, c, rest)
            | None => None
            end
        | None => None
        end
  end.

Definition decString (bs : bytes) : option (bytes * bytes) :=
  match decItem bs with
  | Some (Str, c, rest) => Some (c, rest)
  | _ => None
  end.

(** A [*big.Int] field: a string with no leading zero. *)
Definition decBigInt (bs : bytes) : option (Z * bytes) :=
  match decString bs with
  | Some (c, rest) => if noLeadingZero c then Some (fromBE c, rest) else None
  | None => None
  end.

(** A [uint64] field: as a big integer, of at most eight bytes. *)
Definition decUint64 (bs : bytes) : option (Z * bytes) :=
  match decString bs with
  | Some (c, rest) =>
      if noLeadingZero c && (blen c <=? 8) then Some (fromBE c, rest) else None
  | None => None
  end.

(** A [[32]byte] field: a string of exactly 32 bytes. *)
Definition decHash (bs : bytes) : option (bytes * bytes) :=
  match decString bs with
  | Some (c, rest) => if blen c =? 32 then Some (c, rest) else None
  | None => None
  end.

(** The outer list of a struct, which must be the whole input. *)
Definition decStruct (bs : bytes) : option bytes :=
  match decItem bs with
  | Some (Lst, c, []) => Some c
  | _ => None
  end.

End RLP.

(** ** Accounts (lines 441-501) *)

(** [types.StateAccount]; a nil [Balance] is the integer zero. *)
Record StateAccount : Type := mkStateAccount {
  sa_Nonce : Z;
  sa_Balance : Z;
  sa_Root : Hash;
  sa_CodeHash : bytes
}.

(** [SlimAccount]; a nil slice is the empty list. *)
Record SlimAccount : Type := mkSlimAccount {
  sl_Nonce : Z;
  sl_Balance : Z;
  sl_Root : bytes;
  sl_CodeHash : bytes
}.

(** [types.EmptyRootHash], the root of the empty trie. *)
Definition EmptyRootHash : Hash :=
  0x56e81f171bcc55a6ff8345e692c0f86e5b48e01b996cadc001622fb5e363b421.

(** [types.EmptyCodeHash], the hash of the empty code. *)
Definition EmptyCodeHash : Hash :=
  0xc5d2460186f7233c927e7db2dcc703c0e500b653ca82273b7bfad8045d85a470.

(** [rlp.EncodeToBytes(slim)]; the encoder refuses a negative big integer. *)
Definition encodeSlim (slim : SlimAccount) : option bytes :=
  if sl_Balance slim <? 0 then None
  else Some (RLP.encList (RLP.encUint (sl_Nonce slim) ++
                          RLP.encUint (sl_Balance slim) ++
                          RLP.encBytes (sl_Root slim) ++
                          RLP.encBytes (sl_CodeHash slim))).

(** [rlp.EncodeToBytes(account)] for a [*types.StateAccount]. *)
Definition encodeAccount (a : StateAccount) : option bytes :=
  if sa_Balance a <? 0 then None
  else Some (RLP.encList (RLP.encUint (sa_Nonce a) ++
                          RLP.encUint (sa_Balance a) ++
                          RLP.encBytes (hashBytes (sa_Root a)) ++
                          RLP.encBytes (sa_CodeHash a))).

(** [rlp.DecodeBytes(data, &slim)]. *)
Definition decodeSlim (data : bytes) : option SlimAccount :=
  match RLP.decStruct data with
  | Some c0 =>
      match RLP.decUint64 c0 with
      | Some (nonce, c1) =>
          match RLP.decBigInt c1 with
          | Some (balance, c2) =>
              match RLP.decString c2 with
              | Some (root, c3) =>
                  match RLP.decString c3 with
                  | Some (code, []) => Some (mkSlimAccount nonce balance root code)
                  | _ => None
                  end
              | None => None
              end
          | None => None
          end
      | None => None
      end
  | None => None
  end.

(** [rlp.DecodeBytes(value, &account)] for a [types.StateAccount]. *)
Definition decodeAccount (data : bytes) : option StateAccount :=
  match RLP.decStruct data with
  | Some c0 =>
      match RLP.decUint64 c0 with
      | Some (nonce, c1) =>
          match RLP.decBigInt c1 with
          | Some (balance, c2) =>
              match RLP.decHash c2 with
              | Some (root, c3) =>
                  match RLP.decString c3 with
                  | Some (code, []) =>
                      Some (mkStateAccount nonce balance (BytesToHash root) code)
                  | _ => None
                  end
              | None => None
              end
          | None => None
          end
      | None => None
      end
  | None => None
  end.

(** [SlimAccountRLP] (lines 452-468). *)
Definition SlimAccountRLP (account : StateAccount) : Result bytes :=
  let slim := mkSlimAccount
    (sa_Nonce account)
    (sa_Balance account)
    (if sa_Root account =? EmptyRootHash then [] else hashBytes (sa_Root account))
    (if bytesEqual (sa_CodeHash account) (hashBytes EmptyCodeHash)
     then [] else sa_CodeHash account) in
  match encodeSlim slim with
  | Some data => Ok data
  | None => Panic Explicit
  end.

(** [FullAccount] (lines 472-492); [None] is the decoder's error. *)
Definition FullAccount (data : bytes) : option StateAccount :=
  match decodeSlim data with
  | None => None
  | Some slim =>
      Some (mkStateAccount
        (sl_Nonce slim)
        (sl_Balance slim)
        (if blen (sl_Root slim) =? 0 then EmptyRootHash
         else BytesToHash (sl_Root slim))
        (if blen (sl_CodeHash slim) =? 0 then hashBytes EmptyCodeHash
         else sl_CodeHash slim))
  end.

(** [FullAccountRLP] (lines 495-501). *)
Definition FullAccountRLP (data : bytes) : option bytes :=
  match FullAccount data with
  | None => None
  | Some account => encodeAccount account
  end.

(** ** Heal-request ordering (lines 85-215, 1229-1240) *)

(** [bytes.Compare]. *)
Fixpoint bytesCompare (a b : bytes) : comparison :=
  match a, b with
  | [], [] => Eq
  | [], _ :: _ => Lt
  | _ :: _, [] => Gt
  | x :: a', y :: b' =>
      match x ?= y with
      | Eq => bytesCompare a' b'
      | c => c
      end
  end.

(** [trie.SyncPath] and [TrieNodePathSet]: both are [[][]byte]. *)
Definition SyncPath := list bytes.
Definition TrieNodePathSet := list bytes.

(** The trie package's nibble helpers, which [trie.NewSyncPath] is built
    from (external to the package; modelled after go-ethereum's
    trie/encoding.go). *)
Definition hasTerm (hex : bytes) : bool :=
  match rev hex with
  | last :: _ => last =? 16
  | [] => false
  end.

Fixpoint decodeNibbles (nibbles : bytes) : bytes :=
  match nibbles with
  | hi :: lo :: rest => Z.lor (Z.shiftl hi 4 mod 256) lo :: decodeNibbles rest
  | _ => []
  end.

Definition hexToCompact (hex : bytes) : bytes :=
  let terminator := if hasTerm hex then 1 else 0 in
  let hex := if hasTerm hex then removelast hex else hex in
  let flag := Z.shiftl terminator 5 in
  if Nat.odd (length hex)
  then Z.lor (Z.lor flag 16) (hd 0 hex) :: decodeNibbles (tl hex)
  else flag :: decodeNibbles hex.

Definition hexToKeybytes (hex : bytes) : Result bytes :=
  let hex := if hasTerm hex then removelast hex else hex in
  if Nat.odd (length hex) then Panic Explicit
  else Ok (decodeNibbles hex).

(** [trie.NewSyncPath]: one segment for an account-trie path (fewer than
    64 nibbles), two for a storage-trie path. *)
Definition NewSyncPath (path : bytes) : Result SyncPath :=
  if (length path <? 64)%nat then Ok [hexToCompact path]
  else
    key <- hexToKeybytes (firstn 64 path) ;;
    Ok [key; hexToCompact (skipn 64 path)].

(** One position of [healRequestSort]: the three parallel slices hold the
    path, the hash and the sync path of the same request, and [Swap] moves
    the three together. *)
Record healEntry : Type := mkHealEntry {
  he_path : bytes;
  he_hash : Hash;
  he_syncPath : SyncPath
}.

(** [a[i]] for a segment of a sync path; the sync paths built by
    [NewSyncPath] have one or two segments, and [Less] reads no other. *)
Definition seg (i : nat) (p : list bytes) : bytes := nth i p [].

(** [Less] (lines 163-183), on the two sync paths it compares. *)
Definition syncPathLess (a b : SyncPath) : bool :=
  match bytesCompare (seg 0 a) (seg 0 b) with
  | Lt => true
  | Gt => false
  | Eq =>
      if (length a <? length b)%nat then true
      else if (length b <? length a)%nat then false
      else if (length a =? 2)%nat
           then match bytesCompare (seg 1 a) (seg 1 b) with
                | Lt => true
                | _ => false
                end
           else false
  end.

Definition Less (x y : healEntry) : bool :=
  syncPathLess (he_syncPath x) (he_syncPath y).

(** [sort.Sort] (external): the result is a rearrangement of the input in
    which no element is [Less] than one before it.  The model is the
    insertion sort the library itself runs on short inputs: each element
    moves left past the elements it is [Less] than. *)
Fixpoint sortInsert (x : healEntry) (sorted : list healEntry) : list healEntry :=
  match sorted with
  | [] => [x]
  | y :: rest => if Less x y then x :: y :: rest else y :: sortInsert x rest
  end.

Definition sortSort (l : list healEntry) : list healEntry :=
  fold_right sortInsert [] (rev l).

(** One iteration of the loop of [Merge] (lines 196-213). *)
Definition mergeStep (result : list TrieNodePathSet) (path : SyncPath)
  : list TrieNodePathSet :=
  if (length path =? 1)%nat then result ++ [path]
  else
    match rev result with
    | [] => result ++ [path]
    | lastSet :: before =>
        if bytesEqual (seg 0 path) (seg 0 lastSet)
        then rev before ++ [lastSet ++ [seg 1 path]]
        else result ++ [path]
    end.

(** [Merge] (lines 194-215). *)
Definition Merge (syncPaths : list SyncPath) : list TrieNodePathSet :=
  fold_left mergeStep syncPaths [].

Fixpoint mapResult {A B} (f : A -> Result B) (l : list A) : Result (list B) :=
  match l with
  | [] => Ok []
  | x :: l' => y <- f x ;; ys <- mapResult f l' ;; Ok (y :: ys)
  end.

Fixpoint zipEntries (paths : list bytes) (hashes : list Hash)
  (syncPaths : list SyncPath) : list healEntry :=
  match paths, hashes, syncPaths with
  | p :: ps, h :: hs, s :: ss => mkHealEntry p h s :: zipEntries ps hs ss
  | _, _, _ => []
  end.

Record sortedHealRequest : Type := mkSortedHealRequest {
  sr_paths : list bytes;
  sr_hashes : list Hash;
  sr_syncPaths : list SyncPath;
  sr_pathsets : list TrieNodePathSet
}.

(** [sortByAccountPath] (lines 1231-1240).  [Len] is [len(hashes)]: the
    sort touches the first [len(hashes)] positions of the three slices,
    and indexes past the end of [paths] when there are at least two hashes
    and more hashes than paths. *)
Definition sortByAccountPath (paths : list bytes) (hashes : list Hash)
  : Result sortedHealRequest :=
  syncPaths <- mapResult NewSyncPath paths ;;
  let n := length hashes in
  if (n <=? 1)%nat then
    Ok (mkSortedHealRequest paths hashes syncPaths (Merge syncPaths))
  else if (length paths <? n)%nat then Panic IndexOutOfRange
  else
    let sorted := sortSort (zipEntries paths hashes syncPaths) in
    let paths' := map he_path sorted ++ skipn n paths in
    let syncPaths' := map he_syncPath sorted ++ skipn n syncPaths in
    Ok (mkSortedHealRequest paths' (map he_hash sorted) syncPaths'
          (Merge syncPaths')).

(** The requests a list of path sets stands for: a set of one element is
    an account-trie node, a longer one is its first element paired with
    each of the others. *)
Definition expandPathSet (ps : TrieNodePathSet) : list SyncPath :=
  match ps with
  | [] => []
  | [a] => [[a]]
  | a :: slots => map (fun s => [a; s]) slots
  end.

Definition expandPathSets (l : list TrieNodePathSet) : list SyncPath :=
  flat_map expandPathSet l.

(** ** The store and the collaborators of the manager *)

(** What the manager hands to the key-value store, by the accessor of the
    raw-database schema that writes it. *)
Inductive dbWrite : Type :=
| WAccountSnapshot (account : Hash) (blob : bytes)
| WStorageSnapshot (account slot : Hash) (value : bytes)
| WCode (hash : Hash) (code : bytes)
| WTrieNode (owner : Hash) (path : bytes) (hash : Hash) (blob : bytes).

(** An [ethdb.Batch]: the writes queued since the last reset. *)
Definition Batch := list dbWrite.

(** Bytes a write adds to [ValueSize()] and reports to an [OnPut] hook:
    key plus value.  A snapshot entry and a code blob are keyed by a
    one-byte table prefix and their hashes (the sizes [onHealState] adds up
    at lines 516 and 521); a trie node is keyed by its hash (the hash
    scheme; the batches measured with [ValueSize] hold no trie nodes, the
    ones that do are measured with [batchSize] below). *)
Definition writeSize (w : dbWrite) : Z :=
  match w with
  | WAccountSnapshot _ blob => 1 + 32 + blen blob
  | WStorageSnapshot _ _ value => 1 + 2 * 32 + blen value
  | WCode _ code => 1 + 32 + blen code
  | WTrieNode _ _ _ blob => 32 + blen blob
  end.

Definition ValueSize (b : Batch) : Z :=
  fold_right (fun w acc => writeSize w + acc) 0 b.

(** [ethdb.IdealBatchSize]. *)
Definition IdealBatchSize : Z := 100 * 1024.

(** A [trie.StackTrie], as far as the manager drives it: the leaves fed
    to it and the number of commits. *)
Record StackTrie : Type := mkStackTrie {
  tr_leaves : list (bytes * bytes);
  tr_commits : nat
}.

(** A node the stack trie hands to its writer (the [writeFn] of lines
    686-689, 700-703 and 754-757): its path, its hash and its encoding. *)
Record trieNode : Type := mkTrieNode {
  tn_path : bytes;
  tn_hash : Hash;
  tn_blob : bytes
}.

(** The node generation of [trie.StackTrie] (external): the nodes that
    [Update] and [Commit] hand to the writer of the trie they are called
    on.  Which nodes these are is the hasher's business; the manager
    routes them into the [genBatch] of the task. *)
Record Hasher : Type := mkHasher {
  updateNodes : StackTrie -> bytes -> bytes -> list trieNode;
  commitNodes : StackTrie -> list trieNode
}.

Definition NewStackTrie : StackTrie := mkStackTrie [] O.

Definition trieUpdate (k v : bytes) (t : StackTrie) : StackTrie :=
  mkStackTrie (tr_leaves t ++ [(k, v)]) (tr_commits t).

Definition trieCommit (t : StackTrie) : StackTrie :=
  mkStackTrie (tr_leaves t) (S (tr_commits t)).

(** [common.StorageSize] is a [float64].  The byte counters only ever hold
    whole numbers of bytes, so they are integers here, and every conversion
    and every addition rounds as the float does: to the nearest number with
    a significand of 53 bits, a tie to the one with the even significand,
    and to the infinity, for which [float64Inf] stands, past the largest
    float. *)
Definition float64Inf : Z := 2 ^ 1024.

Definition roundFloat64 (z : Z) : Z :=
  let a := Z.abs z in
  let e := Z.log2 a - 52 in
  let r :=
    if e <=? 0 then a
    else
      let ulp := 2 ^ e in
      let q := a / ulp in
      let rest := a mod ulp in
      (if 2 * rest <? ulp then q
       else if ulp <? 2 * rest then q + 1
       else if Z.even q then q else q + 1) * ulp in
  Z.sgn z * Z.min r float64Inf.

(** [size += common.StorageSize(n)] for an [int] [n]. *)
Definition addSize (size : Z) (n : Z) : Z :=
  roundFloat64 (size + roundFloat64 n).


(** The progress counters shared by the manager and [SyncProgress]
    (lines 337-349, 378-403).  The item counters are [uint64]; the byte
    counters are [common.StorageSize]. *)
Record Stats : Type := mkStats {
  accountSynced : Z;
  accountBytes : Z;
  bytecodeSynced : Z;
  bytecodeBytes : Z;
  storageSynced : Z;
  storageBytes : Z;
  trienodeHealSynced : Z;
  trienodeHealBytes : Z;
  bytecodeHealSynced : Z;
  bytecodeHealBytes : Z
}.

Definition zeroStats : Stats := mkStats 0 0 0 0 0 0 0 0 0 0.

(** ** Tasks (lines 103-149, 217-246) *)

(** Addresses into the heaps of account tasks and storage tasks. *)
Definition ptr := nat.

Record accountResponse : Type := mkAccountResponse {
  ar_task : ptr;
  ar_hashes : list Hash;
  ar_accounts : list StateAccount;
  ar_cont : bool
}.

Record storageTask : Type := mkStorageTask {
  st_Next : Hash;
  st_Last : Hash;
  st_root : Hash;
  st_genBatch : Batch;
  st_genTrie : StackTrie;
  st_requested : bool;
  st_done : bool
}.

Record accountTask : Type := mkAccountTask {
  at_id : Z;
  at_Next : Hash;
  at_Last : Hash;
  at_SubTasks : GoMap.t (list ptr);
  at_pend : Z;
  at_needCode : list bool;
  at_needState : list bool;
  at_needHeal : list bool;
  at_codeTasks : GoMap.t unit;
  at_stateTasks : GoMap.t Hash;
  at_genBatch : Batch;
  at_genTrie : StackTrie;
  at_requested : bool;
  at_done : bool;
  at_res : option accountResponse
}.

Record storageTaskBundle : Type := mkStorageTaskBundle {
  sb_id : Z;
  sb_accounts : list Hash;
  sb_roots : list Hash;
  sb_mainTask : option ptr;
  sb_subtask : option ptr;
  sb_origin : Hash;
  sb_limit : Hash
}.

(** [healTask]; [trieTasks] and [codeTasks] are only written by the heal
    tail of the batch assembly and by the heal responses and are left out,
    [ht_task] is the address of the pool the request was split from. *)
Record healTask : Type := mkHealTask {
  ht_id : Z;
  ht_paths : list bytes;
  ht_hashes : list Hash;
  ht_pathsets : list TrieNodePathSet;
  ht_task : option Z;
  ht_root : Hash;
  ht_byteCodeReq : bool
}.

Record tasks : Type := mkTasks {
  accountTasks : GoMap.t ptr;
  storageTasks : GoMap.t storageTaskBundle;
  codeTasks : GoMap.t unit;
  healer : GoMap.t healTask;
  tk_snapped : bool
}.

(** [newTasks] (lines 248-256). *)
Definition newTasks : tasks :=
  mkTasks GoMap.make GoMap.make GoMap.make GoMap.make false.

Definition setAccountTasks (t : tasks) (m : GoMap.t ptr) : tasks :=
  mkTasks m (storageTasks t) (codeTasks t) (healer t) (tk_snapped t).
Definition setStorageTasks (t : tasks) (m : GoMap.t storageTaskBundle) : tasks :=
  mkTasks (accountTasks t) m (codeTasks t) (healer t) (tk_snapped t).
Definition setCodeTasks (t : tasks) (m : GoMap.t unit) : tasks :=
  mkTasks (accountTasks t) (storageTasks t) m (healer t) (tk_snapped t).
Definition setHealer (t : tasks) (m : GoMap.t healTask) : tasks :=
  mkTasks (accountTasks t) (storageTasks t) (codeTasks t) m (tk_snapped t).

(** The registry operations (lines 258-303). *)
Definition addAccountTask (t : tasks) (accountTaskIndex : Z) (ct : ptr)
  : Result tasks :=
  m <- GoMap.set accountTaskIndex ct (accountTasks t) ;;
  Ok (setAccountTasks t m).

Definition getAccountTask (t : tasks) (accountTaskIndex : Z) : option ptr :=
  GoMap.get accountTaskIndex (accountTasks t).

Definition deleteAccountTask (t : tasks) (accountTaskIndex : Z) : tasks :=
  setAccountTasks t (GoMap.delete accountTaskIndex (accountTasks t)).

Definition addCodeTask (t : tasks) (h : Hash) : Result tasks :=
  m <- GoMap.set h tt (codeTasks t) ;;
  Ok (setCodeTasks t m).

Definition deleteCodeTask (t : tasks) (hash : Hash) : tasks :=
  setCodeTasks t (GoMap.delete hash (codeTasks t)).

Definition addStorageTaskBundle (t : tasks) (storageBundleIndex : Z)
  (storages : storageTaskBundle) : Result tasks :=
  m <- GoMap.set storageBundleIndex storages (storageTasks t) ;;
  Ok (setStorageTasks t m).

Definition deleteStorageTaskBundle (t : tasks) (storageBundleIndex : Z) : tasks :=
  setStorageTasks t (GoMap.delete storageBundleIndex (storageTasks t)).

Definition addHealerTask (t : tasks) (taskID : Z) (task : healTask)
  : Result tasks :=
  m <- GoMap.set taskID task (healer t) ;;
  Ok (setHealer t m).

Definition deleteHealerTask (t : tasks) (taskID : Z) : tasks :=
  setHealer t (GoMap.delete taskID (healer t)).

(** ** Checkpoints (lines 331-350) *)

(** What a [storageTask] and an [accountTask] leave in the JSON of a
    checkpoint: their exported fields ("These fields get serialized to
    leveldb on shutdown", line 107).  Everything else comes back as the
    zero value of its type. *)
Record savedStorageTask : Type := mkSavedStorageTask {
  sv_stNext : Hash;
  sv_stLast : Hash
}.

Record savedAccountTask : Type := mkSavedAccountTask {
  sv_Next : Hash;
  sv_Last : Hash;
  sv_SubTasks : GoMap.t (list savedStorageTask)
}.

(** The numbers of a status are the ones of its JSON text.  A status that
    decodes has its item counters within [uint64] and its byte counters
    within the range of [float64].  Its tasks are tasks as [saveSyncStatus]
    writes them: a null in their place, which line 671 would dereference,
    is not among the values of the map. *)
Record SyncProgress : Type := mkSyncProgress {
  sp_Tasks : GoMap.t savedAccountTask;
  sp_stats : Stats
}.

Inductive Scheme : Type := HashScheme | PathScheme.

(** The key-value store: the checkpoint under the snap-sync status key
    (absent, or present and decoding to a progress or to nothing) and the
    entries written so far. *)
Record Store : Type := mkStore {
  db_status : option (option SyncProgress);
  db_entries : list dbWrite
}.

Definition dbWriteBatch (db : Store) (b : Batch) : Store :=
  mkStore (db_status db) (db_entries db ++ b).

(** [rawdb.WriteTrieNode] (external): the length of the key a node goes
    under.  The hash scheme keys it by its hash; the path scheme by a
    one-byte table prefix and the path, after the owner for a node of a
    storage trie. *)
Definition trieNodeKeyLen (scheme : Scheme) (owner : Hash) (path : bytes) : Z :=
  match scheme with
  | HashScheme => 32
  | PathScheme => if owner =? 0 then 1 + blen path else 1 + 32 + blen path
  end.

(** Key plus value of a write, under the scheme of the store. *)
Definition putSize (scheme : Scheme) (w : dbWrite) : Z :=
  match w with
  | WTrieNode owner path _ blob => trieNodeKeyLen scheme owner path + blen blob
  | _ => writeSize w
  end.

(** [ValueSize()] of a batch that may hold trie nodes. *)
Definition batchSize (scheme : Scheme) (b : Batch) : Z :=
  fold_right (fun w acc => putSize scheme w + acc) 0 b.

(** An [ethdb.HookedBatch] whose [OnPut] adds key and value to a byte
    counter (lines 680-685, 694-699, 747-752, 864-869): the counter after
    the puts of [b], in their order. *)
Definition hookPuts (scheme : Scheme) (size : Z) (b : Batch) : Z :=
  fold_left (fun sz w => addSize sz (putSize scheme w)) b size.

(** The writer of the stack trie of an account task (lines 686-689,
    754-757): [rawdb.WriteTrieNode] under the owner [common.Hash{}]. *)
Definition nodeWrites (owner : Hash) (nodes : list trieNode) : Batch :=
  map (fun n => WTrieNode owner (tn_path n) (tn_hash n) (tn_blob n)) nodes.

(** [rawdb.HasCodeWithPrefix]. *)
Definition HasCodeWithPrefix (db : Store) (h : Hash) : bool :=
  existsb (fun w => match w with WCode h' _ => h' =? h | _ => false end)
          (db_entries db).

(** [rawdb.HasTrieNode]: by hash under the hash scheme, by owner and path
    (with a matching hash) under the path scheme. *)
Definition HasTrieNode (db : Store) (owner : Hash) (path : bytes) (h : Hash)
  (scheme : Scheme) : bool :=
  existsb (fun w =>
             match w with
             | WTrieNode o p h' _ =>
                 match scheme with
                 | HashScheme => h' =? h
                 | PathScheme => (o =? owner) && bytesEqual p path && (h' =? h)
                 end
             | _ => false
             end) (db_entries db).

(** The trie-sync scheduler ([*trie.Sync], external), as far as the
    modelled code reads it: the number of pending requests, the size it
    reports for its buffer and the nodes buffered for the next commit. *)
Record Sync : Type := mkSync {
  sc_pending : Z;
  sc_memSize : Z;
  sc_membatch : Batch
}.

(** The counters of the heal callback (lines 388-391); the byte counters
    are [common.StorageSize] again. *)
Record Healed : Type := mkHealed {
  accountHealed : Z;
  accountHealedBytes : Z;
  storageHealed : Z;
  storageHealedBytes : Z
}.

(** ** The manager (lines 352-435) *)

(** The fields of the struct that the modelled code reads or writes, the
    two heaps its task pointers point into, and the two collaborators
    outside the struct whose answers the code depends on: the random source
    behind [rand.Int63] and the node generation behind [trie.StackTrie],
    each the same throughout a run. *)
Record Manager : Type := mkManager {
  m_accts : list accountTask;      (* heap of account tasks *)
  m_stors : list storageTask;      (* heap of storage tasks *)
  m_db : Store;
  m_scheme : Scheme;
  m_tasks : tasks;
  m_requesting : tasks;
  m_processing : tasks;
  m_retries : tasks;
  m_root : Hash;
  m_snapped : bool;
  m_scheduler : option Sync;
  m_rand : list Z;                 (* what [rand.Int63()] returns next *)
  m_stats : Stats;
  m_stateWriter : Batch;
  m_healed : Healed;
  m_hasher : Hasher                (* how the stack tries generate nodes *)
}.

(** [newFullStateDownloadManager] (lines 408-429). *)
Definition newFullStateDownloadManager (db : Store) (scheme : Scheme)
  (rand : list Z) (hasher : Hasher) : Manager :=
  mkManager [] [] db scheme newTasks newTasks newTasks newTasks
            0 false None rand zeroStats [] (mkHealed 0 0 0 0) hasher.

Definition setAccts (s : Manager) (h : list accountTask) : Manager :=
  mkManager h (m_stors s) (m_db s) (m_scheme s) (m_tasks s) (m_requesting s)
    (m_processing s) (m_retries s) (m_root s) (m_snapped s) (m_scheduler s)
    (m_rand s) (m_stats s) (m_stateWriter s) (m_healed s)
    (m_hasher s).
Definition setStors (s : Manager) (h : list storageTask) : Manager :=
  mkManager (m_accts s) h (m_db s) (m_scheme s) (m_tasks s) (m_requesting s)
    (m_processing s) (m_retries s) (m_root s) (m_snapped s) (m_scheduler s)
    (m_rand s) (m_stats s) (m_stateWriter s) (m_healed s)
    (m_hasher s).
Definition setDb (s : Manager) (db : Store) : Manager :=
  mkManager (m_accts s) (m_stors s) db (m_scheme s) (m_tasks s) (m_requesting s)
    (m_processing s) (m_retries s) (m_root s) (m_snapped s) (m_scheduler s)
    (m_rand s) (m_stats s) (m_stateWriter s) (m_healed s)
    (m_hasher s).
Definition setTasks (s : Manager) (t : tasks) : Manager :=
  mkManager (m_accts s) (m_stors s) (m_db s) (m_scheme s) t (m_requesting s)
    (m_processing s) (m_retries s) (m_root s) (m_snapped s) (m_scheduler s)
    (m_rand s) (m_stats s) (m_stateWriter s) (m_healed s)
    (m_hasher s).
Definition setRequesting (s : Manager) (t : tasks) : Manager :=
  mkManager (m_accts s) (m_stors s) (m_db s) (m_scheme s) (m_tasks s) t
    (m_processing s) (m_retries s) (m_root s) (m_snapped s) (m_scheduler s)
    (m_rand s) (m_stats s) (m_stateWriter s) (m_healed s)
    (m_hasher s).
Definition setRetries (s : Manager) (t : tasks) : Manager :=
  mkManager (m_accts s) (m_stors s) (m_db s) (m_scheme s) (m_tasks s)
    (m_requesting s) (m_processing s) t (m_root s) (m_snapped s)
    (m_scheduler s) (m_rand s) (m_stats s) (m_stateWriter s) (m_healed s)
    (m_hasher s).
Definition setSnapped (s : Manager) (b : bool) : Manager :=
  mkManager (m_accts s) (m_stors s) (m_db s) (m_scheme s) (m_tasks s)
    (m_requesting s) (m_processing s) (m_retries s) (m_root s) b
    (m_scheduler s) (m_rand s) (m_stats s) (m_stateWriter s) (m_healed s)
    (m_hasher s).
Definition setScheduler (s : Manager) (sc : option Sync) : Manager :=
  mkManager (m_accts s) (m_stors s) (m_db s) (m_scheme s) (m_tasks s)
    (m_requesting s) (m_processing s) (m_retries s) (m_root s) (m_snapped s)
    sc (m_rand s) (m_stats s) (m_stateWriter s) (m_healed s)
    (m_hasher s).
Definition setRand (s : Manager) (r : list Z) : Manager :=
  mkManager (m_accts s) (m_stors s) (m_db s) (m_scheme s) (m_tasks s)
    (m_requesting s) (m_processing s) (m_retries s) (m_root s) (m_snapped s)
    (m_scheduler s) r (m_stats s) (m_stateWriter s) (m_healed s)
    (m_hasher s).
Definition setStats (s : Manager) (st : Stats) : Manager :=
  mkManager (m_accts s) (m_stors s) (m_db s) (m_scheme s) (m_tasks s)
    (m_requesting s) (m_processing s) (m_retries s) (m_root s) (m_snapped s)
    (m_scheduler s) (m_rand s) st (m_stateWriter s) (m_healed s)
    (m_hasher s).
Definition setStateWriter (s : Manager) (b : Batch) : Manager :=
  mkManager (m_accts s) (m_stors s) (m_db s) (m_scheme s) (m_tasks s)
    (m_requesting s) (m_processing s) (m_retries s) (m_root s) (m_snapped s)
    (m_scheduler s) (m_rand s) (m_stats s) b (m_healed s) (m_hasher s).
Definition setHealed (s : Manager) (h : Healed) : Manager :=
  mkManager (m_accts s) (m_stors s) (m_db s) (m_scheme s) (m_tasks s)
    (m_requesting s) (m_processing s) (m_retries s) (m_root s) (m_snapped s)
    (m_scheduler s) (m_rand s) (m_stats s) (m_stateWriter s) h (m_hasher s).

(** Heap access: [*p] on a task pointer, and the write-back of a task
    after its fields were assigned. *)
Fixpoint updNth {A} (l : list A) (i : nat) (x : A) : list A :=
  match l, i with
  | [], _ => []
  | _ :: l', O => x :: l'
  | y :: l', S i' => y :: updNth l' i' x
  end.

Definition loadAcct (s : Manager) (p : ptr) : Result accountTask :=
  deref (nth_error (m_accts s) p).

Definition storeAcct (s : Manager) (p : ptr) (t : accountTask) : Manager :=
  setAccts s (updNth (m_accts s) p t).

Definition allocAcct (s : Manager) (t : accountTask) : Manager * ptr :=
  (setAccts s (m_accts s ++ [t]), length (m_accts s)).

Definition loadStor (s : Manager) (p : ptr) : Result storageTask :=
  deref (nth_error (m_stors s) p).

Definition storeStor (s : Manager) (p : ptr) (t : storageTask) : Manager :=
  setStors s (updNth (m_stors s) p t).

Definition allocStor (s : Manager) (t : storageTask) : Manager * ptr :=
  (setStors s (m_stors s ++ [t]), length (m_stors s)).

Definition atSetRes (t : accountTask) (r : option accountResponse) : accountTask :=
  mkAccountTask (at_id t) (at_Next t) (at_Last t) (at_SubTasks t) (at_pend t)
    (at_needCode t) (at_needState t) (at_needHeal t) (at_codeTasks t)
    (at_stateTasks t) (at_genBatch t) (at_genTrie t) (at_requested t)
    (at_done t) r.
Definition atSetRequested (t : accountTask) (b : bool) : accountTask :=
  mkAccountTask (at_id t) (at_Next t) (at_Last t) (at_SubTasks t) (at_pend t)
    (at_needCode t) (at_needState t) (at_needHeal t) (at_codeTasks t)
    (at_stateTasks t) (at_genBatch t) (at_genTrie t) b (at_done t) (at_res t).
Definition atSetDone (t : accountTask) (b : bool) : accountTask :=
  mkAccountTask (at_id t) (at_Next t) (at_Last t) (at_SubTasks t) (at_pend t)
    (at_needCode t) (at_needState t) (at_needHeal t) (at_codeTasks t)
    (at_stateTasks t) (at_genBatch t) (at_genTrie t) (at_requested t) b
    (at_res t).
Definition atSetNext (t : accountTask) (h : Hash) : accountTask :=
  mkAccountTask (at_id t) h (at_Last t) (at_SubTasks t) (at_pend t)
    (at_needCode t) (at_needState t) (at_needHeal t) (at_codeTasks t)
    (at_stateTasks t) (at_genBatch t) (at_genTrie t) (at_requested t)
    (at_done t) (at_res t).
Definition atSetGenTrie (t : accountTask) (g : StackTrie) : accountTask :=
  mkAccountTask (at_id t) (at_Next t) (at_Last t) (at_SubTasks t) (at_pend t)
    (at_needCode t) (at_needState t) (at_needHeal t) (at_codeTasks t)
    (at_stateTasks t) (at_genBatch t) g (at_requested t) (at_done t) (at_res t).
Definition atSetGenBatch (t : accountTask) (b : Batch) : accountTask :=
  mkAccountTask (at_id t) (at_Next t) (at_Last t) (at_SubTasks t) (at_pend t)
    (at_needCode t) (at_needState t) (at_needHeal t) (at_codeTasks t)
    (at_stateTasks t) b (at_genTrie t) (at_requested t) (at_done t) (at_res t).
Definition atSetSubTasks (t : accountTask) (m : GoMap.t (list ptr)) : accountTask :=
  mkAccountTask (at_id t) (at_Next t) (at_Last t) m (at_pend t)
    (at_needCode t) (at_needState t) (at_needHeal t) (at_codeTasks t)
    (at_stateTasks t) (at_genBatch t) (at_genTrie t) (at_requested t)
    (at_done t) (at_res t).
Definition atSetPend (t : accountTask) (n : Z) : accountTask :=
  mkAccountTask (at_id t) (at_Next t) (at_Last t) (at_SubTasks t) n
    (at_needCode t) (at_needState t) (at_needHeal t) (at_codeTasks t)
    (at_stateTasks t) (at_genBatch t) (at_genTrie t) (at_requested t)
    (at_done t) (at_res t).
Definition atSetNeedCode (t : accountTask) (l : list bool) : accountTask :=
  mkAccountTask (at_id t) (at_Next t) (at_Last t) (at_SubTasks t) (at_pend t)
    l (at_needState t) (at_needHeal t) (at_codeTasks t)
    (at_stateTasks t) (at_genBatch t) (at_genTrie t) (at_requested t)
    (at_done t) (at_res t).
Definition atSetNeedState (t : accountTask) (l : list bool) : accountTask :=
  mkAccountTask (at_id t) (at_Next t) (at_Last t) (at_SubTasks t) (at_pend t)
    (at_needCode t) l (at_needHeal t) (at_codeTasks t)
    (at_stateTasks t) (at_genBatch t) (at_genTrie t) (at_requested t)
    (at_done t) (at_res t).
Definition atSetNeedHeal (t : accountTask) (l : list bool) : accountTask :=
  mkAccountTask (at_id t) (at_Next t) (at_Last t) (at_SubTasks t) (at_pend t)
    (at_needCode t) (at_needState t) l (at_codeTasks t)
    (at_stateTasks t) (at_genBatch t) (at_genTrie t) (at_requested t)
    (at_done t) (at_res t).
Definition atSetCodeTasks (t : accountTask) (m : GoMap.t unit) : accountTask :=
  mkAccountTask (at_id t) (at_Next t) (at_Last t) (at_SubTasks t) (at_pend t)
    (at_needCode t) (at_needState t) (at_needHeal t) m
    (at_stateTasks t) (at_genBatch t) (at_genTrie t) (at_requested t)
    (at_done t) (at_res t).
Definition atSetStateTasks (t : accountTask) (m : GoMap.t Hash) : accountTask :=
  mkAccountTask (at_id t) (at_Next t) (at_Last t) (at_SubTasks t) (at_pend t)
    (at_needCode t) (at_needState t) (at_needHeal t) (at_codeTasks t)
    m (at_genBatch t) (at_genTrie t) (at_requested t) (at_done t) (at_res t).

Definition stSetRoot (t : storageTask) (r : Hash) : storageTask :=
  mkStorageTask (st_Next t) (st_Last t) r (st_genBatch t) (st_genTrie t)
    (st_requested t) (st_done t).
Definition stSetRequested (t : storageTask) (b : bool) : storageTask :=
  mkStorageTask (st_Next t) (st_Last t) (st_root t) (st_genBatch t)
    (st_genTrie t) b (st_done t).

(** ** Task ids *)

(** The retry loop that issues an id (lines 761-771, 1010-1020): draw
    until the value is non-zero and not a key of [used]. *)
Fixpoint drawTaskID {V} (used : GoMap.t V) (tape : list Z) : Result (Z * list Z) :=
  match tape with
  | [] => Stuck
  | r :: tape' =>
      if (r =? 0) || GoMap.mem r used then drawTaskID used tape'
      else Ok (r, tape')
  end.

(** ** Loading a checkpoint (lines 660-787) *)

(** A decoded storage task, with the empty batch and the stack trie the
    rebuild loop gives it (lines 691-705). *)
Definition thawStorageTask (sv : savedStorageTask) : storageTask :=
  mkStorageTask (sv_stNext sv) (sv_stLast sv) 0 [] NewStackTrie false false.

Fixpoint thawStorageTasks (s : Manager) (l : list savedStorageTask)
  : Manager * list ptr :=
  match l with
  | [] => (s, [])
  | sv :: l' =>
      let (s1, p) := allocStor s (thawStorageTask sv) in
      let (s2, ps) := thawStorageTasks s1 l' in
      (s2, p :: ps)
  end.

Fixpoint thawSubTaskItems (s : Manager) (l : list (Z * list savedStorageTask))
  : Manager * list (Z * list ptr) :=
  match l with
  | [] => (s, [])
  | (account, svs) :: l' =>
      let (s1, ps) := thawStorageTasks s svs in
      let (s2, rest) := thawSubTaskItems s1 l' in
      (s2, (account, ps) :: rest)
  end.

Definition thawSubTasks (s : Manager) (m : GoMap.t (list savedStorageTask))
  : Manager * GoMap.t (list ptr) :=
  match m with
  | None => (s, None)
  | Some l => let (s1, l') := thawSubTaskItems s l in (s1, Some l')
  end.

(** A decoded account task: the exported fields from the checkpoint, the
    zero value everywhere else (the id included), and the empty batch and
    the fresh stack trie of lines 680-689. *)
Definition thawAccountTask (s : Manager) (sv : savedAccountTask)
  : Manager * ptr :=
  let (s1, subs) := thawSubTasks s (sv_SubTasks sv) in
  allocAcct s1
    (mkAccountTask 0 (sv_Next sv) (sv_Last sv) subs 0 [] [] []
       GoMap.nil_map GoMap.nil_map [] NewStackTrie false false None).

Fixpoint thawTaskItems (s : Manager) (l : list (Z * savedAccountTask))
  : Manager * list (Z * ptr) :=
  match l with
  | [] => (s, [])
  | (k, sv) :: l' =>
      let (s1, p) := thawAccountTask s sv in
      let (s2, rest) := thawTaskItems s1 l' in
      (s2, (k, p) :: rest)
  end.

Definition thawTasks (s : Manager) (m : GoMap.t savedAccountTask)
  : Manager * GoMap.t ptr :=
  match m with
  | None => (s, None)
  | Some l => let (s1, l') := thawTaskItems s l in (s1, Some l')
  end.

(** The step of the fresh partition (lines 738-743). *)
Definition accountStep : Z := 2 ^ 256 / accountConcurrency - 1.

(** The loop of lines 744-786, from iteration [i] on. *)
Fixpoint freshAccountTasks (s : Manager) (next : Hash) (iters : list Z)
  : Result Manager :=
  match iters with
  | [] => Ok s
  | i :: iters' =>
      let last := if i =? accountConcurrency - 1 then MaxHash
                  else BigToHash (next + accountStep) in
      '(taskID, tape) <- drawTaskID (accountTasks (m_tasks s)) (m_rand s) ;;
      let s1 := setRand s tape in
      let (s2, p) := allocAcct s1
        (mkAccountTask taskID next last GoMap.make 0 [] [] []
           GoMap.nil_map GoMap.nil_map [] NewStackTrie false false None) in
      t <- addAccountTask (m_tasks s2) taskID p ;;
      freshAccountTasks (setTasks s2 t) (BigToHash (last + 1)) iters'
  end.

Definition accountIterations : list Z :=
  map Z.of_nat (seq 0 (Z.to_nat accountConcurrency)).

(** The counters as [json.Unmarshal] leaves them in the fields of
    [SyncProgress]: a byte counter is the float nearest to the number
    written in the status. *)
Definition readStats (st : Stats) : Stats :=
  mkStats (accountSynced st) (roundFloat64 (accountBytes st))
    (bytecodeSynced st) (roundFloat64 (bytecodeBytes st))
    (storageSynced st) (roundFloat64 (storageBytes st))
    (trienodeHealSynced st) (roundFloat64 (trienodeHealBytes st))
    (bytecodeHealSynced st) (roundFloat64 (bytecodeHealBytes st)).

(** [loadSyncStatus]. *)
Definition loadSyncStatus (s : Manager) : Result Manager :=
  match db_status (m_db s) with
  | Some (Some progress) =>
      let (s1, m) := thawTasks s (sp_Tasks progress) in
      let s2 := setTasks s1 (setAccountTasks (m_tasks s1) m) in
      let s3 := setSnapped s2 (GoMap.len (accountTasks (m_tasks s2)) =? 0) in
      Ok (setStats s3 (readStats (sp_stats progress)))
  | _ =>
      let s1 := setTasks s (setAccountTasks (m_tasks s) GoMap.nil_map) in
      let s2 := setStats s1 zeroStats in
      freshAccountTasks s2 0 accountIterations
  end.

(** [setRootHash] (lines 431-435); [sched] is the scheduler that
    [state.NewStateSync] builds for the root. *)
Definition setRootHash (s : Manager) (root : Hash) (sched : Sync)
  : Result Manager :=
  let s1 := mkManager (m_accts s) (m_stors s) (m_db s) (m_scheme s) (m_tasks s)
    (m_requesting s) (m_processing s) (m_retries s) root (m_snapped s)
    (Some sched) (m_rand s) (m_stats s) (m_stateWriter s) (m_healed s)
    (m_hasher s) in
  loadSyncStatus s1.

(** ** Forwarding an account task (lines 849-918) *)

(** Unsigned 64-bit addition. *)
Definition addU64 (a b : Z) : Z := (a + b) mod 2 ^ 64.

(** The persisting loop (lines 868-884), from position [i] on: the
    snapshot entries queued in [batch], the stack trie, the [genBatch] its
    writer fills, and the counter of account bytes that the [OnPut] hooks of
    the two batches add to, after it. *)
Fixpoint persistAccounts (s : Manager) (t : accountTask) (res : accountResponse)
  (i : nat) (hashes : list Hash) (batch : Batch) (genTrie : StackTrie)
  (genBatch : Batch) (size : Z) : Result (Batch * StackTrie * Batch * Z) :=
  match hashes with
  | [] => Ok (batch, genTrie, genBatch, size)
  | hash :: rest =>
      nc <- index (at_needCode t) i ;;
      ns <- (if nc then Ok true else index (at_needState t) i) ;;
      if ns then Ok (batch, genTrie, genBatch, size)
      else
        account <- index (ar_accounts res) i ;;
        slim <- SlimAccountRLP account ;;
        let batch' := batch ++ [WAccountSnapshot hash slim] in
        let size' := hookPuts (m_scheme s) size [WAccountSnapshot hash slim] in
        nh <- index (at_needHeal t) i ;;
        if nh then persistAccounts s t res (S i) rest batch' genTrie genBatch size'
        else
          match FullAccountRLP slim with
          | None => Panic Explicit
          | Some full =>
              let nodes :=
                nodeWrites 0 (updateNodes (m_hasher s) genTrie (hashBytes hash) full) in
              persistAccounts s t res (S i) rest batch'
                (trieUpdate (hashBytes hash) full genTrie)
                (genBatch ++ nodes) (hookPuts (m_scheme s) size' nodes)
          end
  end.

(** The marker loop (lines 893-898): the new [Next], and whether the loop
    ran to its end (it returns from the function otherwise). *)
Fixpoint advanceNext (t : accountTask) (i : nat) (hashes : list Hash)
  (next : Hash) : Result (Hash * bool) :=
  match hashes with
  | [] => Ok (next, true)
  | hash :: rest =>
      nc <- index (at_needCode t) i ;;
      ns <- (if nc then Ok true else index (at_needState t) i) ;;
      if ns then Ok (next, false)
      else advanceNext t (S i) rest (incHash hash)
  end.

Definition setAccountBytes (st : Stats) (size : Z) : Stats :=
  mkStats (accountSynced st) size
    (bytecodeSynced st) (bytecodeBytes st) (storageSynced st) (storageBytes st)
    (trienodeHealSynced st) (trienodeHealBytes st) (bytecodeHealSynced st)
    (bytecodeHealBytes st).

Definition addAccountSynced (st : Stats) (accounts : Z) : Stats :=
  mkStats (addU64 (accountSynced st) accounts) (accountBytes st)
    (bytecodeSynced st) (bytecodeBytes st) (storageSynced st) (storageBytes st)
    (trienodeHealSynced st) (trienodeHealBytes st) (bytecodeHealSynced st)
    (bytecodeHealBytes st).

(** Lines 904-906: the commit of the stack trie of a task that is done;
    the nodes go through the writer into [genBatch]. *)
Definition commitGenTrie (s : Manager) (t : accountTask) : Manager * accountTask :=
  if at_done t then
    let nodes := nodeWrites 0 (commitNodes (m_hasher s) (at_genTrie t)) in
    (setStats s
       (setAccountBytes (m_stats s)
          (hookPuts (m_scheme s) (accountBytes (m_stats s)) nodes)),
     atSetGenBatch (atSetGenTrie t (trieCommit (at_genTrie t)))
       (at_genBatch t ++ nodes))
  else (s, t).

(** Lines 908-913: [genBatch] is written to the store and reset once it is
    large, or when the task is done. *)
Definition flushGenBatch (s : Manager) (t : accountTask) : Manager * accountTask :=
  if (IdealBatchSize <? batchSize (m_scheme s) (at_genBatch t)) || at_done t
  then (setDb s (dbWriteBatch (m_db s) (at_genBatch t)), atSetGenBatch t [])
  else (s, t).

(** [forwardAccountTask]. *)
Definition forwardAccountTask (s : Manager) (task : ptr) : Result Manager :=
  t <- loadAcct s task ;;
  match at_res t with
  | None => Ok s
  | Some res =>
      let t1 := atSetRes t None in
      '(batch, genTrie, genBatch, size) <-
         persistAccounts s t1 res 0 (ar_hashes res) [] (at_genTrie t1)
           (at_genBatch t1) (accountBytes (m_stats s)) ;;
      let s1 := setDb s (dbWriteBatch (m_db s) batch) in
      let s2 := setStats s1
        (addAccountSynced (setAccountBytes (m_stats s1) size)
           (Z.of_nat (length (ar_accounts res)))) in
      let t2 := atSetGenBatch (atSetGenTrie t1 genTrie) genBatch in
      '(next, finished) <- advanceNext t2 0 (ar_hashes res) (at_Next t2) ;;
      let t3 := atSetNext t2 next in
      if finished then
        let t4 := atSetDone t3 (negb (ar_cont res)) in
        let (s3, t5) := commitGenTrie s2 t4 in
        let (s4, t6) := flushGenBatch s3 t5 in
        Ok (storeAcct s4 task t6)
      else Ok (storeAcct s2 task t3)
  end.

(** ** Integrating an account response (lines 1397-1491) *)

(** The overflow loop (lines 1413-1429), from position [i] on. [rest]
    is what is left of the range expression; [accounts[:i]] is taken within
    the length of [accounts]. *)
Fixpoint trimLoop (last : Hash) (i : nat) (rest : list Hash)
  (hashes : list Hash) (accounts : list StateAccount) (cont : bool)
  : Result (list Hash * list StateAccount * bool) :=
  match rest with
  | [] => Ok (hashes, accounts, cont)
  | hash :: rest' =>
      match hash ?= last with
      | Eq => trimLoop last (S i) rest' hashes accounts false
      | Gt =>
          if (length accounts <? i)%nat then Panic IndexOutOfRange
          else Ok (firstn i hashes, firstn i accounts, false)
      | Lt => trimLoop last (S i) rest' hashes accounts cont
      end
  end.

Definition trimOverflow (last : Hash) (hashes : list Hash)
  (accounts : list StateAccount) (cont : bool)
  : Result (list Hash * list StateAccount * bool) :=
  trimLoop last 0 hashes hashes accounts cont.

Fixpoint setRoots (s : Manager) (subtasks : list ptr) (root : Hash)
  : Result Manager :=
  match subtasks with
  | [] => Ok s
  | p :: rest =>
      st <- loadStor s p ;;
      setRoots (storeStor s p (stSetRoot st root)) rest root
  end.

(** The classification loop (lines 1442-1472), from position [i] on. The
    task under construction is threaded through and written back by the
    caller; [resumed] is the set of that name. *)
Fixpoint classifyAccounts (s : Manager) (t : accountTask) (resumed : list Hash)
  (i : nat) (hashes : list Hash) (accounts : list StateAccount)
  : Result (Manager * accountTask * list Hash) :=
  match accounts with
  | [] => Ok (s, t, resumed)
  | account :: rest =>
      t1 <-
        (if negb (bytesEqual (sa_CodeHash account) (hashBytes EmptyCodeHash))
            && negb (HasCodeWithPrefix (m_db s) (BytesToHash (sa_CodeHash account)))
         then
           m <- GoMap.set (BytesToHash (sa_CodeHash account)) tt (at_codeTasks t) ;;
           Ok (atSetPend
                 (atSetNeedCode (atSetCodeTasks t m)
                    (updNth (at_needCode t) i true))
                 (at_pend t + 1))
         else Ok t) ;;
      if sa_Root account =? EmptyRootHash then
        classifyAccounts s t1 resumed (S i) hashes rest
      else
        h <- index hashes i ;;
        if HasTrieNode (m_db s) h [] (sa_Root account) (m_scheme s) then
          classifyAccounts s t1 resumed (S i) hashes rest
        else
          '(s2, t2, resumed2) <-
            match GoMap.get h (at_SubTasks t1) with
            | Some subtasks =>
                s' <- setRoots s subtasks (sa_Root account) ;;
                Ok (s', atSetNeedHeal t1 (updNth (at_needHeal t1) i true),
                    h :: resumed)
            | None =>
                m <- GoMap.set h (sa_Root account) (at_stateTasks t1) ;;
                Ok (s, atSetStateTasks t1 m, resumed)
            end ;;
          let t3 := atSetPend
                      (atSetNeedState t2 (updNth (at_needState t2) i true))
                      (at_pend t2 + 1) in
          classifyAccounts s2 t3 resumed2 (S i) hashes rest
  end.

(** Lines 1476-1481: drop the sub-tasks that were not resumed. *)
Definition dropAborted (m : GoMap.t (list ptr)) (resumed : list Hash)
  : GoMap.t (list ptr) :=
  match m with
  | None => None
  | Some l => Some (filter (fun kv => existsb (Z.eqb (fst kv)) resumed) l)
  end.

(** [processAccountResponse]; the error it returns is always nil. *)
Definition processAccountResponse (s : Manager) (task : ptr)
  (hashes : list Hash) (accounts : list StateAccount) (cont : bool)
  : Result Manager :=
  t0 <- loadAcct s task ;;
  s1 <-
    match GoMap.get (at_id t0) (accountTasks (m_tasks s)) with
    | Some p =>
        tp <- loadAcct s p ;;
        Ok (storeAcct s p
              (atSetRes tp (Some (mkAccountResponse task hashes accounts cont))))
    | None => Ok s
    end ;;
  '(hashes', accounts', _) <- trimOverflow (at_Last t0) hashes accounts cont ;;
  t1 <- loadAcct s1 task ;;
  let n := length accounts' in
  let t2 :=
    atSetPend
      (atSetStateTasks
         (atSetCodeTasks
            (atSetNeedHeal
               (atSetNeedState
                  (atSetNeedCode t1 (repeat false n))
                  (repeat false n))
               (repeat false n))
            GoMap.make)
         GoMap.make)
      0 in
  '(s2, t3, resumed) <- classifyAccounts s1 t2 [] 0 hashes' accounts' ;;
  let t4 := atSetSubTasks t3 (dropAborted (at_SubTasks t3) resumed) in
  let s3 := storeAcct s2 task t4 in
  if at_pend t4 =? 0 then forwardAccountTask s3 task else Ok s3.

(** ** Completion (lines 530-570, 619-656, 791-811) *)

(** [commitHealer]. *)
Definition commitHealer (s : Manager) (force : bool) : Result Manager :=
  sched <- deref (m_scheduler s) ;;
  if negb force && (sc_memSize sched <? IdealBatchSize) then Ok s
  else
    Ok (setScheduler (setDb s (dbWriteBatch (m_db s) (sc_membatch sched)))
          (Some (mkSync (sc_pending sched) 0 []))).

Fixpoint cleanDone (s : Manager) (snapshot : list (Z * ptr)) : Result Manager :=
  match snapshot with
  | [] => Ok s
  | (taskID, _) :: rest =>
      match GoMap.get taskID (accountTasks (m_tasks s)) with
      | None => cleanDone s rest
      | Some p =>
          t <- loadAcct s p ;;
          if at_done t
          then cleanDone (setTasks s (deleteAccountTask (m_tasks s) taskID)) rest
          else cleanDone s rest
      end
  end.

(** [cleanAccountTasks]. *)
Definition cleanAccountTasks (s : Manager) : Result Manager :=
  if GoMap.len (accountTasks (m_tasks s)) =? 0 then Ok s
  else
    s1 <- cleanDone s (GoMap.items (accountTasks (m_tasks s))) ;;
    if GoMap.len (accountTasks (m_tasks s1)) =? 0
    then Ok (setSnapped s1 true)
    else Ok s1.

Fixpoint freezeStorageTasks (s : Manager) (l : list ptr)
  : Result (list savedStorageTask) :=
  match l with
  | [] => Ok []
  | p :: l' =>
      st <- loadStor s p ;;
      rest <- freezeStorageTasks s l' ;;
      Ok (mkSavedStorageTask (st_Next st) (st_Last st) :: rest)
  end.

Fixpoint freezeSubTaskItems (s : Manager) (l : list (Z * list ptr))
  : Result (list (Z * list savedStorageTask)) :=
  match l with
  | [] => Ok []
  | (account, ps) :: l' =>
      svs <- freezeStorageTasks s ps ;;
      rest <- freezeSubTaskItems s l' ;;
      Ok ((account, svs) :: rest)
  end.

Fixpoint freezeTaskItems (s : Manager) (l : list (Z * ptr))
  : Result (list (Z * savedAccountTask)) :=
  match l with
  | [] => Ok []
  | (k, p) :: l' =>
      t <- loadAcct s p ;;
      subs <- match at_SubTasks t with
              | None => Ok None
              | Some items =>
                  items' <- freezeSubTaskItems s items ;; Ok (Some items')
              end ;;
      rest <- freezeTaskItems s l' ;;
      Ok ((k, mkSavedAccountTask (at_Next t) (at_Last t) subs) :: rest)
  end.

(** Lines 621-636: the [genBatch] of every account task and of every
    storage sub-task is written to the store; none is reset. *)
Fixpoint writeStorageBatches (s : Manager) (l : list ptr) : Result Manager :=
  match l with
  | [] => Ok s
  | p :: l' =>
      st <- loadStor s p ;;
      writeStorageBatches (setDb s (dbWriteBatch (m_db s) (st_genBatch st))) l'
  end.

Fixpoint writeSubTaskBatches (s : Manager) (l : list (Z * list ptr))
  : Result Manager :=
  match l with
  | [] => Ok s
  | (_, ps) :: l' =>
      s1 <- writeStorageBatches s ps ;;
      writeSubTaskBatches s1 l'
  end.

Fixpoint writeTaskBatches (s : Manager) (l : list (Z * ptr)) : Result Manager :=
  match l with
  | [] => Ok s
  | (_, p) :: l' =>
      t <- loadAcct s p ;;
      let s1 := setDb s (dbWriteBatch (m_db s) (at_genBatch t)) in
      s2 <- writeSubTaskBatches s1 (GoMap.items (at_SubTasks t)) ;;
      writeTaskBatches s2 l'
  end.

(** What [json.Marshal] asks of the counters: it refuses an infinite
    float. *)
Definition finiteSize (z : Z) : bool := Z.abs z <? float64Inf.

Definition finiteSizes (st : Stats) : bool :=
  finiteSize (accountBytes st) && finiteSize (bytecodeBytes st)
  && finiteSize (storageBytes st) && finiteSize (trienodeHealBytes st)
  && finiteSize (bytecodeHealBytes st).

(** [saveSyncStatus]: after the batches, the exported fields of every
    account task and the counters go under the status key; an error of
    [json.Marshal] is a panic (lines 651-654). *)
Definition saveSyncStatus (s : Manager) : Result Manager :=
  s1 <- writeTaskBatches s (GoMap.items (accountTasks (m_tasks s))) ;;
  saved <- match accountTasks (m_tasks s1) with
           | None => Ok None
           | Some items => items' <- freezeTaskItems s1 items ;; Ok (Some items')
           end ;;
  if finiteSizes (m_stats s1) then
    Ok (setDb s1 (mkStore (Some (Some (mkSyncProgress saved (m_stats s1))))
                    (db_entries (m_db s1))))
  else Panic Explicit.

Fixpoint forwardAll (s : Manager) (l : list (Z * ptr)) : Result Manager :=
  match l with
  | [] => Ok s
  | (_, p) :: l' => s1 <- forwardAccountTask s p ;; forwardAll s1 l'
  end.

(** [SyncCompleted]: the deferred calls run last to first. *)
Definition SyncCompleted (s : Manager) : Result Manager :=
  s1 <- commitHealer s true ;;
  let s2 := if 0 <? ValueSize (m_stateWriter s1)
            then setStateWriter
                   (setDb s1 (dbWriteBatch (m_db s1) (m_stateWriter s1))) []
            else s1 in
  s3 <- forwardAll s2 (GoMap.items (accountTasks (m_tasks s2))) ;;
  s4 <- cleanAccountTasks s3 ;;
  saveSyncStatus s4.

(** ** Batch assembly (lines 574-616, 937-1227, 1243-1338) *)

(** What [GetNextBatch] and its two producers return; a nil pointer is
    [None]. *)
Record requestBatch : Type := mkRequestBatch {
  rb_accounts : list ptr;
  rb_codes : list Hash;
  rb_storages : option storageTaskBundle;
  rb_healtask : option healTask;
  rb_codetask : option healTask
}.

Definition slen {A} (l : list A) : Z := Z.of_nat (length l).

(** Lines 1254-1262.  A range over a map skips the entries deleted
    before it reaches them; the flag tells that the function returned from
    inside the loop. *)
Fixpoint retryAccounts (n : Z) (snapshot : list (Z * ptr)) (s : Manager)
  (accounts : list ptr) : Result (Manager * list ptr * bool) :=
  match snapshot with
  | [] => Ok (s, accounts, false)
  | (k, task) :: rest =>
      if negb (GoMap.mem k (accountTasks (m_retries s)))
      then retryAccounts n rest s accounts
      else if slen accounts =? n then Ok (s, accounts, true)
      else
        t <- loadAcct s task ;;
        req <- addAccountTask (m_requesting s) (at_id t) task ;;
        let s1 := setRequesting s req in
        let s2 := setRetries s1 (deleteAccountTask (m_retries s1) (at_id t)) in
        retryAccounts n rest s2 (accounts ++ [task])
  end.

(** Lines 1266-1274. *)
Fixpoint retryCodes (cap : Z) (snapshot : list (Z * unit)) (s : Manager)
  (codes : list Hash) : Result (Manager * list Hash * bool) :=
  match snapshot with
  | [] => Ok (s, codes, false)
  | (code, _) :: rest =>
      if negb (GoMap.mem code (codeTasks (m_retries s)))
      then retryCodes cap rest s codes
      else if cap <=? slen codes then Ok (s, codes, true)
      else
        req <- addCodeTask (m_requesting s) code ;;
        let s1 := setRequesting s req in
        let s2 := setRetries s1 (deleteCodeTask (m_retries s1) code) in
        retryCodes cap rest s2 (codes ++ [code])
  end.

Definition copyHealTask (id : Z) (task : healTask) : healTask :=
  mkHealTask id (ht_paths task) (ht_hashes task) (ht_pathsets task)
    (ht_task task) (ht_root task) (ht_byteCodeReq task).

(** Lines 1302-1334. *)
Fixpoint retryHealers (snapshot : list (Z * healTask)) (s : Manager)
  (healtask codetask : option healTask) (foundHealTask foundByteCodeTask : bool)
  : Result (Manager * option healTask * option healTask) :=
  match snapshot with
  | [] => Ok (s, healtask, codetask)
  | (id, task) :: rest =>
      if negb (GoMap.mem id (healer (m_retries s)))
      then retryHealers rest s healtask codetask foundHealTask foundByteCodeTask
      else
        '(s1, healtask1, found1) <-
          (if negb foundHealTask && negb (ht_byteCodeReq task) then
             req <- addHealerTask (m_requesting s) id task ;;
             Ok (setRetries (setRequesting s req)
                   (deleteHealerTask (m_retries s) id),
                 Some (copyHealTask id task), true)
           else Ok (s, healtask, foundHealTask)) ;;
        '(s2, codetask2, found2) <-
          (if negb foundByteCodeTask && ht_byteCodeReq task then
             req <- addHealerTask (m_requesting s1) id task ;;
             Ok (setRetries (setRequesting s1 req)
                   (deleteHealerTask (m_retries s1) id),
                 Some (copyHealTask id task), true)
           else Ok (s1, codetask, foundByteCodeTask)) ;;
        if found1 && found2 then Ok (s2, healtask1, codetask2)
        else retryHealers rest s2 healtask1 codetask2 found1 found2
  end.

(** [getBatchFromRetries]. *)
Definition getBatchFromRetries (s : Manager) (n : Z)
  : Result (Manager * requestBatch) :=
  if n <? 0 then Panic BadMakeCap
  else
    '(s1, accounts, returned) <-
      retryAccounts n (GoMap.items (accountTasks (m_retries s))) s [] ;;
    if returned then Ok (s1, mkRequestBatch accounts [] None None None)
    else
      let cap := n - slen accounts in
      '(s2, codes, returned) <-
        retryCodes cap (GoMap.items (codeTasks (m_retries s1))) s1 [] ;;
      if returned then Ok (s2, mkRequestBatch accounts codes None None None)
      else
        '(s3, storages) <-
          (if 0 <? GoMap.len (storageTasks (m_retries s2)) then
             b <- deref (GoMap.get 0 (storageTasks (m_retries s2))) ;;
             req <- addStorageTaskBundle (m_requesting s2) (sb_id b) b ;;
             Ok (setRetries (setRequesting s2 req)
                   (deleteStorageTaskBundle (m_retries s2) (sb_id b)),
                 Some b)
           else Ok (s2, None)) ;;
        b <- deref storages ;;
        if 0 <? slen accounts + slen codes + slen (sb_accounts b)
        then Ok (s3, mkRequestBatch accounts codes storages None None)
        else
          '(s4, healtask, codetask) <-
            (if 0 <? GoMap.len (healer (m_retries s3))
             then retryHealers (GoMap.items (healer (m_retries s3))) s3
                    None None false false
             else Ok (s3, None, None)) ;;
          Ok (s4, mkRequestBatch accounts codes storages healtask codetask).

(** Lines 948-964. The pointer under key [i] of the map is [task]
    itself, so the flag is set through [task]. *)
Fixpoint pickAccounts (n : Z) (snapshot : list (Z * ptr)) (s : Manager)
  (accounts : list ptr) : Result (Manager * list ptr * bool) :=
  match snapshot with
  | [] => Ok (s, accounts, false)
  | (_, task) :: rest =>
      if slen accounts =? n then Ok (s, accounts, true)
      else
        t <- loadAcct s task ;;
        if at_requested t then pickAccounts n rest s accounts
        else if at_id t =? 0 then pickAccounts n rest s accounts
        else
          let s1 := storeAcct s task (atSetRequested t true) in
          req <- addAccountTask (m_requesting s1) (at_id t) task ;;
          pickAccounts n rest (setRequesting s1 req) (accounts ++ [task])
  end.

(** Lines 974-983, for one account task. *)
Fixpoint drainCodes (cap : Z) (snapshot : list (Z * unit)) (s : Manager)
  (task : ptr) (codes : list Hash) : Result (Manager * list Hash * bool) :=
  match snapshot with
  | [] => Ok (s, codes, false)
  | (hash, _) :: rest =>
      t <- loadAcct s task ;;
      if negb (GoMap.mem hash (at_codeTasks t)) then drainCodes cap rest s task codes
      else
        let s1 := storeAcct s task
                    (atSetCodeTasks t (GoMap.delete hash (at_codeTasks t))) in
        let codes' := codes ++ [hash] in
        req <- addCodeTask (m_requesting s1) hash ;;
        let s2 := setTasks (setRequesting s1 req)
                    (deleteCodeTask (m_tasks s1) hash) in
        if cap <=? slen codes' then Ok (s2, codes', true)
        else drainCodes cap rest s2 task codes'
  end.

(** Lines 968-984. *)
Fixpoint pickCodes (cap : Z) (snapshot : list (Z * ptr)) (s : Manager)
  (codes : list Hash) : Result (Manager * list Hash * bool) :=
  match snapshot with
  | [] => Ok (s, codes, false)
  | (_, task) :: rest =>
      t <- loadAcct s task ;;
      if GoMap.len (at_codeTasks t) =? 0 then pickCodes cap rest s codes
      else
        '(s1, codes', returned) <-
          drainCodes cap (GoMap.items (at_codeTasks t)) s task codes ;;
        if returned then Ok (s1, codes', true)
        else pickCodes cap rest s1 codes'
  end.

(** Lines 1025-1036, for the sub-tasks of one account. *)
Fixpoint firstUnrequested (s : Manager) (subtasks : list ptr)
  : Result (option (ptr * storageTask)) :=
  match subtasks with
  | [] => Ok None
  | p :: rest =>
      st <- loadStor s p ;;
      if st_requested st then firstUnrequested s rest else Ok (Some (p, st))
  end.

(** Lines 1023-1040. *)
Fixpoint findSubTask (s : Manager) (items : list (Z * list ptr))
  : Result (option (Hash * ptr * storageTask)) :=
  match items with
  | [] => Ok None
  | (account, subtasks) :: rest =>
      r <- firstUnrequested s subtasks ;;
      match r with
      | Some (p, st) => Ok (Some (account, p, st))
      | None => findSubTask s rest
      end
  end.

(** Lines 1043-1052. *)
Fixpoint drainStateTasks (storageSets : Z) (items : list (Z * Hash))
  (m : GoMap.t Hash) (accounts roots : list Hash)
  : GoMap.t Hash * list Hash * list Hash :=
  match items with
  | [] => (m, accounts, roots)
  | (account, root) :: rest =>
      if negb (GoMap.mem account m)
      then drainStateTasks storageSets rest m accounts roots
      else
        let m' := GoMap.delete account m in
        let accounts' := accounts ++ [account] in
        let roots' := roots ++ [root] in
        if storageSets <=? slen accounts' then (m', accounts', roots')
        else drainStateTasks storageSets rest m' accounts' roots'
  end.

(** Lines 988-1071; [storages] is the named result, assigned anew in
    every iteration that gets past the first test. *)
Fixpoint pickStorages (snapshot : list (Z * ptr)) (s : Manager) (cap : Z)
  (storages : option storageTaskBundle)
  : Result (Manager * option storageTaskBundle) :=
  match snapshot with
  | [] => Ok (s, storages)
  | (_, task) :: rest =>
      t <- loadAcct s task ;;
      if (GoMap.len (at_SubTasks t) =? 0) && (GoMap.len (at_stateTasks t) =? 0)
      then pickStorages rest s cap storages
      else
        let cap1 := if maxRequestSize <? cap then maxRequestSize else cap in
        let cap2 := if cap1 <? minRequestSize then minRequestSize else cap1 in
        let storageSets := cap2 / 1024 in
        '(taskID, tape) <- drawTaskID (storageTasks (m_tasks s)) (m_rand s) ;;
        let s1 := setRand s tape in
        found <- findSubTask s1 (GoMap.items (at_SubTasks t)) ;;
        let '(s2, b) :=
          match found with
          | Some (account, p, st) =>
              (storeStor s1 p (stSetRequested st true),
               mkStorageTaskBundle taskID [account] [st_root st] (Some task)
                 (Some p) (st_Next st) (st_Last st))
          | None =>
              let '(m, accounts, roots) :=
                drainStateTasks storageSets (GoMap.items (at_stateTasks t))
                  (at_stateTasks t) [] [] in
              (storeAcct s1 task (atSetStateTasks t m),
               mkStorageTaskBundle taskID accounts roots (Some task) None 0 0)
          end in
        if slen (sb_accounts b) =? 0 then pickStorages rest s2 cap2 (Some b)
        else
          tk <- addStorageTaskBundle (m_tasks s2) taskID b ;;
          req <- addStorageTaskBundle (m_requesting s2) taskID b ;;
          let s3 := setRequesting (setTasks s2 tk) req in
          let cap3 := cap2 - slen (sb_accounts b) in
          if cap3 <=? 0 then Ok (s3, Some b)
          else pickStorages rest s3 cap3 (Some b)
  end.

Section BatchAssembly.

(** [StatesPerRequest], a constant of the package that is declared outside
    the two files. *)
Variable StatesPerRequest : Z.

(** The heal tail of [getBatchFromUnprocessed] (lines 1081-1226), which
    pulls the missing paths from the trie-sync scheduler: the manager after
    it and the two heal requests it built. *)
Variable healTail :
  Manager -> Z -> Result (Manager * option healTask * option healTask).

(** [getBatchFromUnprocessed]. *)
Definition getBatchFromUnprocessed (s : Manager) (n : Z) (withHealTasks : bool)
  : Result (Manager * requestBatch) :=
  if n <? 0 then Panic BadMakeCap
  else
    '(s1, accounts, returned) <-
      pickAccounts n (GoMap.items (accountTasks (m_tasks s))) s [] ;;
    if returned then Ok (s1, mkRequestBatch accounts [] None None None)
    else
      let cap := n - slen accounts in
      '(s2, codes, returned) <-
        pickCodes cap (GoMap.items (accountTasks (m_tasks s1))) s1 [] ;;
      if returned then Ok (s2, mkRequestBatch accounts codes None None None)
      else
        let cap := n - slen accounts - slen codes in
        '(s3, storages) <-
          pickStorages (GoMap.items (accountTasks (m_tasks s2))) s2 cap None ;;
        b <- deref storages ;;
        if 0 <? slen accounts + slen codes + slen (sb_accounts b)
        then Ok (s3, mkRequestBatch accounts codes storages None None)
        else if negb withHealTasks
        then Ok (s3, mkRequestBatch accounts codes storages None None)
        else
          '(s4, healtask, codetask) <- healTail s3 n ;;
          Ok (s4, mkRequestBatch accounts codes storages healtask codetask).

(** [GetNextBatch]; the error it returns is always nil. *)
Definition GetNextBatch (s : Manager) : Result (Manager * requestBatch) :=
  let cap := StatesPerRequest in
  '(s1, b) <- getBatchFromRetries s cap ;;
  storages <- deref (rb_storages b) ;;
  healtask <- deref (rb_healtask b) ;;
  codetask <- deref (rb_codetask b) ;;
  let nItems := slen (rb_accounts b) + slen (rb_codes b)
                + slen (sb_roots storages) + slen (ht_hashes healtask)
                + slen (ht_hashes codetask) in
  let cap := cap - nItems in
  if cap =? 0 then Ok (s1, b)
  else
    done <-
      (if GoMap.len (accountTasks (m_tasks s1)) =? 0
       then sched <- deref (m_scheduler s1) ;; Ok (sc_pending sched =? 0)
       else Ok false) ;;
    if (done : bool) then
      if nItems =? 0
      then s2 <- SyncCompleted s1 ;; Ok (s2, b)
      else Ok (s1, b)
    else
      let withHealTasks :=
        match rb_healtask b, rb_codetask b with
        | None, None => true
        | _, _ => false
        end in
      '(s2, nb) <- getBatchFromUnprocessed s1 cap withHealTasks ;;
      Ok (s2,
          mkRequestBatch (rb_accounts b ++ rb_accounts nb)
            (rb_codes b ++ rb_codes nb) (rb_storages nb)
            (if withHealTasks then rb_healtask nb else rb_healtask b)
            (if withHealTasks then rb_codetask nb else rb_codetask b)).

End BatchAssembly.

(** ** The error path (lines 1341-1375) *)

Fixpoint requeueAccounts (s : Manager) (accounts : list ptr) : Result Manager :=
  match accounts with
  | [] => Ok s
  | task :: rest =>
      t <- loadAcct s task ;;
      let s1 := setRequesting s (deleteAccountTask (m_requesting s) (at_id t)) in
      ret <- addAccountTask (m_retries s1) (at_id t) task ;;
      requeueAccounts (setRetries s1 ret) rest
  end.

Fixpoint requeueCodes (s : Manager) (codes : list Hash) : Result Manager :=
  match codes with
  | [] => Ok s
  | code :: rest =>
      let s1 := setRequesting s (deleteCodeTask (m_requesting s) code) in
      ret <- addCodeTask (m_retries s1) code ;;
      requeueCodes (setRetries s1 ret) rest
  end.

Definition requeueHealTask (s : Manager) (task : option healTask)
  : Result Manager :=
  match task with
  | None => Ok s
  | Some h =>
      ret <- addHealerTask (m_retries s) (ht_id h) h ;;
      let s1 := setRetries s ret in
      Ok (setRequesting s1 (deleteHealerTask (m_requesting s1) (ht_id h)))
  end.

(** [HandleRequestError]; the stream id and the error are only logged by
    the caller and play no part. *)
Definition HandleRequestError (s : Manager) (accounts : list ptr)
  (codes : list Hash) (storages : option storageTaskBundle)
  (healtask codetask : option healTask) : Result Manager :=
  s1 <- requeueAccounts s accounts ;;
  s2 <- requeueCodes s1 codes ;;
  s3 <-
    match storages with
    | None => Ok s2
    | Some b =>
        req <- addStorageTaskBundle (m_requesting s2) (sb_id b) b ;;
        let s' := setRequesting s2 req in
        Ok (setRetries s' (deleteStorageTaskBundle (m_retries s') (sb_id b)))
    end ;;
  s4 <- requeueHealTask s3 healtask ;;
  requeueHealTask s4 codetask.

(** ** The heal callback (lines 507-528) *)

(** A Go [error]; the only errors in reach of the callback are the
    decoder's. *)
Inductive error : Type := DecodeError.

(** [onHealState]: the manager after the call and the error returned. *)
Definition onHealState (s : Manager) (paths : list bytes) (value : bytes)
  : Result (Manager * option error) :=
  r <-
    (if (length paths =? 1)%nat then
       match decodeAccount value with
       | None => Ok (s, true)
       | Some account =>
           blob <- SlimAccountRLP account ;;
           let s1 := setStateWriter s
             (m_stateWriter s ++
                [WAccountSnapshot (BytesToHash (seg 0 paths)) blob]) in
           let h := m_healed s1 in
           Ok (setHealed s1
                 (mkHealed (addU64 (accountHealed h) 1)
                    (addSize (accountHealedBytes h) (1 + 32 + blen blob))
                    (storageHealed h) (storageHealedBytes h)), false)
       end
     else Ok (s, false)) ;;
  let '(s1, returned) := r in
  if (returned : bool) then Ok (s1, None)
  else
    let s2 :=
      if (length paths =? 2)%nat then
        let s' := setStateWriter s1
          (m_stateWriter s1 ++
             [WStorageSnapshot (BytesToHash (seg 0 paths))
                (BytesToHash (seg 1 paths)) value]) in
        let h := m_healed s' in
        setHealed s'
          (mkHealed (accountHealed h) (accountHealedBytes h)
             (addU64 (storageHealed h) 1)
             (addSize (storageHealedBytes h) (1 + 2 * 32 + blen value)))
      else s1 in
    let s3 :=
      if IdealBatchSize <? ValueSize (m_stateWriter s2)
      then setStateWriter
             (setDb s2 (dbWriteBatch (m_db s2) (m_stateWriter s2))) []
      else s2 in
    Ok (s3, None).

(** ** Block verify-and-insert (downloader.go, lines 236-284) *)

Section Downloader.

(** Blocks, headers and the chain are the collaborators' types; so are the
    errors they return. *)
Variables Block Header Chain Signature Err : Type.

Variable blockHeader : Block -> Header.
Variable GetCurrentCommitSig : Block -> bytes.
Variable LastCommitSignature : Header -> Signature.
Variable LastCommitBitmap : Header -> bytes.

(** [chain.ParseCommitSigAndBitmap]. *)
Variable ParseCommitSigAndBitmap : bytes -> Err + Signature * bytes.

(** The consensus engine and the chain, the latter changed by an insert. *)
Variable VerifyHeaderSignature :
  Chain -> Header -> Signature -> bytes -> option Err.
Variable VerifyHeader : Chain -> Header -> bool -> option Err.
Variable InsertChain : Chain -> list Block -> bool -> Chain * option Err.

(** The errors of [verifyAndInsertBlock]: the typed [sigVerifyErr] and the
    three wrapped ones. *)
Inductive insertError : Type :=
| parseCommitSigErr (e : Err)
| sigVerifyErr (e : Err)
| verifyHeaderErr (e : Err)
| insertChainErr (e : Err).

(** Lines 261-272: where the commit signature of a block comes from. *)
Definition commitSigFor (block : Block) (nextBlocks : list Block)
  : Err + Signature * bytes :=
  match nextBlocks with
  | next :: _ =>
      inr (LastCommitSignature (blockHeader next),
           LastCommitBitmap (blockHeader next))
  | [] => ParseCommitSigAndBitmap (GetCurrentCommitSig block)
  end.

(** [verifyAndInsertBlock]. *)
Definition verifyAndInsertBlock (bc : Chain) (block : Block)
  (nextBlocks : list Block) : Chain * option insertError :=
  match commitSigFor block nextBlocks with
  | inl e => (bc, Some (parseCommitSigErr e))
  | inr (sigBytes, bitmap) =>
      match VerifyHeaderSignature bc (blockHeader block) sigBytes bitmap with
      | Some e => (bc, Some (sigVerifyErr e))
      | None =>
          match VerifyHeader bc (blockHeader block) true with
          | Some e => (bc, Some (verifyHeaderErr e))
          | None =>
              match InsertChain bc [block] false with
              | (bc', Some e) => (bc', Some (insertChainErr e))
              | (bc', None) => (bc', None)
              end
          end
      end
  end.

(** The loop of [verifyAndInsertBlocks], from position [i] on; [blocks] is
    [blocks[i:]]. *)
Fixpoint verifyAndInsertFrom (bc : Chain) (i : Z) (blocks : list Block)
  : Chain * (Z * option insertError) :=
  match blocks with
  | [] => (bc, (i, None))
  | block :: rest =>
      match verifyAndInsertBlock bc block rest with
      | (bc', Some e) => (bc', (i, Some e))
      | (bc', None) => verifyAndInsertFrom bc' (i + 1) rest
      end
  end.

(** [verifyAndInsertBlocks]. *)
Definition verifyAndInsertBlocks (bc : Chain) (blocks : list Block)
  : Chain * (Z * option insertError) :=
  verifyAndInsertFrom bc 0 blocks.

(** The rule of the specification, by position: block [k] is checked
    against the last-commit fields of block [k+1] when there is one, and
    against its own commit signature otherwise. *)
Definition specCommitSig (blocks : list Block) (k : nat)
  : option (Err + Signature * bytes) :=
  match nth_error blocks k with
  | None => None
  | Some block =>
      match nth_error blocks (S k) with
      | Some next =>
          Some (inr (LastCommitSignature (blockHeader next),
                     LastCommitBitmap (blockHeader next)))
      | None => Some (ParseCommitSigAndBitmap (GetCurrentCommitSig block))
      end
  end.

(** The rule of the specification for a block that goes in, on the chain
    [bc] and with the commit signature [commit] it is to be checked
    against: the signature was there, the engine accepted the header
    signature and then the header, and the chain took the block. *)
Definition specGoesIn (bc : Chain) (block : Block)
  (commit : Err + Signature * bytes) (bc' : Chain) : Prop :=
  exists sig bitmap,
    commit = inr (sig, bitmap) /\
    VerifyHeaderSignature bc (blockHeader block) sig bitmap = None /\
    VerifyHeader bc (blockHeader block) true = None /\
    InsertChain bc [block] false = (bc', None).

(** The rule of the specification for the block that does not go in: the
    first of the four steps that fails gives the error its type,
    [sigVerifyErr] for the header signature and for nothing else, and only
    a failed insert may have touched the chain. *)
Definition specFirstFailure (bc : Chain) (block : Block)
  (commit : Err + Signature * bytes) (bc' : Chain) (e : insertError) : Prop :=
  match commit with
  | inl pe => e = parseCommitSigErr pe /\ bc' = bc
  | inr (sig, bitmap) =>
      match VerifyHeaderSignature bc (blockHeader block) sig bitmap with
      | Some ve => e = sigVerifyErr ve /\ bc' = bc
      | None =>
          match VerifyHeader bc (blockHeader block) true with
          | Some he => e = verifyHeaderErr he /\ bc' = bc
          | None =>
              exists ie,
                InsertChain bc [block] false = (bc', Some ie) /\
                e = insertChainErr ie
          end
      end
  end.

(** The chain after the first [k] blocks of a slice were handed to
    [InsertChain] one by one. *)
Definition chainAfter (bc : Chain) (blocks : list Block) (k : nat) : Chain :=
  fold_left (fun c block => fst (InsertChain c [block] false))
            (firstn k blocks) bc.

End Downloader.

(** ** Marking a task done (lines 437-439) *)

(** [taskDone]: the map read gives the nil pointer for an id that is not
    registered, and the assignment goes through it. *)
Definition taskDone (s : Manager) (taskID : Z) : Result Manager :=
  p <- deref (GoMap.get taskID (accountTasks (m_tasks s))) ;;
  t <- loadAcct s p ;;
  Ok (storeAcct s p (atSetDone t true)).

(** ** Cleaning the storage sub-tasks (lines 815-844) *)

(** Lines 819-824: the sub-tasks that are not done, in their order. *)
Fixpoint dropDone (s : Manager) (subtasks : list ptr) : Result (list ptr) :=
  match subtasks with
  | [] => Ok []
  | p :: rest =>
      st <- loadStor s p ;;
      rest' <- dropDone s rest ;;
      Ok (if st_done st then rest' else p :: rest')
  end.

(** Lines 830-834, from position [j] on. *)
Fixpoint clearNeedState (account : Hash) (j : nat) (hashes : list Hash)
  (needState : list bool) : Result (list bool) :=
  match hashes with
  | [] => Ok needState
  | hash :: rest =>
      if hash =? account then
        if (j <? length needState)%nat
        then clearNeedState account (S j) rest (updNth needState j false)
        else Panic IndexOutOfRange
      else clearNeedState account (S j) rest needState
  end.

(** The inner loop (lines 817-842) over the sub-task map of one account
    task.  The only key the body deletes is the one it is at, and the value
    it works on is the one the map holds when the loop gets there. *)
Fixpoint cleanSubTasks (s : Manager) (task : ptr)
  (snapshot : list (Z * list ptr)) : Result Manager :=
  match snapshot with
  | [] => Ok s
  | (account, _) :: rest =>
      t <- loadAcct s task ;;
      match GoMap.get account (at_SubTasks t) with
      | None => cleanSubTasks s task rest
      | Some subtasks =>
          left <- dropDone s subtasks ;;
          if (0 <? length left)%nat then
            m <- GoMap.set account left (at_SubTasks t) ;;
            cleanSubTasks (storeAcct s task (atSetSubTasks t m)) task rest
          else
            res <- deref (at_res t) ;;
            ns <- clearNeedState account 0 (ar_hashes res) (at_needState t) ;;
            let t1 :=
              atSetPend
                (atSetSubTasks (atSetNeedState t ns)
                   (GoMap.delete account (at_SubTasks t)))
                (at_pend t - 1) in
            let s1 := storeAcct s task t1 in
            s2 <- (if at_pend t1 =? 0 then forwardAccountTask s1 task
                   else Ok s1) ;;
            cleanSubTasks s2 task rest
      end
  end.

(** The outer loop (line 816). *)
Fixpoint cleanStorageLoop (s : Manager) (snapshot : list (Z * ptr))
  : Result Manager :=
  match snapshot with
  | [] => Ok s
  | (_, task) :: rest =>
      t <- loadAcct s task ;;
      s1 <- cleanSubTasks s task (GoMap.items (at_SubTasks t)) ;;
      cleanStorageLoop s1 rest
  end.

(** [cleanStorageTasks]. *)
Definition cleanStorageTasks (s : Manager) : Result Manager :=
  cleanStorageLoop s (GoMap.items (accountTasks (m_tasks s))).

(** ** Integrating a bytecode response (lines 1494-1559) *)

(** Lines 1530-1535: a delivered code against the accounts of the pending
    response, from position [j] on. *)
Fixpoint clearNeedCode (hash : Hash) (j : nat) (accounts : list StateAccount)
  (t : accountTask) : Result accountTask :=
  match accounts with
  | [] => Ok t
  | account :: rest =>
      nc <- index (at_needCode t) j ;;
      if nc && (hash =? BytesToHash (sa_CodeHash account))
      then clearNeedCode hash (S j) rest
             (atSetPend (atSetNeedCode t (updNth (at_needCode t) j false))
                (at_pend t - 1))
      else clearNeedCode hash (S j) rest t
  end.

(** The loop of lines 1521-1539, from position [i] on; a bytecode that
    was not delivered is the nil slice, [None]. *)
Fixpoint deliverCodes (i : nat) (hashes : list Hash)
  (bytecodes : list (option bytes)) (t : accountTask) (batch : Batch)
  (codes : Z) : Result (accountTask * Batch * Z) :=
  match hashes with
  | [] => Ok (t, batch, codes)
  | hash :: rest =>
      code <- index bytecodes i ;;
      match code with
      | None =>
          m <- GoMap.set hash tt (at_codeTasks t) ;;
          deliverCodes (S i) rest bytecodes (atSetCodeTasks t m) batch codes
      | Some c =>
          res <- deref (at_res t) ;;
          t1 <- clearNeedCode hash 0 (ar_accounts res) t ;;
          deliverCodes (S i) rest bytecodes t1 (batch ++ [WCode hash c])
            (addU64 codes 1)
      end
  end.

Definition addBytecodeStats (st : Stats) (written : Z) (codes : Z) : Stats :=
  mkStats (accountSynced st) (accountBytes st)
    (addU64 (bytecodeSynced st) codes) (addSize (bytecodeBytes st) written)
    (storageSynced st) (storageBytes st)
    (trienodeHealSynced st) (trienodeHealBytes st) (bytecodeHealSynced st)
    (bytecodeHealBytes st).

(** [processBytecodeResponse]; the error it returns is always nil. *)
Definition processBytecodeResponse (s : Manager) (task : ptr)
  (hashes : list Hash) (bytecodes : list (option bytes)) : Result Manager :=
  t <- loadAcct s task ;;
  '(t1, batch, codes) <- deliverCodes 0 hashes bytecodes t [] 0 ;;
  let s1 := storeAcct s task t1 in
  let s2 := setDb s1 (dbWriteBatch (m_db s1) batch) in
  let s3 := setStats s2
    (addBytecodeStats (m_stats s2) (ValueSize batch) codes) in
  if at_pend t1 =? 0 then forwardAccountTask s3 task else Ok s3.

(** ** The slot estimate (lines 1561-1575) *)

(** Modelled from the spec: [math.MaxBig256] is declared in the package
    common/math, which is not among the sources; the spec has [MaxHash] in
    its place. *)
Definition MaxBig256 : Z := MaxHash.

Inductive slotError : Type := lastHashEmpty | tooFewSlots.

(** [estimateRemainingSlots]: [hashes] is an [int]; the quotient of
    [big.Int.Div] is the Euclidean one, which for the positive divisor
    here is [Z.div]; the subtraction is the one of [uint64]. *)
Definition estimateRemainingSlots (hashes : Z) (last : Hash)
  : Z * option slotError :=
  if last =? 0 then (0, Some lastHashEmpty)
  else
    let space := MaxBig256 * hashes / last in
    if (0 <=? space) && (space <? 2 ^ 64)
    then ((space - hashes mod 2 ^ 64) mod 2 ^ 64, None)
    else (0, Some tooFewSlots).

(** ** The terms of the statements *)

(** The state accounts a Go program can hold: a 64-bit nonce, a balance
    that is not negative, a 32-byte root, and a balance and a code hash
    short enough for the 64-bit sizes of the codec. *)
Definition wellFormedAccount (a : StateAccount) : Prop :=
  0 <= sa_Nonce a < 2 ^ 64 /\
  0 <= sa_Balance a /\
  validHash (sa_Root a) /\
  blen (putint (sa_Balance a)) + blen (sa_CodeHash a) < 2 ^ 63.

(** A heal path as the scheduler hands it out: a string of nibbles. *)
Definition nibblePath (path : bytes) : Prop :=
  Forall (fun x => 0 <= x < 16) path.

(** The order of section 4.B on sync paths of one or two segments: first
    segments compare lexicographically; with equal first segments a path
    of one segment comes before a path of two; two paths of two segments
    compare by their second segments. *)
Definition sectionOrder (a b : SyncPath) : Prop :=
  bytesCompare (seg 0 a) (seg 0 b) = Lt \/
  (seg 0 a = seg 0 b /\
   ((length a = 1 /\ length b = 2)%nat \/
    ((length a = 2 /\ length b = 2)%nat /\
     bytesCompare (seg 1 a) (seg 1 b) = Lt))).

(** No request for an account-trie node has, as its only segment, the
    account segment of a request for a storage-trie node. *)
Definition noAccountStorageClash (syncPaths : list SyncPath) : Prop :=
  forall a p, In [a] syncPaths -> In p syncPaths -> length p = 2%nat ->
              seg 0 p <> a.

(** Storage requests of one account that follow one another share a path
    set: no path set of two or more elements comes right after a path set
    with the same first element. *)
Definition mergedPathSets (pathsets : list TrieNodePathSet) : Prop :=
  forall i p q,
    nth_error pathsets i = Some p ->
    nth_error pathsets (S i) = Some q ->
    (2 <= length q)%nat ->
    seg 0 p <> seg 0 q.

(** [Less] as a three-way comparison, and the relation the sort
    establishes between an element and every later one: the later one is
    not [Less] than it. *)
Definition syncCompare (a b : SyncPath) : comparison :=
  match bytesCompare (seg 0 a) (seg 0 b) with
  | Eq =>
      match Nat.compare (length a) (length b) with
      | Eq => if (length a =? 2)%nat then bytesCompare (seg 1 a) (seg 1 b) else Eq
      | c => c
      end
  | c => c
  end.

Definition notAfter (a b : SyncPath) : Prop := syncPathLess b a = false.

Definition entryNotAfter (x y : healEntry) : Prop :=
  notAfter (he_syncPath x) (he_syncPath y).

(** The intervals of the partition loop (lines 744-786) by themselves:
    what it assigns to [Next] and [Last], iteration after iteration. *)
Fixpoint freshIntervals (next : Hash) (iters : list Z) : list (Hash * Hash) :=
  match iters with
  | [] => []
  | i :: iters' =>
      let last := if i =? accountConcurrency - 1 then MaxHash
                  else BigToHash (next + accountStep) in
      (next, last) :: freshIntervals (BigToHash (last + 1)) iters'
  end.

(** Two states of a task with flag vectors of the same lengths. *)
Definition sameFlagLengths (t t' : accountTask) : Prop :=
  length (at_needCode t') = length (at_needCode t) /\
  length (at_needState t') = length (at_needState t) /\
  length (at_needHeal t') = length (at_needHeal t).

(** ** Sample inputs *)

(** A checkpoint with two account tasks, under the keys 5 and 6. *)
Definition sampleProgress : SyncProgress :=
  mkSyncProgress
    (Some [(5, mkSavedAccountTask 0 100 GoMap.nil_map);
           (6, mkSavedAccountTask 101 MaxHash GoMap.nil_map)])
    zeroStats.

(** A node generation for the examples: [Update] closes the leaf added
    before it into a node at the path of its key, and [Commit] writes a root
    node over the values of all the leaves; the length of the encoding
    stands for the hash. *)
Definition sampleHasher : Hasher :=
  mkHasher
    (fun t key value =>
       match rev (tr_leaves t) with
       | [] => []
       | (k, v) :: _ => [mkTrieNode k (blen v) v]
       end)
    (fun t =>
       [mkTrieNode [] (blen (concat (map snd (tr_leaves t))))
          (concat (map snd (tr_leaves t)))]).

(** A manager as [newFullStateDownloadManager] builds it over an empty
    store. *)
Definition sampleManager : Manager :=
  newFullStateDownloadManager (mkStore None []) HashScheme [7; 8; 9]
    sampleHasher.

(** An account without code and without storage. *)
Definition plainAccount : StateAccount :=
  mkStateAccount 1 1 EmptyRootHash (hashBytes EmptyCodeHash).

(** A manager in the middle of a sync: one account task for the interval
    [0, 100], registered under its id 7. *)
Definition sampleSyncing : Manager :=
  setTasks
    (setAccts sampleManager
       [mkAccountTask 7 0 100 GoMap.make 0 [] [] [] GoMap.nil_map GoMap.nil_map
          [] NewStackTrie true false None])
    (setAccountTasks newTasks (Some [(7, O)])).

(** A state account whose code hash is the empty slice. *)
Definition hashlessAccount : StateAccount :=
  mkStateAccount 0 0 EmptyRootHash [].

(** Three heal paths with their hashes: two nodes of the storage trie of
    the account whose key has the 64 nibbles 1, and a node of the account
    trie in between. *)
Definition sampleHealPaths : list bytes :=
  [repeat 1 64 ++ [3]; [5; 6]; repeat 1 64 ++ [2]].

Definition sampleHealHashes : list Hash := [10; 20; 30].

(** Two heal paths: an account-trie node 63 nibbles down, and the root
    of the storage trie of the account whose key bytes are the compact
    form of the former. *)
Definition deepAccountPath : bytes := repeat 0 63.
Definition clashingStoragePath : bytes := 1 :: repeat 0 63.

(** ** Further terms of the statements *)

(** Two states of an account task that differ at most in what a forward
    writes: [Next], [done], the stack trie with its batch and the pending
    response. *)
Definition sameWork (t t' : accountTask) : Prop :=
  at_id t' = at_id t /\ at_Last t' = at_Last t /\
  at_SubTasks t' = at_SubTasks t /\ at_pend t' = at_pend t /\
  at_needCode t' = at_needCode t /\ at_needState t' = at_needState t /\
  at_needHeal t' = at_needHeal t /\ at_codeTasks t' = at_codeTasks t /\
  at_stateTasks t' = at_stateTasks t /\ at_requested t' = at_requested t.

(** Two states of the manager with the same registries, storage tasks,
    scheduler, state writer and random tape. *)
Definition sameRegistries (s s' : Manager) : Prop :=
  m_tasks s' = m_tasks s /\ m_requesting s' = m_requesting s /\
  m_processing s' = m_processing s /\ m_retries s' = m_retries s /\
  m_stors s' = m_stors s /\ m_snapped s' = m_snapped s /\
  m_scheduler s' = m_scheduler s /\ m_stateWriter s' = m_stateWriter s /\
  m_rand s' = m_rand s /\ m_healed s' = m_healed s.


(** A byte counter as the code holds it: a whole number that is a finite
    float. *)
Definition isStorageSize (z : Z) : Prop :=
  roundFloat64 z = z /\ Z.abs z < float64Inf.

(** The byte counters of a status are numbers that the code can have
    written: floats. *)
Definition storageSizes (st : Stats) : Prop :=
  isStorageSize (accountBytes st) /\ isStorageSize (bytecodeBytes st) /\
  isStorageSize (storageBytes st) /\ isStorageSize (trienodeHealBytes st) /\
  isStorageSize (bytecodeHealBytes st).



(** Whether the account task registered under [k] is flagged done. *)
Definition isDone (s : Manager) (k : Z) : bool :=
  match GoMap.get k (accountTasks (m_tasks s)) with
  | Some p =>
      match loadAcct s p with
      | Ok t => at_done t
      | _ => false
      end
  | None => false
  end.

(** The number of flags set in a flag vector. *)
Definition countTrue (l : list bool) : Z :=
  Z.of_nat (length (filter (fun b => b) l)).

(** The code blobs of a bytecode response, paired with their hashes, in
    order; a missing one is skipped. *)
Fixpoint codeWrites (hashes : list Hash) (bytecodes : list (option bytes))
  : Batch :=
  match hashes, bytecodes with
  | hash :: hs, Some code :: bs => WCode hash code :: codeWrites hs bs
  | _ :: hs, None :: bs => codeWrites hs bs
  | _, _ => []
  end.

(** A flag vector and a later state of it in which flags were cleared and
    none was set. *)
Definition flagsOnlyCleared (l l' : list bool) : Prop :=
  length l' = length l /\
  forall k, nth_error l' k = Some true -> nth_error l k = Some true.

(** A flag vector with no flag set from position [i] on. *)
Definition clearFrom (i : nat) (l : list bool) : Prop :=
  forall k, (i <= k)%nat -> nth_error l k <> Some true.

(** The invariant of the classification loop (lines 1442-1472) at position
    [i] of [n]: the flag vectors have length [n] and no flag from [i] on,
    the counter of pending work is the number of code and storage flags,
    and a heal flag is set only where the storage flag is. *)
Definition classified (n i : nat) (t : accountTask) : Prop :=
  length (at_needCode t) = n /\ length (at_needState t) = n /\
  length (at_needHeal t) = n /\
  clearFrom i (at_needCode t) /\ clearFrom i (at_needState t) /\
  clearFrom i (at_needHeal t) /\
  at_pend t = countTrue (at_needCode t) + countTrue (at_needState t) /\
  forall k, nth_error (at_needHeal t) k = Some true ->
            nth_error (at_needState t) k = Some true.

(** A key that has moved from one registry map to another: it is in the
    destination and no longer in the source. *)
Definition movedTo {V} (dst src : GoMap.t V) (k : Z) : Prop :=
  GoMap.mem k dst = true /\ GoMap.mem k src = false.

(** A later state of the two heaps in which tasks were only added. *)
Definition heapExt (s s' : Manager) : Prop :=
  (exists e, m_accts s' = m_accts s ++ e) /\
  (exists e, m_stors s' = m_stors s ++ e).

Section ChainInserts.

Variables Block Chain Err : Type.
Variable InsertChain : Chain -> list Block -> bool -> Chain * option Err.

(** The chain after the blocks were handed to [InsertChain] one by one. *)
Definition insertAll (bc : Chain) (blocks : list Block) : Chain :=
  fold_left (fun c block => fst (InsertChain c [block] false)) blocks bc.

End ChainInserts.

(** An account that needs neither code nor storage retrieval: its code
    hash and its root are the empty ones. *)
Definition plain (a : StateAccount) : Prop :=
  sa_CodeHash a = hashBytes EmptyCodeHash /\ sa_Root a = EmptyRootHash.

(** The sub-tasks left for an account after a cleanup: there is at least
    one, and none is flagged done. *)
Definition pendingChunks (s : Manager) (subtasks : list ptr) : Prop :=
  subtasks <> [] /\
  Forall (fun q => exists st, loadStor s q = Ok st /\ st_done st = false)
         subtasks.

(** The entry of an account in the sub-task map of a task is either absent
    or holds pending chunks only. *)
Definition entryClean (s : Manager) (t : accountTask) (account : Hash) : Prop :=
  match GoMap.get account (at_SubTasks t) with
  | None => True
  | Some subtasks => pendingChunks s subtasks
  end.

(** ** Further sample inputs *)

(** An account response with two plain accounts, and the manager of
    [sampleSyncing] with that response pending on its task, every flag
    clear. *)
Definition sampleResponse : accountResponse :=
  mkAccountResponse O [3; 50] [plainAccount; plainAccount] true.

Definition sampleFilled : Manager :=
  setAccts sampleSyncing
    [mkAccountTask 7 0 100 GoMap.make 0 [false; false] [false; false]
       [false; false] GoMap.make GoMap.make [] NewStackTrie true false
       (Some sampleResponse)].



(** The manager of [sampleSyncing] with a response pending on its task:
    two accounts with the same contract code (a code hash of 32 bytes
    two), both waiting for it. *)
Definition contractAccount : StateAccount :=
  mkStateAccount 1 1 EmptyRootHash (repeat 2 32).

Definition contractCodeHash : Hash := BytesToHash (sa_CodeHash contractAccount).

Definition sampleAwaitingCode : Manager :=
  setAccts sampleSyncing
    [mkAccountTask 7 0 100 GoMap.make 2 [true; true] [false; false]
       [false; false] GoMap.make GoMap.make [] NewStackTrie true false
       (Some (mkAccountResponse O [3; 50] [contractAccount; contractAccount]
                true))].

(** A bytecode response to two requested hashes: the code of
    [contractAccount], and nothing for the other hash. *)
Definition sampleCodeHashes : list Hash := [contractCodeHash; 77].
Definition sampleBytecodes : list (option bytes) := [Some [96; 0]; None].

(** A checkpoint with a large contract in progress: one account task
    with two storage sub-tasks for the account 40. *)
Definition sampleProgressSub : SyncProgress :=
  mkSyncProgress
    (Some [(5, mkSavedAccountTask 0 100
                 (Some [(40, [mkSavedStorageTask 0 9;
                              mkSavedStorageTask 10 MaxHash])]));
           (6, mkSavedAccountTask 101 MaxHash GoMap.nil_map)])
    (mkStats 1 2 3 4 5 6 7 8 9 10).

(** Four sync paths: an account-trie node, two storage-trie nodes of the
    account with the same key, and another account-trie node. *)
Definition sampleSyncPaths : list SyncPath :=
  [[[1]]; [[1]; [7]]; [[1]; [8]]; [[2]]].

(** A random tape with sixteen values that are not zero. *)
Definition sampleTape : list Z :=
  [11; 12; 13; 14; 15; 16; 17; 18; 19; 20; 21; 22; 23; 24; 25; 26].

(** A manager with two account tasks, registered under their ids 7 and 8,
    neither requested yet. *)
Definition sampleTwoTasks : Manager :=
  setTasks
    (setAccts sampleManager
       [mkAccountTask 7 0 100 GoMap.make 0 [] [] [] GoMap.nil_map GoMap.nil_map
          [] NewStackTrie false false None;
        mkAccountTask 8 101 MaxHash GoMap.make 0 [] [] [] GoMap.nil_map
          GoMap.nil_map [] NewStackTrie false false None])
    (setAccountTasks newTasks (Some [(7, O); (8, 1%nat)])).

(** A chain of block numbers with an engine that rejects the signature of
    block 13 and an insert that always succeeds. *)
Definition sampleVerifySig (bc : list Z) (header : Z) (sig : unit)
  (bitmap : bytes) : option unit :=
  if header =? 13 then Some tt else None.

Definition sampleInsert (bc : list Z) (blocks : list Z) (verify : bool)
  : list Z * option unit :=
  (bc ++ blocks, None).

Definition sampleBlocks : list Z := [1; 2; 13; 4].

(** A manager with one account task whose pending response holds a large
    contract, account 40, split into two storage sub-tasks, the first of
    them done. *)
Definition sampleChunked : Manager :=
  setStors
    (setAccts sampleSyncing
       [mkAccountTask 7 0 100 (Some [(40, [O; 1%nat])]) 1 [false] [true] [true]
          GoMap.make GoMap.make [] NewStackTrie true false
          (Some (mkAccountResponse O [40] [contractAccount] false))])
    [mkStorageTask 0 9 5 [] NewStackTrie true true;
     mkStorageTask 10 MaxHash 5 [] NewStackTrie true false].

(** The manager of [sampleFilled] at the end of a sync: the scheduler has
    one node buffered and nothing pending, and a healed storage slot waits
    in the state writer. *)
Definition sampleFinishing : Manager :=
  setStateWriter
    (setScheduler sampleFilled (Some (mkSync 0 40 [WTrieNode 0 [] 9 [1; 2]])))
    [WStorageSnapshot 1 2 [3]].

(** The manager of [sampleTwoTasks] after both of its account tasks
    failed and were queued for a retry. *)
Definition sampleRetrying : Manager :=
  setRetries sampleTwoTasks
    (setAccountTasks newTasks (Some [(7, O); (8, 1%nat)])).

(** * Properties *)

Unset Implicit Arguments.

(** ** Outcomes and maps *)

Lemma bind_Ok_inv {A B} (r : Result A) (k : A -> Result B) (b : B) :
  Go.bind r k = Ok b -> exists a, r = Ok a /\ k a = Ok b.
Proof.
  destruct r as [a | p | ]; simpl; intros H; try discriminate.
  exists a; split; [reflexivity | exact H].
Qed.

Lemma bind_Stuck_inv {A B} (r : Result A) (k : A -> Result B) :
  Go.bind r k = Stuck -> r = Stuck \/ exists a, r = Ok a /\ k a = Stuck.
Proof.
  destruct r as [a | p | ]; simpl; intros H; try discriminate.
  - right; exists a; split; [reflexivity | exact H].
  - left; reflexivity.
Qed.

Lemma deref_not_Stuck {A} (o : option A) : deref o <> Stuck.
Proof. destruct o; discriminate. Qed.

Lemma set_not_Stuck {V} k (v : V) m : GoMap.set k v m <> Stuck.
Proof. destruct m; discriminate. Qed.

Lemma find_put_same {V} k (v : V) l : GoMap.find k (GoMap.put k v l) = Some v.
Proof.
  induction l as [| [k' v'] l IH]; simpl.
  - rewrite Z.eqb_refl; reflexivity.
  - destruct (k =? k') eqn:E; simpl.
    + rewrite Z.eqb_refl; reflexivity.
    + rewrite E; exact IH.
Qed.

Lemma find_put_other {V} k k' (v : V) l :
  k <> k' -> GoMap.find k (GoMap.put k' v l) = GoMap.find k l.
Proof.
  intros Hne; induction l as [| [k0 v0] l IH]; simpl.
  - destruct (k =? k') eqn:E; [apply Z.eqb_eq in E; contradiction | reflexivity].
  - destruct (k' =? k0) eqn:E0; simpl.
    + apply Z.eqb_eq in E0; subst k0.
      destruct (k =? k') eqn:E; [apply Z.eqb_eq in E; contradiction | reflexivity].
    + destruct (k =? k0); [reflexivity | exact IH].
Qed.

Lemma find_remove_same {V} k (l : list (Z * V)) :
  GoMap.find k (GoMap.remove k l) = None.
Proof.
  induction l as [| [k' v'] l IH]; simpl; [reflexivity |].
  destruct (k =? k') eqn:E; simpl; [exact IH | rewrite E; exact IH].
Qed.

Lemma find_remove_other {V} k k' (l : list (Z * V)) :
  k <> k' -> GoMap.find k (GoMap.remove k' l) = GoMap.find k l.
Proof.
  intros Hne; induction l as [| [k0 v0] l IH]; simpl; [reflexivity |].
  destruct (k' =? k0) eqn:E0; simpl.
  - apply Z.eqb_eq in E0; subst k0.
    destruct (k =? k') eqn:E; [apply Z.eqb_eq in E; contradiction | exact IH].
  - destruct (k =? k0); [reflexivity | exact IH].
Qed.

Lemma get_set_same {V} k (v : V) m m' :
  GoMap.set k v m = Ok m' -> GoMap.get k m' = Some v.
Proof.
  destruct m as [l |]; simpl; intros H; inversion H; subst.
  apply find_put_same.
Qed.

Lemma get_delete_same {V} k (m : GoMap.t V) : GoMap.get k (GoMap.delete k m) = None.
Proof. destruct m as [l |]; simpl; [apply find_remove_same | reflexivity]. Qed.

(** ** C9: the request-sizing constants *)

(** C9 (as the code has it): [maxRequestSize] is 512 KiB,
    [maxCodeRequestCount] is 84, that is four times the truncated quotient
    of 512 KiB by 24 KiB, and [maxTrieRequestCount] is 1024. *)
Theorem C9_request_sizing_constants :
  maxRequestSize = 512 * 1024 /\
  maxCodeRequestCount = 84 /\
  maxCodeRequestCount = (maxRequestSize / (24 * 1024)) * 4 /\
  maxTrieRequestCount = 1024.
Proof. repeat split; reflexivity. Qed.

(** C9, as stated, fails: [maxCodeRequestCount] is 84, not 85. *)
Lemma C9_maxCodeRequestCount_is_not_85 :
  maxCodeRequestCount = 84 /\ maxCodeRequestCount <> 85.
Proof. split; [reflexivity | vm_compute; discriminate]. Qed.

(** ** C1: batch assembly *)

Lemma retryAccounts_keeps_bundles n snapshot :
  forall s accounts s' accounts' returned,
    retryAccounts n snapshot s accounts = Ok (s', accounts', returned) ->
    storageTasks (m_retries s') = storageTasks (m_retries s).
Proof.
  induction snapshot as [| [k task] rest IH]; simpl; intros s accounts s' accounts' returned H.
  - inversion H; reflexivity.
  - destruct (negb (GoMap.mem k (accountTasks (m_retries s)))); [eauto |].
    destruct (slen accounts =? n); [inversion H; reflexivity |].
    apply bind_Ok_inv in H; destruct H as [t [_ H]].
    apply bind_Ok_inv in H; destruct H as [req [_ H]].
    apply IH in H; exact H.
Qed.

Lemma retryAccounts_not_Stuck n snapshot :
  forall s accounts, retryAccounts n snapshot s accounts <> Stuck.
Proof.
  induction snapshot as [| [k task] rest IH]; simpl; intros s accounts H; [discriminate |].
  destruct (negb (GoMap.mem k (accountTasks (m_retries s)))); [eapply IH; eauto |].
  destruct (slen accounts =? n); [discriminate |].
  apply bind_Stuck_inv in H; destruct H as [H | [t [_ H]]].
  - unfold loadAcct in H; eapply deref_not_Stuck; eauto.
  - apply bind_Stuck_inv in H; destruct H as [H | [req [_ H]]].
    + unfold addAccountTask in H.
      apply bind_Stuck_inv in H; destruct H as [H | [m [_ H]]]; [| discriminate].
      eapply set_not_Stuck; eauto.
    + eapply IH; eauto.
Qed.

Lemma retryCodes_keeps_bundles cap snapshot :
  forall s codes s' codes' returned,
    retryCodes cap snapshot s codes = Ok (s', codes', returned) ->
    storageTasks (m_retries s') = storageTasks (m_retries s).
Proof.
  induction snapshot as [| [code u] rest IH]; simpl; intros s codes s' codes' returned H.
  - inversion H; reflexivity.
  - destruct (negb (GoMap.mem code (codeTasks (m_retries s)))); [eauto |].
    destruct (cap <=? slen codes); [inversion H; reflexivity |].
    apply bind_Ok_inv in H; destruct H as [req [_ H]].
    apply IH in H; exact H.
Qed.

Lemma retryCodes_not_Stuck cap snapshot :
  forall s codes, retryCodes cap snapshot s codes <> Stuck.
Proof.
  induction snapshot as [| [code u] rest IH]; simpl; intros s codes H; [discriminate |].
  destruct (negb (GoMap.mem code (codeTasks (m_retries s)))); [eapply IH; eauto |].
  destruct (cap <=? slen codes); [discriminate |].
  apply bind_Stuck_inv in H; destruct H as [H | [req [_ H]]].
  - unfold addCodeTask in H.
    apply bind_Stuck_inv in H; destruct H as [H | [m [_ H]]]; [| discriminate].
    eapply set_not_Stuck; eauto.
  - eapply IH; eauto.
Qed.

(** Without a bundle under key 0 of the retry registry, the retry producer
    panics or hands back a nil [storages]. *)
Lemma getBatchFromRetries_without_bundle (s : Manager) (n : Z) :
  GoMap.get 0 (storageTasks (m_retries s)) = None ->
  faults (getBatchFromRetries s n) \/
  exists s' b, getBatchFromRetries s n = Ok (s', b) /\ rb_storages b = None.
Proof.
  intros Hnone. unfold getBatchFromRetries.
  destruct (n <? 0); [left; eexists; reflexivity |].
  destruct (retryAccounts n (GoMap.items (accountTasks (m_retries s))) s [])
    as [[[s1 accounts] returned] | p | ] eqn:E1; simpl.
  2: left; eexists; reflexivity.
  2: exfalso; eapply retryAccounts_not_Stuck; eauto.
  destruct returned; [right; eexists; eexists; split; reflexivity |].
  pose proof (retryAccounts_keeps_bundles _ _ _ _ _ _ _ E1) as K1.
  destruct (retryCodes (n - slen accounts) (GoMap.items (codeTasks (m_retries s1))) s1 [])
    as [[[s2 codes] returned] | p | ] eqn:E2; simpl.
  2: left; eexists; reflexivity.
  2: exfalso; eapply retryCodes_not_Stuck; eauto.
  destruct returned; [right; eexists; eexists; split; reflexivity |].
  pose proof (retryCodes_keeps_bundles _ _ _ _ _ _ _ E2) as K2.
  rewrite K2, K1, Hnone.
  destruct (0 <? GoMap.len (storageTasks (m_retries s))); simpl;
    left; eexists; reflexivity.
Qed.

(** C1 (what the code does): whenever the retry registry holds no storage
    bundle under key 0 - as in a freshly built manager, and as long as the
    ids issued are non-zero - [GetNextBatch] does not return: it ends in a
    run-time panic. *)
Theorem C1_GetNextBatch_panics_without_retry_bundle
  (StatesPerRequest : Z)
  (healTail : Manager -> Z -> Result (Manager * option healTask * option healTask))
  (s : Manager) :
  GoMap.get 0 (storageTasks (m_retries s)) = None ->
  faults (GetNextBatch StatesPerRequest healTail s).
Proof.
  intros Hnone. unfold GetNextBatch.
  destruct (getBatchFromRetries_without_bundle s StatesPerRequest Hnone)
    as [[p Hp] | [s' [b [Hb Hst]]]].
  - rewrite Hp; simpl; eexists; reflexivity.
  - rewrite Hb; simpl. rewrite Hst; simpl. eexists; reflexivity.
Qed.

Lemma C1_fresh_manager_witness :
  GoMap.get 0 (storageTasks (m_retries
     (newFullStateDownloadManager (mkStore None []) HashScheme [7; 8; 9] sampleHasher))) = None /\
  faults (GetNextBatch 100 (fun s _ => Ok (s, None, None))
            (newFullStateDownloadManager (mkStore None []) HashScheme [7; 8; 9] sampleHasher)).
Proof.
  split; [reflexivity |].
  apply C1_GetNextBatch_panics_without_retry_bundle; reflexivity.
Defined.

(** ** C2: the error path *)

Lemma requeueHealTask_keeps_bundles s task s' :
  requeueHealTask s task = Ok s' ->
  storageTasks (m_requesting s') = storageTasks (m_requesting s) /\
  storageTasks (m_retries s') = storageTasks (m_retries s).
Proof.
  unfold requeueHealTask. destruct task as [h |]; intros H.
  - apply bind_Ok_inv in H; destruct H as [ret [Hret H]].
    inversion H; subst; clear H. simpl.
    unfold addHealerTask in Hret.
    apply bind_Ok_inv in Hret; destruct Hret as [m [_ Hm]].
    inversion Hm; subst; simpl. split; reflexivity.
  - inversion H; subst; split; reflexivity.
Qed.

(** C2 (what the code does with the storage bundle): after
    [HandleRequestError] the bundle of the failed batch is registered in
    [requesting] and has no entry in [retries] - the two registries are
    swapped with respect to the other four kinds. *)
Theorem C2_HandleRequestError_leaves_bundle_in_requesting
  (s : Manager) (accounts : list ptr) (codes : list Hash)
  (b : storageTaskBundle) (healtask codetask : option healTask) (s' : Manager) :
  HandleRequestError s accounts codes (Some b) healtask codetask = Ok s' ->
  GoMap.get (sb_id b) (storageTasks (m_requesting s')) = Some b /\
  GoMap.get (sb_id b) (storageTasks (m_retries s')) = None.
Proof.
  unfold HandleRequestError. intros H.
  apply bind_Ok_inv in H; destruct H as [s1 [_ H]].
  apply bind_Ok_inv in H; destruct H as [s2 [_ H]].
  apply bind_Ok_inv in H; destruct H as [s3 [H3 H]].
  apply bind_Ok_inv in H; destruct H as [s4 [H4 H5]].
  apply requeueHealTask_keeps_bundles in H4; destruct H4 as [Q4 R4].
  apply requeueHealTask_keeps_bundles in H5; destruct H5 as [Q5 R5].
  rewrite Q5, Q4, R5, R4.
  apply bind_Ok_inv in H3; destruct H3 as [req [Hreq H3]].
  inversion H3; subst; clear H3. simpl.
  unfold addStorageTaskBundle in Hreq.
  apply bind_Ok_inv in Hreq; destruct Hreq as [m [Hm Hreq]].
  inversion Hreq; subst; simpl.
  split; [eapply get_set_same; eauto | apply get_delete_same].
Qed.

Lemma C2_bundle_witness :
  exists s',
    HandleRequestError (newFullStateDownloadManager (mkStore None []) HashScheme [] sampleHasher)
      [] [] (Some (mkStorageTaskBundle 9 [1] [2] None None 0 0)) None None = Ok s' /\
    GoMap.get 9 (storageTasks (m_requesting s')) =
      Some (mkStorageTaskBundle 9 [1] [2] None None 0 0) /\
    GoMap.get 9 (storageTasks (m_retries s')) = None.
Proof.
  eexists. split; [reflexivity |].
  apply (C2_HandleRequestError_leaves_bundle_in_requesting
           (newFullStateDownloadManager (mkStore None []) HashScheme [] sampleHasher)
           [] [] (mkStorageTaskBundle 9 [1] [2] None None 0 0) None None).
  reflexivity.
Defined.

Lemma mem_set {V} k k' (v : V) m m' :
  GoMap.set k' v m = Ok m' ->
  GoMap.mem k m' = (k =? k') || GoMap.mem k m.
Proof.
  destruct m as [l |]; simpl; intros H; inversion H; subst; clear H.
  unfold GoMap.mem, GoMap.get; simpl.
  destruct (k =? k') eqn:E.
  - apply Z.eqb_eq in E; subst. rewrite find_put_same; reflexivity.
  - apply Z.eqb_neq in E. rewrite find_put_other by exact E. reflexivity.
Qed.

Lemma mem_delete {V} k k' (m : GoMap.t V) :
  GoMap.mem k (GoMap.delete k' m) = negb (k =? k') && GoMap.mem k m.
Proof.
  destruct m as [l |]; unfold GoMap.mem, GoMap.get; simpl.
  - destruct (k =? k') eqn:E.
    + apply Z.eqb_eq in E; subst. rewrite find_remove_same; reflexivity.
    + apply Z.eqb_neq in E. rewrite find_remove_other by exact E. reflexivity.
  - destruct (k =? k'); reflexivity.
Qed.

(** The sibling path: a code hash of the failed batch does move from
    [requesting] to [retries]. *)
Lemma requeueCodes_keeps_moved codes :
  forall s s' code,
    requeueCodes s codes = Ok s' ->
    GoMap.mem code (codeTasks (m_retries s)) = true ->
    GoMap.mem code (codeTasks (m_requesting s)) = false ->
    GoMap.mem code (codeTasks (m_retries s')) = true /\
    GoMap.mem code (codeTasks (m_requesting s')) = false.
Proof.
  induction codes as [| c rest IH]; simpl; intros s s' code H Hin Hout.
  - inversion H; subst; split; assumption.
  - apply bind_Ok_inv in H; destruct H as [ret [Hret H]].
    eapply IH; [exact H | |]; simpl.
    + unfold addCodeTask in Hret.
      apply bind_Ok_inv in Hret; destruct Hret as [m [Hm Hret]].
      inversion Hret; subst; simpl.
      rewrite (mem_set _ _ _ _ _ Hm). simpl in Hin |- *. rewrite Hin.
      apply orb_true_r.
    + rewrite mem_delete, Hout. apply andb_false_r.
Qed.

Lemma requeueCodes_moves_codes codes :
  forall s s' code,
    requeueCodes s codes = Ok s' ->
    In code codes ->
    GoMap.mem code (codeTasks (m_retries s')) = true /\
    GoMap.mem code (codeTasks (m_requesting s')) = false.
Proof.
  induction codes as [| c rest IH]; simpl; intros s s' code H Hin; [contradiction |].
  apply bind_Ok_inv in H; destruct H as [ret [Hret H]].
  destruct (Z.eq_dec c code) as [-> | Hne].
  - eapply requeueCodes_keeps_moved; [exact H | |]; simpl.
    + unfold addCodeTask in Hret.
      apply bind_Ok_inv in Hret; destruct Hret as [m [Hm Hret]].
      inversion Hret; subst; simpl.
      rewrite (mem_set _ _ _ _ _ Hm), Z.eqb_refl. reflexivity.
    + rewrite mem_delete, Z.eqb_refl. reflexivity.
  - destruct Hin as [-> | Hin]; [contradiction |].
    eapply IH; eauto.
Qed.

(** ** C4: the fresh start *)

Lemma drawTaskID_nil_map {V} (tape : list Z) :
  (exists r, In r tape /\ r <> 0) ->
  exists id tape', drawTaskID (@GoMap.nil_map V) tape = Ok (id, tape') /\ id <> 0.
Proof.
  induction tape as [| r tape IH]; intros [x [Hin Hx]]; [contradiction |].
  simpl. destruct (r =? 0) eqn:E; simpl.
  - apply Z.eqb_eq in E. destruct Hin as [-> | Hin]; [contradiction |].
    apply IH; exists x; split; assumption.
  - apply Z.eqb_neq in E. exists r, tape; split; [reflexivity | exact E].
Qed.

(** C4 (what the code does): with no usable checkpoint in the store,
    [loadSyncStatus] sets the account-task map to nil and then assigns into
    it; the first [addAccountTask] panics and no account task is
    registered. *)
Theorem C4_fresh_loadSyncStatus_panics (s : Manager) :
  db_status (m_db s) = None \/ db_status (m_db s) = Some None ->
  (exists r, In r (m_rand s) /\ r <> 0) ->
  loadSyncStatus s = Panic NilMapWrite.
Proof.
  intros Hdb Htape. unfold loadSyncStatus.
  assert (E : freshAccountTasks
                (setStats (setTasks s (setAccountTasks (m_tasks s) GoMap.nil_map))
                   zeroStats) 0 accountIterations = Panic NilMapWrite).
  { replace accountIterations with (0 :: tl accountIterations) by reflexivity.
    simpl freshAccountTasks.
    destruct (drawTaskID_nil_map (V := ptr) _ Htape) as [id [tape' [Hd _]]].
    rewrite Hd. reflexivity. }
  destruct Hdb as [-> | ->]; exact E.
Qed.

Lemma C4_empty_store_witness :
  loadSyncStatus (newFullStateDownloadManager (mkStore None []) HashScheme [7; 8; 9] sampleHasher)
  = Panic NilMapWrite.
Proof.
  apply C4_fresh_loadSyncStatus_panics; simpl.
  - left; reflexivity.
  - exists 7; split; [left; reflexivity | discriminate].
Defined.

(** What the partition loop computes once the map it fills exists: sixteen
    tasks whose intervals are the sixteen consecutive blocks of 2^252
    hashes. *)
Example fresh_partition_on_initialised_map :
  exists s',
    freshAccountTasks
      (newFullStateDownloadManager (mkStore None []) HashScheme
         [11; 12; 13; 14; 15; 16; 17; 18; 19; 20; 21; 22; 23; 24; 25; 26] sampleHasher)
      0 accountIterations = Ok s' /\
    map (fun t => (at_Next t, at_Last t)) (m_accts s') =
    map (fun i => (i * 2 ^ 252, (i + 1) * 2 ^ 252 - 1)) accountIterations /\
    GoMap.len (accountTasks (m_tasks s')) = 16.
Proof. eexists; split; [vm_compute; reflexivity | split; vm_compute; reflexivity]. Qed.

(** ** C3: task ids after a resume *)

Lemma thawStorageTasks_accts l : forall s s' ps,
  thawStorageTasks s l = (s', ps) -> m_accts s' = m_accts s.
Proof.
  induction l as [| sv l IH]; simpl; intros s s' ps H.
  - inversion H; reflexivity.
  - destruct (thawStorageTasks (setStors s (m_stors s ++ [thawStorageTask sv])) l)
      as [s2 ps2] eqn:E.
    inversion H; subst. apply IH in E. exact E.
Qed.

Lemma thawSubTaskItems_accts l : forall s s' l',
  thawSubTaskItems s l = (s', l') -> m_accts s' = m_accts s.
Proof.
  induction l as [| [account svs] l IH]; simpl; intros s s' l' H.
  - inversion H; reflexivity.
  - destruct (thawStorageTasks s svs) as [s1 ps] eqn:E1.
    destruct (thawSubTaskItems s1 l) as [s2 rest] eqn:E2.
    inversion H; subst.
    apply IH in E2. apply thawStorageTasks_accts in E1. congruence.
Qed.

Lemma thawAccountTask_spec s sv s' p :
  thawAccountTask s sv = (s', p) ->
  p = length (m_accts s) /\
  exists t, m_accts s' = m_accts s ++ [t] /\ at_id t = 0 /\
            at_Next t = sv_Next sv /\ at_Last t = sv_Last sv.
Proof.
  unfold thawAccountTask, thawSubTasks.
  destruct (sv_SubTasks sv) as [items |].
  - destruct (thawSubTaskItems s items) as [s1 l'] eqn:E.
    apply thawSubTaskItems_accts in E.
    unfold allocAcct; intros H; inversion H; subst; simpl.
    rewrite E. split; [reflexivity |].
    eexists; split; [reflexivity |]. simpl; auto.
  - unfold allocAcct; intros H; inversion H; subst; simpl.
    split; [reflexivity |].
    eexists; split; [reflexivity |]. simpl; auto.
Qed.

Lemma thawTaskItems_spec l : forall s s' l',
  thawTaskItems s l = (s', l') ->
  map fst l' = map fst l /\
  (exists extra, m_accts s' = m_accts s ++ extra) /\
  forall k p, In (k, p) l' ->
    exists t, nth_error (m_accts s') p = Some t /\ at_id t = 0.
Proof.
  induction l as [| [k sv] l IH]; simpl; intros s s' l' H.
  - inversion H; subst. split; [reflexivity |]. split.
    + exists []; rewrite app_nil_r; reflexivity.
    + intros k p [].
  - destruct (thawAccountTask s sv) as [s1 p1] eqn:E1.
    destruct (thawTaskItems s1 l) as [s2 rest] eqn:E2.
    inversion H; subst; clear H.
    apply thawAccountTask_spec in E1.
    destruct E1 as [Hp [t [Hheap [Hid _]]]].
    destruct (IH _ _ _ E2) as [Hkeys [[extra Hextra] Hall]].
    split; [simpl; f_equal; exact Hkeys |]. split.
    + exists ([t] ++ extra). rewrite Hextra, Hheap, <- app_assoc. reflexivity.
    + intros k0 p [Heq | Hin].
      * inversion Heq; subst. exists t. split; [| exact Hid].
        rewrite Hextra, Hheap, <- app_assoc.
        rewrite nth_error_app2 by lia.
        rewrite Nat.sub_diag. reflexivity.
      * eapply Hall; eauto.
Qed.

Lemma find_In {V} k (v : V) l : GoMap.find k l = Some v -> In (k, v) l.
Proof.
  induction l as [| [k' v'] l IH]; simpl; [discriminate |].
  destruct (k =? k') eqn:E.
  - apply Z.eqb_eq in E; subst. intros H; inversion H; subst. left; reflexivity.
  - intros H; right; apply IH; exact H.
Qed.

(** C3 (what the code does on a resume): [loadSyncStatus] brings back every
    account task of the checkpoint under its key, and each of them has the
    id 0: the id is not among the serialized fields and is not rebuilt from
    the key. *)
Theorem C3_resumed_account_tasks_have_id_zero
  (s : Manager) (progress : SyncProgress) :
  db_status (m_db s) = Some (Some progress) ->
  exists s',
    loadSyncStatus s = Ok s' /\
    map fst (GoMap.items (accountTasks (m_tasks s'))) =
      map fst (GoMap.items (sp_Tasks progress)) /\
    forall k p,
      GoMap.get k (accountTasks (m_tasks s')) = Some p ->
      exists t, loadAcct s' p = Ok t /\ at_id t = 0.
Proof.
  intros Hdb. unfold loadSyncStatus. rewrite Hdb.
  unfold thawTasks. destruct (sp_Tasks progress) as [l |].
  - destruct (thawTaskItems s l) as [s1 l'] eqn:E.
    destruct (thawTaskItems_spec _ _ _ _ E) as [Hkeys [_ Hall]].
    eexists; split; [reflexivity |]. simpl. split; [exact Hkeys |].
    intros k p Hget. unfold GoMap.get in Hget; simpl in Hget.
    apply find_In in Hget. destruct (Hall _ _ Hget) as [t [Ht Hid]].
    exists t. split; [| exact Hid].
    unfold loadAcct; simpl. rewrite Ht. reflexivity.
  - eexists; split; [reflexivity |]. simpl. split; [reflexivity |].
    intros k p Hget. discriminate.
Qed.

Lemma C3_resume_witness :
  db_status (m_db (newFullStateDownloadManager
                     (mkStore (Some (Some sampleProgress)) []) HashScheme [7; 8] sampleHasher))
    = Some (Some sampleProgress) /\
  exists s',
    loadSyncStatus
      (newFullStateDownloadManager
         (mkStore (Some (Some sampleProgress)) []) HashScheme [7; 8] sampleHasher) = Ok s' /\
    map fst (GoMap.items (accountTasks (m_tasks s'))) =
      map fst (GoMap.items (sp_Tasks sampleProgress)) /\
    forall k p,
      GoMap.get k (accountTasks (m_tasks s')) = Some p ->
      exists t, loadAcct s' p = Ok t /\ at_id t = 0.
Proof.
  split; [reflexivity |].
  apply (C3_resumed_account_tasks_have_id_zero
           (newFullStateDownloadManager
              (mkStore (Some (Some sampleProgress)) []) HashScheme [7; 8] sampleHasher)
           sampleProgress).
  reflexivity.
Defined.

(** ** C5: trimming an account response *)

Lemma trimLoop_spec (last : Hash) (accounts : list StateAccount) :
  forall (rest pre : list Hash) (c : bool),
    length accounts = length (pre ++ rest) ->
    Forall (fun h => h <= last) pre ->
    exists kept dropped,
      pre ++ rest = kept ++ dropped /\
      trimLoop last (length pre) rest (pre ++ rest) accounts c =
        Ok (kept, firstn (length kept) accounts,
            c && forallb (fun h => h <? last) rest) /\
      Forall (fun h => h <= last) kept /\
      (forall h r, dropped = h :: r -> last < h).
Proof.
  induction rest as [| h rest IH]; intros pre c Hlen Hpre.
  - exists pre, []. rewrite app_nil_r in *. simpl.
    rewrite andb_true_r, <- Hlen, firstn_all.
    repeat split; auto. intros h r Hd; discriminate.
  - assert (Hstep : pre ++ h :: rest = (pre ++ [h]) ++ rest)
      by (rewrite <- app_assoc; reflexivity).
    assert (HS : S (length pre) = length (pre ++ [h]))
      by (rewrite length_app; simpl; lia).
    simpl trimLoop. destruct (h ?= last) eqn:Hcmp.
    + apply Z.compare_eq in Hcmp.
      destruct (IH (pre ++ [h]) false) as [kept [dropped [Hsplit [Hrun [Hk Hd]]]]].
      * rewrite <- Hstep; exact Hlen.
      * apply Forall_app; split; [exact Hpre | constructor; [lia | constructor]].
      * exists kept, dropped. rewrite Hstep, HS. repeat split; auto.
        rewrite Hrun. simpl.
        replace (h <? last) with false by (symmetry; apply Z.ltb_ge; lia).
        simpl. rewrite andb_false_r. reflexivity.
    + rewrite Z.compare_lt_iff in Hcmp.
      destruct (IH (pre ++ [h]) c) as [kept [dropped [Hsplit [Hrun [Hk Hd]]]]].
      * rewrite <- Hstep; exact Hlen.
      * apply Forall_app; split; [exact Hpre | constructor; [lia | constructor]].
      * exists kept, dropped. rewrite Hstep, HS. repeat split; auto.
        rewrite Hrun. simpl.
        replace (h <? last) with true by (symmetry; apply Z.ltb_lt; lia).
        reflexivity.
    + rewrite Z.compare_gt_iff in Hcmp.
      exists pre, (h :: rest).
      assert (Hfit : (length accounts <? length pre)%nat = false).
      { apply Nat.ltb_ge. rewrite Hlen, length_app. lia. }
      rewrite Hfit.
      rewrite firstn_app, Nat.sub_diag, firstn_all; simpl. rewrite app_nil_r.
      replace (h <? last) with false by (symmetry; apply Z.ltb_ge; lia).
      simpl. rewrite andb_false_r.
      repeat split; auto.
      intros h0 r Hd; inversion Hd; subst; exact Hcmp.
Qed.

(** The trimming pass on its own copies of the slices: it keeps the
    longest prefix of the returned hashes that does not pass [task.Last] -
    a hash equal to [task.Last] stays, everything from the first hash
    greater than [task.Last] on is cut, from the hashes and the accounts
    alike - and the continuation flag it leaves is cleared as soon as a
    hash greater than or equal to [task.Last] was returned, and untouched
    otherwise. *)
Lemma trimOverflow_keeps_prefix_up_to_last
  (last : Hash) (hashes : list Hash) (accounts : list StateAccount)
  (cont : bool) :
  length accounts = length hashes ->
  exists kept dropped cont',
    hashes = kept ++ dropped /\
    trimOverflow last hashes accounts cont =
      Ok (kept, firstn (length kept) accounts, cont') /\
    Forall (fun h => h <= last) kept /\
    (forall h rest, dropped = h :: rest -> last < h) /\
    ((exists h, In h hashes /\ last <= h) -> cont' = false) /\
    ((forall h, In h hashes -> h < last) -> cont' = cont).
Proof.
  intros Hlen.
  destruct (trimLoop_spec last accounts hashes [] cont Hlen (Forall_nil _))
    as [kept [dropped [Hsplit [Hrun [Hk Hd]]]]].
  simpl in Hsplit, Hrun.
  exists kept, dropped, (cont && forallb (fun h => h <? last) hashes).
  repeat split; auto.
  - intros [h [Hin Hge]].
    destruct (forallb (fun h => h <? last) hashes) eqn:E.
    + rewrite forallb_forall in E. specialize (E h Hin).
      apply Z.ltb_lt in E. lia.
    + apply andb_false_r.
  - intros Hall.
    assert (E : forallb (fun h => h <? last) hashes = true).
    { apply forallb_forall. intros h Hin. apply Z.ltb_lt. auto. }
    rewrite E. apply andb_true_r.
Qed.

Example trimOverflow_cuts_after_last :
  length [plainAccount; plainAccount; plainAccount] = length [3; 100; 200] /\
  exists kept dropped cont',
    [3; 100; 200] = kept ++ dropped /\
    trimOverflow 100 [3; 100; 200] [plainAccount; plainAccount; plainAccount] true =
      Ok (kept, firstn (length kept) [plainAccount; plainAccount; plainAccount], cont') /\
    Forall (fun h => h <= 100) kept /\
    (forall h rest, dropped = h :: rest -> 100 < h) /\
    ((exists h, In h [3; 100; 200] /\ 100 <= h) -> cont' = false) /\
    ((forall h, In h [3; 100; 200] -> h < 100) -> cont' = true).
Proof.
  split; [reflexivity |].
  apply (trimOverflow_keeps_prefix_up_to_last 100 [3; 100; 200]
           [plainAccount; plainAccount; plainAccount] true).
  reflexivity.
Defined.

(** A returned hash equal to [task.Last] is not removed. *)
Example trimOverflow_keeps_hash_equal_to_last :
  exists kept accounts' cont',
    trimOverflow 100 [3; 100] [plainAccount; plainAccount] true =
      Ok (kept, accounts', cont') /\
    In 100 kept /\ 100 >= 100.
Proof.
  eexists; eexists; eexists. split; [reflexivity |].
  split; [right; left; reflexivity | lia].
Qed.

(** What the trimming does not reach: the response stored in the task
    keeps the untrimmed hashes and the flag as received.  With an
    overflowing hash the forwarding loop walks past the flag vectors, and
    with a hash equal to [Last] the task is not marked done; the section on
    the overflowing response below proves both in general. *)
Example processAccountResponse_overflow_panics :
  processAccountResponse sampleSyncing O [3; 200] [plainAccount; plainAccount] true
  = Panic IndexOutOfRange.
Proof. vm_compute; reflexivity. Qed.

Example processAccountResponse_last_reached_not_done :
  exists s' t,
    processAccountResponse sampleSyncing O [3; 100] [plainAccount; plainAccount] true
      = Ok s' /\
    loadAcct s' O = Ok t /\ at_Next t = 101 /\ at_done t = false.
Proof. eexists; eexists; split; [vm_compute; reflexivity | repeat split]. Qed.

(** ** C8: block verify-and-insert *)

Section DownloaderProperties.

Variables Block Header Chain Signature Err : Type.
Variable blockHeader : Block -> Header.
Variable GetCurrentCommitSig : Block -> bytes.
Variable LastCommitSignature : Header -> Signature.
Variable LastCommitBitmap : Header -> bytes.
Variable ParseCommitSigAndBitmap : bytes -> Err + Signature * bytes.
Variable VerifyHeaderSignature :
  Chain -> Header -> Signature -> bytes -> option Err.
Variable VerifyHeader : Chain -> Header -> bool -> option Err.
Variable InsertChain : Chain -> list Block -> bool -> Chain * option Err.

Let sigFor := commitSigFor blockHeader GetCurrentCommitSig LastCommitSignature
                LastCommitBitmap ParseCommitSigAndBitmap.
Let insertBlock := verifyAndInsertBlock blockHeader GetCurrentCommitSig
                     LastCommitSignature LastCommitBitmap ParseCommitSigAndBitmap
                     VerifyHeaderSignature VerifyHeader InsertChain.
Let insertBlocks := verifyAndInsertBlocks blockHeader GetCurrentCommitSig
                      LastCommitSignature LastCommitBitmap ParseCommitSigAndBitmap
                      VerifyHeaderSignature VerifyHeader InsertChain.
Let insertFrom := verifyAndInsertFrom blockHeader GetCurrentCommitSig
                    LastCommitSignature LastCommitBitmap ParseCommitSigAndBitmap
                    VerifyHeaderSignature VerifyHeader InsertChain.
Let goesIn := specGoesIn blockHeader VerifyHeaderSignature VerifyHeader
                InsertChain.
Let firstFailure := specFirstFailure blockHeader VerifyHeaderSignature
                      VerifyHeader InsertChain.
Let chainAt := chainAfter InsertChain.
Let sigAt := specCommitSig blockHeader GetCurrentCommitSig LastCommitSignature
               LastCommitBitmap ParseCommitSigAndBitmap.

(** The signature a block is checked against, by its position. *)
Lemma commitSigFor_by_position (blocks : list Block) (k : nat) (block : Block) :
  nth_error blocks k = Some block ->
  sigAt blocks k = Some (sigFor block (skipn (S k) blocks)).
Proof.
  revert k. induction blocks as [| b blocks IH]; intros k Hk.
  - destruct k; discriminate.
  - destruct k as [| k].
    + simpl in Hk; inversion Hk; subst.
      unfold sigAt, specCommitSig, sigFor, commitSigFor; simpl.
      destruct blocks; reflexivity.
    + simpl in Hk. specialize (IH k Hk).
      unfold sigAt, specCommitSig in *. simpl in *. exact IH.
Qed.

Lemma verifyAndInsertBlock_sig_failure bc block nextBlocks sig bitmap e :
  sigFor block nextBlocks = inr (sig, bitmap) ->
  VerifyHeaderSignature bc (blockHeader block) sig bitmap = Some e ->
  insertBlock bc block nextBlocks = (bc, Some (sigVerifyErr e)).
Proof.
  intros Hs Hv. unfold insertBlock, verifyAndInsertBlock.
  fold sigFor. rewrite Hs, Hv. reflexivity.
Qed.

Lemma verifyAndInsertBlock_success bc block nextBlocks bc' :
  insertBlock bc block nextBlocks = (bc', None) ->
  exists sig bitmap,
    sigFor block nextBlocks = inr (sig, bitmap) /\
    VerifyHeaderSignature bc (blockHeader block) sig bitmap = None /\
    VerifyHeader bc (blockHeader block) true = None /\
    InsertChain bc [block] false = (bc', None).
Proof.
  unfold insertBlock, verifyAndInsertBlock. fold sigFor.
  destruct (sigFor block nextBlocks) as [e | [sig bitmap]]; [discriminate |].
  destruct (VerifyHeaderSignature bc (blockHeader block) sig bitmap) eqn:E1;
    [discriminate |].
  destruct (VerifyHeader bc (blockHeader block) true) eqn:E2; [discriminate |].
  destruct (InsertChain bc [block] false) as [bc1 [e |]] eqn:E3; [discriminate |].
  intros H; inversion H; subst. exists sig, bitmap. auto.
Qed.

Lemma verifyAndInsertBlock_failure bc block nextBlocks bc' e :
  insertBlock bc block nextBlocks = (bc', Some e) ->
  firstFailure bc block (sigFor block nextBlocks) bc' e.
Proof.
  unfold insertBlock, verifyAndInsertBlock, firstFailure, specFirstFailure.
  fold sigFor.
  destruct (sigFor block nextBlocks) as [pe | [sig bitmap]].
  - intros H; inversion H; subst; auto.
  - destruct (VerifyHeaderSignature bc (blockHeader block) sig bitmap).
    + intros H; inversion H; subst; auto.
    + destruct (VerifyHeader bc (blockHeader block) true).
      * intros H; inversion H; subst; auto.
      * destruct (InsertChain bc [block] false) as [c [ie |]];
          intros H; inversion H; subst. exists ie. auto.
Qed.

Lemma sigAt_cons (block : Block) (rest : list Block) (k : nat) :
  sigAt (block :: rest) (S k) = sigAt rest k.
Proof. reflexivity. Qed.

Lemma chainAt_cons (bc : Chain) (block : Block) (rest : list Block) (k : nat) :
  chainAt bc (block :: rest) (S k) =
  chainAt (fst (InsertChain bc [block] false)) rest k.
Proof. reflexivity. Qed.

(** The loop from position [i] on, against the rule. *)
Lemma verifyAndInsertFrom_rule (blocks : list Block) :
  forall bc i,
  exists n err bc',
    insertFrom bc i blocks = (bc', (i + Z.of_nat n, err)) /\
    (n <= length blocks)%nat /\
    (forall k block, (k < n)%nat -> nth_error blocks k = Some block ->
       exists commit,
         sigAt blocks k = Some commit /\
         goesIn (chainAt bc blocks k) block commit (chainAt bc blocks (S k))) /\
    match err with
    | None => n = length blocks /\ bc' = chainAt bc blocks n
    | Some e => exists block commit,
        nth_error blocks n = Some block /\ sigAt blocks n = Some commit /\
        firstFailure (chainAt bc blocks n) block commit bc' e
    end.
Proof.
  induction blocks as [| block rest IH]; intros bc i.
  - exists O, None, bc. simpl. rewrite Z.add_0_r.
    split; [reflexivity |]. split; [lia |].
    split; [intros k block Hk; lia | split; reflexivity].
  - unfold insertFrom. cbn [verifyAndInsertFrom]. fold insertBlock insertFrom.
    destruct (insertBlock bc block rest) as [bc1 [e |]] eqn:E.
    + exists O, (Some e), bc1. rewrite Z.add_0_r.
      split; [reflexivity |]. split; [simpl; lia |].
      split; [intros k b Hk; lia |].
      exists block, (sigFor block rest).
      split; [reflexivity |].
      split; [exact (commitSigFor_by_position (block :: rest) O block eq_refl) |].
      apply verifyAndInsertBlock_failure. exact E.
    + destruct (verifyAndInsertBlock_success _ _ _ _ E)
        as [sig [bitmap [Hs [Hv [Hh Hi]]]]].
      assert (Hc1 : fst (InsertChain bc [block] false) = bc1)
        by (rewrite Hi; reflexivity).
      destruct (IH bc1 (i + 1)) as [n [err [bc' [Hrun [Hn [Hin Herr]]]]]].
      exists (S n), err, bc'. rewrite Hrun.
      split; [f_equal; f_equal; lia |].
      split; [simpl; lia |].
      split.
      * intros k b Hk Hb. destruct k as [| k].
        -- simpl in Hb. inversion Hb; subst b.
           exists (sigFor block rest).
           split; [exact (commitSigFor_by_position (block :: rest) O block eq_refl) |].
           exists sig, bitmap.
           split; [exact Hs |]. split; [exact Hv |]. split; [exact Hh |].
           unfold chainAt, chainAfter. simpl. rewrite Hi. reflexivity.
        -- simpl in Hb. destruct (Hin k b ltac:(lia) Hb) as [commit [Hc Hg]].
           exists commit. rewrite sigAt_cons, !chainAt_cons, Hc1.
           split; assumption.
      * destruct err as [e |].
        -- destruct Herr as [b [commit [Hb [Hc Hf]]]].
           exists b, commit. rewrite sigAt_cons, chainAt_cons, Hc1.
           split; [exact Hb |]. split; assumption.
        -- destruct Herr as [Hl Hb]. rewrite chainAt_cons, Hc1.
           split; [simpl; f_equal; exact Hl | exact Hb].
Qed.

(** C8: [verifyAndInsertBlocks] goes through the blocks in order.  Each
    of the blocks it counts was checked on the chain as the blocks before
    it left it: its header signature against the last-commit signature and
    bitmap of the block after it when there is one, and against the
    signature parsed from its own commit sig otherwise, then its header;
    and it was inserted.  The block at the count is the first that did not
    go in, the error is that of the first step that failed for it -
    [sigVerifyErr] exactly when that step is the header signature - and no
    block after it is touched.  The count is the length of the slice, with
    a nil error, when every block went in. *)
Theorem C8_verifyAndInsertBlocks_count_and_first_error
  (bc : Chain) (blocks : list Block) :
  exists n err bc',
    insertBlocks bc blocks = (bc', (Z.of_nat n, err)) /\
    (n <= length blocks)%nat /\
    (forall k block, (k < n)%nat -> nth_error blocks k = Some block ->
       exists commit,
         sigAt blocks k = Some commit /\
         goesIn (chainAt bc blocks k) block commit (chainAt bc blocks (S k))) /\
    match err with
    | None => n = length blocks /\ bc' = chainAt bc blocks n
    | Some e => exists block commit,
        nth_error blocks n = Some block /\ sigAt blocks n = Some commit /\
        firstFailure (chainAt bc blocks n) block commit bc' e
    end.
Proof.
  destruct (verifyAndInsertFrom_rule blocks bc 0)
    as [n [err [bc' [Hrun [Hn [Hin Herr]]]]]].
  exists n, err, bc'.
  split; [exact Hrun |]. split; [exact Hn |]. split; assumption.
Qed.

End DownloaderProperties.

(** ** C10: the heal callback *)

Lemma fromBE_from_nonneg (bs : bytes) : forall acc,
  bytesOK bs -> 0 <= acc ->
  0 <= fold_left (fun a b => a * 256 + b) bs acc.
Proof.
  induction bs as [| b bs IH]; simpl; intros acc Hok Hacc; [exact Hacc |].
  inversion Hok as [| ? ? Hb Hbs]; subst. unfold byteOK in Hb.
  apply IH; [exact Hbs | nia].
Qed.

Lemma fromBE_nonneg (bs : bytes) : bytesOK bs -> 0 <= fromBE bs.
Proof. intros H; apply fromBE_from_nonneg; [exact H | lia]. Qed.

Lemma take_bytesOK n bs c rest :
  bytesOK bs -> RLP.take n bs = Some (c, rest) -> bytesOK c /\ bytesOK rest.
Proof.
  unfold RLP.take. intros Hok H.
  destruct ((0 <=? n) && (n <=? blen bs)); [| discriminate].
  inversion H; subst; clear H.
  unfold bytesOK in *. rewrite <- (firstn_skipn (Z.to_nat n) bs) in Hok.
  apply Forall_app in Hok. exact Hok.
Qed.

Lemma readSize_bytesOK ll bs n rest :
  bytesOK bs -> RLP.readSize ll bs = Some (n, rest) -> bytesOK rest.
Proof.
  unfold RLP.readSize. intros Hok H.
  destruct (RLP.take ll bs) as [[sz r] |] eqn:E; [| discriminate].
  destruct (RLP.noLeadingZero sz && (56 <=? fromBE sz)); [| discriminate].
  inversion H; subst. eapply take_bytesOK; eauto.
Qed.

Lemma decItem_bytesOK bs k c rest :
  bytesOK bs -> RLP.decItem bs = Some (k, c, rest) -> bytesOK c /\ bytesOK rest.
Proof.
  unfold RLP.decItem. intros Hok H.
  destruct bs as [| b tl]; [discriminate |].
  inversion Hok as [| ? ? Hb Htl]; subst.
  destruct (b <? 128).
  { inversion H; subst. split; [constructor; [exact Hb | constructor] | exact Htl]. }
  destruct (b <? 184).
  { destruct (RLP.take (b - 128) tl) as [[c0 r0] |] eqn:E; [| discriminate].
    destruct (take_bytesOK _ _ _ _ Htl E) as [Hc Hr].
    destruct c0 as [| x [| y c0]].
    - inversion H; subst; auto.
    - destruct (x <? 128); [discriminate |]. inversion H; subst; auto.
    - inversion H; subst; auto. }
  destruct (b <? 192).
  { destruct (RLP.readSize (b - 183) tl) as [[n tl'] |] eqn:E; [| discriminate].
    pose proof (readSize_bytesOK _ _ _ _ Htl E) as Hr.
    destruct (RLP.take n tl') as [[c0 r0] |] eqn:E2; [| discriminate].
    inversion H; subst. eapply take_bytesOK; eauto. }
  destruct (b <? 248).
  { destruct (RLP.take (b - 192) tl) as [[c0 r0] |] eqn:E; [| discriminate].
    inversion H; subst. eapply take_bytesOK; eauto. }
  destruct (RLP.readSize (b - 247) tl) as [[n tl'] |] eqn:E; [| discriminate].
  pose proof (readSize_bytesOK _ _ _ _ Htl E) as Hr.
  destruct (RLP.take n tl') as [[c0 r0] |] eqn:E2; [| discriminate].
  inversion H; subst. eapply take_bytesOK; eauto.
Qed.

Lemma decString_bytesOK bs c rest :
  bytesOK bs -> RLP.decString bs = Some (c, rest) -> bytesOK c /\ bytesOK rest.
Proof.
  unfold RLP.decString. intros Hok H.
  destruct (RLP.decItem bs) as [[[k c0] r0] |] eqn:E; [| discriminate].
  destruct k; [| discriminate]. inversion H; subst.
  eapply decItem_bytesOK; eauto.
Qed.

(** A decoded account has a non-negative balance. *)
Lemma decodeAccount_balance value account :
  bytesOK value -> decodeAccount value = Some account -> 0 <= sa_Balance account.
Proof.
  unfold decodeAccount, RLP.decStruct. intros Hok H.
  destruct (RLP.decItem value) as [[[k c0] r0] |] eqn:E0; [| discriminate].
  destruct k; [discriminate |]. destruct r0; [| discriminate].
  destruct (decItem_bytesOK _ _ _ _ Hok E0) as [Hc0 _].
  unfold RLP.decUint64 in H.
  destruct (RLP.decString c0) as [[n c1] |] eqn:E1; [| discriminate].
  destruct (decString_bytesOK _ _ _ Hc0 E1) as [_ Hc1].
  destruct (RLP.noLeadingZero n && (blen n <=? 8)); [| discriminate].
  unfold RLP.decBigInt in H.
  destruct (RLP.decString c1) as [[bal c2] |] eqn:E2; [| discriminate].
  destruct (decString_bytesOK _ _ _ Hc1 E2) as [Hbal _].
  destruct (RLP.noLeadingZero bal); [| discriminate].
  destruct (RLP.decHash c2) as [[root c3] |]; [| discriminate].
  destruct (RLP.decString c3) as [[code r] |]; [| discriminate].
  destruct r; [| discriminate].
  inversion H; subst; simpl. apply fromBE_nonneg; exact Hbal.
Qed.

Lemma SlimAccountRLP_returns account :
  0 <= sa_Balance account -> exists blob, SlimAccountRLP account = Ok blob.
Proof.
  intros Hbal. unfold SlimAccountRLP, encodeSlim; simpl.
  replace (sa_Balance account <? 0) with false
    by (symmetry; apply Z.ltb_ge; exact Hbal).
  eexists; reflexivity.
Qed.

(** C10: [onHealState] returns, and the error it returns is nil, whatever
    the paths and the value.  When there is one path and the value does not
    decode as a state account, the call changes nothing: no snapshot entry
    is queued and no counter moves. *)
Theorem C10_onHealState_always_returns_nil
  (s : Manager) (paths : list bytes) (value : bytes) :
  bytesOK value ->
  (exists s', onHealState s paths value = Ok (s', None)) /\
  (length paths = 1%nat -> decodeAccount value = None ->
   onHealState s paths value = Ok (s, None)).
Proof.
  intros Hok. split.
  - unfold onHealState.
    destruct (length paths =? 1)%nat.
    + destruct (decodeAccount value) as [account |] eqn:E.
      * destruct (SlimAccountRLP_returns account
                    (decodeAccount_balance _ _ Hok E)) as [blob Hblob].
        rewrite Hblob. simpl. eexists; reflexivity.
      * simpl. eexists; reflexivity.
    + simpl. eexists; reflexivity.
  - intros Hlen Hdec. unfold onHealState.
    rewrite Hlen, Hdec. reflexivity.
Qed.

Lemma C10_malformed_value_witness :
  bytesOK [1; 2; 3] /\
  (exists s', onHealState sampleManager [[0; 1]] [1; 2; 3] = Ok (s', None)) /\
  (length [[0; 1]] = 1%nat -> decodeAccount [1; 2; 3] = None ->
   onHealState sampleManager [[0; 1]] [1; 2; 3] = Ok (sampleManager, None)).
Proof.
  assert (H : bytesOK [1; 2; 3]).
  { repeat constructor; unfold byteOK; lia. }
  split; [exact H |].
  apply (C10_onHealState_always_returns_nil sampleManager [[0; 1]] [1; 2; 3] H).
Defined.

(** ** C6: the slim account encoding *)

(** *** Big-endian integers *)

Lemma fromBE_snoc (l : bytes) (b : Z) : fromBE (l ++ [b]) = fromBE l * 256 + b.
Proof. unfold fromBE. rewrite fold_left_app. reflexivity. Qed.

Lemma fromBE_toBE (n : nat) : forall z, fromBE (toBE n z) = z mod 256 ^ Z.of_nat n.
Proof.
  induction n as [| n IH]; intros z.
  - simpl. rewrite Z.mod_1_r. reflexivity.
  - cbn [toBE]. rewrite fromBE_snoc, IH.
    rewrite Nat2Z.inj_succ, Z.pow_succ_r by lia.
    rewrite Z.rem_mul_r by lia. lia.
Qed.

Lemma length_toBE (n : nat) : forall z, length (toBE n z) = n.
Proof.
  induction n as [| n IH]; intros z; [reflexivity |].
  cbn [toBE]. rewrite length_app, IH. simpl. lia.
Qed.

Lemma toBE_S_cons (n : nat) : forall z,
  toBE (S n) z = (z / 256 ^ Z.of_nat n) mod 256 :: toBE n z.
Proof.
  induction n as [| n IH]; intros z.
  - simpl. rewrite Z.div_1_r. reflexivity.
  - change (toBE (S (S n)) z) with (toBE (S n) (z / 256) ++ [z mod 256]).
    rewrite IH. cbn [toBE app].
    rewrite Z.div_div by lia.
    rewrite Nat2Z.inj_succ, Z.pow_succ_r by lia. reflexivity.
Qed.

Lemma pow256 (k : Z) : 0 <= k -> 256 ^ k = 2 ^ (8 * k).
Proof. intros Hk. rewrite Z.pow_mul_r by lia. reflexivity. Qed.

Lemma byteLen_pos (z : Z) :
  0 < z -> Z.of_nat (byteLen z) = Z.log2 z / 8 + 1.
Proof.
  intros Hz. unfold byteLen.
  replace (z <=? 0) with false by (symmetry; apply Z.leb_gt; exact Hz).
  pose proof (Z.log2_nonneg z).
  assert (0 <= Z.log2 z / 8) by (apply Z.div_pos; lia).
  lia.
Qed.

Lemma byteLen_bounds (z : Z) :
  0 < z ->
  256 ^ (Z.log2 z / 8) <= z < 256 ^ (Z.log2 z / 8 + 1).
Proof.
  intros Hz.
  pose proof (Z.log2_nonneg z) as Hl.
  destruct (Z.log2_spec z Hz) as [Hlo Hhi].
  assert (Hq : 0 <= Z.log2 z / 8) by (apply Z.div_pos; lia).
  pose proof (Z.mul_div_le (Z.log2 z) 8 ltac:(lia)) as Hle.
  pose proof (Z.mul_succ_div_gt (Z.log2 z) 8 ltac:(lia)) as Hgt.
  rewrite !pow256 by lia. split.
  - apply Z.le_trans with (2 ^ Z.log2 z); [| exact Hlo].
    apply Z.pow_le_mono_r; lia.
  - apply Z.lt_le_trans with (2 ^ Z.succ (Z.log2 z)); [exact Hhi |].
    apply Z.pow_le_mono_r; lia.
Qed.

Lemma fromBE_putint (z : Z) : 0 <= z -> fromBE (putint z) = z.
Proof.
  intros Hz. unfold putint. rewrite fromBE_toBE.
  destruct (Z.eq_dec z 0) as [-> | Hne]; [reflexivity |].
  rewrite byteLen_pos by lia.
  apply Z.mod_small. pose proof (byteLen_bounds z ltac:(lia)). lia.
Qed.

Lemma noLeadingZero_putint (z : Z) : 0 <= z -> RLP.noLeadingZero (putint z) = true.
Proof.
  intros Hz. unfold putint.
  destruct (Z.eq_dec z 0) as [-> | Hne]; [reflexivity |].
  assert (Hpos : 0 < z) by lia.
  pose proof (byteLen_pos z Hpos) as Hlen.
  pose proof (byteLen_bounds z Hpos) as [Hlo Hhi].
  assert (Hq : 0 <= Z.log2 z / 8) by (apply Z.div_pos; [apply Z.log2_nonneg | lia]).
  destruct (byteLen z) as [| n] eqn:E; [lia |].
  rewrite toBE_S_cons. cbn [RLP.noLeadingZero].
  assert (Hn : Z.of_nat n = Z.log2 z / 8) by lia.
  rewrite Hn.
  assert (Hp : 0 < 256 ^ (Z.log2 z / 8)) by (apply Z.pow_pos_nonneg; lia).
  assert (H1 : 1 <= z / 256 ^ (Z.log2 z / 8)).
  { apply Z.div_le_lower_bound; lia. }
  assert (H2 : z / 256 ^ (Z.log2 z / 8) < 256).
  { apply Z.div_lt_upper_bound; [lia |].
    rewrite Z.pow_add_r in Hhi by lia. lia. }
  rewrite Z.mod_small by lia.
  apply negb_true_iff, Z.eqb_neq. lia.
Qed.

Lemma blen_putint (z : Z) : blen (putint z) = Z.of_nat (byteLen z).
Proof. unfold blen, putint. rewrite length_toBE. reflexivity. Qed.

Lemma byteLen_le (z : Z) (k : Z) :
  0 <= k -> 0 <= z < 256 ^ k -> Z.of_nat (byteLen z) <= k.
Proof.
  intros Hk [Hz Hlt].
  destruct (Z.eq_dec z 0) as [-> | Hne]; [simpl; lia |].
  rewrite byteLen_pos by lia.
  pose proof (byteLen_bounds z ltac:(lia)) as [Hlo _].
  assert (Hq : 0 <= Z.log2 z / 8) by (apply Z.div_pos; [apply Z.log2_nonneg | lia]).
  destruct (Z_lt_le_dec (Z.log2 z / 8) k) as [Hlt' | Hge]; [lia |].
  exfalso.
  assert (256 ^ k <= 256 ^ (Z.log2 z / 8)) by (apply Z.pow_le_mono_r; lia).
  lia.
Qed.

Lemma byteLen_ge_1 (z : Z) : 0 < z -> 1 <= Z.of_nat (byteLen z).
Proof.
  intros Hz. rewrite byteLen_pos by exact Hz.
  assert (0 <= Z.log2 z / 8) by (apply Z.div_pos; [apply Z.log2_nonneg | lia]).
  lia.
Qed.

(** *** Items *)

Lemma take_app (a r : bytes) : RLP.take (blen a) (a ++ r) = Some (a, r).
Proof.
  unfold RLP.take, blen.
  rewrite length_app, Nat2Z.id.
  replace ((0 <=? Z.of_nat (length a)) &&
           (Z.of_nat (length a) <=? Z.of_nat (length a + length r))) with true.
  - rewrite firstn_app, Nat.sub_diag, firstn_all. simpl. rewrite app_nil_r.
    rewrite skipn_app, Nat.sub_diag, skipn_all. reflexivity.
  - symmetry. apply andb_true_iff. split; apply Z.leb_le; lia.
Qed.

Lemma readSize_putint (n : Z) (rest : bytes) :
  56 <= n ->
  RLP.readSize (blen (putint n)) (putint n ++ rest) = Some (n, rest).
Proof.
  intros Hn. unfold RLP.readSize. rewrite take_app.
  rewrite fromBE_putint, noLeadingZero_putint by lia.
  replace (56 <=? n) with true by (symmetry; apply Z.leb_le; exact Hn).
  reflexivity.
Qed.

Lemma long_header_size (n : Z) :
  56 <= n < 2 ^ 64 -> 1 <= blen (putint n) <= 8.
Proof.
  intros [Hlo Hhi]. rewrite blen_putint. split.
  - apply byteLen_ge_1. lia.
  - apply byteLen_le; [lia |]. split; [lia |].
    change (256 ^ 8) with (2 ^ 64). exact Hhi.
Qed.

Lemma blen_nonneg (b : bytes) : 0 <= blen b.
Proof. unfold blen. lia. Qed.

Lemma decItem_encBytes (b rest : bytes) :
  blen b < 2 ^ 64 ->
  RLP.decItem (RLP.encBytes b ++ rest) = Some (RLP.Str, b, rest).
Proof.
  intros Hlen. pose proof (blen_nonneg b) as Hnn.
  assert (Hgen : (length b <> 1)%nat \/ (exists x, b = [x] /\ 128 <= x) ->
                 RLP.decItem ((RLP.header 128 (blen b) ++ b) ++ rest)
                 = Some (RLP.Str, b, rest)).
  { intros Hshape. unfold RLP.header.
    destruct (Z.ltb_spec (blen b) 56) as [Hs | Hl].
    - cbn [app RLP.decItem].
      destruct (Z.ltb_spec (128 + blen b) 128); [lia |].
      destruct (Z.ltb_spec (128 + blen b) 184); [| lia].
      replace (128 + blen b - 128) with (blen b) by lia.
      rewrite take_app.
      destruct b as [| x [| y b']]; try reflexivity.
      destruct Hshape as [Hne | [x' [Hx Hge]]]; [simpl in Hne; lia |].
      inversion Hx; subst x'.
      destruct (Z.ltb_spec x 128); [lia | reflexivity].
    - pose proof (long_header_size (blen b) ltac:(lia)) as Hsz.
      cbn [app RLP.decItem].
      destruct (Z.ltb_spec (128 + 55 + blen (putint (blen b))) 128); [lia |].
      destruct (Z.ltb_spec (128 + 55 + blen (putint (blen b))) 184); [lia |].
      destruct (Z.ltb_spec (128 + 55 + blen (putint (blen b))) 192); [| lia].
      replace (128 + 55 + blen (putint (blen b)) - 183)
        with (blen (putint (blen b))) by lia.
      rewrite <- app_assoc, readSize_putint by lia.
      rewrite take_app. reflexivity. }
  unfold RLP.encBytes.
  destruct b as [| x [| y b']].
  - apply Hgen. left; simpl; lia.
  - destruct (Z.ltb_spec x 128) as [Hx | Hx].
    + cbn [app RLP.decItem].
      destruct (Z.ltb_spec x 128); [reflexivity | lia].
    + change 1 with (blen [x]). apply Hgen. right. exists x. split; [reflexivity | lia].
  - apply Hgen. left; simpl; lia.
Qed.

Lemma decItem_encList (payload rest : bytes) :
  blen payload < 2 ^ 64 ->
  RLP.decItem (RLP.encList payload ++ rest) = Some (RLP.Lst, payload, rest).
Proof.
  intros Hlen. pose proof (blen_nonneg payload) as Hnn.
  unfold RLP.encList, RLP.header.
  destruct (Z.ltb_spec (blen payload) 56) as [Hs | Hl].
  - cbn [app RLP.decItem].
    destruct (Z.ltb_spec (192 + blen payload) 128); [lia |].
    destruct (Z.ltb_spec (192 + blen payload) 184); [lia |].
    destruct (Z.ltb_spec (192 + blen payload) 192); [lia |].
    destruct (Z.ltb_spec (192 + blen payload) 248); [| lia].
    replace (192 + blen payload - 192) with (blen payload) by lia.
    rewrite take_app. reflexivity.
  - pose proof (long_header_size (blen payload) ltac:(lia)) as Hsz.
    cbn [app RLP.decItem].
    destruct (Z.ltb_spec (192 + 55 + blen (putint (blen payload))) 128); [lia |].
    destruct (Z.ltb_spec (192 + 55 + blen (putint (blen payload))) 184); [lia |].
    destruct (Z.ltb_spec (192 + 55 + blen (putint (blen payload))) 192); [lia |].
    destruct (Z.ltb_spec (192 + 55 + blen (putint (blen payload))) 248); [lia |].
    replace (192 + 55 + blen (putint (blen payload)) - 247)
      with (blen (putint (blen payload))) by lia.
    rewrite <- app_assoc, readSize_putint by lia.
    rewrite take_app. reflexivity.
Qed.

Lemma decString_encBytes (b rest : bytes) :
  blen b < 2 ^ 64 ->
  RLP.decString (RLP.encBytes b ++ rest) = Some (b, rest).
Proof.
  intros H. unfold RLP.decString. rewrite decItem_encBytes by exact H. reflexivity.
Qed.

Lemma decBigInt_encUint (z : Z) (rest : bytes) :
  0 <= z -> blen (putint z) < 2 ^ 64 ->
  RLP.decBigInt (RLP.encUint z ++ rest) = Some (z, rest).
Proof.
  intros Hz Hlen. unfold RLP.decBigInt, RLP.encUint.
  rewrite decString_encBytes by exact Hlen.
  rewrite noLeadingZero_putint, fromBE_putint by exact Hz. reflexivity.
Qed.

Lemma decUint64_encUint (z : Z) (rest : bytes) :
  0 <= z < 2 ^ 64 ->
  RLP.decUint64 (RLP.encUint z ++ rest) = Some (z, rest).
Proof.
  intros Hz.
  assert (Hlen : blen (putint z) <= 8).
  { rewrite blen_putint. apply byteLen_le; [lia |].
    change (256 ^ 8) with (2 ^ 64). exact Hz. }
  unfold RLP.decUint64, RLP.encUint.
  rewrite decString_encBytes by lia.
  rewrite noLeadingZero_putint, fromBE_putint by lia.
  replace (blen (putint z) <=? 8) with true by (symmetry; apply Z.leb_le; exact Hlen).
  reflexivity.
Qed.

(** An encoded string is at most nine bytes longer than the string. *)
Lemma blen_app (a b : bytes) : blen (a ++ b) = blen a + blen b.
Proof. unfold blen. rewrite length_app. lia. Qed.

Lemma blen_encBytes (b : bytes) :
  blen b < 2 ^ 64 -> blen (RLP.encBytes b) <= blen b + 9.
Proof.
  intros Hlen. pose proof (blen_nonneg b) as Hnn.
  assert (Hh : blen (RLP.header 128 (blen b)) <= 9).
  { unfold RLP.header. destruct (Z.ltb_spec (blen b) 56).
    - unfold blen; simpl; lia.
    - pose proof (long_header_size (blen b) ltac:(lia)).
      change (blen ((128 + 55 + blen (putint (blen b))) :: putint (blen b)))
        with (Z.of_nat (S (length (putint (blen b))))).
      unfold blen in *. lia. }
  unfold RLP.encBytes. destruct b as [| x [| y b']].
  - rewrite blen_app. lia.
  - destruct (x <? 128); [unfold blen; simpl; lia |].
    rewrite blen_app. change 1 with (blen [x]) in *. lia.
  - rewrite blen_app. lia.
Qed.

(** *** Accounts *)

Lemma bytesEqual_eq (a : bytes) : forall b, bytesEqual a b = true <-> a = b.
Proof.
  induction a as [| x a IH]; intros [| y b]; simpl; split; intros H;
    try reflexivity; try discriminate.
  - apply andb_true_iff in H. destruct H as [Hxy Hab].
    apply Z.eqb_eq in Hxy. apply IH in Hab. subst. reflexivity.
  - inversion H; subst. rewrite Z.eqb_refl. simpl. apply IH. reflexivity.
Qed.

Lemma blen_hashBytes (h : Hash) : blen (hashBytes h) = 32.
Proof. unfold blen, hashBytes. rewrite length_toBE. reflexivity. Qed.

Lemma BytesToHash_hashBytes (h : Hash) : validHash h -> BytesToHash (hashBytes h) = h.
Proof.
  unfold validHash, BytesToHash, hashBytes. intros Hh.
  rewrite fromBE_toBE.
  change (256 ^ Z.of_nat 32) with hashModulus.
  rewrite Z.mod_mod by (unfold hashModulus; lia).
  apply Z.mod_small. exact Hh.
Qed.

Lemma decodeSlim_encodeSlim (slim : SlimAccount) :
  0 <= sl_Nonce slim < 2 ^ 64 ->
  0 <= sl_Balance slim ->
  blen (putint (sl_Balance slim)) + blen (sl_Root slim) + blen (sl_CodeHash slim)
    < 2 ^ 63 + 32 ->
  exists data, encodeSlim slim = Some data /\ decodeSlim data = Some slim.
Proof.
  intros Hnonce Hbal Hsize.
  pose proof (blen_nonneg (putint (sl_Balance slim))) as Hb0.
  pose proof (blen_nonneg (sl_Root slim)) as Hr0.
  pose proof (blen_nonneg (sl_CodeHash slim)) as Hc0.
  assert (Hn8 : blen (putint (sl_Nonce slim)) <= 8).
  { rewrite blen_putint. apply byteLen_le; [lia |].
    change (256 ^ 8) with (2 ^ 64). exact Hnonce. }
  pose proof (blen_nonneg (putint (sl_Nonce slim))) as Hn0.
  assert (H63 : 2 ^ 63 + 32 + 100 < 2 ^ 64) by (vm_compute; reflexivity).
  unfold encodeSlim.
  replace (sl_Balance slim <? 0) with false
    by (symmetry; apply Z.ltb_ge; exact Hbal).
  eexists; split; [reflexivity |].
  unfold decodeSlim, RLP.decStruct.
  rewrite <- (app_nil_r (RLP.encList _)).
  rewrite decItem_encList.
  - rewrite decUint64_encUint by exact Hnonce.
    rewrite decBigInt_encUint by lia.
    rewrite decString_encBytes by lia.
    rewrite <- (app_nil_r (RLP.encBytes (sl_CodeHash slim))).
    rewrite decString_encBytes by lia.
    destruct slim; reflexivity.
  - rewrite !blen_app. unfold RLP.encUint.
    pose proof (blen_encBytes (putint (sl_Nonce slim)) ltac:(lia)).
    pose proof (blen_encBytes (putint (sl_Balance slim)) ltac:(lia)).
    pose proof (blen_encBytes (sl_Root slim) ltac:(lia)).
    pose proof (blen_encBytes (sl_CodeHash slim) ltac:(lia)).
    lia.
Qed.

(** C6 (amended): for every state account whose code hash is not the
    empty slice, decoding the slim encoding gives the account back -
    nonce, balance, root and code hash - and [FullAccountRLP] of the slim
    encoding is the RLP encoding of the account. *)
Theorem C6_slim_encoding_round_trip (a : StateAccount) :
  wellFormedAccount a ->
  sa_CodeHash a <> [] ->
  exists data full,
    SlimAccountRLP a = Ok data /\
    FullAccount data = Some a /\
    encodeAccount a = Some full /\
    FullAccountRLP data = Some full.
Proof.
  intros [Hnonce [Hbal [Hroot Hsize]]] Hcode.
  set (slim := mkSlimAccount (sa_Nonce a) (sa_Balance a)
         (if sa_Root a =? EmptyRootHash then [] else hashBytes (sa_Root a))
         (if bytesEqual (sa_CodeHash a) (hashBytes EmptyCodeHash)
          then [] else sa_CodeHash a)).
  assert (Hr : blen (sl_Root slim) <= 32).
  { simpl. destruct (sa_Root a =? EmptyRootHash).
    - unfold blen; simpl; lia.
    - rewrite blen_hashBytes; lia. }
  assert (Hc : blen (sl_CodeHash slim) <= blen (sa_CodeHash a)).
  { simpl. destruct (bytesEqual (sa_CodeHash a) (hashBytes EmptyCodeHash)).
    - apply blen_nonneg.
    - lia. }
  destruct (decodeSlim_encodeSlim slim) as [data [Henc Hdec]];
    [exact Hnonce | exact Hbal | simpl sl_Balance; lia |].
  assert (Hfull : FullAccount data = Some a).
  { unfold FullAccount. rewrite Hdec. simpl.
    assert (Hroot' : (if blen (if sa_Root a =? EmptyRootHash then []
                               else hashBytes (sa_Root a)) =? 0
                      then EmptyRootHash
                      else BytesToHash (if sa_Root a =? EmptyRootHash then []
                                        else hashBytes (sa_Root a)))
                     = sa_Root a).
    { destruct (Z.eqb_spec (sa_Root a) EmptyRootHash) as [E | E].
      - simpl. symmetry; exact E.
      - rewrite blen_hashBytes. simpl.
        apply BytesToHash_hashBytes; exact Hroot. }
    assert (Hcode' : (if blen (if bytesEqual (sa_CodeHash a) (hashBytes EmptyCodeHash)
                               then [] else sa_CodeHash a) =? 0
                      then hashBytes EmptyCodeHash
                      else (if bytesEqual (sa_CodeHash a) (hashBytes EmptyCodeHash)
                            then [] else sa_CodeHash a))
                     = sa_CodeHash a).
    { destruct (bytesEqual (sa_CodeHash a) (hashBytes EmptyCodeHash)) eqn:E.
      - apply bytesEqual_eq in E. simpl. symmetry; exact E.
      - destruct (Z.eqb_spec (blen (sa_CodeHash a)) 0) as [E0 | E0]; [| reflexivity].
        exfalso. apply Hcode. destruct (sa_CodeHash a); [reflexivity |].
        unfold blen in E0; simpl in E0; lia. }
    rewrite Hroot', Hcode'. destruct a; reflexivity. }
  assert (Henca : exists full, encodeAccount a = Some full).
  { unfold encodeAccount.
    replace (sa_Balance a <? 0) with false
      by (symmetry; apply Z.ltb_ge; exact Hbal).
    eexists; reflexivity. }
  destruct Henca as [full Hfa].
  exists data, full.
  split.
  { unfold SlimAccountRLP. fold slim. rewrite Henc. reflexivity. }
  split; [exact Hfull |].
  split; [exact Hfa |].
  unfold FullAccountRLP. rewrite Hfull. exact Hfa.
Qed.

Lemma wellFormed_plainAccount : wellFormedAccount plainAccount.
Proof.
  unfold wellFormedAccount, validHash, plainAccount; simpl.
  repeat split; try lia; vm_compute; congruence.
Qed.

Lemma C6_plain_account_witness :
  wellFormedAccount plainAccount /\
  sa_CodeHash plainAccount <> [] /\
  exists data full,
    SlimAccountRLP plainAccount = Ok data /\
    FullAccount data = Some plainAccount /\
    encodeAccount plainAccount = Some full /\
    FullAccountRLP data = Some full.
Proof.
  assert (Hne : sa_CodeHash plainAccount <> []) by (vm_compute; discriminate).
  split; [exact wellFormed_plainAccount |].
  split; [exact Hne |].
  exact (C6_slim_encoding_round_trip plainAccount wellFormed_plainAccount Hne).
Defined.

(** C6, as stated, fails: a state account with an empty code hash comes
    back with the hash of the empty code, and the full encoding of its slim
    form is not its own RLP encoding. *)
Lemma C6_empty_code_hash_is_not_recovered :
  exists data back,
    SlimAccountRLP hashlessAccount = Ok data /\
    FullAccount data = Some back /\
    wellFormedAccount hashlessAccount /\
    sa_CodeHash hashlessAccount = [] /\
    sa_CodeHash back = hashBytes EmptyCodeHash /\
    back <> hashlessAccount /\
    FullAccountRLP data <> encodeAccount hashlessAccount.
Proof.
  eexists; eexists.
  split; [vm_compute; reflexivity |].
  split; [vm_compute; reflexivity |].
  split.
  { unfold wellFormedAccount, validHash, hashlessAccount; simpl.
    repeat split; try lia; vm_compute; congruence. }
  split; [reflexivity |].
  split; [vm_compute; reflexivity |].
  split; vm_compute; discriminate.
Qed.

(** ** C7: heal-request ordering *)

(** *** The comparison *)

Lemma bytesCompare_eq (a : bytes) : forall b, bytesCompare a b = Eq <-> a = b.
Proof.
  induction a as [| x a IH]; intros [| y b]; simpl; split; intros H;
    try reflexivity; try discriminate.
  - destruct (x ?= y) eqn:E; try discriminate.
    apply Z.compare_eq in E. apply IH in H. subst. reflexivity.
  - inversion H; subst. rewrite Z.compare_refl. apply IH. reflexivity.
Qed.

Lemma bytesCompare_antisym (a : bytes) : forall b,
  bytesCompare b a = CompOpp (bytesCompare a b).
Proof.
  induction a as [| x a IH]; intros [| y b]; simpl; try reflexivity.
  rewrite (Z.compare_antisym x y).
  destruct (x ?= y); simpl; [apply IH | reflexivity | reflexivity].
Qed.

Lemma bytesCompare_trans (a : bytes) : forall b c,
  bytesCompare a b = Lt -> bytesCompare b c = Lt -> bytesCompare a c = Lt.
Proof.
  induction a as [| x a IH]; intros [| y b] [| z c]; simpl; intros H1 H2;
    try reflexivity; try discriminate.
  destruct (x ?= y) eqn:E1; try discriminate;
    destruct (y ?= z) eqn:E2; try discriminate.
  - apply Z.compare_eq in E1, E2. subst. rewrite Z.compare_refl. eapply IH; eauto.
  - apply Z.compare_eq in E1. subst. rewrite E2. reflexivity.
  - apply Z.compare_eq in E2. subst. rewrite E1. reflexivity.
  - rewrite Z.compare_lt_iff in E1, E2.
    replace (x ?= z) with Lt by (symmetry; apply Z.compare_lt_iff; lia).
    reflexivity.
Qed.

Lemma syncPathLess_compare (a b : SyncPath) :
  syncPathLess a b = match syncCompare a b with Lt => true | _ => false end.
Proof.
  unfold syncPathLess, syncCompare.
  destruct (bytesCompare (seg 0 a) (seg 0 b)); try reflexivity.
  destruct (Nat.compare_spec (length a) (length b)) as [E | E | E].
  - rewrite E, Nat.ltb_irrefl.
    destruct (length b =? 2)%nat; reflexivity.
  - apply Nat.ltb_lt in E. rewrite E. reflexivity.
  - assert (E1 : (length a <? length b)%nat = false) by (apply Nat.ltb_ge; lia).
    apply Nat.ltb_lt in E. rewrite E1, E. reflexivity.
Qed.

Lemma syncCompare_antisym (a b : SyncPath) :
  syncCompare b a = CompOpp (syncCompare a b).
Proof.
  unfold syncCompare.
  rewrite (bytesCompare_antisym (seg 0 a) (seg 0 b)).
  destruct (bytesCompare (seg 0 a) (seg 0 b)); simpl; try reflexivity.
  rewrite (Nat.compare_antisym (length a) (length b)).
  destruct (Nat.compare_spec (length a) (length b)) as [E | E | E]; simpl;
    try reflexivity.
  rewrite E. destruct (length b =? 2)%nat; [| reflexivity].
  apply bytesCompare_antisym.
Qed.

Lemma syncCompare_Eq (a b c : SyncPath) :
  syncCompare a b = Eq -> syncCompare a c = syncCompare b c.
Proof.
  unfold syncCompare.
  destruct (bytesCompare (seg 0 a) (seg 0 b)) eqn:E0; try discriminate.
  apply bytesCompare_eq in E0.
  destruct (Nat.compare_spec (length a) (length b)) as [E1 | E1 | E1];
    try discriminate.
  rewrite E0, E1.
  destruct (length b =? 2)%nat eqn:E2; intros H.
  - apply bytesCompare_eq in H. rewrite H. reflexivity.
  - reflexivity.
Qed.

Lemma syncCompare_trans (a b c : SyncPath) :
  syncCompare a b = Lt -> syncCompare b c = Lt -> syncCompare a c = Lt.
Proof.
  unfold syncCompare.
  destruct (bytesCompare (seg 0 a) (seg 0 b)) eqn:A; try discriminate;
    destruct (bytesCompare (seg 0 b) (seg 0 c)) eqn:B; try discriminate.
  - apply bytesCompare_eq in A, B. rewrite A, B.
    replace (bytesCompare (seg 0 c) (seg 0 c)) with Eq
      by (symmetry; apply bytesCompare_eq; reflexivity).
    destruct (Nat.compare_spec (length a) (length b)) as [E1 | E1 | E1];
      try discriminate;
      destruct (Nat.compare_spec (length b) (length c)) as [E2 | E2 | E2];
      try discriminate.
    + rewrite E1, E2, Nat.compare_refl.
      destruct (length c =? 2)%nat; [| discriminate].
      apply bytesCompare_trans.
    + intros _ _. replace (length a ?= length c)%nat with Lt
        by (symmetry; apply Nat.compare_lt_iff; lia). reflexivity.
    + intros _ _. replace (length a ?= length c)%nat with Lt
        by (symmetry; apply Nat.compare_lt_iff; lia). reflexivity.
    + intros _ _. replace (length a ?= length c)%nat with Lt
        by (symmetry; apply Nat.compare_lt_iff; lia). reflexivity.
  - apply bytesCompare_eq in A. rewrite A, B. reflexivity.
  - apply bytesCompare_eq in B. rewrite <- B, A. reflexivity.
  - rewrite (bytesCompare_trans _ _ _ A B). reflexivity.
Qed.

Lemma notAfter_compare (a b : SyncPath) :
  notAfter a b <-> syncCompare a b <> Gt.
Proof.
  unfold notAfter. rewrite syncPathLess_compare, syncCompare_antisym.
  destruct (syncCompare a b); simpl; split; intros H; congruence.
Qed.

Lemma Less_asym (a b : SyncPath) : syncPathLess a b = true -> notAfter a b.
Proof.
  rewrite notAfter_compare, syncPathLess_compare.
  destruct (syncCompare a b); intros H; congruence.
Qed.

Lemma notAfter_trans (a b c : SyncPath) :
  notAfter a b -> notAfter b c -> notAfter a c.
Proof.
  rewrite !notAfter_compare. intros Hab Hbc.
  destruct (syncCompare a b) eqn:E1; [| | congruence].
  - rewrite (syncCompare_Eq a b c E1). exact Hbc.
  - destruct (syncCompare b c) eqn:E2; [| | congruence].
    + assert (E3 : syncCompare c b = Eq).
      { rewrite syncCompare_antisym, E2. reflexivity. }
      pose proof (syncCompare_Eq c b a E3) as E4.
      rewrite (syncCompare_antisym a c), (syncCompare_antisym a b), E1 in E4.
      simpl in E4. destruct (syncCompare a c); simpl in E4; congruence.
    + rewrite (syncCompare_trans a b c E1 E2). congruence.
Qed.

(** [Less] is the order of section 4.B on sync paths of one or two
    segments. *)
Lemma syncPathLess_sectionOrder (a b : SyncPath) :
  (length a = 1 \/ length a = 2)%nat ->
  (length b = 1 \/ length b = 2)%nat ->
  (syncPathLess a b = true <-> sectionOrder a b).
Proof.
  intros Ha Hb. unfold syncPathLess, sectionOrder.
  destruct (bytesCompare (seg 0 a) (seg 0 b)) eqn:E0.
  - apply bytesCompare_eq in E0.
    destruct Ha as [Ha | Ha], Hb as [Hb | Hb]; rewrite Ha, Hb; simpl.
    + split; [discriminate |].
      intros [H | [_ [[_ H] | [[H _] _]]]]; try discriminate; lia.
    + split; [intros _; right; split; [exact E0 | left; split; reflexivity] |
              reflexivity].
    + split; [discriminate |].
      intros [H | [_ [[H _] | [[_ H] _]]]]; try discriminate; lia.
    + destruct (bytesCompare (seg 1 a) (seg 1 b)) eqn:E1; split; intros H;
        try discriminate; try reflexivity.
      * destruct H as [H | [_ [[H _] | [_ H]]]]; try discriminate; lia.
      * right; split; [exact E0 | right; split; [split; reflexivity | reflexivity]].
      * destruct H as [H | [_ [[H _] | [_ H]]]]; try discriminate; lia.
  - split; [intros _; left; reflexivity | reflexivity].
  - split; [discriminate |].
    intros [H | [H _]]; [discriminate |].
    apply bytesCompare_eq in H. congruence.
Qed.

(** *** The sort *)

Lemma sortInsert_perm (x : healEntry) (l : list healEntry) :
  Permutation (x :: l) (sortInsert x l).
Proof.
  induction l as [| y l IH]; simpl; [apply Permutation_refl |].
  destruct (Less x y); [apply Permutation_refl |].
  eapply Permutation_trans; [apply perm_swap |].
  apply perm_skip. exact IH.
Qed.

Lemma sortInsert_sorted (x : healEntry) (l : list healEntry) :
  StronglySorted entryNotAfter l -> StronglySorted entryNotAfter (sortInsert x l).
Proof.
  induction l as [| y l IH]; simpl; intros Hs.
  - constructor; [constructor | constructor].
  - inversion Hs as [| ? ? Hl Hy]; subst.
    destruct (Less x y) eqn:E.
    + constructor; [exact Hs |].
      assert (Hxy : entryNotAfter x y) by (apply Less_asym; exact E).
      constructor; [exact Hxy |].
      eapply Forall_impl; [| exact Hy].
      intros z Hyz. eapply notAfter_trans; eauto.
    + constructor; [apply IH; exact Hl |].
      eapply Permutation_Forall; [apply sortInsert_perm |].
      constructor; [exact E | exact Hy].
Qed.

Lemma fold_sortInsert_perm (l : list healEntry) :
  Permutation l (fold_right sortInsert [] l).
Proof.
  induction l as [| x l IH]; simpl; [constructor |].
  eapply Permutation_trans; [apply perm_skip; exact IH | apply sortInsert_perm].
Qed.

Lemma fold_sortInsert_sorted (l : list healEntry) :
  StronglySorted entryNotAfter (fold_right sortInsert [] l).
Proof.
  induction l as [| x l IH]; simpl; [constructor |].
  apply sortInsert_sorted; exact IH.
Qed.

Lemma sortSort_perm (l : list healEntry) : Permutation l (sortSort l).
Proof.
  unfold sortSort.
  eapply Permutation_trans; [apply Permutation_rev | apply fold_sortInsert_perm].
Qed.

Lemma sortSort_sorted (l : list healEntry) :
  StronglySorted entryNotAfter (sortSort l).
Proof. apply fold_sortInsert_sorted. Qed.

Lemma sorted_syncPaths (l : list healEntry) :
  StronglySorted entryNotAfter l ->
  StronglySorted notAfter (map he_syncPath l).
Proof.
  induction 1 as [| x l Hl IH Hx]; simpl; constructor; [exact IH |].
  apply Forall_map. exact Hx.
Qed.

(** *** The three slices *)

Lemma zipEntries_maps (paths : list bytes) :
  forall (hashes : list Hash) (syncPaths : list SyncPath),
    length paths = length hashes ->
    length paths = length syncPaths ->
    map he_path (zipEntries paths hashes syncPaths) = paths /\
    map he_hash (zipEntries paths hashes syncPaths) = hashes /\
    map he_syncPath (zipEntries paths hashes syncPaths) = syncPaths.
Proof.
  induction paths as [| p paths IH]; intros [| h hashes] [| s sps] H1 H2;
    try discriminate; simpl.
  - repeat split.
  - destruct (IH hashes sps) as [Ha [Hb Hc]]; [simpl in *; lia .. |].
    rewrite Ha, Hb, Hc. repeat split.
Qed.

Lemma combine_maps {A B C} (f : A -> B) (g : A -> C) (l : list A) :
  combine (map f l) (map g l) = map (fun x => (f x, g x)) l.
Proof. induction l as [| x l IH]; simpl; [reflexivity | rewrite IH; reflexivity]. Qed.

Lemma mapResult_Forall2 {A B} (f : A -> Result B) (l : list A) :
  forall l', mapResult f l = Ok l' -> Forall2 (fun x y => f x = Ok y) l l'.
Proof.
  induction l as [| x l IH]; simpl; intros l' H.
  - inversion H; constructor.
  - apply bind_Ok_inv in H; destruct H as [y [Hy H]].
    apply bind_Ok_inv in H; destruct H as [ys [Hys H]].
    inversion H; subst. constructor; [exact Hy | apply IH; exact Hys].
Qed.

Lemma mapResult_of_entries (l : list healEntry) :
  Forall (fun e => NewSyncPath (he_path e) = Ok (he_syncPath e)) l ->
  mapResult NewSyncPath (map he_path l) = Ok (map he_syncPath l).
Proof.
  induction 1 as [| e l He Hl IH]; simpl; [reflexivity |].
  rewrite He; simpl. rewrite IH; reflexivity.
Qed.

Lemma zipEntries_consistent (paths : list bytes) :
  forall (hashes : list Hash) (syncPaths : list SyncPath),
    Forall2 (fun x y => NewSyncPath x = Ok y) paths syncPaths ->
    Forall (fun e => NewSyncPath (he_path e) = Ok (he_syncPath e))
      (zipEntries paths hashes syncPaths).
Proof.
  induction paths as [| p paths IH]; intros hashes sps H; simpl; [constructor |].
  destruct hashes as [| h hashes]; [constructor |].
  inversion H as [| ? s ? sps' Hp Hrest]; subst.
  constructor; [exact Hp | apply IH; exact Hrest].
Qed.

(** *** Sync paths *)

Lemma hasTerm_nibbles (hex : bytes) : nibblePath hex -> hasTerm hex = false.
Proof.
  unfold hasTerm, nibblePath. intros H.
  destruct (rev hex) as [| last tl] eqn:E; [reflexivity |].
  assert (Hin : In last hex).
  { apply in_rev. rewrite E. left; reflexivity. }
  rewrite Forall_forall in H. specialize (H last Hin).
  apply Z.eqb_neq. lia.
Qed.

Lemma NewSyncPath_nibbles (path : bytes) :
  nibblePath path -> exists sp, NewSyncPath path = Ok sp.
Proof.
  intros Hn. unfold NewSyncPath.
  destruct (length path <? 64)%nat eqn:E; [eexists; reflexivity |].
  apply Nat.ltb_ge in E.
  unfold hexToKeybytes.
  rewrite hasTerm_nibbles.
  - rewrite length_firstn, Nat.min_l by exact E. simpl. eexists; reflexivity.
  - unfold nibblePath in *. rewrite <- (firstn_skipn 64 path) in Hn.
    apply Forall_app in Hn. apply Hn.
Qed.

Lemma NewSyncPath_segments (path : bytes) (sp : SyncPath) :
  NewSyncPath path = Ok sp -> (length sp = 1 \/ length sp = 2)%nat.
Proof.
  unfold NewSyncPath.
  destruct (length path <? 64)%nat.
  - intros H; inversion H; subst. left; reflexivity.
  - intros H. apply bind_Ok_inv in H; destruct H as [key [_ H]].
    inversion H; subst. right; reflexivity.
Qed.

Lemma mapResult_nibbles (paths : list bytes) :
  Forall nibblePath paths -> exists sps, mapResult NewSyncPath paths = Ok sps.
Proof.
  induction 1 as [| p paths Hp Hrest IH]; simpl; [eexists; reflexivity |].
  destruct (NewSyncPath_nibbles p Hp) as [sp Hsp].
  destruct IH as [sps Hsps].
  rewrite Hsp; simpl. rewrite Hsps; simpl. eexists; reflexivity.
Qed.

(** *** The merge *)

Lemma Merge_snoc (l : list SyncPath) (p : SyncPath) :
  Merge (l ++ [p]) = mergeStep (Merge l) p.
Proof. unfold Merge. rewrite fold_left_app. reflexivity. Qed.

Lemma expandPathSets_app (a b : list TrieNodePathSet) :
  expandPathSets (a ++ b) = expandPathSets a ++ expandPathSets b.
Proof. unfold expandPathSets. apply flat_map_app. Qed.

Lemma expandPathSets_snoc (a : list TrieNodePathSet) (q : TrieNodePathSet) :
  expandPathSets (a ++ [q]) = expandPathSets a ++ expandPathSet q.
Proof.
  rewrite expandPathSets_app. unfold expandPathSets at 2. simpl.
  rewrite app_nil_r. reflexivity.
Qed.

Lemma expandPathSet_snoc (a s : bytes) (slots : list bytes) (c : bytes) :
  expandPathSet ((a :: s :: slots) ++ [c]) =
  expandPathSet (a :: s :: slots) ++ [[a; c]].
Proof.
  simpl. rewrite map_app. reflexivity.
Qed.

Lemma mergedPathSets_prefix (xs ys : list TrieNodePathSet) :
  mergedPathSets (xs ++ ys) -> mergedPathSets xs.
Proof.
  intros H i p q Hp Hq. apply (H i).
  - rewrite nth_error_app1; [exact Hp |].
    apply nth_error_Some. rewrite Hp. discriminate.
  - rewrite nth_error_app1; [exact Hq |].
    apply nth_error_Some. rewrite Hq. discriminate.
Qed.

Lemma mergedPathSets_snoc (xs : list TrieNodePathSet) (q : TrieNodePathSet) :
  mergedPathSets xs ->
  (forall pre p, xs = pre ++ [p] -> (2 <= length q)%nat -> seg 0 p <> seg 0 q) ->
  mergedPathSets (xs ++ [q]).
Proof.
  intros Hxs Hlast i p q' Hp Hq Hlen.
  assert (Hi : (S i < length xs + 1)%nat).
  { assert (Hb : (S i < length (xs ++ [q]))%nat)
      by (apply nth_error_Some; rewrite Hq; discriminate).
    rewrite length_app in Hb. simpl in Hb. exact Hb. }
  destruct (Nat.eq_dec (S i) (length xs)) as [E | E].
  - rewrite nth_error_app2 in Hq by lia.
    replace (S i - length xs)%nat with O in Hq by lia.
    simpl in Hq. inversion Hq; subst q'.
    rewrite nth_error_app1 in Hp by lia.
    destruct (nth_error_split xs i Hp) as [pre [post [Hsplit Hpre]]].
    assert (post = []).
    { destruct post; [reflexivity |].
      rewrite Hsplit, length_app in E. simpl in E. lia. }
    subst post. apply (Hlast pre p Hsplit Hlen).
  - rewrite nth_error_app1 in Hp by lia.
    rewrite nth_error_app1 in Hq by lia.
    apply (Hxs i p q' Hp Hq Hlen).
Qed.

Lemma mergedPathSets_last_pair (pre : list TrieNodePathSet) (p q : TrieNodePathSet) :
  mergedPathSets ((pre ++ [p]) ++ [q]) -> (2 <= length q)%nat ->
  seg 0 p <> seg 0 q.
Proof.
  intros H Hlen. apply (H (length pre)); [| | exact Hlen].
  - rewrite <- app_assoc. rewrite nth_error_app2 by lia.
    rewrite Nat.sub_diag. reflexivity.
  - assert (Hl : length (pre ++ [p]) = S (length pre))
      by (rewrite length_app; simpl; lia).
    rewrite nth_error_app2 by lia.
    rewrite Hl, Nat.sub_diag. reflexivity.
Qed.

Lemma seg0_snoc (ps : list bytes) (c : bytes) :
  ps <> [] -> seg 0 (ps ++ [c]) = seg 0 ps.
Proof. destruct ps; [congruence | reflexivity]. Qed.

(** Without a clash, the path sets stand for exactly the sync paths they
    were merged from, in the same order, and storage requests of one
    account that follow one another are in one path set. *)
Lemma Merge_covers (l : list SyncPath) :
  Forall (fun p => length p = 1 \/ length p = 2)%nat l ->
  noAccountStorageClash l ->
  expandPathSets (Merge l) = l /\
  Forall (fun ps => ps <> []) (Merge l) /\
  mergedPathSets (Merge l).
Proof.
  induction l as [| p l IH] using rev_ind; intros Hvalid Hclash.
  - simpl. split; [reflexivity |]. split; [constructor |].
    intros i p q Hp; destruct i; discriminate.
  - apply Forall_app in Hvalid. destruct Hvalid as [Hl Hp].
    inversion Hp as [| ? ? Hplen _]; subst.
    assert (Hclash' : noAccountStorageClash l).
    { intros a q Ha Hq. apply Hclash; apply in_or_app; left; assumption. }
    destruct (IH Hl Hclash') as [Hexp [Hne Hmerged]].
    rewrite Merge_snoc. unfold mergeStep.
    assert (Happend : forall q : TrieNodePathSet,
               expandPathSet q = [p] -> q <> [] ->
               (forall pre x, Merge l = pre ++ [x] -> (2 <= length q)%nat ->
                              seg 0 x <> seg 0 q) ->
               expandPathSets (Merge l ++ [q]) = l ++ [p] /\
               Forall (fun ps => ps <> []) (Merge l ++ [q]) /\
               mergedPathSets (Merge l ++ [q])).
    { intros q Hq Hqne Hsep.
      split; [rewrite expandPathSets_snoc, Hexp, Hq; reflexivity |].
      split; [apply Forall_app; split; [exact Hne | constructor; [exact Hqne | constructor]] |].
      apply mergedPathSets_snoc; assumption. }
    destruct Hplen as [H1 | H2].
    + rewrite H1; simpl.
      destruct p as [| a [| b p']]; try discriminate.
      apply Happend; [reflexivity | discriminate |].
      intros pre x _ Hlen; simpl in Hlen; lia.
    + rewrite H2; simpl.
      destruct p as [| b [| c [| d p']]]; try discriminate.
      destruct (rev (Merge l)) as [| lastSet before] eqn:Erev.
      * apply Happend; [reflexivity | discriminate |].
        intros pre x Hx _. rewrite Hx, rev_app_distr in Erev. discriminate.
      * assert (Hres : Merge l = rev before ++ [lastSet]).
        { rewrite <- (rev_involutive (Merge l)), Erev. reflexivity. }
        destruct (bytesEqual (seg 0 [b; c]) (seg 0 lastSet)) eqn:Eeq.
        -- apply bytesEqual_eq in Eeq. simpl in Eeq.
           rewrite Hres in Hne. apply Forall_app in Hne.
           destruct Hne as [Hbefore HlastNe].
           inversion HlastNe as [| ? ? HlastNe' _]; subst.
           destruct lastSet as [| a [| s slots]]; [congruence | |].
           ++ exfalso. unfold seg in Eeq; simpl in Eeq. subst a.
              apply (Hclash b [b; c]).
              ** apply in_or_app; left. rewrite <- Hexp, Hres.
                 rewrite expandPathSets_app. apply in_or_app; right.
                 left; reflexivity.
              ** apply in_or_app; right; left; reflexivity.
              ** reflexivity.
              ** reflexivity.
           ++ unfold seg in Eeq; simpl in Eeq. subst a.
              change (seg 1 [b; c]) with c.
              split.
              { rewrite expandPathSets_snoc, expandPathSet_snoc.
                rewrite Hres, expandPathSets_snoc in Hexp.
                rewrite <- Hexp, app_assoc. reflexivity. }
              split.
              { apply Forall_app; split; [exact Hbefore |].
                constructor; [discriminate | constructor]. }
              rewrite Hres in Hmerged.
              apply mergedPathSets_snoc.
              { eapply mergedPathSets_prefix; exact Hmerged. }
              intros pre x Hx _.
              rewrite Hx in Hmerged.
              pose proof (mergedPathSets_last_pair pre x (b :: s :: slots) Hmerged
                            ltac:(simpl; lia)) as Hsep.
              exact Hsep.
        -- apply Happend; [reflexivity | discriminate |].
           intros pre x Hx _. rewrite Hres in Hx.
           apply app_inj_tail in Hx. destruct Hx as [_ Hx]. subst x.
           intros Heq. simpl in Heq.
           assert (Ht : bytesEqual (seg 0 [b; c]) (seg 0 lastSet) = true).
           { apply bytesEqual_eq. simpl. symmetry; exact Heq. }
           congruence.
Qed.

(** *** The whole of [sortByAccountPath] *)

Lemma mapResult_segments (paths : list bytes) (sps : list SyncPath) :
  mapResult NewSyncPath paths = Ok sps ->
  Forall (fun p => length p = 1 \/ length p = 2)%nat sps.
Proof.
  intros H. apply mapResult_Forall2 in H.
  induction H as [| p sp paths' sps' Hp _ IH]; constructor; [| exact IH].
  eapply NewSyncPath_segments; exact Hp.
Qed.

Lemma short_list_sorted (sps : list SyncPath) :
  (length sps <= 1)%nat -> StronglySorted notAfter sps.
Proof.
  destruct sps as [| x [| y sps]]; simpl; intros H; try lia.
  - constructor.
  - constructor; constructor.
Qed.

(** C7 (amended): for heal paths and hashes of the same number,
    [sortByAccountPath] returns the same (path, hash) pairs, with their
    sync paths, in the order of section 4.B: no entry is [Less] than an
    earlier one, [Less] being that order.  The path sets are the merge of
    the sorted sync paths; provided no account-trie request has the
    account segment of a storage request as its only segment, they stand
    for exactly the sorted sync paths, and storage requests of one account
    that follow one another share one path set headed by the account
    path. *)
Theorem C7_sortByAccountPath_orders_and_covers
  (paths : list bytes) (hashes : list Hash) :
  length paths = length hashes ->
  Forall nibblePath paths ->
  exists r,
    sortByAccountPath paths hashes = Ok r /\
    Permutation (combine (sr_paths r) (sr_hashes r)) (combine paths hashes) /\
    mapResult NewSyncPath (sr_paths r) = Ok (sr_syncPaths r) /\
    StronglySorted notAfter (sr_syncPaths r) /\
    (forall a b, In a (sr_syncPaths r) -> In b (sr_syncPaths r) ->
       (syncPathLess a b = true <-> sectionOrder a b)) /\
    sr_pathsets r = Merge (sr_syncPaths r) /\
    (noAccountStorageClash (sr_syncPaths r) ->
     expandPathSets (sr_pathsets r) = sr_syncPaths r /\
     mergedPathSets (sr_pathsets r)).
Proof.
  intros Hlen Hnib.
  destruct (mapResult_nibbles paths Hnib) as [sps Hsps].
  pose proof (mapResult_Forall2 _ _ _ Hsps) as Hall.
  pose proof (Forall2_length Hall) as Hlsps.
  assert (Hfinish : forall r,
    mapResult NewSyncPath (sr_paths r) = Ok (sr_syncPaths r) ->
    sr_pathsets r = Merge (sr_syncPaths r) ->
    (forall a b, In a (sr_syncPaths r) -> In b (sr_syncPaths r) ->
       (syncPathLess a b = true <-> sectionOrder a b)) /\
    sr_pathsets r = Merge (sr_syncPaths r) /\
    (noAccountStorageClash (sr_syncPaths r) ->
     expandPathSets (sr_pathsets r) = sr_syncPaths r /\
     mergedPathSets (sr_pathsets r))).
  { intros r Hmap Hsets.
    pose proof (mapResult_segments _ _ Hmap) as Hvalid.
    split.
    - intros a b Ha Hb. rewrite Forall_forall in Hvalid.
      apply syncPathLess_sectionOrder; apply Hvalid; assumption.
    - split; [exact Hsets |].
      intros Hclash. rewrite Hsets.
      destruct (Merge_covers _ Hvalid Hclash) as [H1 [_ H3]].
      split; assumption. }
  unfold sortByAccountPath. rewrite Hsps. simpl Go.bind.
  destruct (length hashes <=? 1)%nat eqn:Eshort.
  - apply Nat.leb_le in Eshort.
    eexists. split; [reflexivity |]. simpl.
    split; [apply Permutation_refl |].
    split; [exact Hsps |].
    split; [apply short_list_sorted; lia |].
    apply (Hfinish (mkSortedHealRequest paths hashes sps (Merge sps)));
      [exact Hsps | reflexivity].
  - replace (length paths <? length hashes)%nat with false
      by (symmetry; apply Nat.ltb_ge; lia).
    assert (Hs1 : skipn (length hashes) paths = [])
      by (apply skipn_all2; lia).
    assert (Hs2 : skipn (length hashes) sps = [])
      by (apply skipn_all2; lia).
    rewrite Hs1, Hs2, !app_nil_r.
    set (entries := zipEntries paths hashes sps).
    destruct (zipEntries_maps paths hashes sps Hlen Hlsps) as [Zp [Zh Zs]].
    fold entries in Zp, Zh, Zs.
    pose proof (sortSort_perm entries) as Hperm.
    eexists. split; [reflexivity |]. simpl.
    split.
    { assert (Hc : combine paths hashes
                   = map (fun e => (he_path e, he_hash e)) entries).
      { rewrite <- combine_maps, Zp, Zh. reflexivity. }
      rewrite Hc, combine_maps.
      apply Permutation_map. apply Permutation_sym. exact Hperm. }
    assert (Hmap : mapResult NewSyncPath (map he_path (sortSort entries))
                   = Ok (map he_syncPath (sortSort entries))).
    { apply mapResult_of_entries.
      eapply Permutation_Forall; [exact Hperm |].
      apply zipEntries_consistent. exact Hall. }
    split; [exact Hmap |].
    split; [apply sorted_syncPaths, sortSort_sorted |].
    apply (Hfinish (mkSortedHealRequest (map he_path (sortSort entries))
                      (map he_hash (sortSort entries))
                      (map he_syncPath (sortSort entries))
                      (Merge (map he_syncPath (sortSort entries)))));
      [exact Hmap | reflexivity].
Qed.

Lemma C7_storage_paths_witness :
  length sampleHealPaths = length sampleHealHashes /\
  Forall nibblePath sampleHealPaths /\
  exists r,
    sortByAccountPath sampleHealPaths sampleHealHashes = Ok r /\
    Permutation (combine (sr_paths r) (sr_hashes r))
                (combine sampleHealPaths sampleHealHashes) /\
    mapResult NewSyncPath (sr_paths r) = Ok (sr_syncPaths r) /\
    StronglySorted notAfter (sr_syncPaths r) /\
    (forall a b, In a (sr_syncPaths r) -> In b (sr_syncPaths r) ->
       (syncPathLess a b = true <-> sectionOrder a b)) /\
    sr_pathsets r = Merge (sr_syncPaths r) /\
    length (sr_syncPaths r) = 3%nat /\
    length (sr_pathsets r) = 2%nat /\
    noAccountStorageClash (sr_syncPaths r) /\
    expandPathSets (sr_pathsets r) = sr_syncPaths r /\
    mergedPathSets (sr_pathsets r).
Proof.
  assert (Hn : Forall nibblePath sampleHealPaths).
  { unfold sampleHealPaths, nibblePath. cbn [repeat app].
    repeat (apply Forall_cons; [repeat (apply Forall_cons; [lia |]); apply Forall_nil |]).
    apply Forall_nil. }
  split; [reflexivity |].
  split; [exact Hn |].
  destruct (C7_sortByAccountPath_orders_and_covers sampleHealPaths sampleHealHashes
              eq_refl Hn) as [r [Hr [Hp [Hm [Hs [Ho [Hg Hc]]]]]]].
  exists r.
  split; [exact Hr |]. split; [exact Hp |]. split; [exact Hm |].
  split; [exact Hs |]. split; [exact Ho |]. split; [exact Hg |].
  assert (Er : Ok r = sortByAccountPath sampleHealPaths sampleHealHashes)
    by (symmetry; exact Hr).
  vm_compute in Er. injection Er as Er.
  assert (Hclash : noAccountStorageClash (sr_syncPaths r)).
  { rewrite Er. cbn [sr_syncPaths]. intros a p Ha Hq Hl.
    destruct Ha as [Ha | [Ha | [Ha | []]]]; try discriminate Ha.
    injection Ha as Ea. subst a.
    destruct Hq as [Hq | [Hq | [Hq | []]]]; subst p;
      [discriminate Hl | |]; cbn [seg nth]; discriminate. }
  destruct (Hc Hclash) as [He Hmg].
  split; [rewrite Er; reflexivity |].
  split; [rewrite Er; reflexivity |].
  split; [exact Hclash |]. split; assumption.
Defined.

(** C7, as stated, fails: with an account-trie path 63 nibbles deep and
    the storage root of the account whose key is the compact form of that
    path, the sorted requests are two and the merged path sets stand for
    one of them only - the account-trie request is folded into the storage
    request. *)
Lemma C7_account_request_lost_in_merge :
  length [clashingStoragePath; deepAccountPath] = length [2; 1] /\
  Forall nibblePath [clashingStoragePath; deepAccountPath] /\
  exists r account,
    sortByAccountPath [clashingStoragePath; deepAccountPath] [2; 1] = Ok r /\
    sr_paths r = [deepAccountPath; clashingStoragePath] /\
    sr_syncPaths r = [[account]; [account; [0]]] /\
    sr_pathsets r = [[account; [0]]] /\
    expandPathSets (sr_pathsets r) = [[account; [0]]] /\
    expandPathSets (sr_pathsets r) <> sr_syncPaths r.
Proof.
  split; [reflexivity |].
  split.
  { unfold clashingStoragePath, deepAccountPath.
    repeat constructor; lia. }
  eexists; eexists.
  split; [vm_compute; reflexivity |].
  repeat split; try (vm_compute; reflexivity).
  vm_compute; discriminate.
Qed.

(** ** The unprocessed producer without storage work *)

(** With no account task left - the heal phase - [getBatchFromUnprocessed]
    never assigns [storages] and dereferences it: the heal tail is not
    reached. *)
Lemma getBatchFromUnprocessed_panics_without_account_tasks
  (healTail : Manager -> Z -> Result (Manager * option healTask * option healTask))
  (s : Manager) (n : Z) (withHealTasks : bool) :
  0 <= n ->
  GoMap.items (accountTasks (m_tasks s)) = [] ->
  getBatchFromUnprocessed healTail s n withHealTasks = Panic NilDeref.
Proof.
  intros Hn Hempty. unfold getBatchFromUnprocessed.
  replace (n <? 0) with false by (symmetry; apply Z.ltb_ge; exact Hn).
  rewrite Hempty. simpl. rewrite Hempty. simpl. rewrite Hempty. reflexivity.
Qed.

(** ** The partition loop on an initialised map *)

Lemma drawTaskID_spec {V} (used : GoMap.t V) (tape : list Z) :
  forall id tape',
    drawTaskID used tape = Ok (id, tape') ->
    id <> 0 /\ GoMap.mem id used = false.
Proof.
  induction tape as [| r tape IH]; simpl; intros id tape' H; [discriminate |].
  destruct (r =? 0) eqn:E0; simpl in H; [apply IH in H; exact H |].
  destruct (GoMap.mem r used) eqn:Em; [apply IH in H; exact H |].
  inversion H; subst. split; [apply Z.eqb_neq; exact E0 | exact Em].
Qed.

Lemma get_set_other {V} k k' (v : V) m m' :
  GoMap.set k' v m = Ok m' -> k <> k' -> GoMap.get k m' = GoMap.get k m.
Proof.
  destruct m as [l |]; simpl; intros H Hne; inversion H; subst.
  unfold GoMap.get; simpl. apply find_put_other; exact Hne.
Qed.

(** Whenever the loop returns, it has appended one task per iteration,
    with the intervals of [freshIntervals] and a non-zero id, and each of
    them is registered under its id; the entries already in the map are
    untouched. *)
Lemma freshAccountTasks_spec (iters : list Z) :
  forall s next s',
    freshAccountTasks s next iters = Ok s' ->
    exists created,
      m_accts s' = m_accts s ++ created /\
      map (fun t => (at_Next t, at_Last t)) created = freshIntervals next iters /\
      Forall (fun t => at_id t <> 0) created /\
      (forall k p, GoMap.get k (accountTasks (m_tasks s)) = Some p ->
                   GoMap.get k (accountTasks (m_tasks s')) = Some p) /\
      (forall i t, nth_error created i = Some t ->
                   GoMap.get (at_id t) (accountTasks (m_tasks s'))
                   = Some (length (m_accts s) + i)%nat).
Proof.
  induction iters as [| i iters IH]; intros s next s' H.
  - simpl in H. inversion H; subst. exists [].
    rewrite app_nil_r. repeat split; auto.
    intros j t Hj; destruct j; discriminate.
  - simpl in H.
    apply bind_Ok_inv in H. destruct H as [[taskID tape] [Hdraw H]].
    unfold allocAcct in H. cbn [fst snd] in H.
    apply bind_Ok_inv in H. destruct H as [t [Hadd H]].
    destruct (drawTaskID_spec _ _ _ _ Hdraw) as [Hnz Hfresh].
    unfold addAccountTask in Hadd. simpl in Hadd.
    apply bind_Ok_inv in Hadd. destruct Hadd as [m [Hset Hm]].
    inversion Hm; subst t; clear Hm.
    apply IH in H. destruct H as [created [Hheap [Hint [Hids [Hkeep Hreg]]]]].
    simpl in Hheap, Hkeep, Hreg.
    set (last := if i =? accountConcurrency - 1 then MaxHash
                 else BigToHash (next + accountStep)) in *.
    set (t0 := mkAccountTask taskID next last GoMap.make 0 [] [] []
                 GoMap.nil_map GoMap.nil_map [] NewStackTrie false false None) in *.
    assert (Hself : GoMap.get taskID m = Some (length (m_accts s))).
    { eapply get_set_same; exact Hset. }
    exists (t0 :: created).
    split; [rewrite Hheap, <- app_assoc; reflexivity |].
    split; [simpl; rewrite Hint; reflexivity |].
    split; [constructor; [exact Hnz | exact Hids] |].
    split.
    + intros k p Hk. apply Hkeep.
      rewrite (get_set_other k taskID _ _ _ Hset); [exact Hk |].
      intros ->. unfold GoMap.mem in Hfresh. rewrite Hk in Hfresh. discriminate.
    + intros j t Hj. destruct j as [| j]; simpl in Hj.
      * inversion Hj; subst t. rewrite Nat.add_0_r.
        apply Hkeep. exact Hself.
      * rewrite (Hreg j t Hj). rewrite length_app. simpl.
        f_equal. lia.
Qed.

(** The sixteen intervals tile [0, MaxHash]: interval [i] is the [i]-th
    block of 2^252 hashes. *)
Lemma freshIntervals_tile :
  freshIntervals 0 accountIterations =
  map (fun i => (i * 2 ^ 252, (i + 1) * 2 ^ 252 - 1)) accountIterations /\
  length accountIterations = 16%nat /\
  MaxHash = 16 * 2 ^ 252 - 1 /\
  accountStep = 2 ^ 252 - 1.
Proof. repeat split; vm_compute; reflexivity. Qed.

(** ** The classification runs over the trimmed accounts *)

Lemma length_updNth {A} (l : list A) : forall i x, length (updNth l i x) = length l.
Proof.
  induction l as [| y l IH]; intros [| i] x; simpl; try reflexivity.
  rewrite IH; reflexivity.
Qed.

Lemma nth_error_updNth_same {A} (l : list A) : forall i x y,
  nth_error l i = Some y -> nth_error (updNth l i x) i = Some x.
Proof.
  induction l as [| z l IH]; intros [| i] x y H; simpl in *; try discriminate.
  - reflexivity.
  - eapply IH; exact H.
Qed.

Lemma loadAcct_storeAcct (s : Manager) (p : ptr) (t t' : accountTask) :
  loadAcct s p = Ok t -> loadAcct (storeAcct s p t') p = Ok t'.
Proof.
  unfold loadAcct, storeAcct, deref; simpl.
  destruct (nth_error (m_accts s) p) eqn:E; [| discriminate].
  intros _. rewrite (nth_error_updNth_same _ _ _ _ E). reflexivity.
Qed.

Lemma setRoots_accts (subtasks : list ptr) : forall s root s',
  setRoots s subtasks root = Ok s' -> m_accts s' = m_accts s.
Proof.
  induction subtasks as [| p rest IH]; simpl; intros s root s' H.
  - inversion H; reflexivity.
  - apply bind_Ok_inv in H. destruct H as [st [_ H]].
    apply IH in H. exact H.
Qed.

Lemma classifyAccounts_flags (accounts : list StateAccount) :
  forall s t resumed i hashes s' t' resumed',
    classifyAccounts s t resumed i hashes accounts = Ok (s', t', resumed') ->
    m_accts s' = m_accts s /\ sameFlagLengths t t'.
Proof.
  induction accounts as [| account rest IH];
    intros s t resumed i hashes s' t' resumed' H.
  - simpl in H. inversion H; subst. split; [reflexivity |].
    unfold sameFlagLengths; auto.
  - simpl in H.
    apply bind_Ok_inv in H. destruct H as [t1 [Ht1 H]].
    assert (F1 : sameFlagLengths t t1).
    { destruct (negb (bytesEqual (sa_CodeHash account) (hashBytes EmptyCodeHash)) &&
                negb (HasCodeWithPrefix (m_db s) (BytesToHash (sa_CodeHash account)))).
      - apply bind_Ok_inv in Ht1. destruct Ht1 as [m [_ Ht1]].
        inversion Ht1; subst. unfold sameFlagLengths; simpl.
        rewrite length_updNth. auto.
      - inversion Ht1; subst. unfold sameFlagLengths; auto. }
    destruct (sa_Root account =? EmptyRootHash).
    { apply IH in H. destruct H as [Hs [A [B C]]].
      destruct F1 as [A1 [B1 C1]].
      split; [exact Hs |]. unfold sameFlagLengths. repeat split; congruence. }
    apply bind_Ok_inv in H. destruct H as [h [_ H]].
    destruct (HasTrieNode (m_db s) h [] (sa_Root account) (m_scheme s)).
    { apply IH in H. destruct H as [Hs [A [B C]]].
      destruct F1 as [A1 [B1 C1]].
      split; [exact Hs |]. unfold sameFlagLengths. repeat split; congruence. }
    apply bind_Ok_inv in H. destruct H as [[[s2 t2] resumed2] [Hmid H]].
    assert (F2 : m_accts s2 = m_accts s /\ sameFlagLengths t1 t2).
    { destruct (GoMap.get h (at_SubTasks t1)) as [subtasks |].
      - apply bind_Ok_inv in Hmid. destruct Hmid as [s0 [Hroots Hmid]].
        inversion Hmid; subst. apply setRoots_accts in Hroots.
        split; [exact Hroots |]. unfold sameFlagLengths; simpl.
        rewrite length_updNth. auto.
      - apply bind_Ok_inv in Hmid. destruct Hmid as [m [_ Hmid]].
        inversion Hmid; subst. split; [reflexivity |].
        unfold sameFlagLengths; auto. }
    apply IH in H. destruct H as [Hs [A [B C]]]. simpl in A, B, C.
    rewrite length_updNth in B.
    destruct F1 as [A1 [B1 C1]]. destruct F2 as [Hs2 [A2 [B2 C2]]].
    split; [congruence |]. unfold sameFlagLengths. repeat split; congruence.
Qed.

Lemma setStats_same (s : Manager) : setStats s (m_stats s) = s.
Proof. destruct s; reflexivity. Qed.

Lemma setAccountBytes_same (st : Stats) : setAccountBytes st (accountBytes st) = st.
Proof. destruct st; reflexivity. Qed.

Lemma atSetGen_same (t : accountTask) :
  atSetGenBatch (atSetGenTrie t (at_genTrie t)) (at_genBatch t) = t.
Proof. destruct t; reflexivity. Qed.

Lemma atSetGenBatch_same (t : accountTask) : atSetGenBatch t (at_genBatch t) = t.
Proof. destruct t; reflexivity. Qed.

Lemma setDb_app_nil (s : Manager) :
  setDb s (mkStore (db_status (m_db s)) (db_entries (m_db s) ++ [])) = s.
Proof. rewrite app_nil_r. destruct s as [? ? db]; destruct db; reflexivity. Qed.

(** The commit of lines 904-906 changes the counter of account bytes, the
    stack trie and its batch, and nothing else. *)
Lemma commitGenTrie_shape (s : Manager) (t : accountTask) :
  exists size g gb,
    commitGenTrie s t =
      (setStats s (setAccountBytes (m_stats s) size),
       atSetGenBatch (atSetGenTrie t g) gb).
Proof.
  unfold commitGenTrie. destruct (at_done t).
  - eexists; eexists; eexists; reflexivity.
  - exists (accountBytes (m_stats s)), (at_genTrie t), (at_genBatch t).
    rewrite setAccountBytes_same, setStats_same, atSetGen_same. reflexivity.
Qed.

(** The flush of lines 908-913 appends to the store and changes the batch
    of the task, and nothing else. *)
Lemma flushGenBatch_shape (s : Manager) (t : accountTask) :
  exists flushed gb,
    flushGenBatch s t =
      (setDb s (mkStore (db_status (m_db s)) (db_entries (m_db s) ++ flushed)),
       atSetGenBatch t gb).
Proof.
  unfold flushGenBatch.
  destruct ((IdealBatchSize <? batchSize (m_scheme s) (at_genBatch t)) || at_done t).
  - eexists; eexists; reflexivity.
  - exists [], (at_genBatch t).
    rewrite setDb_app_nil, atSetGenBatch_same. reflexivity.
Qed.

(** What a forward that returns has done, field by field. *)
Lemma forwardAccountTask_Ok (s : Manager) (task : ptr) (s' : Manager) :
  forwardAccountTask s task = Ok s' ->
  exists t,
    loadAcct s task = Ok t /\
    (at_res t = None -> s' = s) /\
    (forall res, at_res t = Some res ->
       exists batch genTrie genBatch size next finished flushed t',
         persistAccounts s (atSetRes t None) res 0 (ar_hashes res) []
           (at_genTrie t) (at_genBatch t) (accountBytes (m_stats s))
           = Ok (batch, genTrie, genBatch, size) /\
         advanceNext (atSetGenBatch (atSetGenTrie (atSetRes t None) genTrie) genBatch)
           0 (ar_hashes res) (at_Next t) = Ok (next, finished) /\
         sameRegistries s s' /\
         m_accts s' = updNth (m_accts s) task t' /\
         db_status (m_db s') = db_status (m_db s) /\
         db_entries (m_db s') = db_entries (m_db s) ++ batch ++ flushed /\
         accountSynced (m_stats s') =
           addU64 (accountSynced (m_stats s)) (Z.of_nat (length (ar_accounts res))) /\
         bytecodeSynced (m_stats s') = bytecodeSynced (m_stats s) /\
         storageSynced (m_stats s') = storageSynced (m_stats s) /\
         sameWork t t' /\ at_res t' = None /\ at_Next t' = next /\
         at_done t' = (if finished then negb (ar_cont res) else at_done t)).
Proof.
  intros H. unfold forwardAccountTask in H.
  apply bind_Ok_inv in H. destruct H as [t [Hload H]].
  exists t. split; [exact Hload |].
  destruct (at_res t) as [res |] eqn:Eres.
  - split; [discriminate |]. intros res0 E0. inversion E0; subst res0; clear E0.
    apply bind_Ok_inv in H.
    destruct H as [[[[batch genTrie] genBatch] size] [Hp H]].
    apply bind_Ok_inv in H. destruct H as [[next finished] [Ha H]].
    exists batch, genTrie, genBatch, size, next, finished.
    cbn [at_genTrie at_genBatch atSetRes at_Next atSetGenBatch atSetGenTrie] in Hp, Ha.
    destruct finished.
    + match type of H with
      | (let (_, _) := commitGenTrie ?s2 ?t4 in _) = _ =>
          destruct (commitGenTrie_shape s2 t4) as [sz [g [gb Ec]]]; rewrite Ec in H
      end.
      match type of H with
      | (let (_, _) := flushGenBatch ?s3 ?t5 in _) = _ =>
          destruct (flushGenBatch_shape s3 t5) as [flushed [gb' Ef]]; rewrite Ef in H
      end.
      inversion H; subst s'; clear H Ec Ef.
      exists flushed. eexists.
      split; [exact Hp |]. split; [exact Ha |].
      split; [unfold sameRegistries; cbn; repeat split |].
      split; [cbn; reflexivity |].
      split; [reflexivity |].
      split; [cbn; rewrite <- app_assoc; reflexivity |].
      split; [reflexivity |]. split; [reflexivity |]. split; [reflexivity |].
      split; [unfold sameWork; cbn; repeat split |].
      split; [reflexivity |]. split; reflexivity.
    + inversion H; subst s'; clear H.
      exists []. eexists.
      split; [exact Hp |]. split; [exact Ha |].
      split; [unfold sameRegistries; cbn; repeat split |].
      split; [cbn; reflexivity |].
      split; [reflexivity |].
      split; [cbn; rewrite app_nil_r; reflexivity |].
      split; [reflexivity |]. split; [reflexivity |]. split; [reflexivity |].
      split; [unfold sameWork; cbn; repeat split |].
      split; [reflexivity |]. split; reflexivity.
  - split; [intros _; inversion H; reflexivity | discriminate].
Qed.

Lemma forwardAccountTask_flags (s : Manager) (task : ptr) (t : accountTask) (s' : Manager) :
  loadAcct s task = Ok t ->
  forwardAccountTask s task = Ok s' ->
  exists t', loadAcct s' task = Ok t' /\ sameFlagLengths t t'.
Proof.
  intros Hload H.
  destruct (forwardAccountTask_Ok _ _ _ H) as [t0 [Hl0 [Hnone Hsome]]].
  rewrite Hload in Hl0. inversion Hl0; subst t0; clear Hl0.
  destruct (at_res t) as [res |] eqn:Eres.
  - destruct (Hsome res eq_refl)
      as [batch [genTrie [genBatch [size [next [finished [flushed [t' Hs]]]]]]]].
    destruct Hs as [_ [_ [_ [Hac [_ [_ [_ [_ [_ [W _]]]]]]]]]].
    exists t'. split.
    + unfold loadAcct in *. rewrite Hac.
      unfold deref in Hload. destruct (nth_error (m_accts s) task) eqn:E; [| discriminate].
      rewrite (nth_error_updNth_same _ _ _ _ E). reflexivity.
    + destruct W as [_ [_ [_ [_ [A [B [C _]]]]]]].
      unfold sameFlagLengths. rewrite A, B, C. auto.
  - rewrite (Hnone eq_refl). exists t. split; [exact Hload |].
    unfold sameFlagLengths; auto.
Qed.

(** Whenever [processAccountResponse] returns, the flag vectors it leaves
    in the task have one position per account kept by the trimming pass. *)
Lemma processAccountResponse_classifies_trimmed
  (s : Manager) (task : ptr) (hashes : list Hash) (accounts : list StateAccount)
  (cont : bool) (s' : Manager) :
  processAccountResponse s task hashes accounts cont = Ok s' ->
  exists t0 kept accounts' cont' t',
    loadAcct s task = Ok t0 /\
    trimOverflow (at_Last t0) hashes accounts cont = Ok (kept, accounts', cont') /\
    loadAcct s' task = Ok t' /\
    length (at_needCode t') = length accounts' /\
    length (at_needState t') = length accounts' /\
    length (at_needHeal t') = length accounts'.
Proof.
  unfold processAccountResponse. intros H.
  apply bind_Ok_inv in H. destruct H as [t0 [Ht0 H]].
  apply bind_Ok_inv in H. destruct H as [s1 [Hs1 H]].
  apply bind_Ok_inv in H. destruct H as [[[kept accounts'] cont'] [Htrim H]].
  apply bind_Ok_inv in H. destruct H as [t1 [Ht1 H]].
  apply bind_Ok_inv in H. destruct H as [[[s2 t3] resumed] [Hcl H]].
  apply classifyAccounts_flags in Hcl. destruct Hcl as [Hheap [A [B C]]].
  simpl in A, B, C. rewrite repeat_length in A, B, C.
  assert (Hl2 : loadAcct s2 task = Ok t1).
  { unfold loadAcct in *. rewrite Hheap. exact Ht1. }
  set (t4 := atSetSubTasks t3 (dropAborted (at_SubTasks t3) resumed)) in *.
  pose proof (loadAcct_storeAcct s2 task t1 t4 Hl2) as Hl3.
  exists t0, kept, accounts'. exists cont'.
  destruct (at_pend t4 =? 0).
  - destruct (forwardAccountTask_flags _ _ _ _ Hl3 H) as [t' [Hl' [A' [B' C']]]].
    exists t'. simpl in A', B', C'.
    repeat split; try assumption; congruence.
  - inversion H; subst. exists t4.
    repeat split; assumption.
Qed.

(** * Further properties *)

(** ** Forwarding an account task *)

Lemma nth_error_updNth_other {A} (l : list A) : forall i j x,
  i <> j -> nth_error (updNth l i x) j = nth_error l j.
Proof.
  induction l as [| y l IH]; intros [| i] [| j] x H; simpl; try reflexivity.
  - congruence.
  - apply IH. congruence.
Qed.

Lemma loadAcct_storeAcct_other (s : Manager) (p q : ptr) (t : accountTask) :
  p <> q -> loadAcct (storeAcct s p t) q = loadAcct s q.
Proof.
  intros H. unfold loadAcct, storeAcct; simpl.
  rewrite nth_error_updNth_other by exact H. reflexivity.
Qed.










Lemma hookPuts_app (scheme : Scheme) (a b : Batch) (size : Z) :
  hookPuts scheme size (a ++ b) = hookPuts scheme (hookPuts scheme size a) b.
Proof. unfold hookPuts. apply fold_left_app. Qed.



Lemma last_cons {A} (l : list A) : forall x d, last (x :: l) d = last l x.
Proof.
  induction l as [| y l IH]; intros x d; [reflexivity |].
  change (last (x :: y :: l) d) with (last (y :: l) d).
  rewrite (IH y d), (IH y x). reflexivity.
Qed.


Lemma forwardAccountTask_frame (s : Manager) (task : ptr) (s' : Manager) :
  forwardAccountTask s task = Ok s' ->
  sameRegistries s s' /\
  (forall q, q <> task -> nth_error (m_accts s') q = nth_error (m_accts s) q) /\
  exists t t', loadAcct s task = Ok t /\ loadAcct s' task = Ok t' /\
               at_res t' = None /\ sameWork t t'.
Proof.
  intros H.
  destruct (forwardAccountTask_Ok _ _ _ H) as [t [Hload [Hnone Hsome]]].
  destruct (at_res t) as [res |] eqn:Eres.
  - destruct (Hsome res eq_refl)
      as [batch [genTrie [genBatch [size [next [finished [flushed [t' Hs]]]]]]]].
    destruct Hs as [_ [_ [R [Hac [_ [_ [_ [_ [_ [W [N _]]]]]]]]]]].
    split; [exact R |].
    split; [intros q Hq; rewrite Hac; apply nth_error_updNth_other; congruence |].
    exists t, t'. split; [exact Hload |].
    split; [| split; assumption].
    unfold loadAcct in *. rewrite Hac.
    unfold deref in Hload. destruct (nth_error (m_accts s) task) eqn:E; [| discriminate].
    rewrite (nth_error_updNth_same _ _ _ _ E). reflexivity.
  - rewrite (Hnone eq_refl).
    split; [unfold sameRegistries; repeat split |].
    split; [reflexivity |].
    exists t, t. repeat split; assumption.
Qed.

(** X1. Whenever [forwardAccountTask] returns, the pending response of the
    task is consumed, so a second call changes nothing; the registries,
    the storage tasks and every other account task are as before, and the
    task keeps its id, its interval end, its sub-tasks, its counter of
    pending work and its flags. *)
Theorem forwardAccountTask_consumes_response
  (s : Manager) (task : ptr) (s' : Manager) :
  forwardAccountTask s task = Ok s' ->
  forwardAccountTask s' task = Ok s' /\
  sameRegistries s s' /\
  (forall q, q <> task -> loadAcct s' q = loadAcct s q) /\
  exists t t', loadAcct s task = Ok t /\ loadAcct s' task = Ok t' /\
               at_res t' = None /\ sameWork t t'.
Proof.
  intros H. destruct (forwardAccountTask_frame _ _ _ H) as [R [F [t [t' [L [L' [N W]]]]]]].
  split.
  { unfold forwardAccountTask. rewrite L'. simpl. rewrite N. reflexivity. }
  split; [exact R |].
  split; [intros q Hq; unfold loadAcct; rewrite (F q Hq); reflexivity |].
  exists t, t'. auto.
Qed.

Lemma forwardAccountTask_consumes_response_witness :
  exists s',
    forwardAccountTask sampleFilled O = Ok s' /\
    forwardAccountTask s' O = Ok s' /\
    sameRegistries sampleFilled s' /\
    (forall q, q <> O -> loadAcct s' q = loadAcct sampleFilled q) /\
    exists t t', loadAcct sampleFilled O = Ok t /\ loadAcct s' O = Ok t' /\
                 at_res t' = None /\ sameWork t t'.
Proof.
  eexists. split; [vm_compute; reflexivity |].
  apply (forwardAccountTask_consumes_response sampleFilled O).
  vm_compute; reflexivity.
Defined.



(** ** Cleaning the account tasks *)

Lemma find_existsb {V} k (v : V) l :
  GoMap.find k l = Some v -> existsb (Z.eqb k) (map fst l) = true.
Proof.
  induction l as [| [k' v'] l IH]; simpl; intros H; [discriminate |].
  destruct (k =? k'); [reflexivity | apply IH; exact H].
Qed.

Lemma cleanDone_spec (snapshot : list (Z * ptr)) :
  forall s s',
    cleanDone s snapshot = Ok s' ->
    m_accts s' = m_accts s /\ m_snapped s' = m_snapped s /\
    m_db s' = m_db s /\ m_stats s' = m_stats s /\
    forall k,
      GoMap.get k (accountTasks (m_tasks s')) =
      if existsb (Z.eqb k) (map fst snapshot) && isDone s k then None
      else GoMap.get k (accountTasks (m_tasks s)).
Proof.
  induction snapshot as [| [taskID p0] rest IH]; intros s s' H.
  - simpl in H. inversion H; subst. repeat split; reflexivity.
  - cbn [cleanDone] in H.
    destruct (GoMap.get taskID (accountTasks (m_tasks s))) as [p |] eqn:Eg.
    + apply bind_Ok_inv in H. destruct H as [t [Hl H]].
      destruct (at_done t) eqn:Ed.
      * apply IH in H. destruct H as [A [B [C [D G]]]].
        simpl in A, B, C, D.
        repeat split; try assumption.
        intros k. rewrite (G k). cbn [map fst existsb].
        unfold isDone at 1. cbn [m_tasks setTasks deleteAccountTask accountTasks setAccountTasks].
        destruct (k =? taskID) eqn:Ek.
        -- apply Z.eqb_eq in Ek. subst k.
           rewrite get_delete_same.
           unfold isDone. rewrite Eg, Hl, Ed.
           destruct (existsb (Z.eqb taskID) (map fst rest)); reflexivity.
        -- assert (Hne : k <> taskID) by (apply Z.eqb_neq; exact Ek).
           assert (Hget : GoMap.get k (GoMap.delete taskID (accountTasks (m_tasks s)))
                          = GoMap.get k (accountTasks (m_tasks s))).
           { destruct (accountTasks (m_tasks s)) as [l |]; [| reflexivity].
             unfold GoMap.get; simpl. apply find_remove_other; exact Hne. }
           rewrite Hget. cbn [orb]. unfold isDone.
           destruct (GoMap.get k (accountTasks (m_tasks s))); reflexivity.
      * apply IH in H. destruct H as [A [B [C [D G]]]].
        repeat split; try assumption.
        intros k. rewrite (G k). cbn [map fst existsb].
        destruct (k =? taskID) eqn:Ek; [| reflexivity].
        apply Z.eqb_eq in Ek. subst k.
        assert (Hd : isDone s taskID = false) by (unfold isDone; rewrite Eg, Hl; exact Ed).
        rewrite Hd, !andb_false_r. reflexivity.
    + apply IH in H. destruct H as [A [B [C [D G]]]].
      repeat split; try assumption.
      intros k. rewrite (G k). cbn [map fst existsb].
      destruct (k =? taskID) eqn:Ek; [| reflexivity].
      apply Z.eqb_eq in Ek. subst k.
      assert (Hd : isDone s taskID = false) by (unfold isDone; rewrite Eg; reflexivity).
      rewrite Hd, !andb_false_r. reflexivity.
Qed.

Lemma cleanAccountTasks_get (s s' : Manager) :
  cleanAccountTasks s = Ok s' ->
  (forall k, GoMap.get k (accountTasks (m_tasks s')) =
             if isDone s k then None
             else GoMap.get k (accountTasks (m_tasks s))) /\
  m_accts s' = m_accts s /\ m_db s' = m_db s /\ m_stats s' = m_stats s.
Proof.
  unfold cleanAccountTasks. intros H.
  destruct (GoMap.len (accountTasks (m_tasks s)) =? 0) eqn:E0.
  - inversion H; subst s'. repeat split; try reflexivity.
    intros k. unfold isDone.
    destruct (GoMap.get k (accountTasks (m_tasks s))) eqn:Eg; [| reflexivity].
    exfalso. apply Z.eqb_eq in E0. unfold GoMap.len in E0.
    unfold GoMap.get in Eg.
    destruct (GoMap.items (accountTasks (m_tasks s))); [discriminate | simpl in E0; lia].
  - apply bind_Ok_inv in H. destruct H as [s1 [Hc H]].
    apply cleanDone_spec in Hc. destruct Hc as [A [B [C [D G]]]].
    assert (Hget : forall k, GoMap.get k (accountTasks (m_tasks s1)) =
                             if isDone s k then None
                             else GoMap.get k (accountTasks (m_tasks s))).
    { intros k. rewrite (G k).
      destruct (isDone s k) eqn:Ed; [| rewrite andb_false_r; reflexivity].
      unfold isDone in Ed.
      destruct (GoMap.get k (accountTasks (m_tasks s))) as [p |] eqn:Eg; [| discriminate].
      unfold GoMap.get in Eg. rewrite (find_existsb _ _ _ Eg). reflexivity. }
    destruct (GoMap.len (accountTasks (m_tasks s1)) =? 0) eqn:E1;
      inversion H; subst s'; simpl; repeat split; assumption.
Qed.

(** X3. Whenever [cleanAccountTasks] returns, the registry holds exactly
    the tasks it held before that are not flagged done, the tasks
    themselves are untouched, and the snap phase is flagged complete if
    the registry went from non-empty to empty; with a registry that was
    empty on entry nothing changes, the flag included. *)
Theorem cleanAccountTasks_removes_done (s s' : Manager) :
  cleanAccountTasks s = Ok s' ->
  (forall k, GoMap.get k (accountTasks (m_tasks s')) =
             if isDone s k then None
             else GoMap.get k (accountTasks (m_tasks s))) /\
  m_accts s' = m_accts s /\
  m_snapped s' =
    (if negb (GoMap.len (accountTasks (m_tasks s)) =? 0)
        && (GoMap.len (accountTasks (m_tasks s')) =? 0)
     then true else m_snapped s) /\
  (GoMap.len (accountTasks (m_tasks s)) = 0 -> s' = s).
Proof.
  intros H. destruct (cleanAccountTasks_get _ _ H) as [G [A _]].
  split; [exact G |]. split; [exact A |].
  unfold cleanAccountTasks in H.
  destruct (GoMap.len (accountTasks (m_tasks s)) =? 0) eqn:E0.
  - inversion H; subst s'. simpl. split; reflexivity.
  - apply bind_Ok_inv in H. destruct H as [s1 [Hc H]].
    apply cleanDone_spec in Hc. destruct Hc as [_ [B _]].
    assert (Hz : GoMap.len (accountTasks (m_tasks s)) = 0 -> s' = s).
    { intros Hz. apply Z.eqb_neq in E0. contradiction. }
    destruct (GoMap.len (accountTasks (m_tasks s1)) =? 0) eqn:E1;
      inversion H; subst s'; simpl; rewrite E1; simpl;
      (split; [first [reflexivity | exact B] | exact Hz]).
Qed.

Lemma cleanAccountTasks_removes_done_witness :
  exists s1 s',
    taskDone sampleSyncing 7 = Ok s1 /\
    cleanAccountTasks s1 = Ok s' /\
    (forall k, GoMap.get k (accountTasks (m_tasks s')) =
               if isDone s1 k then None
               else GoMap.get k (accountTasks (m_tasks s1))) /\
    m_accts s' = m_accts s1 /\
    m_snapped s' =
      (if negb (GoMap.len (accountTasks (m_tasks s1)) =? 0)
          && (GoMap.len (accountTasks (m_tasks s')) =? 0)
       then true else m_snapped s1) /\
    (GoMap.len (accountTasks (m_tasks s1)) = 0 -> s' = s1).
Proof.
  eexists. eexists.
  split; [vm_compute; reflexivity |].
  split; [vm_compute; reflexivity |].
  apply cleanAccountTasks_removes_done. vm_compute; reflexivity.
Defined.

(** X4. [taskDone] returns for a registered id only; it flags the task
    and leaves the registry as it is, so that the next [cleanAccountTasks]
    that returns has dropped the id and holds nothing that was not
    registered before. *)
Theorem taskDone_then_clean_drops_task (s : Manager) (taskID : Z)
  (s1 s2 : Manager) :
  taskDone s taskID = Ok s1 ->
  cleanAccountTasks s1 = Ok s2 ->
  (exists p, GoMap.get taskID (accountTasks (m_tasks s)) = Some p) /\
  m_tasks s1 = m_tasks s /\
  GoMap.get taskID (accountTasks (m_tasks s2)) = None /\
  forall k p, GoMap.get k (accountTasks (m_tasks s2)) = Some p ->
              GoMap.get k (accountTasks (m_tasks s)) = Some p.
Proof.
  intros Hd Hc. unfold taskDone in Hd.
  apply bind_Ok_inv in Hd. destruct Hd as [p [Hp Hd]].
  apply bind_Ok_inv in Hd. destruct Hd as [t [Hl Hd]].
  inversion Hd; subst s1; clear Hd.
  destruct (GoMap.get taskID (accountTasks (m_tasks s))) as [p' |] eqn:Eg;
    [| discriminate].
  inversion Hp; subst p'; clear Hp.
  apply cleanAccountTasks_get in Hc. destruct Hc as [Hc _].
  split; [exists p; reflexivity |].
  split; [reflexivity |].
  split.
  - rewrite (Hc taskID). unfold isDone. simpl. rewrite Eg.
    rewrite (loadAcct_storeAcct s p t (atSetDone t true) Hl). reflexivity.
  - intros k q Hk. rewrite (Hc k) in Hk.
    destruct (isDone (storeAcct s p (atSetDone t true)) k); [discriminate |].
    exact Hk.
Qed.

Lemma taskDone_then_clean_witness :
  exists s1 s2,
    taskDone sampleSyncing 7 = Ok s1 /\
    cleanAccountTasks s1 = Ok s2 /\
    (exists p, GoMap.get 7 (accountTasks (m_tasks sampleSyncing)) = Some p) /\
    m_tasks s1 = m_tasks sampleSyncing /\
    GoMap.get 7 (accountTasks (m_tasks s2)) = None /\
    forall k p, GoMap.get k (accountTasks (m_tasks s2)) = Some p ->
                GoMap.get k (accountTasks (m_tasks sampleSyncing)) = Some p.
Proof.
  eexists. eexists.
  split; [vm_compute; reflexivity |].
  split; [vm_compute; reflexivity |].
  apply (taskDone_then_clean_drops_task sampleSyncing 7); vm_compute; reflexivity.
Defined.

(** ** The slot estimate *)

Lemma slot_space_bounds (n : Z) (last : Hash) :
  0 <= n -> 0 < last <= MaxHash ->
  n <= MaxBig256 * n / last.
Proof.
  intros Hn Hl. unfold MaxBig256.
  apply Z.div_le_lower_bound; [lia |]. nia.
Qed.

(** X5. For a count of keys that a Go [int] can hold and a non-zero last
    hash, [estimateRemainingSlots] returns the integer quotient
    [MaxHash * n / last] less [n], which is never negative, so the
    unsigned subtraction does not wrap; it reports an error exactly when
    the quotient does not fit 64 bits. *)
Theorem estimateRemainingSlots_exact (n : Z) (last : Hash) :
  0 <= n < 2 ^ 63 ->
  0 < last <= MaxHash ->
  n <= MaxHash * n / last /\
  estimateRemainingSlots n last =
    if MaxHash * n / last <? 2 ^ 64
    then (MaxHash * n / last - n, None)
    else (0, Some tooFewSlots).
Proof.
  intros Hn Hl.
  pose proof (slot_space_bounds n last (proj1 Hn) Hl) as Hs.
  unfold MaxBig256 in Hs. split; [exact Hs |].
  unfold estimateRemainingSlots, MaxBig256.
  replace (last =? 0) with false by (symmetry; apply Z.eqb_neq; lia).
  set (q := MaxHash * n / last) in *.
  replace (0 <=? q) with true by (symmetry; apply Z.leb_le; lia).
  cbn [andb].
  destruct (q <? 2 ^ 64) eqn:E; [| reflexivity].
  apply Z.ltb_lt in E.
  rewrite (Z.mod_small n) by lia.
  rewrite Z.mod_small by lia. reflexivity.
Qed.

Lemma estimateRemainingSlots_exact_witness :
  0 <= 10 < 2 ^ 63 /\
  0 < 2 ^ 254 <= MaxHash /\
  10 <= MaxHash * 10 / 2 ^ 254 /\
  estimateRemainingSlots 10 (2 ^ 254) =
    if MaxHash * 10 / 2 ^ 254 <? 2 ^ 64
    then (MaxHash * 10 / 2 ^ 254 - 10, None)
    else (0, Some tooFewSlots).
Proof.
  assert (A : 0 <= 10 < 2 ^ 63) by (vm_compute; split; [discriminate | reflexivity]).
  assert (B : 0 < 2 ^ 254 <= MaxHash) by (vm_compute; split; [reflexivity | discriminate]).
  split; [exact A |]. split; [exact B |].
  exact (estimateRemainingSlots_exact 10 (2 ^ 254) A B).
Defined.

(** X6. With keys spread evenly, [n] keys that end at the middle of the
    hash space leave [n] more, and [n] keys that end at [MaxHash] leave
    none; a later last hash never raises the estimate, nor turns a
    result into an error. *)
Theorem estimateRemainingSlots_scales (n : Z) :
  0 <= n < 2 ^ 63 ->
  estimateRemainingSlots n (MaxHash / 2) = (n, None) /\
  estimateRemainingSlots n MaxHash = (0, None) /\
  forall last1 last2,
    0 < last1 <= last2 -> last2 <= MaxHash ->
    snd (estimateRemainingSlots n last1) = None ->
    snd (estimateRemainingSlots n last2) = None /\
    fst (estimateRemainingSlots n last2) <= fst (estimateRemainingSlots n last1).
Proof.
  intros Hn.
  assert (Hmax : MaxHash = 2 * (MaxHash / 2) + 1) by (vm_compute; reflexivity).
  assert (Hbig : 2 ^ 64 < MaxHash / 2) by (vm_compute; reflexivity).
  assert (H63 : 2 ^ 63 * 2 = 2 ^ 64) by (vm_compute; reflexivity).
  split; [| split].
  - destruct (estimateRemainingSlots_exact n (MaxHash / 2) Hn) as [_ E]; [lia |].
    rewrite E.
    assert (Hq : MaxHash * n / (MaxHash / 2) = 2 * n).
    { symmetry. apply Z.div_unique with (r := n); [left; lia |].
      rewrite Hmax at 1. ring. }
    rewrite Hq.
    replace (2 * n <? 2 ^ 64) with true by (symmetry; apply Z.ltb_lt; lia).
    f_equal. lia.
  - destruct (estimateRemainingSlots_exact n MaxHash Hn) as [_ E]; [lia |].
    rewrite E.
    assert (Hq : MaxHash * n / MaxHash = n).
    { rewrite Z.mul_comm. apply Z.div_mul. lia. }
    rewrite Hq.
    replace (n <? 2 ^ 64) with true by (symmetry; apply Z.ltb_lt; lia).
    f_equal. lia.
  - intros last1 last2 H12 H2 Hok.
    destruct (estimateRemainingSlots_exact n last1 Hn) as [_ E1]; [lia |].
    destruct (estimateRemainingSlots_exact n last2 Hn) as [_ E2]; [lia |].
    rewrite E1 in Hok |- *. rewrite E2.
    assert (Hle : MaxHash * n / last2 <= MaxHash * n / last1).
    { apply Z.div_le_compat_l; [| lia].
      apply Z.mul_nonneg_nonneg; lia. }
    destruct (MaxHash * n / last1 <? 2 ^ 64) eqn:L1; [| discriminate].
    apply Z.ltb_lt in L1.
    replace (MaxHash * n / last2 <? 2 ^ 64) with true
      by (symmetry; apply Z.ltb_lt; lia).
    cbn [fst snd]. split; [reflexivity | lia].
Qed.

Lemma estimateRemainingSlots_scales_witness :
  0 <= 1000 < 2 ^ 63 /\
  estimateRemainingSlots 1000 (MaxHash / 2) = (1000, None) /\
  estimateRemainingSlots 1000 MaxHash = (0, None) /\
  forall last1 last2,
    0 < last1 <= last2 -> last2 <= MaxHash ->
    snd (estimateRemainingSlots 1000 last1) = None ->
    snd (estimateRemainingSlots 1000 last2) = None /\
    fst (estimateRemainingSlots 1000 last2)
      <= fst (estimateRemainingSlots 1000 last1).
Proof.
  assert (A : 0 <= 1000 < 2 ^ 63) by (vm_compute; split; [discriminate | reflexivity]).
  split; [exact A |].
  exact (estimateRemainingSlots_scales 1000 A).
Defined.

(** ** Integrating a bytecode response *)

Lemma countTrue_updNth_false (l : list bool) : forall j,
  nth_error l j = Some true ->
  countTrue (updNth l j false) = countTrue l - 1.
Proof.
  unfold countTrue.
  assert (H : forall j, nth_error l j = Some true ->
            S (length (filter (fun b => b) (updNth l j false)))
            = length (filter (fun b : bool => b) l)).
  { induction l as [| b l IH]; intros [| j] H; simpl in H; try discriminate.
    - inversion H; subst b. reflexivity.
    - specialize (IH j H). destruct b; simpl; rewrite IH; reflexivity. }
  intros j Hj. specialize (H j Hj). lia.
Qed.

Lemma countTrue_updNth_true (l : list bool) : forall j,
  nth_error l j = Some false ->
  countTrue (updNth l j true) = countTrue l + 1.
Proof.
  unfold countTrue.
  assert (H : forall j, nth_error l j = Some false ->
            length (filter (fun b => b) (updNth l j true))
            = S (length (filter (fun b : bool => b) l))).
  { induction l as [| b l IH]; intros [| j] H; simpl in H; try discriminate.
    - inversion H; subst b. reflexivity.
    - specialize (IH j H). destruct b; simpl; rewrite IH; reflexivity. }
  intros j Hj. specialize (H j Hj). lia.
Qed.

Lemma index_Ok_nth_error {A} (l : list A) (i : nat) (x : A) :
  index l i = Ok x -> nth_error l i = Some x.
Proof.
  unfold index. destruct (nth_error l i); intros H; inversion H; reflexivity.
Qed.

Lemma clearNeedCode_spec (hash : Hash) (accounts : list StateAccount) :
  forall j t t',
    clearNeedCode hash j accounts t = Ok t' ->
    at_pend t' - countTrue (at_needCode t') = at_pend t - countTrue (at_needCode t) /\
    length (at_needCode t') = length (at_needCode t) /\
    at_needState t' = at_needState t /\
    at_needHeal t' = at_needHeal t /\
    at_res t' = at_res t /\
    at_codeTasks t' = at_codeTasks t /\
    at_SubTasks t' = at_SubTasks t /\
    at_stateTasks t' = at_stateTasks t /\
    at_id t' = at_id t.
Proof.
  induction accounts as [| account rest IH]; intros j t t' H.
  - simpl in H. inversion H; subst. repeat split; reflexivity.
  - simpl in H. apply bind_Ok_inv in H. destruct H as [nc [Hnc H]].
    apply index_Ok_nth_error in Hnc.
    destruct (nc && (hash =? BytesToHash (sa_CodeHash account))) eqn:E.
    + apply andb_true_iff in E. destruct E as [E _]. subst nc.
      apply IH in H. simpl in H.
      destruct H as [A [B [C [D [F [G [I [J K]]]]]]]].
      rewrite (countTrue_updNth_false _ _ Hnc) in A.
      rewrite length_updNth in B.
      repeat split; try assumption. lia.
    + apply IH in H. exact H.
Qed.

Lemma skipn_nth_error {A} (l : list A) : forall i x,
  nth_error l i = Some x -> skipn i l = x :: skipn (S i) l.
Proof.
  induction l as [| y l IH]; intros [| i] x H; simpl in H; try discriminate.
  - inversion H; reflexivity.
  - simpl. apply IH. exact H.
Qed.

Lemma deliverCodes_spec (bytecodes : list (option bytes)) (hashes : list Hash) :
  forall i t batch codes t' batch' codes',
    deliverCodes i hashes bytecodes t batch codes = Ok (t', batch', codes') ->
    at_pend t' - countTrue (at_needCode t') = at_pend t - countTrue (at_needCode t) /\
    length (at_needCode t') = length (at_needCode t) /\
    at_needState t' = at_needState t /\
    at_needHeal t' = at_needHeal t /\
    at_res t' = at_res t /\
    at_SubTasks t' = at_SubTasks t /\
    at_stateTasks t' = at_stateTasks t /\
    at_id t' = at_id t /\
    (forall h, GoMap.mem h (at_codeTasks t) = true ->
               GoMap.mem h (at_codeTasks t') = true) /\
    batch' = batch ++ codeWrites hashes (skipn i bytecodes) /\
    (0 <= codes < 2 ^ 64 ->
     codes' =
       (codes + Z.of_nat (length (codeWrites hashes (skipn i bytecodes)))) mod 2 ^ 64) /\
    (length hashes <= length (skipn i bytecodes))%nat /\
    forall j hash, nth_error hashes j = Some hash ->
                   nth_error bytecodes (i + j) = Some None ->
                   GoMap.mem hash (at_codeTasks t') = true.
Proof.
  induction hashes as [| hash rest IH]; intros i t batch codes t' batch' codes' H.
  - simpl in H. inversion H; subst.
    repeat split; try reflexivity; auto.
    + simpl. rewrite app_nil_r. reflexivity.
    + intros Hr. simpl. rewrite Z.add_0_r, Z.mod_small by exact Hr. reflexivity.
    + simpl. lia.
    + intros j hash Hj. destruct j; discriminate.
  - simpl in H. apply bind_Ok_inv in H. destruct H as [code [Hc H]].
    apply index_Ok_nth_error in Hc.
    rewrite (skipn_nth_error _ _ _ Hc).
    destruct code as [c |].
    + apply bind_Ok_inv in H. destruct H as [res [_ H]].
      apply bind_Ok_inv in H. destruct H as [t1 [Hclear H]].
      apply clearNeedCode_spec in Hclear.
      destruct Hclear as [A1 [B1 [C1 [D1 [F1 [G1 [I1 [J1 K1]]]]]]]].
      apply IH in H.
      destruct H as [A [B [C [D [F [I [J [K [M [Eb [Ec [El Hm]]]]]]]]]]]].
      repeat split; try congruence.
      * intros h Hh. apply M. rewrite G1. exact Hh.
      * rewrite Eb, <- app_assoc. reflexivity.
      * intros Hr. rewrite Ec by (unfold addU64; apply Z.mod_pos_bound; lia).
        cbn [codeWrites length]. unfold addU64.
        rewrite Zplus_mod_idemp_l. f_equal. lia.
      * cbn [length]. lia.
      * intros j h Hj Hn. destruct j as [| j].
        -- rewrite Nat.add_0_r in Hn. congruence.
        -- simpl in Hj. apply (Hm j h Hj).
           rewrite <- Hn. f_equal. lia.
    + apply bind_Ok_inv in H. destruct H as [m [Hset H]].
      apply IH in H.
      cbn [atSetCodeTasks at_pend at_needCode at_needState at_needHeal at_res
           at_SubTasks at_stateTasks at_id at_codeTasks] in H.
      destruct H as [A [B [C [D [F [I [J [K [M [Eb [Ec [El Hm]]]]]]]]]]]].
      repeat split; try assumption.
      * intros h Hh. apply M.
        rewrite (mem_set _ _ _ _ _ Hset). rewrite Hh. apply orb_true_r.
      * cbn [length]. lia.
      * intros j h Hj Hn. destruct j as [| j].
        -- simpl in Hj. inversion Hj; subst h. apply M.
           rewrite (mem_set _ _ _ _ _ Hset). rewrite Z.eqb_refl. reflexivity.
        -- simpl in Hj. apply (Hm j h Hj).
           rewrite <- Hn. f_equal. lia.
Qed.

Lemma forwardAccountTask_store (s : Manager) (task : ptr) (s' : Manager) :
  forwardAccountTask s task = Ok s' ->
  (exists written, db_entries (m_db s') = db_entries (m_db s) ++ written) /\
  db_status (m_db s') = db_status (m_db s) /\
  bytecodeSynced (m_stats s') = bytecodeSynced (m_stats s) /\
  storageSynced (m_stats s') = storageSynced (m_stats s).
Proof.
  intros H.
  destruct (forwardAccountTask_Ok _ _ _ H) as [t [Hload [Hnone Hsome]]].
  destruct (at_res t) as [res |] eqn:Eres.
  - destruct (Hsome res eq_refl)
      as [batch [genTrie [genBatch [size [next [finished [flushed [t' Hs]]]]]]]].
    destruct Hs as [_ [_ [_ [_ [Hst [He [_ [Hb [Hg _]]]]]]]]].
    split; [exists (batch ++ flushed); exact He |]. repeat split; assumption.
  - rewrite (Hnone eq_refl).
    split; [exists []; rewrite app_nil_r; reflexivity | repeat split].
Qed.

Lemma processBytecodeResponse_inv (s : Manager) (task : ptr)
  (hashes : list Hash) (bytecodes : list (option bytes)) (s' : Manager) :
  processBytecodeResponse s task hashes bytecodes = Ok s' ->
  exists t t1 codes t' more,
    loadAcct s task = Ok t /\
    deliverCodes 0 hashes bytecodes t [] 0 =
      Ok (t1, codeWrites hashes bytecodes, codes) /\
    loadAcct s' task = Ok t' /\ sameWork t1 t' /\
    db_entries (m_db s') =
      db_entries (m_db s) ++ codeWrites hashes bytecodes ++ more /\
    bytecodeSynced (m_stats s') =
      (bytecodeSynced (m_stats s)
       + Z.of_nat (length (codeWrites hashes bytecodes))) mod 2 ^ 64.
Proof.
  unfold processBytecodeResponse. intros H.
  apply bind_Ok_inv in H. destruct H as [t [Hl H]].
  apply bind_Ok_inv in H. destruct H as [[[t1 batch] codes] [Hd H]].
  pose proof (deliverCodes_spec _ _ _ _ _ _ _ _ _ Hd) as S.
  destruct S as [_ [_ [_ [_ [_ [_ [_ [_ [_ [Eb [Ec _]]]]]]]]]]].
  cbn [skipn app] in Eb, Ec. subst batch.
  set (w := codeWrites hashes bytecodes) in *.
  assert (Hcodes : codes = Z.of_nat (length w) mod 2 ^ 64).
  { rewrite Ec; [reflexivity |]. split; [lia | reflexivity]. }
  set (s3 := setStats
               (setDb (storeAcct s task t1)
                  (dbWriteBatch (m_db (storeAcct s task t1)) w))
               (addBytecodeStats
                  (m_stats (setDb (storeAcct s task t1)
                              (dbWriteBatch (m_db (storeAcct s task t1)) w)))
                  (ValueSize w) codes)) in *.
  assert (L3 : loadAcct s3 task = Ok t1).
  { exact (loadAcct_storeAcct s task t t1 Hl). }
  assert (D3 : db_entries (m_db s3) = db_entries (m_db s) ++ w) by reflexivity.
  assert (B3 : bytecodeSynced (m_stats s3) =
               (bytecodeSynced (m_stats s) + Z.of_nat (length w)) mod 2 ^ 64).
  { simpl. unfold addU64. rewrite Hcodes, Zplus_mod_idemp_r. reflexivity. }
  exists t, t1, codes.
  destruct (at_pend t1 =? 0).
  - destruct (forwardAccountTask_frame _ _ _ H) as [_ [_ [u [t' [Lu [L' [_ W]]]]]]].
    destruct (forwardAccountTask_store _ _ _ H) as [[more Hm] [_ [Hb _]]].
    rewrite L3 in Lu. inversion Lu; subst u.
    exists t', more.
    split; [exact Hl |]. split; [exact Hd |].
    split; [exact L' |]. split; [exact W |].
    split; [rewrite Hm, D3, <- app_assoc; reflexivity |].
    rewrite Hb. exact B3.
  - inversion H; subst s'. exists t1, [].
    split; [exact Hl |]. split; [exact Hd |].
    split; [exact L3 |].
    split; [unfold sameWork; repeat split |].
    split; [rewrite D3, app_nil_r; reflexivity | exact B3].
Qed.

Lemma flagsOnlyCleared_refl (l : list bool) : flagsOnlyCleared l l.
Proof. split; auto. Qed.

Lemma flagsOnlyCleared_trans (a b c : list bool) :
  flagsOnlyCleared a b -> flagsOnlyCleared b c -> flagsOnlyCleared a c.
Proof.
  intros [L1 H1] [L2 H2]. split; [congruence |].
  intros k Hk. apply H1, H2. exact Hk.
Qed.

Lemma flagsOnlyCleared_false (l l' : list bool) (k : nat) :
  flagsOnlyCleared l l' -> nth_error l k = Some false ->
  nth_error l' k = Some false.
Proof.
  intros [L H] Hk.
  destruct (nth_error l' k) as [b |] eqn:E.
  - destruct b; [| reflexivity]. apply H in E. congruence.
  - exfalso. apply nth_error_None in E.
    assert (k < length l)%nat by (apply nth_error_Some; congruence). lia.
Qed.

Lemma flagsOnlyCleared_updNth (l : list bool) (j : nat) :
  flagsOnlyCleared l (updNth l j false).
Proof.
  split; [apply length_updNth |].
  intros k Hk. destruct (Nat.eq_dec j k) as [-> | Hne].
  - exfalso. destruct (nth_error l k) as [b |] eqn:E.
    + rewrite (nth_error_updNth_same _ _ _ _ E) in Hk. discriminate.
    + assert (Hn : nth_error (updNth l k false) k = None).
      { apply nth_error_None. rewrite length_updNth.
        apply nth_error_None. exact E. }
      congruence.
  - rewrite nth_error_updNth_other in Hk by exact Hne. exact Hk.
Qed.

Lemma clearNeedCode_flags (hash : Hash) (accounts : list StateAccount) :
  forall j t t',
    clearNeedCode hash j accounts t = Ok t' ->
    flagsOnlyCleared (at_needCode t) (at_needCode t') /\
    forall k account,
      nth_error accounts k = Some account ->
      BytesToHash (sa_CodeHash account) = hash ->
      nth_error (at_needCode t') (j + k) = Some false.
Proof.
  induction accounts as [| account rest IH]; intros j t t' H.
  - simpl in H. inversion H; subst. split; [apply flagsOnlyCleared_refl |].
    intros k a Hk. destruct k; discriminate.
  - simpl in H. apply bind_Ok_inv in H. destruct H as [nc [Hnc H]].
    apply index_Ok_nth_error in Hnc.
    destruct (nc && (hash =? BytesToHash (sa_CodeHash account))) eqn:E.
    + apply IH in H. destruct H as [F C]. simpl in F.
      assert (F' : flagsOnlyCleared (at_needCode t) (at_needCode t')).
      { eapply flagsOnlyCleared_trans; [apply flagsOnlyCleared_updNth | exact F]. }
      split; [exact F' |].
      intros k a Hk Ha. destruct k as [| k].
      * rewrite Nat.add_0_r.
        apply (flagsOnlyCleared_false _ _ _ F).
        eapply nth_error_updNth_same. exact Hnc.
      * simpl in Hk. replace (j + S k)%nat with (S j + k)%nat by lia.
        eapply C; eassumption.
    + apply IH in H. destruct H as [F C].
      split; [exact F |].
      intros k a Hk Ha. destruct k as [| k].
      * rewrite Nat.add_0_r. simpl in Hk. inversion Hk; subst a.
        apply (flagsOnlyCleared_false _ _ _ F).
        rewrite Ha, Z.eqb_refl, andb_true_r in E. subst nc. exact Hnc.
      * simpl in Hk. replace (j + S k)%nat with (S j + k)%nat by lia.
        eapply C; eassumption.
Qed.

Lemma deliverCodes_flags (bytecodes : list (option bytes)) (hashes : list Hash) :
  forall i t batch codes t' batch' codes',
    deliverCodes i hashes bytecodes t batch codes = Ok (t', batch', codes') ->
    flagsOnlyCleared (at_needCode t) (at_needCode t') /\
    forall j hash c res k account,
      nth_error hashes j = Some hash ->
      nth_error bytecodes (i + j) = Some (Some c) ->
      at_res t = Some res ->
      nth_error (ar_accounts res) k = Some account ->
      BytesToHash (sa_CodeHash account) = hash ->
      nth_error (at_needCode t') k = Some false.
Proof.
  induction hashes as [| hash rest IH]; intros i t batch codes t' batch' codes' H.
  - simpl in H. inversion H; subst. split; [apply flagsOnlyCleared_refl |].
    intros j h c res k a Hj. destruct j; discriminate.
  - simpl in H. apply bind_Ok_inv in H. destruct H as [code [Hc H]].
    apply index_Ok_nth_error in Hc.
    destruct code as [c |].
    + apply bind_Ok_inv in H. destruct H as [res [Hres H]].
      apply bind_Ok_inv in H. destruct H as [t1 [Hclear H]].
      pose proof (clearNeedCode_spec _ _ _ _ _ Hclear) as S1.
      destruct S1 as [_ [_ [_ [_ [R1 _]]]]].
      apply clearNeedCode_flags in Hclear. destruct Hclear as [F1 C1].
      apply IH in H. destruct H as [F C].
      split; [eapply flagsOnlyCleared_trans; eassumption |].
      intros j h c' res' k a Hj Hb Hr Hk Ha.
      destruct j as [| j].
      * simpl in Hj. injection Hj as Hh. subst hash.
        rewrite Hr in Hres. simpl in Hres. injection Hres as Hres. subst res'.
        apply (flagsOnlyCleared_false _ _ _ F).
        apply (C1 k a Hk Ha).
      * simpl in Hj.
        apply (C j h c' res' k a Hj); try assumption.
        -- rewrite <- Hb. f_equal. lia.
        -- congruence.
    + apply bind_Ok_inv in H. destruct H as [m [_ H]].
      apply IH in H. destruct H as [F C]. simpl in F.
      split; [exact F |].
      intros j h c' res' k a Hj Hb Hr Hk Ha.
      destruct j as [| j].
      * rewrite Nat.add_0_r in Hb. congruence.
      * simpl in Hj.
        apply (C j h c' res' k a Hj); try assumption.
        rewrite <- Hb. f_equal. lia.
Qed.

(** X7. Whenever [processBytecodeResponse] returns, the counter of pending
    work has dropped by exactly the number of code flags cleared; flags
    are only cleared, the storage and heal flags are untouched, and no
    account of the pending response whose code was delivered still waits
    for code. *)
Theorem processBytecodeResponse_settles_code_flags
  (s : Manager) (task : ptr) (t : accountTask)
  (hashes : list Hash) (bytecodes : list (option bytes)) (s' : Manager) :
  loadAcct s task = Ok t ->
  processBytecodeResponse s task hashes bytecodes = Ok s' ->
  exists t',
    loadAcct s' task = Ok t' /\
    at_pend t' - countTrue (at_needCode t') =
      at_pend t - countTrue (at_needCode t) /\
    flagsOnlyCleared (at_needCode t) (at_needCode t') /\
    at_needState t' = at_needState t /\
    at_needHeal t' = at_needHeal t /\
    forall i hash code res k account,
      nth_error hashes i = Some hash ->
      nth_error bytecodes i = Some (Some code) ->
      at_res t = Some res ->
      nth_error (ar_accounts res) k = Some account ->
      BytesToHash (sa_CodeHash account) = hash ->
      nth_error (at_needCode t') k = Some false.
Proof.
  intros Hl H.
  apply processBytecodeResponse_inv in H.
  destruct H as [u [t1 [codes [t' [more [Lu [Hd [L' [W _]]]]]]]]].
  rewrite Hl in Lu. inversion Lu; subst u.
  pose proof (deliverCodes_spec _ _ _ _ _ _ _ _ _ Hd) as S.
  destruct S as [A [_ [C [D _]]]].
  apply deliverCodes_flags in Hd. destruct Hd as [F G].
  destruct W as [_ [_ [_ [Wp [Wc [Ws [Wh _]]]]]]].
  exists t'. split; [exact L' |].
  rewrite Wp, Wc, Ws, Wh.
  repeat split; try assumption; apply F.
Qed.

Lemma processBytecodeResponse_settles_witness :
  exists t s',
    loadAcct sampleAwaitingCode O = Ok t /\
    processBytecodeResponse sampleAwaitingCode O
      [contractCodeHash] [Some [96; 0]] = Ok s' /\
    exists t',
      loadAcct s' O = Ok t' /\
      at_pend t' - countTrue (at_needCode t') =
        at_pend t - countTrue (at_needCode t) /\
      flagsOnlyCleared (at_needCode t) (at_needCode t') /\
      at_needState t' = at_needState t /\
      at_needHeal t' = at_needHeal t /\
      forall i hash code res k account,
        nth_error [contractCodeHash] i = Some hash ->
        nth_error [Some [96; 0]] i = Some (Some code) ->
        at_res t = Some res ->
        nth_error (ar_accounts res) k = Some account ->
        BytesToHash (sa_CodeHash account) = hash ->
        nth_error (at_needCode t') k = Some false.
Proof.
  eexists. eexists.
  split; [vm_compute; reflexivity |].
  split; [vm_compute; reflexivity |].
  apply (processBytecodeResponse_settles_code_flags sampleAwaitingCode O);
    vm_compute; reflexivity.
Defined.

Lemma codeWrites_In (hashes : list Hash) :
  forall (bytecodes : list (option bytes)) i hash code,
    nth_error hashes i = Some hash ->
    nth_error bytecodes i = Some (Some code) ->
    In (WCode hash code) (codeWrites hashes bytecodes).
Proof.
  induction hashes as [| h hs IH]; intros bytecodes i hash code Hi Hb.
  - destruct i; discriminate.
  - destruct bytecodes as [| b bs]; [destruct i; discriminate |].
    destruct i as [| i]; simpl in Hi, Hb.
    + inversion Hi; inversion Hb; subst. simpl. left; reflexivity.
    + destruct b; simpl; [right |]; eapply IH; eassumption.
Qed.

Lemma HasCodeWithPrefix_In (db : Store) (hash : Hash) (code : bytes) :
  In (WCode hash code) (db_entries db) -> HasCodeWithPrefix db hash = true.
Proof.
  intros H. unfold HasCodeWithPrefix. apply existsb_exists.
  exists (WCode hash code). split; [exact H | apply Z.eqb_refl].
Qed.

(** X8. Whenever [processBytecodeResponse] returns, there is a bytecode
    for every hash; the delivered codes have been appended to the store in
    the order of the response, so each is found under its hash, and the
    counter of synced bytecodes has grown by their number; every hash
    whose code was missing is back among the code tasks of the account
    task. *)
Theorem processBytecodeResponse_stores_and_reschedules
  (s : Manager) (task : ptr)
  (hashes : list Hash) (bytecodes : list (option bytes)) (s' : Manager) :
  processBytecodeResponse s task hashes bytecodes = Ok s' ->
  (length hashes <= length bytecodes)%nat /\
  (exists more,
     db_entries (m_db s') =
       db_entries (m_db s) ++ codeWrites hashes bytecodes ++ more) /\
  bytecodeSynced (m_stats s') =
    (bytecodeSynced (m_stats s)
     + Z.of_nat (length (codeWrites hashes bytecodes))) mod 2 ^ 64 /\
  (forall i hash code,
     nth_error hashes i = Some hash ->
     nth_error bytecodes i = Some (Some code) ->
     HasCodeWithPrefix (m_db s') hash = true) /\
  exists t',
    loadAcct s' task = Ok t' /\
    forall i hash,
      nth_error hashes i = Some hash ->
      nth_error bytecodes i = Some None ->
      GoMap.mem hash (at_codeTasks t') = true.
Proof.
  intros H.
  apply processBytecodeResponse_inv in H.
  destruct H as [t [t1 [codes [t' [more [Lt [Hd [L' [W [Hdb Hcount]]]]]]]]]].
  pose proof (deliverCodes_spec _ _ _ _ _ _ _ _ _ Hd) as S.
  destruct S as [_ [_ [_ [_ [_ [_ [_ [_ [_ [_ [_ [Hlen Hmiss]]]]]]]]]]]].
  simpl in Hlen.
  destruct W as [_ [_ [_ [_ [_ [_ [_ [Wc _]]]]]]]].
  split; [exact Hlen |].
  split; [exists more; exact Hdb |].
  split; [exact Hcount |].
  split.
  - intros i hash code Hi Hb.
    apply (HasCodeWithPrefix_In _ hash code).
    rewrite Hdb. apply in_or_app. right. apply in_or_app. left.
    eapply codeWrites_In; eassumption.
  - exists t'. split; [exact L' |].
    intros i hash Hi Hb. rewrite Wc. eapply Hmiss; [exact Hi | exact Hb].
Qed.

Lemma processBytecodeResponse_stores_witness :
  exists s',
    processBytecodeResponse sampleAwaitingCode O
      sampleCodeHashes sampleBytecodes = Ok s' /\
    (length sampleCodeHashes
     <= length sampleBytecodes)%nat /\
    (exists more,
       db_entries (m_db s') =
         db_entries (m_db sampleAwaitingCode)
         ++ codeWrites sampleCodeHashes sampleBytecodes
         ++ more) /\
    bytecodeSynced (m_stats s') =
      (bytecodeSynced (m_stats sampleAwaitingCode)
       + Z.of_nat (length (codeWrites sampleCodeHashes
                             sampleBytecodes))) mod 2 ^ 64 /\
    (forall i hash code,
       nth_error sampleCodeHashes i = Some hash ->
       nth_error sampleBytecodes i = Some (Some code) ->
       HasCodeWithPrefix (m_db s') hash = true) /\
    exists t',
      loadAcct s' O = Ok t' /\
      forall i hash,
        nth_error sampleCodeHashes i = Some hash ->
        nth_error sampleBytecodes i = Some None ->
        GoMap.mem hash (at_codeTasks t') = true.
Proof.
  eexists.
  split; [vm_compute; reflexivity |].
  apply (processBytecodeResponse_stores_and_reschedules sampleAwaitingCode O).
  vm_compute; reflexivity.
Defined.

(** ** The counter of pending work after an account response *)

Lemma clearFrom_here (i : nat) (l : list bool) :
  clearFrom i l -> (i < length l)%nat -> nth_error l i = Some false.
Proof.
  intros H Hlt. destruct (nth_error l i) as [b |] eqn:E.
  - destruct b; [exfalso; apply (H i (Nat.le_refl i)); exact E | reflexivity].
  - apply nth_error_None in E. lia.
Qed.

Lemma clearFrom_next (i : nat) (l : list bool) : clearFrom i l -> clearFrom (S i) l.
Proof. intros H k Hk. apply H. lia. Qed.

Lemma clearFrom_updNth (i : nat) (l : list bool) (b : bool) :
  clearFrom i l -> clearFrom (S i) (updNth l i b).
Proof.
  intros H k Hk. rewrite nth_error_updNth_other by lia. apply H. lia.
Qed.

Lemma clearFrom_repeat (n : nat) : clearFrom 0 (repeat false n).
Proof.
  intros k _ H. apply nth_error_In in H. apply repeat_spec in H. discriminate.
Qed.

Lemma countTrue_repeat_false (n : nat) : countTrue (repeat false n) = 0.
Proof.
  unfold countTrue. induction n as [| n IH]; [reflexivity | exact IH].
Qed.

Lemma updNth_true_mono (l : list bool) (i k : nat) :
  nth_error l k = Some true -> nth_error (updNth l i true) k = Some true.
Proof.
  intros H. destruct (Nat.eq_dec i k) as [-> | Hne].
  - eapply nth_error_updNth_same. exact H.
  - rewrite nth_error_updNth_other by exact Hne. exact H.
Qed.

Lemma classifyAccounts_classified (accounts : list StateAccount) :
  forall s t resumed i hashes s' t' resumed' n,
    classifyAccounts s t resumed i hashes accounts = Ok (s', t', resumed') ->
    (i + length accounts = n)%nat ->
    classified n i t ->
    classified n n t'.
Proof.
  induction accounts as [| account rest IH];
    intros s t resumed i hashes s' t' resumed' n H Hn Hinv.
  - simpl in H. inversion H; subst s' t' resumed'.
    simpl in Hn. rewrite Nat.add_0_r in Hn. subst i. exact Hinv.
  - simpl in H. simpl in Hn.
    apply bind_Ok_inv in H. destruct H as [t1 [Ht1 H]].
    destruct Hinv as [Lc [Ls [Lh [Cc [Cs [Ch [Hp Hh]]]]]]].
    assert (I1 : length (at_needCode t1) = n /\ length (at_needState t1) = n /\
                 length (at_needHeal t1) = n /\
                 clearFrom (S i) (at_needCode t1) /\ clearFrom i (at_needState t1) /\
                 clearFrom i (at_needHeal t1) /\
                 at_pend t1 = countTrue (at_needCode t1) + countTrue (at_needState t1) /\
                 (forall k, nth_error (at_needHeal t1) k = Some true ->
                            nth_error (at_needState t1) k = Some true) /\
                 at_SubTasks t1 = at_SubTasks t).
    { destruct (negb (bytesEqual (sa_CodeHash account) (hashBytes EmptyCodeHash)) &&
                negb (HasCodeWithPrefix (m_db s) (BytesToHash (sa_CodeHash account)))).
      - apply bind_Ok_inv in Ht1. destruct Ht1 as [m [_ Ht1]].
        inversion Ht1; subst t1; clear Ht1. simpl.
        rewrite length_updNth.
        rewrite (countTrue_updNth_true _ _ (clearFrom_here _ _ Cc ltac:(lia))).
        repeat split; try assumption; try lia.
        apply clearFrom_updNth; exact Cc.
      - inversion Ht1; subst t1.
        repeat split; try assumption. apply clearFrom_next; exact Cc. }
    clear Lc Ls Lh Cc Cs Ch Hp Hh Ht1.
    destruct I1 as [Lc [Ls [Lh [Cc [Cs [Ch [Hp [Hh _]]]]]]]].
    assert (Skip : classified n (S i) t1).
    { unfold classified. repeat split; try assumption;
        apply clearFrom_next; assumption. }
    destruct (sa_Root account =? EmptyRootHash).
    { eapply IH; [exact H | lia | exact Skip]. }
    apply bind_Ok_inv in H. destruct H as [h [_ H]].
    destruct (HasTrieNode (m_db s) h [] (sa_Root account) (m_scheme s)).
    { eapply IH; [exact H | lia | exact Skip]. }
    apply bind_Ok_inv in H. destruct H as [[[s2 t2] resumed2] [Hmid H]].
    eapply IH; [exact H | lia |]. clear H IH Skip.
    destruct (GoMap.get h (at_SubTasks t1)) as [subtasks |].
    + apply bind_Ok_inv in Hmid. destruct Hmid as [s0 [_ Hmid]].
      inversion Hmid; subst s2 t2 resumed2; clear Hmid.
      unfold classified. simpl. rewrite !length_updNth.
      rewrite (countTrue_updNth_true _ _ (clearFrom_here _ _ Cs ltac:(lia))).
      repeat split; try assumption; try lia;
        try (apply clearFrom_updNth; assumption).
      intros k Hk. destruct (Nat.eq_dec i k) as [<- | Hne].
      * eapply nth_error_updNth_same.
        apply (clearFrom_here _ _ Cs). lia.
      * rewrite nth_error_updNth_other in Hk |- * by exact Hne.
        apply Hh; exact Hk.
    + apply bind_Ok_inv in Hmid. destruct Hmid as [m [_ Hmid]].
      inversion Hmid; subst s2 t2 resumed2; clear Hmid.
      unfold classified. simpl. rewrite !length_updNth.
      rewrite (countTrue_updNth_true _ _ (clearFrom_here _ _ Cs ltac:(lia))).
      repeat split; try assumption; try lia;
        try (apply clearFrom_updNth; assumption);
        try (apply clearFrom_next; assumption).
      intros k Hk. apply updNth_true_mono. apply Hh; exact Hk.
Qed.

(** X9. Whenever [processAccountResponse] returns, the flag vectors of the
    task have one position per account that the trimming pass kept, the
    counter of pending work equals the number of code flags plus the
    number of storage flags, and a heal flag is set only where the storage
    flag is. *)
Theorem processAccountResponse_counts_pending_work
  (s : Manager) (task : ptr) (hashes : list Hash) (accounts : list StateAccount)
  (cont : bool) (s' : Manager) :
  processAccountResponse s task hashes accounts cont = Ok s' ->
  exists t0 kept accounts' cont' t',
    loadAcct s task = Ok t0 /\
    trimOverflow (at_Last t0) hashes accounts cont = Ok (kept, accounts', cont') /\
    loadAcct s' task = Ok t' /\
    length (at_needCode t') = length accounts' /\
    length (at_needState t') = length accounts' /\
    length (at_needHeal t') = length accounts' /\
    at_pend t' = countTrue (at_needCode t') + countTrue (at_needState t') /\
    forall k, nth_error (at_needHeal t') k = Some true ->
              nth_error (at_needState t') k = Some true.
Proof.
  intros H0.
  destruct (processAccountResponse_classifies_trimmed _ _ _ _ _ _ H0)
    as [t0 [kept [accounts' [cont' [t' [L0 [Tr [L' [N1 [N2 N3]]]]]]]]]].
  exists t0, kept, accounts', cont', t'.
  do 6 (split; [assumption |]).
  revert H0. unfold processAccountResponse. intros H.
  apply bind_Ok_inv in H. destruct H as [u0 [Ht0 H]].
  apply bind_Ok_inv in H. destruct H as [s1 [Hs1 H]].
  apply bind_Ok_inv in H. destruct H as [[[kept1 accounts1] cont1] [Htrim H]].
  apply bind_Ok_inv in H. destruct H as [t1 [Ht1 H]].
  apply bind_Ok_inv in H. destruct H as [[[s2 t3] resumed] [Hcl H]].
  pose proof (classifyAccounts_flags _ _ _ _ _ _ _ _ _ Hcl) as [Hheap _].
  eapply (classifyAccounts_classified _ _ _ _ _ _ _ _ _ (length accounts1)) in Hcl;
    [| reflexivity |].
  2:{ unfold classified. simpl. rewrite !repeat_length, !countTrue_repeat_false.
      repeat split; try apply clearFrom_repeat.
      intros k Hk. exfalso. exact (clearFrom_repeat _ k (Nat.le_0_l k) Hk). }
  destruct Hcl as [_ [_ [_ [_ [_ [_ [Hp Hh]]]]]]].
  assert (Hl2 : loadAcct s2 task = Ok t1).
  { unfold loadAcct in *. rewrite Hheap. exact Ht1. }
  set (t4 := atSetSubTasks t3 (dropAborted (at_SubTasks t3) resumed)) in *.
  pose proof (loadAcct_storeAcct s2 task t1 t4 Hl2) as Hl3.
  destruct (at_pend t4 =? 0).
  - destruct (forwardAccountTask_frame _ _ _ H) as [_ [_ [u [t'' [Lu [L'' [_ W]]]]]]].
    rewrite Hl3 in Lu. inversion Lu; subst u.
    rewrite L' in L''. inversion L''; subst t''.
    destruct W as [_ [_ [_ [Wp [Wc [Ws [Wh _]]]]]]].
    rewrite Wp, Wc, Ws, Wh. split; [exact Hp | exact Hh].
  - inversion H; subst s'. rewrite Hl3 in L'. inversion L'; subst t'.
    split; [exact Hp | exact Hh].
Qed.

Lemma processAccountResponse_counts_witness :
  exists s',
    processAccountResponse sampleSyncing O [3; 50; 200]
      [contractAccount; plainAccount; plainAccount] true = Ok s' /\
    exists t0 kept accounts' cont' t',
      loadAcct sampleSyncing O = Ok t0 /\
      trimOverflow (at_Last t0) [3; 50; 200]
        [contractAccount; plainAccount; plainAccount] true
        = Ok (kept, accounts', cont') /\
      loadAcct s' O = Ok t' /\
      length (at_needCode t') = length accounts' /\
      length (at_needState t') = length accounts' /\
      length (at_needHeal t') = length accounts' /\
      at_pend t' = countTrue (at_needCode t') + countTrue (at_needState t') /\
      forall k, nth_error (at_needHeal t') k = Some true ->
                nth_error (at_needState t') k = Some true.
Proof.
  eexists. split; [vm_compute; reflexivity |].
  apply (processAccountResponse_counts_pending_work sampleSyncing O [3; 50; 200]
           [contractAccount; plainAccount; plainAccount] true).
  vm_compute; reflexivity.
Defined.

(** ** The error path, for the kinds other than storage *)

Lemma requeueAccounts_frame (accounts : list ptr) :
  forall s s',
    requeueAccounts s accounts = Ok s' ->
    m_accts s' = m_accts s /\ m_tasks s' = m_tasks s /\
    codeTasks (m_retries s') = codeTasks (m_retries s) /\
    codeTasks (m_requesting s') = codeTasks (m_requesting s) /\
    healer (m_retries s') = healer (m_retries s) /\
    healer (m_requesting s') = healer (m_requesting s).
Proof.
  induction accounts as [| task rest IH]; simpl; intros s s' H.
  - inversion H; subst. repeat split; reflexivity.
  - apply bind_Ok_inv in H. destruct H as [t [_ H]].
    apply bind_Ok_inv in H. destruct H as [ret [Hret H]].
    unfold addAccountTask in Hret.
    apply bind_Ok_inv in Hret. destruct Hret as [m [_ Hm]].
    inversion Hm; subst ret; clear Hm.
    apply IH in H. simpl in H. exact H.
Qed.

Lemma requeueAccounts_keeps_moved (accounts : list ptr) :
  forall s s' k,
    requeueAccounts s accounts = Ok s' ->
    movedTo (accountTasks (m_retries s)) (accountTasks (m_requesting s)) k ->
    movedTo (accountTasks (m_retries s')) (accountTasks (m_requesting s')) k.
Proof.
  induction accounts as [| task rest IH]; simpl; intros s s' k H [Hr Hq].
  - inversion H; subst. split; assumption.
  - apply bind_Ok_inv in H. destruct H as [t [_ H]].
    apply bind_Ok_inv in H. destruct H as [ret [Hret H]].
    unfold addAccountTask in Hret.
    apply bind_Ok_inv in Hret. destruct Hret as [m [Hm Hret]].
    inversion Hret; subst ret; clear Hret. simpl in Hm.
    eapply IH; [exact H |]. split; simpl.
    + rewrite (mem_set _ _ _ _ _ Hm), Hr. apply orb_true_r.
    + rewrite mem_delete, Hq. apply andb_false_r.
Qed.

Lemma requeueAccounts_moves (accounts : list ptr) :
  forall s s' task t,
    requeueAccounts s accounts = Ok s' ->
    In task accounts ->
    loadAcct s task = Ok t ->
    movedTo (accountTasks (m_retries s')) (accountTasks (m_requesting s'))
      (at_id t).
Proof.
  induction accounts as [| a rest IH]; simpl; intros s s' task t H Hin Hl;
    [contradiction |].
  apply bind_Ok_inv in H. destruct H as [ta [Hla H]].
  apply bind_Ok_inv in H. destruct H as [ret [Hret H]].
  unfold addAccountTask in Hret.
  apply bind_Ok_inv in Hret. destruct Hret as [m [Hm Hret]].
  inversion Hret; subst ret; clear Hret. simpl in Hm.
  destruct Hin as [-> | Hin].
  - rewrite Hl in Hla. inversion Hla; subst ta.
    eapply requeueAccounts_keeps_moved; [exact H |]. split; simpl.
    + rewrite (mem_set _ _ _ _ _ Hm), Z.eqb_refl. reflexivity.
    + rewrite mem_delete, Z.eqb_refl. reflexivity.
  - eapply IH; [exact H | exact Hin | exact Hl].
Qed.

Lemma requeueCodes_frame (codes : list Hash) :
  forall s s',
    requeueCodes s codes = Ok s' ->
    m_accts s' = m_accts s /\ m_tasks s' = m_tasks s /\
    accountTasks (m_retries s') = accountTasks (m_retries s) /\
    accountTasks (m_requesting s') = accountTasks (m_requesting s) /\
    healer (m_retries s') = healer (m_retries s) /\
    healer (m_requesting s') = healer (m_requesting s).
Proof.
  induction codes as [| code rest IH]; simpl; intros s s' H.
  - inversion H; subst. repeat split; reflexivity.
  - apply bind_Ok_inv in H. destruct H as [ret [Hret H]].
    unfold addCodeTask in Hret.
    apply bind_Ok_inv in Hret. destruct Hret as [m [_ Hm]].
    inversion Hm; subst ret; clear Hm.
    apply IH in H. simpl in H. exact H.
Qed.

Lemma requeueHealTask_frame (s : Manager) (task : option healTask) (s' : Manager) :
  requeueHealTask s task = Ok s' ->
  m_accts s' = m_accts s /\ m_tasks s' = m_tasks s /\
  accountTasks (m_retries s') = accountTasks (m_retries s) /\
  accountTasks (m_requesting s') = accountTasks (m_requesting s) /\
  codeTasks (m_retries s') = codeTasks (m_retries s) /\
  codeTasks (m_requesting s') = codeTasks (m_requesting s).
Proof.
  unfold requeueHealTask. destruct task as [h |]; intros H.
  - apply bind_Ok_inv in H; destruct H as [ret [Hret H]].
    inversion H; subst; clear H. simpl.
    unfold addHealerTask in Hret.
    apply bind_Ok_inv in Hret; destruct Hret as [m [_ Hm]].
    inversion Hm; subst; simpl. repeat split; reflexivity.
  - inversion H; subst; repeat split; reflexivity.
Qed.

Lemma requeueHealTask_moves (s : Manager) (task : option healTask) (s' : Manager) :
  requeueHealTask s task = Ok s' ->
  (forall h, task = Some h ->
     movedTo (healer (m_retries s')) (healer (m_requesting s')) (ht_id h)) /\
  (forall k, movedTo (healer (m_retries s)) (healer (m_requesting s)) k ->
             movedTo (healer (m_retries s')) (healer (m_requesting s')) k).
Proof.
  unfold requeueHealTask. destruct task as [h |]; intros H.
  - apply bind_Ok_inv in H; destruct H as [ret [Hret H]].
    inversion H; subst; clear H. simpl.
    unfold addHealerTask in Hret.
    apply bind_Ok_inv in Hret; destruct Hret as [m [Hm Hret]].
    inversion Hret; subst; simpl. split.
    + intros h' Hh. inversion Hh; subst h'. split.
      * rewrite (mem_set _ _ _ _ _ Hm), Z.eqb_refl. reflexivity.
      * rewrite mem_delete, Z.eqb_refl. reflexivity.
    + intros k [Hr Hq]. split.
      * rewrite (mem_set _ _ _ _ _ Hm), Hr. apply orb_true_r.
      * rewrite mem_delete, Hq. apply andb_false_r.
  - inversion H; subst. split; [intros h Hh; discriminate | auto].
Qed.

(** X10. Whenever [HandleRequestError] returns, every account task, every
    code hash and both heal tasks of the failed batch are registered among
    the retries and no longer among the requests in flight; the account
    tasks themselves and the registry of unprocessed work are
    untouched. *)
Theorem HandleRequestError_requeues_accounts_codes_and_heals
  (s : Manager) (accounts : list ptr) (codes : list Hash)
  (storages : option storageTaskBundle) (healtask codetask : option healTask)
  (s' : Manager) :
  HandleRequestError s accounts codes storages healtask codetask = Ok s' ->
  m_accts s' = m_accts s /\
  m_tasks s' = m_tasks s /\
  (forall task t, In task accounts -> loadAcct s task = Ok t ->
     movedTo (accountTasks (m_retries s')) (accountTasks (m_requesting s'))
       (at_id t)) /\
  (forall code, In code codes ->
     movedTo (codeTasks (m_retries s')) (codeTasks (m_requesting s')) code) /\
  (forall h, healtask = Some h \/ codetask = Some h ->
     movedTo (healer (m_retries s')) (healer (m_requesting s')) (ht_id h)).
Proof.
  unfold HandleRequestError. intros H.
  apply bind_Ok_inv in H; destruct H as [s1 [H1 H]].
  apply bind_Ok_inv in H; destruct H as [s2 [H2 H]].
  apply bind_Ok_inv in H; destruct H as [s3 [H3 H]].
  apply bind_Ok_inv in H; destruct H as [s4 [H4 H5]].
  pose proof (requeueAccounts_frame _ _ _ H1) as [A1 [T1 _]].
  pose proof (requeueCodes_frame _ _ _ H2) as [A2 [T2 [R2 [Q2 _]]]].
  assert (F3 : m_accts s3 = m_accts s2 /\ m_tasks s3 = m_tasks s2 /\
               accountTasks (m_retries s3) = accountTasks (m_retries s2) /\
               accountTasks (m_requesting s3) = accountTasks (m_requesting s2) /\
               codeTasks (m_retries s3) = codeTasks (m_retries s2) /\
               codeTasks (m_requesting s3) = codeTasks (m_requesting s2)).
  { destruct storages as [b |].
    - apply bind_Ok_inv in H3; destruct H3 as [req [Hreq H3]].
      unfold addStorageTaskBundle in Hreq.
      apply bind_Ok_inv in Hreq; destruct Hreq as [m [_ Hreq]].
      inversion Hreq; subst req. inversion H3; subst s3. simpl.
      repeat split; reflexivity.
    - inversion H3; subst s3. repeat split; reflexivity. }
  destruct F3 as [A3 [T3 [R3 [Q3 [RC3 QC3]]]]].
  pose proof (requeueHealTask_frame _ _ _ H4) as [A4 [T4 [R4 [Q4 [RC4 QC4]]]]].
  pose proof (requeueHealTask_frame _ _ _ H5) as [A5 [T5 [R5 [Q5 [RC5 QC5]]]]].
  split; [congruence |]. split; [congruence |].
  split; [| split].
  - intros task t Hin Hl.
    rewrite R5, R4, R3, R2, Q5, Q4, Q3, Q2.
    eapply requeueAccounts_moves; eassumption.
  - intros code Hin.
    rewrite RC5, RC4, RC3, QC5, QC4, QC3.
    unfold movedTo. eapply requeueCodes_moves_codes; eassumption.
  - intros h [Hh | Hh].
    + apply (proj2 (requeueHealTask_moves _ _ _ H5)).
      apply (proj1 (requeueHealTask_moves _ _ _ H4)). exact Hh.
    + apply (proj1 (requeueHealTask_moves _ _ _ H5)). exact Hh.
Qed.

Lemma HandleRequestError_requeues_witness :
  exists s',
    HandleRequestError sampleSyncing [O] [77] None
      (Some (mkHealTask 5 [] [] [] None 0 false)) None = Ok s' /\
    m_accts s' = m_accts sampleSyncing /\
    m_tasks s' = m_tasks sampleSyncing /\
    (forall task t, In task [O] -> loadAcct sampleSyncing task = Ok t ->
       movedTo (accountTasks (m_retries s')) (accountTasks (m_requesting s'))
         (at_id t)) /\
    (forall code, In code [77] ->
       movedTo (codeTasks (m_retries s')) (codeTasks (m_requesting s')) code) /\
    (forall h, Some (mkHealTask 5 [] [] [] None 0 false) = Some h \/ None = Some h ->
       movedTo (healer (m_retries s')) (healer (m_requesting s')) (ht_id h)).
Proof.
  eexists. split; [vm_compute; reflexivity |].
  apply (HandleRequestError_requeues_accounts_codes_and_heals sampleSyncing [O] [77]
           None (Some (mkHealTask 5 [] [] [] None 0 false)) None).
  vm_compute; reflexivity.
Defined.

(** ** Checkpoints: load, then save *)

Lemma heapExt_refl (s : Manager) : heapExt s s.
Proof. split; exists []; rewrite app_nil_r; reflexivity. Qed.

Lemma heapExt_trans (a b c : Manager) : heapExt a b -> heapExt b c -> heapExt a c.
Proof.
  intros [[e1 A1] [f1 S1]] [[e2 A2] [f2 S2]]. split.
  - exists (e1 ++ e2). rewrite A2, A1, app_assoc. reflexivity.
  - exists (f1 ++ f2). rewrite S2, S1, app_assoc. reflexivity.
Qed.

Lemma heapExt_loadAcct (s s' : Manager) (p : ptr) (t : accountTask) :
  heapExt s s' -> loadAcct s p = Ok t -> loadAcct s' p = Ok t.
Proof.
  intros [[e A] _]. unfold loadAcct, deref.
  destruct (nth_error (m_accts s) p) eqn:E; [| discriminate].
  intros H. rewrite A, nth_error_app1, E by (apply nth_error_Some; congruence).
  exact H.
Qed.

Lemma heapExt_loadStor (s s' : Manager) (p : ptr) (t : storageTask) :
  heapExt s s' -> loadStor s p = Ok t -> loadStor s' p = Ok t.
Proof.
  intros [_ [e A]]. unfold loadStor, deref.
  destruct (nth_error (m_stors s) p) eqn:E; [| discriminate].
  intros H. rewrite A, nth_error_app1, E by (apply nth_error_Some; congruence).
  exact H.
Qed.

Lemma allocStor_spec (s : Manager) (t : storageTask) :
  heapExt s (fst (allocStor s t)) /\
  loadStor (fst (allocStor s t)) (snd (allocStor s t)) = Ok t.
Proof.
  unfold allocStor, loadStor, heapExt; simpl. split.
  - split; [exists []; rewrite app_nil_r; reflexivity | exists [t]; reflexivity].
  - rewrite nth_error_app2, Nat.sub_diag by lia. reflexivity.
Qed.

Lemma allocAcct_spec (s : Manager) (t : accountTask) :
  heapExt s (fst (allocAcct s t)) /\
  loadAcct (fst (allocAcct s t)) (snd (allocAcct s t)) = Ok t.
Proof.
  unfold allocAcct, loadAcct, heapExt; simpl. split.
  - split; [exists [t]; reflexivity | exists []; rewrite app_nil_r; reflexivity].
  - rewrite nth_error_app2, Nat.sub_diag by lia. reflexivity.
Qed.

Lemma thaw_freeze_storage (l : list savedStorageTask) :
  forall s s' ps,
    thawStorageTasks s l = (s', ps) ->
    heapExt s s' /\
    forall s'', heapExt s' s'' -> freezeStorageTasks s'' ps = Ok l.
Proof.
  induction l as [| sv l IH]; cbn [thawStorageTasks]; intros s s' ps H.
  - inversion H; subst. split; [apply heapExt_refl | reflexivity].
  - destruct (allocStor_spec s (thawStorageTask sv)) as [E0 L0].
    destruct (allocStor s (thawStorageTask sv)) as [s1 p] eqn:Ea.
    simpl in E0, L0.
    destruct (thawStorageTasks s1 l) as [s2 ps'] eqn:Et.
    inversion H; subst s' ps; clear H.
    destruct (IH _ _ _ Et) as [E1 F1].
    split; [eapply heapExt_trans; eassumption |].
    intros s'' E2. simpl.
    rewrite (heapExt_loadStor _ _ _ _ (heapExt_trans _ _ _ E1 E2) L0). simpl.
    rewrite (F1 _ E2). simpl. destruct sv; reflexivity.
Qed.

Lemma thaw_freeze_subtasks (l : list (Z * list savedStorageTask)) :
  forall s s' l',
    thawSubTaskItems s l = (s', l') ->
    heapExt s s' /\
    forall s'', heapExt s' s'' -> freezeSubTaskItems s'' l' = Ok l.
Proof.
  induction l as [| [account svs] l IH]; cbn [thawSubTaskItems]; intros s s' l' H.
  - inversion H; subst. split; [apply heapExt_refl | reflexivity].
  - destruct (thawStorageTasks s svs) as [s1 ps] eqn:E1.
    destruct (thawSubTaskItems s1 l) as [s2 rest] eqn:E2.
    inversion H; subst s' l'; clear H.
    destruct (thaw_freeze_storage _ _ _ _ E1) as [X1 F1].
    destruct (IH _ _ _ E2) as [X2 F2].
    split; [eapply heapExt_trans; eassumption |].
    intros s'' X3. simpl.
    rewrite (F1 _ (heapExt_trans _ _ _ X2 X3)). simpl.
    rewrite (F2 _ X3). reflexivity.
Qed.

Lemma thaw_freeze_tasks (l : list (Z * savedAccountTask)) :
  forall s s' l',
    thawTaskItems s l = (s', l') ->
    heapExt s s' /\
    forall s'', heapExt s' s'' -> freezeTaskItems s'' l' = Ok l.
Proof.
  induction l as [| [k sv] l IH]; cbn [thawTaskItems]; intros s s' l' H.
  - inversion H; subst. split; [apply heapExt_refl | reflexivity].
  - unfold thawAccountTask in H.
    destruct (thawSubTasks s (sv_SubTasks sv)) as [s0 subs] eqn:Es.
    match type of H with
    | (let (_, _) := allocAcct s0 ?t in _) = _ =>
        destruct (allocAcct_spec s0 t) as [E0 L0];
        destruct (allocAcct s0 t) as [s1 p] eqn:Ea
    end.
    simpl in E0, L0.
    destruct (thawTaskItems s1 l) as [s2 rest] eqn:Et.
    inversion H; subst s' l'; clear H.
    destruct (IH _ _ _ Et) as [E1 F1].
    assert (Hsub : heapExt s s0 /\
                   forall s'', heapExt s0 s'' ->
                     match subs with
                     | None => Ok None
                     | Some items =>
                         items' <- freezeSubTaskItems s'' items ;; Ok (Some items')
                     end = Ok (sv_SubTasks sv)).
    { unfold thawSubTasks in Es. destruct (sv_SubTasks sv) as [items |].
      - destruct (thawSubTaskItems s items) as [sa l'] eqn:El.
        inversion Es; subst s0 subs.
        destruct (thaw_freeze_subtasks _ _ _ _ El) as [X F].
        split; [exact X |]. intros s'' X'. rewrite (F _ X'). reflexivity.
      - inversion Es; subst s0 subs. split; [apply heapExt_refl | reflexivity]. }
    destruct Hsub as [Xs Fs].
    split; [eapply heapExt_trans; [exact Xs |]; eapply heapExt_trans; eassumption |].
    intros s'' E2. simpl.
    rewrite (heapExt_loadAcct _ _ _ _ (heapExt_trans _ _ _ E1 E2) L0). simpl.
    rewrite (Fs s'' (heapExt_trans _ _ _ E0 (heapExt_trans _ _ _ E1 E2))). simpl.
    rewrite (F1 _ E2). simpl. destruct sv; reflexivity.
Qed.

Lemma thawStorageTasks_db (l : list savedStorageTask) :
  forall s s' ps, thawStorageTasks s l = (s', ps) -> m_db s' = m_db s.
Proof.
  induction l as [| sv l IH]; simpl; intros s s' ps H.
  - inversion H; reflexivity.
  - match type of H with
    | (let (_, _) := thawStorageTasks ?s1 l in _) = _ =>
        destruct (thawStorageTasks s1 l) as [s2 ps'] eqn:E
    end.
    inversion H; subst. apply IH in E. exact E.
Qed.

Lemma thawSubTaskItems_db (l : list (Z * list savedStorageTask)) :
  forall s s' l', thawSubTaskItems s l = (s', l') -> m_db s' = m_db s.
Proof.
  induction l as [| [account svs] l IH]; simpl; intros s s' l' H.
  - inversion H; reflexivity.
  - destruct (thawStorageTasks s svs) as [s1 ps] eqn:E1.
    destruct (thawSubTaskItems s1 l) as [s2 rest] eqn:E2.
    inversion H; subst. apply IH in E2. apply thawStorageTasks_db in E1.
    congruence.
Qed.

Lemma thawTaskItems_db (l : list (Z * savedAccountTask)) :
  forall s s' l', thawTaskItems s l = (s', l') -> m_db s' = m_db s.
Proof.
  induction l as [| [k sv] l IH]; cbn [thawTaskItems]; intros s s' l' H.
  - inversion H; reflexivity.
  - destruct (thawAccountTask s sv) as [s1 p] eqn:E1.
    destruct (thawTaskItems s1 l) as [s2 rest] eqn:E2.
    inversion H; subst. apply IH in E2. rewrite E2.
    unfold thawAccountTask, thawSubTasks in E1.
    destruct (sv_SubTasks sv) as [items |].
    + destruct (thawSubTaskItems s items) as [sa la] eqn:Ea.
      inversion E1; subst. simpl. eapply thawSubTaskItems_db; exact Ea.
    + inversion E1; subst. reflexivity.
Qed.

Lemma setDb_write_nil (s : Manager) : setDb s (dbWriteBatch (m_db s) []) = s.
Proof.
  unfold dbWriteBatch. rewrite app_nil_r.
  destruct s as [? ? db]; destruct db; reflexivity.
Qed.

(** The batches of freshly thawed tasks are empty: writing them leaves the
    manager as it is. *)
Lemma thaw_write_storage (l : list savedStorageTask) :
  forall s s' ps,
    thawStorageTasks s l = (s', ps) ->
    forall s'', heapExt s' s'' -> writeStorageBatches s'' ps = Ok s''.
Proof.
  induction l as [| sv l IH]; cbn [thawStorageTasks]; intros s s' ps H.
  - inversion H; subst. reflexivity.
  - destruct (allocStor_spec s (thawStorageTask sv)) as [E0 L0].
    destruct (allocStor s (thawStorageTask sv)) as [s1 p] eqn:Ea.
    simpl in E0, L0.
    destruct (thawStorageTasks s1 l) as [s2 ps'] eqn:Et.
    inversion H; subst s' ps; clear H.
    destruct (thaw_freeze_storage _ _ _ _ Et) as [E1 _].
    intros s'' E2. cbn [writeStorageBatches].
    rewrite (heapExt_loadStor _ _ _ _ (heapExt_trans _ _ _ E1 E2) L0).
    cbn [Go.bind thawStorageTask st_genBatch]. rewrite setDb_write_nil.
    exact (IH _ _ _ Et _ E2).
Qed.

Lemma thaw_write_subtasks (l : list (Z * list savedStorageTask)) :
  forall s s' l',
    thawSubTaskItems s l = (s', l') ->
    forall s'', heapExt s' s'' -> writeSubTaskBatches s'' l' = Ok s''.
Proof.
  induction l as [| [account svs] l IH]; cbn [thawSubTaskItems]; intros s s' l' H.
  - inversion H; subst. reflexivity.
  - destruct (thawStorageTasks s svs) as [s1 ps] eqn:E1.
    destruct (thawSubTaskItems s1 l) as [s2 rest] eqn:E2.
    inversion H; subst s' l'; clear H.
    destruct (thaw_freeze_subtasks _ _ _ _ E2) as [X2 _].
    intros s'' X3. cbn [writeSubTaskBatches].
    rewrite (thaw_write_storage _ _ _ _ E1 _ (heapExt_trans _ _ _ X2 X3)).
    cbn [Go.bind]. exact (IH _ _ _ E2 _ X3).
Qed.

Lemma thaw_write_tasks (l : list (Z * savedAccountTask)) :
  forall s s' l',
    thawTaskItems s l = (s', l') ->
    forall s'', heapExt s' s'' -> writeTaskBatches s'' l' = Ok s''.
Proof.
  induction l as [| [k sv] l IH]; cbn [thawTaskItems]; intros s s' l' H.
  - inversion H; subst. reflexivity.
  - unfold thawAccountTask in H.
    destruct (thawSubTasks s (sv_SubTasks sv)) as [s0 subs] eqn:Es.
    match type of H with
    | (let (_, _) := allocAcct s0 ?t in _) = _ =>
        destruct (allocAcct_spec s0 t) as [E0 L0];
        destruct (allocAcct s0 t) as [s1 p] eqn:Ea
    end.
    simpl in E0, L0.
    destruct (thawTaskItems s1 l) as [s2 rest] eqn:Et.
    inversion H; subst s' l'; clear H.
    destruct (thaw_freeze_tasks _ _ _ _ Et) as [E1 _].
    intros s'' E2. cbn [writeTaskBatches].
    rewrite (heapExt_loadAcct _ _ _ _ (heapExt_trans _ _ _ E1 E2) L0).
    cbn [Go.bind at_genBatch at_SubTasks]. rewrite setDb_write_nil.
    assert (Hsub : writeSubTaskBatches s'' (GoMap.items subs) = Ok s'').
    { unfold thawSubTasks in Es. destruct (sv_SubTasks sv) as [items |].
      - destruct (thawSubTaskItems s items) as [sa l'] eqn:El.
        inversion Es; subst s0 subs. cbn [GoMap.items].
        apply (thaw_write_subtasks _ _ _ _ El).
        eapply heapExt_trans; [exact E0 |]. eapply heapExt_trans; eassumption.
      - inversion Es; subst s0 subs. reflexivity. }
    rewrite Hsub. cbn [Go.bind]. exact (IH _ _ _ Et _ E2).
Qed.

Lemma readStats_exact (st : Stats) : storageSizes st -> readStats st = st.
Proof.
  intros [[A _] [[B _] [[C _] [[D _] [E _]]]]].
  unfold readStats. rewrite A, B, C, D, E. destruct st; reflexivity.
Qed.

Lemma storageSizes_finite (st : Stats) : storageSizes st -> finiteSizes st = true.
Proof.
  intros [[_ A] [[_ B] [[_ C] [[_ D] [_ E]]]]].
  unfold finiteSizes, finiteSize.
  apply Z.ltb_lt in A, B, C, D, E. rewrite A, B, C, D, E. reflexivity.
Qed.

(** X11. Resuming from a checkpoint always returns, restores the counters,
    the byte counters as the floats nearest to the numbers of the checkpoint,
    and flags the snap phase complete iff the checkpoint holds no account
    task.  If the byte counters of the checkpoint are floats, as the ones
    the code writes are, the counters are restored as they stand, and a
    [saveSyncStatus] right after the load writes the very checkpoint that
    was loaded and nothing else: the keys, the intervals of the account
    tasks and of their storage sub-tasks, and the counters all survive the
    load. *)
Theorem loadSyncStatus_then_save_round_trip
  (s : Manager) (progress : SyncProgress) :
  db_status (m_db s) = Some (Some progress) ->
  exists s1,
    loadSyncStatus s = Ok s1 /\
    m_stats s1 = readStats (sp_stats progress) /\
    m_snapped s1 = (GoMap.len (sp_Tasks progress) =? 0) /\
    (storageSizes (sp_stats progress) ->
     m_stats s1 = sp_stats progress /\
     exists s2,
       saveSyncStatus s1 = Ok s2 /\
       db_status (m_db s2) = Some (Some progress) /\
       db_entries (m_db s2) = db_entries (m_db s)).
Proof.
  intros Hdb. unfold loadSyncStatus. rewrite Hdb.
  destruct progress as [tasks0 stats0]. cbn [sp_Tasks sp_stats].
  unfold thawTasks, saveSyncStatus.
  destruct tasks0 as [items |].
  - destruct (thawTaskItems s items) as [sa l'] eqn:El.
    destruct (thaw_freeze_tasks _ _ _ _ El) as [X F].
    pose proof (thaw_write_tasks _ _ _ _ El) as Wr.
    assert (Hlen : length l' = length items).
    { destruct (thawTaskItems_spec _ _ _ _ El) as [Hk _].
      rewrite <- (length_map fst l'), Hk, length_map. reflexivity. }
    pose proof (thawTaskItems_db _ _ _ _ El) as Hd.
    eexists. split; [reflexivity |].
    split; [reflexivity |].
    split.
    { simpl. unfold GoMap.len. simpl. rewrite Hlen. reflexivity. }
    intros Hsz. split; [cbn [m_stats setStats]; apply readStats_exact; exact Hsz |].
    cbn [m_tasks setStats setSnapped setTasks accountTasks setAccountTasks
         GoMap.items].
    rewrite Wr by (split; simpl; exists []; rewrite app_nil_r; reflexivity).
    cbn [Go.bind m_tasks setStats setSnapped setTasks accountTasks setAccountTasks].
    rewrite F by (split; simpl; exists []; rewrite app_nil_r; reflexivity).
    cbn [Go.bind m_stats setStats].
    rewrite (readStats_exact _ Hsz), (storageSizes_finite _ Hsz).
    eexists. split; [reflexivity |].
    split; [reflexivity |]. simpl. rewrite Hd. reflexivity.
  - eexists. split; [reflexivity |].
    split; [reflexivity |]. split; [reflexivity |].
    intros Hsz. split; [cbn [m_stats setStats]; apply readStats_exact; exact Hsz |].
    cbn [m_tasks setStats setSnapped setTasks accountTasks setAccountTasks
         GoMap.items GoMap.nil_map writeTaskBatches Go.bind m_stats].
    rewrite (readStats_exact _ Hsz), (storageSizes_finite _ Hsz).
    eexists. split; [reflexivity |]. split; reflexivity.
Qed.

Lemma loadSyncStatus_then_save_witness :
  db_status (m_db (newFullStateDownloadManager
                     (mkStore (Some (Some sampleProgressSub)) []) HashScheme [7; 8]
                     sampleHasher))
    = Some (Some sampleProgressSub) /\
  storageSizes (sp_stats sampleProgressSub) /\
  exists s1,
    loadSyncStatus
      (newFullStateDownloadManager
         (mkStore (Some (Some sampleProgressSub)) []) HashScheme [7; 8]
         sampleHasher) = Ok s1 /\
    m_stats s1 = readStats (sp_stats sampleProgressSub) /\
    m_snapped s1 = (GoMap.len (sp_Tasks sampleProgressSub) =? 0) /\
    m_stats s1 = sp_stats sampleProgressSub /\
    exists s2,
      saveSyncStatus s1 = Ok s2 /\
      db_status (m_db s2) = Some (Some sampleProgressSub) /\
      db_entries (m_db s2) =
        db_entries (m_db (newFullStateDownloadManager
                            (mkStore (Some (Some sampleProgressSub)) [])
                            HashScheme [7; 8] sampleHasher)).
Proof.
  assert (Hsz : storageSizes (sp_stats sampleProgressSub)).
  { unfold storageSizes, isStorageSize.
    repeat split; vm_compute; reflexivity. }
  split; [reflexivity |]. split; [exact Hsz |].
  destruct (loadSyncStatus_then_save_round_trip
              (newFullStateDownloadManager
                 (mkStore (Some (Some sampleProgressSub)) []) HashScheme [7; 8]
                 sampleHasher)
              sampleProgressSub eq_refl) as [s1 [A [B [C D]]]].
  destruct (D Hsz) as [E F].
  exists s1. split; [exact A |]. split; [exact B |]. split; [exact C |].
  split; [exact E | exact F].
Defined.

(** A byte counter that is no float does not survive the load: 2^53 + 1
    comes back as 2^53. *)
Example loadSyncStatus_rounds_byte_counters :
  exists s1,
    loadSyncStatus
      (newFullStateDownloadManager
         (mkStore (Some (Some (mkSyncProgress GoMap.make
                                 (mkStats 0 (2 ^ 53 + 1) 0 0 0 0 0 0 0 0)))) [])
         HashScheme [] sampleHasher) = Ok s1 /\
    accountBytes (m_stats s1) = 2 ^ 53.
Proof. eexists. split; [reflexivity | vm_compute; reflexivity]. Qed.

(** ** [Less] is an ordering that [sort.Sort] can rely on *)

Lemma syncCompare_refl (a : SyncPath) : syncCompare a a = Eq.
Proof.
  pose proof (syncCompare_antisym a a) as H.
  destruct (syncCompare a a); simpl in H; try discriminate; reflexivity.
Qed.

Lemma incomparable_Eq (a b : SyncPath) :
  syncPathLess a b = false -> syncPathLess b a = false -> syncCompare a b = Eq.
Proof.
  rewrite !syncPathLess_compare. rewrite (syncCompare_antisym a b).
  destruct (syncCompare a b); simpl; intros H1 H2; try discriminate; reflexivity.
Qed.

(** X12. On sync paths with at least one segment - the ones on which
    [Less] indexes within range - [Less] is a strict weak ordering: it is
    irreflexive, asymmetric and transitive, and two entries neither of
    which is [Less] than the other compare alike with any third. *)
Theorem Less_is_strict_weak_order (x y z : healEntry) :
  he_syncPath x <> [] -> he_syncPath y <> [] -> he_syncPath z <> [] ->
  Less x x = false /\
  (Less x y = true -> Less y x = false) /\
  (Less x y = true -> Less y z = true -> Less x z = true) /\
  (Less x y = false -> Less y x = false ->
   Less x z = Less y z /\ Less z x = Less z y).
Proof.
  intros _ _ _. unfold Less.
  set (a := he_syncPath x). set (b := he_syncPath y). set (c := he_syncPath z).
  split; [| split; [| split]].
  - rewrite syncPathLess_compare, syncCompare_refl. reflexivity.
  - intros H. exact (Less_asym a b H).
  - rewrite !syncPathLess_compare.
    destruct (syncCompare a b) eqn:E1; try discriminate.
    destruct (syncCompare b c) eqn:E2; try discriminate.
    intros _ _. rewrite (syncCompare_trans a b c E1 E2). reflexivity.
  - intros H1 H2. pose proof (incomparable_Eq a b H1 H2) as E.
    rewrite !syncPathLess_compare.
    rewrite (syncCompare_Eq a b c E).
    rewrite (syncCompare_antisym a c), (syncCompare_antisym b c).
    rewrite (syncCompare_Eq a b c E). split; reflexivity.
Qed.

Lemma Less_is_strict_weak_order_witness :
  he_syncPath (mkHealEntry [1] 10 [[1]]) <> [] /\
  he_syncPath (mkHealEntry [1; 2] 20 [[1]; [2]]) <> [] /\
  he_syncPath (mkHealEntry [3] 30 [[3]]) <> [] /\
  Less (mkHealEntry [1] 10 [[1]]) (mkHealEntry [1] 10 [[1]]) = false /\
  (Less (mkHealEntry [1] 10 [[1]]) (mkHealEntry [1; 2] 20 [[1]; [2]]) = true ->
   Less (mkHealEntry [1; 2] 20 [[1]; [2]]) (mkHealEntry [1] 10 [[1]]) = false) /\
  (Less (mkHealEntry [1] 10 [[1]]) (mkHealEntry [1; 2] 20 [[1]; [2]]) = true ->
   Less (mkHealEntry [1; 2] 20 [[1]; [2]]) (mkHealEntry [3] 30 [[3]]) = true ->
   Less (mkHealEntry [1] 10 [[1]]) (mkHealEntry [3] 30 [[3]]) = true) /\
  (Less (mkHealEntry [1] 10 [[1]]) (mkHealEntry [1; 2] 20 [[1]; [2]]) = false ->
   Less (mkHealEntry [1; 2] 20 [[1]; [2]]) (mkHealEntry [1] 10 [[1]]) = false ->
   Less (mkHealEntry [1] 10 [[1]]) (mkHealEntry [3] 30 [[3]])
     = Less (mkHealEntry [1; 2] 20 [[1]; [2]]) (mkHealEntry [3] 30 [[3]]) /\
   Less (mkHealEntry [3] 30 [[3]]) (mkHealEntry [1] 10 [[1]])
     = Less (mkHealEntry [3] 30 [[3]]) (mkHealEntry [1; 2] 20 [[1]; [2]])).
Proof.
  split; [discriminate |]. split; [discriminate |]. split; [discriminate |].
  apply Less_is_strict_weak_order; discriminate.
Defined.

(** ** [Merge] keeps every storage request *)

Lemma expandPathSet_grow (ps : TrieNodePathSet) (c : bytes) (p : SyncPath) :
  ps <> [] ->
  In p (expandPathSet (ps ++ [c])) <->
  (In p (expandPathSet ps) /\ length ps <> 1%nat) \/ p = [seg 0 ps; c].
Proof.
  intros Hne. destruct ps as [| a [| s slots]]; [contradiction | |].
  - simpl. split.
    + intros [H | []]. right. symmetry. exact H.
    + intros [[_ H] | H]; [contradiction H; reflexivity | left; symmetry; exact H].
  - rewrite expandPathSet_snoc. unfold seg. cbn [nth].
    rewrite in_app_iff. simpl. split.
    + intros [H | [H | []]]; [left; split; [exact H | discriminate] | right; symmetry; exact H].
    + intros [[H _] | H]; [left; exact H | right; left; symmetry; exact H].
Qed.

Lemma two_segments (p : SyncPath) : length p = 2%nat -> p = [seg 0 p; seg 1 p].
Proof.
  destruct p as [| a [| b [| c r]]]; simpl; intros H; try discriminate.
  reflexivity.
Qed.

Lemma expandPathSet_two (p : SyncPath) : length p = 2%nat -> expandPathSet p = [p].
Proof.
  intros H. rewrite (two_segments p H) at 1 2. reflexivity.
Qed.

Lemma expandPathSet_one (p : SyncPath) : length p = 1%nat -> expandPathSet p = [p].
Proof.
  destruct p as [| a [| b r]]; simpl; intros H; try discriminate. reflexivity.
Qed.

(** X13. Whatever the order of the input, [Merge] loses no request for a
    storage-trie node and invents none: no path set is empty, there are
    no more path sets than paths, every request the path sets stand for
    is one of the paths, and every path of two segments is among those
    requests. *)
Theorem Merge_keeps_every_storage_request (l : list SyncPath) :
  Forall (fun p => length p = 1 \/ length p = 2)%nat l ->
  Forall (fun ps => ps <> []) (Merge l) /\
  (length (Merge l) <= length l)%nat /\
  (forall p, In p (expandPathSets (Merge l)) -> In p l) /\
  (forall p, In p l -> length p = 2%nat -> In p (expandPathSets (Merge l))).
Proof.
  induction l as [| q l IH] using rev_ind; intros Hl.
  - simpl. repeat split; auto.
  - apply Forall_app in Hl. destruct Hl as [Hl Hq].
    inversion Hq as [| ? ? Hq' _]; subst; clear Hq.
    destruct (IH Hl) as [Hne [Hlen [Hsound Hkeep]]]; clear IH.
    rewrite Merge_snoc, length_app. simpl.
    assert (Plain :
      Forall (fun ps => ps <> []) (Merge l ++ [q]) /\
      (length (Merge l ++ [q]) <= length l + 1)%nat /\
      (forall p, In p (expandPathSets (Merge l ++ [q])) -> In p (l ++ [q])) /\
      (forall p, In p (l ++ [q]) -> length p = 2%nat ->
                 In p (expandPathSets (Merge l ++ [q])))).
    { assert (Eq : expandPathSet q = [q]).
      { destruct Hq'; [apply expandPathSet_one | apply expandPathSet_two]; assumption. }
      split; [| split; [| split]].
      - apply Forall_app. split; [exact Hne |].
        constructor; [| constructor]. destruct q; [destruct Hq'; discriminate | discriminate].
      - rewrite length_app. simpl. lia.
      - intros p. rewrite expandPathSets_snoc, Eq, !in_app_iff.
        intros [H | H]; [left; apply Hsound; exact H | right; exact H].
      - intros p. rewrite expandPathSets_snoc, Eq, !in_app_iff.
        intros [H | H] H2; [left; apply Hkeep; assumption | right; exact H]. }
    unfold mergeStep.
    destruct (length q =? 1)%nat eqn:E1; [exact Plain |].
    destruct (rev (Merge l)) as [| lastSet before] eqn:Er; [exact Plain |].
    destruct (bytesEqual (seg 0 q) (seg 0 lastSet)) eqn:Eb; [| exact Plain].
    clear Plain.
    apply bytesEqual_eq in Eb.
    assert (Hq2 : length q = 2%nat).
    { apply Nat.eqb_neq in E1. destruct Hq'; [contradiction | assumption]. }
    assert (Em : Merge l = rev before ++ [lastSet]).
    { rewrite <- (rev_involutive (Merge l)), Er. reflexivity. }
    rewrite Em in Hne, Hlen, Hsound, Hkeep.
    apply Forall_app in Hne. destruct Hne as [Hne1 Hne2].
    inversion Hne2 as [| ? ? Hlast _]; subst.
    rewrite length_app in Hlen. simpl in Hlen.
    rewrite expandPathSets_snoc in Hsound, Hkeep.
    assert (Eq : [seg 0 lastSet; seg 1 q] = q).
    { rewrite <- Eb. symmetry. apply two_segments; exact Hq2. }
    split; [| split; [| split]].
    + apply Forall_app. split; [exact Hne1 |].
      constructor; [| constructor]. destruct lastSet; discriminate.
    + rewrite length_app. simpl. lia.
    + intros p. rewrite expandPathSets_snoc, !in_app_iff.
      rewrite (expandPathSet_grow _ _ _ Hlast), Eq.
      intros [H | [[H _] | H]].
      * left. apply Hsound. apply in_or_app. left; exact H.
      * left. apply Hsound. apply in_or_app. right; exact H.
      * right. left. symmetry. exact H.
    + intros p. rewrite expandPathSets_snoc, !in_app_iff.
      rewrite (expandPathSet_grow _ _ _ Hlast), Eq.
      intros [H | [H | []]] H2.
      * specialize (Hkeep p H H2). apply in_app_or in Hkeep.
        destruct Hkeep as [Hk | Hk]; [left; exact Hk |].
        right. left. split; [exact Hk |].
        intros H1. destruct lastSet as [| a [| b r]]; try discriminate.
        simpl in Hk. destruct Hk as [Hk | []]. subst p. discriminate.
      * right. right. symmetry. exact H.
Qed.

Lemma Merge_keeps_every_storage_request_witness :
  Forall (fun p => length p = 1 \/ length p = 2)%nat sampleSyncPaths /\
  Forall (fun ps => ps <> []) (Merge sampleSyncPaths) /\
  (length (Merge sampleSyncPaths) <= length sampleSyncPaths)%nat /\
  (forall p, In p (expandPathSets (Merge sampleSyncPaths)) ->
     In p sampleSyncPaths) /\
  (forall p, In p sampleSyncPaths -> length p = 2%nat ->
     In p (expandPathSets (Merge sampleSyncPaths))).
Proof.
  assert (H : Forall (fun p => length p = 1 \/ length p = 2)%nat
                sampleSyncPaths).
  { unfold sampleSyncPaths.
    repeat (apply Forall_cons; [simpl; auto |]). apply Forall_nil. }
  split; [exact H |].
  exact (Merge_keeps_every_storage_request _ H).
Defined.

(** ** Task ids *)

(** X14. The retry loop that issues a task id returns exactly when the
    random source yields a value that is neither zero nor a key of the
    map; the id it returns is the first such value, and the values drawn
    before it were all rejected. *)
Theorem drawTaskID_first_fresh_value {V} (used : GoMap.t V) (tape : list Z) :
  (forall id tape',
     drawTaskID used tape = Ok (id, tape') ->
     id <> 0 /\ GoMap.mem id used = false /\
     exists skipped,
       tape = skipped ++ id :: tape' /\
       Forall (fun r => r = 0 \/ GoMap.mem r used = true) skipped) /\
  ((exists r, In r tape /\ r <> 0 /\ GoMap.mem r used = false) ->
   exists id tape', drawTaskID used tape = Ok (id, tape')) /\
  (drawTaskID used tape = Stuck \/
   exists id tape', drawTaskID used tape = Ok (id, tape')).
Proof.
  induction tape as [| r tape [IH1 [IH2 IH3]]].
  - split; [| split].
    + simpl. intros id tape' H. discriminate.
    + intros [r [[] _]].
    + left. reflexivity.
  - simpl.
    destruct (r =? 0) eqn:E0; simpl.
    + apply Z.eqb_eq in E0. subst r.
      split; [| split].
      * intros id tape' H. destruct (IH1 _ _ H) as [A [B [sk [Et Fs]]]].
        split; [exact A |]. split; [exact B |].
        exists (0 :: sk). split; [rewrite Et; reflexivity |].
        constructor; [left; reflexivity | exact Fs].
      * intros [r [[Hr | Hr] [Hnz Hm]]]; [congruence |].
        apply IH2. exists r. auto.
      * exact IH3.
    + destruct (GoMap.mem r used) eqn:Em.
      * split; [| split].
        -- intros id tape' H. destruct (IH1 _ _ H) as [A [B [sk [Et Fs]]]].
           split; [exact A |]. split; [exact B |].
           exists (r :: sk). split; [rewrite Et; reflexivity |].
           constructor; [right; exact Em | exact Fs].
        -- intros [r' [[Hr | Hr] [Hnz Hm]]]; [congruence |].
           apply IH2. exists r'. auto.
        -- exact IH3.
      * split; [| split].
        -- intros id tape' H. inversion H; subst.
           split; [apply Z.eqb_neq; exact E0 |]. split; [exact Em |].
           exists []. split; [reflexivity | constructor].
        -- intros _. exists r, tape. reflexivity.
        -- right. exists r, tape. reflexivity.
Qed.

(** ** The partition loop on an initialised map *)

(** X15. Started at hash zero on an initialised registry, the partition
    loop of [loadSyncStatus], whenever it returns, has created sixteen
    account tasks whose intervals tile the hash space - task [i] covers
    the [i]-th block of 2^252 hashes - each with a non-zero id and
    registered under it, and has kept what was registered before. *)
Theorem fresh_partition_tiles_the_hash_space (s s' : Manager) :
  freshAccountTasks s 0 accountIterations = Ok s' ->
  exists created,
    m_accts s' = m_accts s ++ created /\
    map (fun t => (at_Next t, at_Last t)) created =
      map (fun i => (i * 2 ^ 252, (i + 1) * 2 ^ 252 - 1)) accountIterations /\
    length created = 16%nat /\
    Forall (fun t => at_id t <> 0) created /\
    (forall k p, GoMap.get k (accountTasks (m_tasks s)) = Some p ->
                 GoMap.get k (accountTasks (m_tasks s')) = Some p) /\
    (forall i t, nth_error created i = Some t ->
                 GoMap.get (at_id t) (accountTasks (m_tasks s'))
                 = Some (length (m_accts s) + i)%nat).
Proof.
  intros H. apply freshAccountTasks_spec in H.
  destruct H as [created [A [B [C [D E]]]]].
  destruct freshIntervals_tile as [T [L _]].
  exists created. rewrite T in B.
  repeat split; try assumption.
  rewrite <- (length_map (fun t => (at_Next t, at_Last t)) created), B, length_map.
  exact L.
Qed.

Lemma fresh_partition_tiles_witness :
  exists s',
    freshAccountTasks
      (newFullStateDownloadManager (mkStore None []) HashScheme sampleTape sampleHasher)
      0 accountIterations = Ok s' /\
    exists created,
      m_accts s' =
        m_accts (newFullStateDownloadManager (mkStore None []) HashScheme sampleTape sampleHasher)
        ++ created /\
      map (fun t => (at_Next t, at_Last t)) created =
        map (fun i => (i * 2 ^ 252, (i + 1) * 2 ^ 252 - 1)) accountIterations /\
      length created = 16%nat /\
      Forall (fun t => at_id t <> 0) created /\
      (forall k p,
         GoMap.get k (accountTasks (m_tasks
           (newFullStateDownloadManager (mkStore None []) HashScheme sampleTape sampleHasher)))
           = Some p ->
         GoMap.get k (accountTasks (m_tasks s')) = Some p) /\
      (forall i t, nth_error created i = Some t ->
         GoMap.get (at_id t) (accountTasks (m_tasks s'))
         = Some (length (m_accts
              (newFullStateDownloadManager (mkStore None []) HashScheme sampleTape sampleHasher))
              + i)%nat).
Proof.
  eexists. split; [vm_compute; reflexivity |].
  apply (fresh_partition_tiles_the_hash_space
           (newFullStateDownloadManager (mkStore None []) HashScheme sampleTape sampleHasher)).
  vm_compute; reflexivity.
Defined.

(** ** The unprocessed producer without account tasks *)

(** X16. With an empty registry of account tasks - the heal phase -
    [getBatchFromUnprocessed] panics on the nil storage bundle for every
    batch size that is not negative, whether or not heal tasks were asked
    for: the heal tail is never reached. *)
Theorem getBatchFromUnprocessed_needs_an_account_task
  (healTail : Manager -> Z -> Result (Manager * option healTask * option healTask))
  (s : Manager) (n : Z) (withHealTasks : bool) :
  0 <= n ->
  GoMap.len (accountTasks (m_tasks s)) = 0 ->
  getBatchFromUnprocessed healTail s n withHealTasks = Panic NilDeref.
Proof.
  intros Hn Hlen.
  assert (Hempty : GoMap.items (accountTasks (m_tasks s)) = []).
  { unfold GoMap.len in Hlen.
    destruct (GoMap.items (accountTasks (m_tasks s)));
      [reflexivity | simpl in Hlen; lia]. }
  unfold getBatchFromUnprocessed.
  replace (n <? 0) with false by (symmetry; apply Z.ltb_ge; exact Hn).
  rewrite Hempty. cbn [pickAccounts Go.bind].
  rewrite Hempty. cbn [pickCodes Go.bind].
  rewrite Hempty. reflexivity.
Qed.

Lemma getBatchFromUnprocessed_needs_witness :
  0 <= 5 /\
  GoMap.len (accountTasks (m_tasks sampleManager)) = 0 /\
  getBatchFromUnprocessed (fun s _ => Ok (s, None, None)) sampleManager 5 true
    = Panic NilDeref.
Proof.
  assert (A : 0 <= 5) by (vm_compute; discriminate).
  split; [exact A |]. split; [reflexivity |].
  apply (getBatchFromUnprocessed_needs_an_account_task
           (fun s _ => Ok (s, None, None)) sampleManager 5 true A).
  reflexivity.
Defined.

(** ** The account tasks a batch hands out *)

Lemma pickAccounts_inv (n : Z) (snapshot : list (Z * ptr)) :
  forall s0 s acc s' accounts returned,
    pickAccounts n snapshot s acc = Ok (s', accounts, returned) ->
    NoDup acc ->
    slen acc <= n ->
    (forall q, In q acc ->
       exists t, loadAcct s q = Ok t /\ at_requested t = true) ->
    (forall q, ~ In q acc -> loadAcct s q = loadAcct s0 q) ->
    (forall q, In q acc ->
       exists t, loadAcct s0 q = Ok t /\ at_requested t = false /\ at_id t <> 0) ->
    NoDup accounts /\
    slen accounts <= n /\
    (forall q, In q accounts ->
       exists t, loadAcct s0 q = Ok t /\ at_requested t = false /\ at_id t <> 0).
Proof.
  induction snapshot as [| [k task] rest IH];
    intros s0 s acc s' accounts returned H Hnd Hlen Hreq Hsame Hsel.
  - simpl in H. inversion H; subst. auto.
  - cbn [pickAccounts] in H.
    destruct (slen acc =? n) eqn:En.
    { inversion H; subst. auto. }
    apply bind_Ok_inv in H. destruct H as [t [Hl H]].
    destruct (at_requested t) eqn:Er.
    { eapply IH; eassumption. }
    destruct (at_id t =? 0) eqn:Ei.
    { eapply IH; eassumption. }
    apply bind_Ok_inv in H. destruct H as [req [_ H]].
    assert (Hnew : ~ In task acc).
    { intros Hin. destruct (Hreq _ Hin) as [t' [Hl' Hr']]. congruence. }
    eapply IH; [exact H | | | | |].
    + apply NoDup_app; [exact Hnd | repeat constructor; auto |].
      intros q Hq [Hq' | []]. subst q. contradiction.
    + unfold slen in *. rewrite length_app. simpl.
      apply Z.eqb_neq in En. lia.
    + intros q Hq. apply in_app_or in Hq.
      destruct (Nat.eq_dec task q) as [<- | Hne].
      * exists (atSetRequested t true). split; [| reflexivity].
        change (loadAcct (storeAcct s task (atSetRequested t true)) task
                = Ok (atSetRequested t true)).
        eapply loadAcct_storeAcct; exact Hl.
      * destruct Hq as [Hq | [Hq | []]]; [| contradiction].
        destruct (Hreq _ Hq) as [t' [Hl' Hr']]. exists t'. split; [| exact Hr'].
        change (loadAcct (storeAcct s task (atSetRequested t true)) q = Ok t').
        rewrite loadAcct_storeAcct_other by exact Hne. exact Hl'.
    + intros q Hq.
      change (loadAcct (storeAcct s task (atSetRequested t true)) q = loadAcct s0 q).
      assert (Hne : task <> q).
      { intros ->. apply Hq. apply in_or_app. right. left. reflexivity. }
      rewrite loadAcct_storeAcct_other by exact Hne.
      apply Hsame. intros Hin. apply Hq. apply in_or_app. left. exact Hin.
    + intros q Hq. apply in_app_or in Hq.
      destruct Hq as [Hq | [<- | []]]; [apply Hsel; exact Hq |].
      exists t. rewrite <- (Hsame task Hnew).
      split; [exact Hl |]. split; [exact Er | apply Z.eqb_neq; exact Ei].
Qed.

Lemma pickAccounts_from_snapshot (n : Z) (snapshot : list (Z * ptr)) :
  forall s acc s' accounts returned,
    pickAccounts n snapshot s acc = Ok (s', accounts, returned) ->
    forall q, In q accounts -> In q acc \/ In q (map snd snapshot).
Proof.
  induction snapshot as [| [k task] rest IH];
    intros s acc s' accounts returned H q Hq.
  - simpl in H. inversion H; subst. left; exact Hq.
  - cbn [pickAccounts] in H. cbn [map snd In].
    destruct (slen acc =? n).
    { inversion H; subst. left; exact Hq. }
    apply bind_Ok_inv in H. destruct H as [t [Hl H]].
    destruct (at_requested t).
    { destruct (IH _ _ _ _ _ H q Hq); auto. }
    destruct (at_id t =? 0).
    { destruct (IH _ _ _ _ _ H q Hq); auto. }
    apply bind_Ok_inv in H. destruct H as [req [_ H]].
    destruct (IH _ _ _ _ _ H q Hq) as [Hin | Hin]; [| auto].
    apply in_app_or in Hin. destruct Hin as [Hin | [<- | []]]; auto.
Qed.

Lemma getBatchFromUnprocessed_accounts
  (healTail : Manager -> Z -> Result (Manager * option healTask * option healTask))
  (s : Manager) (n : Z) (withHealTasks : bool) (s' : Manager) (b : requestBatch) :
  getBatchFromUnprocessed healTail s n withHealTasks = Ok (s', b) ->
  0 <= n /\
  exists s1 returned,
    pickAccounts n (GoMap.items (accountTasks (m_tasks s))) s []
      = Ok (s1, rb_accounts b, returned).
Proof.
  unfold getBatchFromUnprocessed. intros H.
  destruct (n <? 0) eqn:En; [discriminate |]. apply Z.ltb_ge in En.
  split; [exact En |].
  apply bind_Ok_inv in H. destruct H as [[[s1 accounts] returned] [Hp H]].
  exists s1, returned. rewrite Hp.
  destruct returned; [inversion H; subst; reflexivity |].
  apply bind_Ok_inv in H. destruct H as [[[s2 codes] returned] [_ H]].
  destruct returned; [inversion H; subst; reflexivity |].
  apply bind_Ok_inv in H. destruct H as [[s3 storages] [_ H]].
  apply bind_Ok_inv in H. destruct H as [bundle [_ H]].
  destruct (0 <? slen accounts + slen codes + slen (sb_accounts bundle));
    [inversion H; subst; reflexivity |].
  destruct (negb withHealTasks); [inversion H; subst; reflexivity |].
  apply bind_Ok_inv in H. destruct H as [[[s4 healtask] codetask] [_ H]].
  inversion H; subst; reflexivity.
Qed.

(** X17. Whenever [getBatchFromUnprocessed] returns, the account tasks of
    the batch are at most [n], no task is in it twice, and each was
    neither requested before nor has the id zero. *)
Theorem getBatchFromUnprocessed_hands_out_fresh_accounts
  (healTail : Manager -> Z -> Result (Manager * option healTask * option healTask))
  (s : Manager) (n : Z) (withHealTasks : bool) (s' : Manager) (b : requestBatch) :
  getBatchFromUnprocessed healTail s n withHealTasks = Ok (s', b) ->
  NoDup (rb_accounts b) /\
  slen (rb_accounts b) <= n /\
  forall q, In q (rb_accounts b) ->
    exists t, loadAcct s q = Ok t /\ at_requested t = false /\ at_id t <> 0.
Proof.
  intros H. apply getBatchFromUnprocessed_accounts in H.
  destruct H as [Hn [s1 [returned Hp]]].
  eapply (pickAccounts_inv n _ s s [] s1 _ returned Hp).
  - constructor.
  - exact Hn.
  - intros q [].
  - reflexivity.
  - intros q [].
Qed.

Lemma getBatchFromUnprocessed_hands_out_witness :
  exists s' b,
    getBatchFromUnprocessed (fun s _ => Ok (s, None, None)) sampleTwoTasks 1 true
      = Ok (s', b) /\
    NoDup (rb_accounts b) /\
    slen (rb_accounts b) <= 1 /\
    forall q, In q (rb_accounts b) ->
      exists t, loadAcct sampleTwoTasks q = Ok t /\ at_requested t = false /\
                at_id t <> 0.
Proof.
  eexists. eexists. split; [vm_compute; reflexivity |].
  eapply (getBatchFromUnprocessed_hands_out_fresh_accounts
            (fun s _ => Ok (s, None, None)) sampleTwoTasks 1 true).
  vm_compute; reflexivity.
Defined.

Lemma zero_ids_hand_out_nothing
  (healTail : Manager -> Z -> Result (Manager * option healTask * option healTask))
  (s : Manager) (n : Z) (withHealTasks : bool) (s' : Manager) (b : requestBatch) :
  (forall k p, In (k, p) (GoMap.items (accountTasks (m_tasks s))) ->
     exists t, loadAcct s p = Ok t /\ at_id t = 0) ->
  getBatchFromUnprocessed healTail s n withHealTasks = Ok (s', b) ->
  rb_accounts b = [].
Proof.
  intros Hzero H.
  apply getBatchFromUnprocessed_accounts in H.
  destruct H as [Hn [s2 [returned Hp]]].
  destruct (rb_accounts b) as [| q rest] eqn:Eb; [reflexivity | exfalso].
  assert (Hq : In q (rb_accounts b)) by (rewrite Eb; left; reflexivity).
  rewrite <- Eb in Hp.
  destruct (pickAccounts_from_snapshot _ _ _ _ _ _ _ Hp q Hq) as [[] | Hin].
  assert (Hsel : forall q, In q (rb_accounts b) ->
            exists t, loadAcct s q = Ok t /\ at_requested t = false /\ at_id t <> 0).
  { eapply (pickAccounts_inv n _ s s [] s2 _ returned Hp).
    - constructor.
    - exact Hn.
    - intros ? [].
    - reflexivity.
    - intros ? []. }
  destruct (Hsel q Hq) as [t [Hl [_ Hid]]].
  apply in_map_iff in Hin. destruct Hin as [[k p] [Hp' Hin]].
  simpl in Hp'. subst p.
  destruct (Hzero k q Hin) as [t0 [Hl0 Hid0]].
  rewrite Hl in Hl0. inversion Hl0; subst t0. contradiction.
Qed.

(** X18. After a resume from a checkpoint, [getBatchFromUnprocessed] hands
    out no account task, whatever the batch size: every resumed task has
    the id zero, which the account loop skips. *)
Theorem resumed_sync_hands_out_no_account_task
  (s : Manager) (progress : SyncProgress) :
  db_status (m_db s) = Some (Some progress) ->
  exists s1,
    loadSyncStatus s = Ok s1 /\
    forall healTail n withHealTasks s' b,
      getBatchFromUnprocessed healTail s1 n withHealTasks = Ok (s', b) ->
      rb_accounts b = [].
Proof.
  intros Hdb. unfold loadSyncStatus. rewrite Hdb.
  destruct (thawTasks s (sp_Tasks progress)) as [s1 m] eqn:Et.
  eexists. split; [reflexivity |].
  intros healTail n w s' b H.
  eapply zero_ids_hand_out_nothing; [| exact H].
  intros k p Hin. simpl in Hin.
  unfold thawTasks in Et. destruct (sp_Tasks progress) as [items |].
  - destruct (thawTaskItems s items) as [sa l'] eqn:El.
    inversion Et; subst s1 m; clear Et.
    destruct (thawTaskItems_spec _ _ _ _ El) as [_ [_ Hz]].
    simpl in Hin. destruct (Hz k p Hin) as [t0 [Hn0 Hid0]].
    exists t0. split; [| exact Hid0].
    unfold loadAcct. simpl. rewrite Hn0. reflexivity.
  - inversion Et; subst s1 m. simpl in Hin. contradiction.
Qed.

Lemma resumed_sync_hands_out_no_account_witness :
  db_status (m_db (newFullStateDownloadManager
                     (mkStore (Some (Some sampleProgressSub)) []) HashScheme [7; 8] sampleHasher))
    = Some (Some sampleProgressSub) /\
  exists s1,
    loadSyncStatus
      (newFullStateDownloadManager
         (mkStore (Some (Some sampleProgressSub)) []) HashScheme [7; 8] sampleHasher) = Ok s1 /\
    forall healTail n withHealTasks s' b,
      getBatchFromUnprocessed healTail s1 n withHealTasks = Ok (s', b) ->
      rb_accounts b = [].
Proof.
  split; [reflexivity |].
  apply (resumed_sync_hands_out_no_account_task
           (newFullStateDownloadManager
              (mkStore (Some (Some sampleProgressSub)) []) HashScheme [7; 8] sampleHasher)
           sampleProgressSub).
  reflexivity.
Defined.

(** The statement above is not empty: resumed from a checkpoint with a
    storage sub-task, the producer returns a batch - the sub-task, and no
    account task. *)
Example resumed_sync_batch_has_storage_only :
  exists s1 s' b bundle,
    loadSyncStatus
      (newFullStateDownloadManager
         (mkStore (Some (Some sampleProgressSub)) []) HashScheme [7; 8] sampleHasher) = Ok s1 /\
    getBatchFromUnprocessed (fun s _ => Ok (s, None, None)) s1 5 true
      = Ok (s', b) /\
    rb_accounts b = [] /\
    rb_storages b = Some bundle /\
    sb_accounts bundle = [40].
Proof.
  eexists. eexists. eexists. eexists.
  split; [vm_compute; reflexivity |].
  split; [vm_compute; reflexivity |].
  repeat split.
Qed.

(** ** The heal callback keeps every write *)

(** X19. Whenever [onHealState] returns, no write is lost or reordered:
    what is in the store followed by what is pending in the state writer
    is what it was before, followed by at most one new snapshot entry -
    the storage slot for a path of two segments, the slim account for a
    path of one segment whose value decodes, nothing otherwise; pending
    writes within the ideal batch size stay within it, and the heal
    counters grow by the entry written. *)
Theorem onHealState_keeps_every_write
  (s : Manager) (paths : list bytes) (value : bytes)
  (s' : Manager) (e : option error) :
  onHealState s paths value = Ok (s', e) ->
  exists new,
    db_entries (m_db s') ++ m_stateWriter s' =
      db_entries (m_db s) ++ m_stateWriter s ++ new /\
    (ValueSize (m_stateWriter s) <= IdealBatchSize ->
     ValueSize (m_stateWriter s') <= IdealBatchSize) /\
    (length paths = 2%nat ->
     new = [WStorageSnapshot (BytesToHash (seg 0 paths))
              (BytesToHash (seg 1 paths)) value] /\
     storageHealed (m_healed s') = addU64 (storageHealed (m_healed s)) 1 /\
     accountHealed (m_healed s') = accountHealed (m_healed s)) /\
    (length paths = 1%nat ->
     match decodeAccount value with
     | Some account =>
         exists blob,
           SlimAccountRLP account = Ok blob /\
           new = [WAccountSnapshot (BytesToHash (seg 0 paths)) blob] /\
           accountHealed (m_healed s') = addU64 (accountHealed (m_healed s)) 1
     | None => new = [] /\ s' = s
     end) /\
    (length paths <> 1%nat -> length paths <> 2%nat ->
     new = [] /\ m_healed s' = m_healed s).
Proof.
  unfold onHealState. intros H.
  assert (Hz : ValueSize [] <= IdealBatchSize) by (vm_compute; discriminate).
  destruct (length paths =? 1)%nat eqn:E1.
  - apply Nat.eqb_eq in E1.
    assert (E2 : (length paths =? 2)%nat = false) by (apply Nat.eqb_neq; lia).
    rewrite E2 in H.
    destruct (decodeAccount value) as [account |] eqn:Ed.
    + destruct (SlimAccountRLP account) as [blob | pn |] eqn:Eb;
        try discriminate.
      cbn [Go.bind] in H.
      exists [WAccountSnapshot (BytesToHash (seg 0 paths)) blob].
      injection H as Hs He; subst e;
      match type of Hs with
      | (if ?c then _ else _) = _ => destruct c eqn:Ec
      end; subst s'; simpl.
      * split; [rewrite ?app_nil_r, <- ?app_assoc; reflexivity |].
        split; [intros _; exact Hz |].
        split; [intros; lia |].
        split; [| intros; contradiction].
        intros _. exists blob. auto.
      * split; [reflexivity |].
        split; [intros _; apply Z.ltb_ge; exact Ec |].
        split; [intros; lia |].
        split; [| intros; contradiction].
        intros _. exists blob. auto.
    + cbn [Go.bind] in H. inversion H; subst s' e; clear H.
      exists []. rewrite !app_nil_r.
      split; [reflexivity |].
      split; [auto |].
      split; [intros; lia |].
      split; [auto | intros; contradiction].
  - apply Nat.eqb_neq in E1. cbn [Go.bind] in H.
    destruct (length paths =? 2)%nat eqn:E2.
    + apply Nat.eqb_eq in E2.
      exists [WStorageSnapshot (BytesToHash (seg 0 paths))
                (BytesToHash (seg 1 paths)) value].
      injection H as Hs He; subst e;
      match type of Hs with
      | (if ?c then _ else _) = _ => destruct c eqn:Ec
      end; subst s'; simpl.
      * split; [rewrite ?app_nil_r, <- ?app_assoc; reflexivity |].
        split; [intros _; exact Hz |].
        split; [auto |].
        split; [intros; contradiction | intros; contradiction].
      * split; [reflexivity |].
        split; [intros _; apply Z.ltb_ge; exact Ec |].
        split; [auto |].
        split; [intros; contradiction | intros; contradiction].
    + apply Nat.eqb_neq in E2.
      exists [].
      injection H as Hs He; subst e;
      match type of Hs with
      | (if ?c then _ else _) = _ => destruct c eqn:Ec
      end; subst s'; simpl.
      * split; [rewrite !app_nil_r; reflexivity |].
        split; [intros _; exact Hz |].
        split; [intros; contradiction |].
        split; [intros; contradiction | auto].
      * rewrite !app_nil_r. split; [reflexivity |].
        split; [auto |].
        split; [intros; contradiction |].
        split; [intros; contradiction | auto].
Qed.

Lemma onHealState_keeps_every_write_witness :
  exists s',
    onHealState sampleManager [[1]; [2]] [9; 9] = Ok (s', None) /\
    exists new,
      db_entries (m_db s') ++ m_stateWriter s' =
        db_entries (m_db sampleManager) ++ m_stateWriter sampleManager ++ new /\
      (ValueSize (m_stateWriter sampleManager) <= IdealBatchSize ->
       ValueSize (m_stateWriter s') <= IdealBatchSize) /\
      (length [[1]; [2]] = 2%nat ->
       new = [WStorageSnapshot (BytesToHash (seg 0 [[1]; [2]]))
                (BytesToHash (seg 1 [[1]; [2]])) [9; 9]] /\
       storageHealed (m_healed s') =
         addU64 (storageHealed (m_healed sampleManager)) 1 /\
       accountHealed (m_healed s') = accountHealed (m_healed sampleManager)) /\
      (length [[1]; [2]] = 1%nat ->
       match decodeAccount [9; 9] with
       | Some account =>
           exists blob,
             SlimAccountRLP account = Ok blob /\
             new = [WAccountSnapshot (BytesToHash (seg 0 [[1]; [2]])) blob] /\
             accountHealed (m_healed s') =
               addU64 (accountHealed (m_healed sampleManager)) 1
       | None => new = [] /\ s' = sampleManager
       end) /\
      (length [[1]; [2]] <> 1%nat -> length [[1]; [2]] <> 2%nat ->
       new = [] /\ m_healed s' = m_healed sampleManager).
Proof.
  eexists. split; [vm_compute; reflexivity |].
  apply (onHealState_keeps_every_write sampleManager [[1]; [2]] [9; 9] _ None).
  vm_compute; reflexivity.
Defined.

(** ** The task registry *)

Lemma remove_absent {V} (k : Z) (l : list (Z * V)) :
  GoMap.find k l = None -> GoMap.remove k l = l.
Proof.
  induction l as [| [k' v] l IH]; simpl; intros H; [reflexivity |].
  destruct (k =? k') eqn:E; [discriminate |]. simpl.
  rewrite (IH H). reflexivity.
Qed.

Lemma remove_put_absent {V} (k : Z) (v : V) (l : list (Z * V)) :
  GoMap.find k l = None -> GoMap.remove k (GoMap.put k v l) = l.
Proof.
  induction l as [| [k' v'] l IH]; simpl; intros H.
  - rewrite Z.eqb_refl. reflexivity.
  - destruct (k =? k') eqn:E; [discriminate |]. simpl. rewrite E. simpl.
    rewrite (IH H). reflexivity.
Qed.

(** X20. The registry of account tasks behaves as a map. Adding a task
    returns only on a map that is not nil; then the task is the one
    looked up under its id, the other ids are undisturbed, deleting the
    id makes the lookup fail and leaves the other ids what they held,
    and if the id was not registered before, deleting it gives back the
    registry as it was. Deleting an id that is not registered changes
    nothing. The code, storage and heal registries are never touched. *)
Theorem account_task_registry_is_a_map (t : tasks) (k : Z) (p : ptr) (t' : tasks) :
  addAccountTask t k p = Ok t' ->
  accountTasks t <> GoMap.nil_map /\
  getAccountTask t' k = Some p /\
  (forall k', k' <> k -> getAccountTask t' k' = getAccountTask t k') /\
  getAccountTask (deleteAccountTask t' k) k = None /\
  (forall k', k' <> k ->
     getAccountTask (deleteAccountTask t' k) k' = getAccountTask t k') /\
  (getAccountTask t k = None -> deleteAccountTask t' k = t) /\
  (forall k', getAccountTask t' k' = None -> deleteAccountTask t' k' = t') /\
  storageTasks t' = storageTasks t /\ codeTasks t' = codeTasks t /\
  healer t' = healer t /\ tk_snapped t' = tk_snapped t.
Proof.
  intros H. unfold addAccountTask in H.
  apply bind_Ok_inv in H. destruct H as [m [Hm H]].
  inversion H; subst t'; clear H.
  destruct t as [[l |] st ct h sn]; simpl in Hm; [| discriminate].
  inversion Hm; subst m; clear Hm.
  unfold getAccountTask, deleteAccountTask, GoMap.get. simpl.
  split; [discriminate |].
  split; [apply find_put_same |].
  split; [intros k' Hk; apply find_put_other; exact Hk |].
  split; [apply find_remove_same |].
  split; [intros k' Hk; rewrite find_remove_other by exact Hk;
          apply find_put_other; exact Hk |].
  split; [intros Hn; unfold setAccountTasks; simpl;
          rewrite (remove_put_absent _ _ _ Hn); reflexivity |].
  split; [intros k' Hn; unfold setAccountTasks; simpl;
          rewrite (remove_absent _ _ Hn); reflexivity |].
  repeat split.
Qed.

Lemma account_task_registry_witness :
  exists t',
    addAccountTask newTasks 7 O = Ok t' /\
    accountTasks newTasks <> GoMap.nil_map /\
    getAccountTask t' 7 = Some O /\
    (forall k', k' <> 7 -> getAccountTask t' k' = getAccountTask newTasks k') /\
    getAccountTask (deleteAccountTask t' 7) 7 = None /\
    (forall k', k' <> 7 ->
       getAccountTask (deleteAccountTask t' 7) k' = getAccountTask newTasks k') /\
    (getAccountTask newTasks 7 = None -> deleteAccountTask t' 7 = newTasks) /\
    (forall k', getAccountTask t' k' = None -> deleteAccountTask t' k' = t') /\
    storageTasks t' = storageTasks newTasks /\ codeTasks t' = codeTasks newTasks /\
    healer t' = healer newTasks /\ tk_snapped t' = tk_snapped newTasks.
Proof.
  eexists. split; [reflexivity |].
  apply (account_task_registry_is_a_map newTasks 7 O). reflexivity.
Defined.

(** ** What block verify-and-insert leaves in the chain *)

Section DownloaderChain.

Variables Block Header Chain Signature Err : Type.
Variable blockHeader : Block -> Header.
Variable GetCurrentCommitSig : Block -> bytes.
Variable LastCommitSignature : Header -> Signature.
Variable LastCommitBitmap : Header -> bytes.
Variable ParseCommitSigAndBitmap : bytes -> Err + Signature * bytes.
Variable VerifyHeaderSignature :
  Chain -> Header -> Signature -> bytes -> option Err.
Variable VerifyHeader : Chain -> Header -> bool -> option Err.
Variable InsertChain : Chain -> list Block -> bool -> Chain * option Err.

Let insertBlock' :=
  verifyAndInsertBlock blockHeader GetCurrentCommitSig LastCommitSignature
    LastCommitBitmap ParseCommitSigAndBitmap VerifyHeaderSignature VerifyHeader
    InsertChain.
Let insertFrom' :=
  verifyAndInsertFrom blockHeader GetCurrentCommitSig LastCommitSignature
    LastCommitBitmap ParseCommitSigAndBitmap VerifyHeaderSignature VerifyHeader
    InsertChain.
Let insertBlocks' :=
  verifyAndInsertBlocks blockHeader GetCurrentCommitSig LastCommitSignature
    LastCommitBitmap ParseCommitSigAndBitmap VerifyHeaderSignature VerifyHeader
    InsertChain.

(** The number of blocks handed to [InsertChain] by a run that counted
    [n] blocks and ended with [err]. *)
Let handed (n : Z) (err : option (insertError Err)) : nat :=
  match err with
  | Some (insertChainErr _) => S (Z.to_nat n)
  | _ => Z.to_nat n
  end.

Lemma verifyAndInsertBlock_chain bc block nextBlocks bc' err :
  insertBlock' bc block nextBlocks = (bc', err) ->
  bc' = match err with
        | None | Some (insertChainErr _) => fst (InsertChain bc [block] false)
        | _ => bc
        end.
Proof.
  unfold insertBlock', verifyAndInsertBlock.
  destruct (commitSigFor _ _ _ _ _ block nextBlocks) as [e | [sig bitmap]].
  - intros H; inversion H; subst; reflexivity.
  - destruct (VerifyHeaderSignature bc (blockHeader block) sig bitmap).
    + intros H; inversion H; subst; reflexivity.
    + destruct (VerifyHeader bc (blockHeader block) true).
      * intros H; inversion H; subst; reflexivity.
      * destruct (InsertChain bc [block] false) as [c [e |]];
          intros H; inversion H; subst; reflexivity.
Qed.

Lemma verifyAndInsertFrom_chain (blocks : list Block) :
  forall bc i bc' n err,
    0 <= i ->
    insertFrom' bc i blocks = (bc', (n, err)) ->
    exists k,
      n = i + Z.of_nat k /\ (k <= length blocks)%nat /\
      (err = None -> k = length blocks) /\
      (err <> None -> (k < length blocks)%nat) /\
      bc' = @insertAll _ _ _ InsertChain bc
              (firstn (match err with
                       | Some (insertChainErr _) => S k
                       | _ => k
                       end) blocks).
Proof.
  induction blocks as [| block rest IH]; intros bc i bc' n err Hi H.
  - simpl in H. inversion H; subst. exists O.
    repeat split; try reflexivity; try lia. intros Hc; contradiction Hc; reflexivity.
  - unfold insertFrom' in H. cbn [verifyAndInsertFrom] in H.
    fold insertBlock' in H.
    destruct (insertBlock' bc block rest) as [bc1 [e |]] eqn:Eb.
    + inversion H; subst bc' n err; clear H.
      apply verifyAndInsertBlock_chain in Eb.
      exists O. split; [lia |]. split; [simpl; lia |].
      split; [discriminate |]. split; [simpl; lia |].
      destruct e; simpl; exact Eb.
    + apply verifyAndInsertBlock_chain in Eb.
      fold insertFrom' in H.
      apply IH in H; [| lia].
      destruct H as [k [En [Hk [Hnone [Hsome Hc]]]]].
      exists (S k). split; [lia |]. split; [simpl; lia |].
      split; [intros He; simpl; f_equal; apply Hnone; exact He |].
      split; [intros He; simpl; apply Hsome in He; lia |].
      rewrite Hc, Eb.
      destruct err as [[] |]; reflexivity.
Qed.

(** X21. Whatever [verifyAndInsertBlocks] returns, the chain it leaves is
    the one obtained by handing to [InsertChain], in order, exactly the
    blocks it counted - and the failing block as well if the failure was
    the insert itself; a block that fails a verification is not handed
    over, nor is any block after a failure. The count is the length of
    the slice exactly when there is no error. *)
Theorem verifyAndInsertBlocks_inserts_counted_blocks
  (bc : Chain) (blocks : list Block) (bc' : Chain) (n : Z)
  (err : option (insertError Err)) :
  insertBlocks' bc blocks = (bc', (n, err)) ->
  0 <= n <= Z.of_nat (length blocks) /\
  (err = None <-> n = Z.of_nat (length blocks)) /\
  bc' = @insertAll _ _ _ InsertChain bc (firstn (handed n err) blocks).
Proof.
  unfold insertBlocks', verifyAndInsertBlocks. fold insertFrom'. intros H.
  apply verifyAndInsertFrom_chain in H; [| lia].
  destruct H as [k [En [Hk [Hnone [Hsome Hc]]]]].
  simpl in En. subst n.
  split; [lia |]. split.
  - split; [intros He; f_equal; apply Hnone; exact He |].
    intros He. destruct err as [e |]; [| reflexivity].
    assert (k < length blocks)%nat by (apply Hsome; discriminate). lia.
  - unfold handed. rewrite Nat2Z.id. exact Hc.
Qed.

End DownloaderChain.

Lemma verifyAndInsertBlocks_inserts_witness :
  exists bc' n err,
    verifyAndInsertBlocks (fun b : Z => b) (fun _ => []) (fun _ : Z => tt)
      (fun _ => []) (fun _ => inr (tt, [])) sampleVerifySig
      (fun _ _ _ => None) sampleInsert [] sampleBlocks = (bc', (n, err)) /\
    0 <= n <= Z.of_nat (length sampleBlocks) /\
    (err = None <-> n = Z.of_nat (length sampleBlocks)) /\
    bc' = @insertAll _ _ _ sampleInsert []
            (firstn (match err with
                     | Some (insertChainErr _) => S (Z.to_nat n)
                     | _ => Z.to_nat n
                     end) sampleBlocks).
Proof.
  eexists. eexists. eexists. split; [vm_compute; reflexivity |].
  apply (verifyAndInsertBlocks_inserts_counted_blocks
           Z Z (list Z) unit unit (fun b : Z => b) (fun _ => []) (fun _ : Z => tt)
           (fun _ => []) (fun _ => inr (tt, [])) sampleVerifySig
           (fun _ _ _ => None) sampleInsert [] sampleBlocks).
  vm_compute; reflexivity.
Defined.

(** ** An account response that overflows the interval of its task *)

Lemma bytesEqual_refl (a : bytes) : bytesEqual a a = true.
Proof. apply bytesEqual_eq. reflexivity. Qed.

Lemma Forall_firstn' {A} (P : A -> Prop) (l : list A) : forall n,
  Forall P l -> Forall P (firstn n l).
Proof.
  induction l as [| x l IH]; intros [| n] H; simpl; try constructor.
  - inversion H; assumption.
  - apply IH. inversion H; assumption.
Qed.

Lemma classifyAccounts_plain (accounts : list StateAccount) :
  forall s t resumed i hashes,
    Forall plain accounts ->
    classifyAccounts s t resumed i hashes accounts = Ok (s, t, resumed).
Proof.
  induction accounts as [| account rest IH]; intros s t resumed i hashes H.
  - reflexivity.
  - inversion H as [| ? ? [Hc Hr] Hrest]; subst.
    cbn [classifyAccounts].
    rewrite Hc, bytesEqual_refl. cbn [negb andb Go.bind].
    rewrite Hr, Z.eqb_refl. apply IH. exact Hrest.
Qed.

Lemma index_repeat_false (k i : nat) :
  (i < k)%nat -> index (repeat false k) i = Ok false.
Proof.
  intros H. unfold index.
  destruct (nth_error (repeat false k) i) as [b |] eqn:E.
  - apply nth_error_In, repeat_spec in E. subst b. reflexivity.
  - apply nth_error_None in E. rewrite repeat_length in E. lia.
Qed.

Lemma index_repeat_out (k : nat) :
  index (repeat false k) k = @Panic bool IndexOutOfRange.
Proof.
  unfold index.
  replace (nth_error (repeat false k) k) with (@None bool); [reflexivity |].
  symmetry. apply nth_error_None. rewrite repeat_length. lia.
Qed.

Lemma persistAccounts_short_flags (s : Manager) (t : accountTask)
  (res : accountResponse) (k : nat) (hashes : list Hash) :
  at_needCode t = repeat false k ->
  at_needState t = repeat false k ->
  at_needHeal t = repeat false k ->
  forall i batch genTrie genBatch size,
    (i <= k)%nat -> (k < i + length hashes)%nat ->
    faults (persistAccounts s t res i hashes batch genTrie genBatch size).
Proof.
  intros Hc Hs Hh.
  induction hashes as [| hash rest IH];
    intros i batch genTrie genBatch size Hi Hk.
  - simpl in Hk. lia.
  - cbn [persistAccounts]. rewrite Hc, Hs, Hh.
    destruct (Nat.eq_dec i k) as [-> | Hne].
    + rewrite index_repeat_out. exists IndexOutOfRange. reflexivity.
    + rewrite !index_repeat_false by lia. cbn [Go.bind].
      destruct (index (ar_accounts res) i) as [account | p |] eqn:Ei;
        [| exists p; reflexivity | ].
      2:{ unfold index in Ei. destruct (nth_error (ar_accounts res) i); discriminate. }
      cbn [Go.bind].
      destruct (SlimAccountRLP account) as [slim | p |] eqn:Es;
        [| exists p; reflexivity | ].
      2:{ unfold SlimAccountRLP in Es.
          destruct (encodeSlim _); discriminate. }
      cbn [Go.bind].
      destruct (FullAccountRLP slim); [| exists Explicit; reflexivity].
      apply IH; simpl in Hk; lia.
Qed.

Lemma forwardAccountTask_short_flags (s : Manager) (task : ptr)
  (t : accountTask) (res : accountResponse) (k : nat) :
  loadAcct s task = Ok t ->
  at_res t = Some res ->
  at_needCode t = repeat false k ->
  at_needState t = repeat false k ->
  at_needHeal t = repeat false k ->
  (k < length (ar_hashes res))%nat ->
  faults (forwardAccountTask s task).
Proof.
  intros Hl Hr Hc Hs Hh Hk. unfold forwardAccountTask.
  rewrite Hl. cbn [Go.bind]. rewrite Hr.
  destruct (persistAccounts_short_flags s (atSetRes t None) res k (ar_hashes res)
              Hc Hs Hh O [] (at_genTrie (atSetRes t None))
              (at_genBatch (atSetRes t None)) (accountBytes (m_stats s)))
    as [p Hp]; [lia | simpl; lia |].
  rewrite Hp. exists p. reflexivity.
Qed.

(** *** C5: the response is forwarded as it was received *)

Lemma FullAccountRLP_returns (a : StateAccount) :
  wellFormedAccount a ->
  exists data full,
    SlimAccountRLP a = Ok data /\ FullAccountRLP data = Some full.
Proof.
  intros [Hnonce [Hbal [Hroot Hsize]]].
  set (slim := mkSlimAccount (sa_Nonce a) (sa_Balance a)
         (if sa_Root a =? EmptyRootHash then [] else hashBytes (sa_Root a))
         (if bytesEqual (sa_CodeHash a) (hashBytes EmptyCodeHash)
          then [] else sa_CodeHash a)).
  assert (Hr : blen (sl_Root slim) <= 32).
  { simpl. destruct (sa_Root a =? EmptyRootHash).
    - unfold blen; simpl; lia.
    - rewrite blen_hashBytes; lia. }
  assert (Hc : blen (sl_CodeHash slim) <= blen (sa_CodeHash a)).
  { simpl. destruct (bytesEqual (sa_CodeHash a) (hashBytes EmptyCodeHash)).
    - apply blen_nonneg.
    - lia. }
  destruct (decodeSlim_encodeSlim slim) as [data [Henc Hdec]];
    [exact Hnonce | exact Hbal | simpl sl_Balance; lia |].
  exists data. unfold FullAccountRLP, FullAccount. rewrite Hdec.
  unfold encodeAccount. cbn [sa_Balance sl_Balance slim].
  replace (sa_Balance a <? 0) with false
    by (symmetry; apply Z.ltb_ge; exact Hbal).
  eexists. split; [| reflexivity].
  unfold SlimAccountRLP. fold slim. rewrite Henc. reflexivity.
Qed.

Lemma persistAccounts_clear_flags (s : Manager) (t : accountTask)
  (res : accountResponse) (k : nat) (hashes : list Hash) :
  at_needCode t = repeat false k ->
  at_needState t = repeat false k ->
  at_needHeal t = repeat false k ->
  Forall wellFormedAccount (ar_accounts res) ->
  (k <= length (ar_accounts res))%nat ->
  forall i batch genTrie genBatch size,
    (i + length hashes <= k)%nat ->
    exists r, persistAccounts s t res i hashes batch genTrie genBatch size = Ok r.
Proof.
  intros Hc Hs Hh Hwf Hlen.
  induction hashes as [| hash rest IH]; intros i batch genTrie genBatch size Hi.
  - eexists; reflexivity.
  - simpl in Hi. cbn [persistAccounts]. rewrite Hc, Hs, Hh.
    rewrite !index_repeat_false by lia. cbn [Go.bind].
    destruct (nth_error (ar_accounts res) i) as [account |] eqn:Ea.
    2:{ apply nth_error_None in Ea. lia. }
    unfold index at 1. rewrite Ea. cbn [Go.bind].
    assert (Hw : wellFormedAccount account).
    { rewrite Forall_forall in Hwf. apply Hwf. eapply nth_error_In; exact Ea. }
    destruct (FullAccountRLP_returns account Hw) as [data [full [Hd Hf]]].
    rewrite Hd. cbn [Go.bind]. rewrite Hf.
    apply IH. lia.
Qed.

Lemma advanceNext_clear_flags (t : accountTask) (k : nat) (hashes : list Hash) :
  at_needCode t = repeat false k ->
  at_needState t = repeat false k ->
  forall i next,
    (i + length hashes <= k)%nat ->
    advanceNext t i hashes next = Ok (last (map incHash hashes) next, true).
Proof.
  intros Hc Hs.
  induction hashes as [| hash rest IH]; intros i next Hi.
  - reflexivity.
  - simpl in Hi. cbn [advanceNext]. rewrite Hc, Hs.
    rewrite !index_repeat_false by lia. cbn [Go.bind].
    rewrite IH by lia. cbn [map]. rewrite last_cons. reflexivity.
Qed.

(** A forward over a response in which no account waits for anything runs
    to the end of the response as it is stored in the task, and marks the
    task done according to the continuation flag stored with it. *)
Lemma forwardAccountTask_clear_flags (s : Manager) (task : ptr)
  (t : accountTask) (res : accountResponse) (k : nat) :
  loadAcct s task = Ok t ->
  at_res t = Some res ->
  at_needCode t = repeat false k ->
  at_needState t = repeat false k ->
  at_needHeal t = repeat false k ->
  length (ar_hashes res) = k ->
  (k <= length (ar_accounts res))%nat ->
  Forall wellFormedAccount (ar_accounts res) ->
  exists s' t',
    forwardAccountTask s task = Ok s' /\
    loadAcct s' task = Ok t' /\
    at_res t' = None /\
    at_done t' = negb (ar_cont res) /\
    at_Next t' = last (map incHash (ar_hashes res)) (at_Next t).
Proof.
  intros Hl Hr Hc Hs Hh Hk Hlen Hwf.
  assert (Hret : exists s', forwardAccountTask s task = Ok s').
  { unfold forwardAccountTask. rewrite Hl. cbn [Go.bind]. rewrite Hr.
    destruct (persistAccounts_clear_flags s (atSetRes t None) res k (ar_hashes res)
                Hc Hs Hh Hwf Hlen O [] (at_genTrie (atSetRes t None))
                (at_genBatch (atSetRes t None)) (accountBytes (m_stats s)))
      as [[[[batch genTrie] genBatch] size] Hp]; [simpl; lia |].
    rewrite Hp. cbn [Go.bind].
    rewrite (advanceNext_clear_flags _ k) by (try reflexivity; try assumption; simpl; lia).
    cbn [Go.bind].
    destruct (commitGenTrie _ _) as [s3 t5].
    destruct (flushGenBatch _ _) as [s4 t6].
    eexists; reflexivity. }
  destruct Hret as [s' H]. exists s'.
  destruct (forwardAccountTask_Ok _ _ _ H) as [t0 [Hl0 [_ Hsome]]].
  rewrite Hl in Hl0. inversion Hl0; subst t0; clear Hl0.
  destruct (Hsome res Hr)
    as [batch [genTrie [genBatch [size [next [finished [flushed [t' Hx]]]]]]]].
  destruct Hx as [_ [Ha [_ [Hac [_ [_ [_ [_ [_ [_ [Hres [Hnext Hdone]]]]]]]]]]]].
  rewrite (advanceNext_clear_flags _ k) in Ha
    by (try reflexivity; try assumption; lia).
  injection Ha as En Ef. rewrite <- En in Hnext. rewrite <- Ef in Hdone.
  exists t'. split; [exact H |].
  split.
  { unfold loadAcct in *. rewrite Hac.
    unfold deref in Hl. destruct (nth_error (m_accts s) task) eqn:E; [| discriminate].
    rewrite (nth_error_updNth_same _ _ _ _ E). reflexivity. }
  split; [exact Hres |]. split; [exact Hdone | exact Hnext].
Qed.

Lemma classifyAccounts_res (accounts : list StateAccount) :
  forall s t resumed i hashes s' t' resumed',
    classifyAccounts s t resumed i hashes accounts = Ok (s', t', resumed') ->
    at_res t' = at_res t.
Proof.
  induction accounts as [| account rest IH];
    intros s t resumed i hashes s' t' resumed' H.
  - simpl in H. inversion H; subst. reflexivity.
  - cbn [classifyAccounts] in H.
    apply bind_Ok_inv in H. destruct H as [t1 [Ht1 H]].
    assert (R1 : at_res t1 = at_res t).
    { destruct (negb (bytesEqual (sa_CodeHash account) (hashBytes EmptyCodeHash)) &&
                negb (HasCodeWithPrefix (m_db s) (BytesToHash (sa_CodeHash account)))).
      - apply bind_Ok_inv in Ht1. destruct Ht1 as [m [_ Ht1]].
        inversion Ht1; subst. reflexivity.
      - inversion Ht1; subst. reflexivity. }
    destruct (sa_Root account =? EmptyRootHash).
    { apply IH in H. congruence. }
    apply bind_Ok_inv in H. destruct H as [h [_ H]].
    destruct (HasTrieNode (m_db s) h [] (sa_Root account) (m_scheme s)).
    { apply IH in H. congruence. }
    apply bind_Ok_inv in H. destruct H as [[[s2 t2] resumed2] [Hmid H]].
    assert (R2 : at_res t2 = at_res t1).
    { destruct (GoMap.get h (at_SubTasks t1)) as [subtasks |].
      - apply bind_Ok_inv in Hmid. destruct Hmid as [s0 [_ Hmid]].
        inversion Hmid; subst. reflexivity.
      - apply bind_Ok_inv in Hmid. destruct Hmid as [m [_ Hmid]].
        inversion Hmid; subst. reflexivity. }
    apply IH in H. cbn [at_res atSetPend atSetNeedState] in H. congruence.
Qed.

(** C5. [processAccountResponse] stores the response in the task before
    the trimming pass and trims and clears its own copies only (lines
    1404-1429), and whatever follows works on the stored one.  Whenever
    the call returns with work pending, the response in the task is the
    one that was received, every hash and the continuation flag.  For a
    response in which no account needs code or storage the forward runs at
    once: if a hash lies past [task.Last], the flag vectors, which are cut
    to the accounts within the interval, are shorter than the stored
    response, and the call panics; and if no hash lies past [task.Last],
    the call returns with the marker moved past the last hash and the task
    marked done according to the continuation flag as it was received - a
    response that reaches [task.Last] with the flag set leaves the task not
    done. *)
Theorem C5_processAccountResponse_forwards_the_response_as_received
  (s : Manager) (task : ptr) (t0 : accountTask)
  (hashes : list Hash) (accounts : list StateAccount) (cont : bool) :
  loadAcct s task = Ok t0 ->
  GoMap.get (at_id t0) (accountTasks (m_tasks s)) = Some task ->
  length accounts = length hashes ->
  (forall s',
     processAccountResponse s task hashes accounts cont = Ok s' ->
     exists t',
       loadAcct s' task = Ok t' /\
       (at_pend t' <> 0 ->
        at_res t' = Some (mkAccountResponse task hashes accounts cont))) /\
  (Forall plain accounts ->
   (exists h, In h hashes /\ at_Last t0 < h) ->
   faults (processAccountResponse s task hashes accounts cont)) /\
  (Forall plain accounts ->
   Forall wellFormedAccount accounts ->
   (forall h, In h hashes -> h <= at_Last t0) ->
   exists s' t',
     processAccountResponse s task hashes accounts cont = Ok s' /\
     loadAcct s' task = Ok t' /\
     at_res t' = None /\
     at_Next t' = last (map incHash hashes) (at_Next t0) /\
     at_done t' = negb cont).
Proof.
  intros Hl Hreg Hlen.
  set (resp := mkAccountResponse task hashes accounts cont).
  set (s1 := storeAcct s task (atSetRes t0 (Some resp))).
  assert (Hl1 : loadAcct s1 task = Ok (atSetRes t0 (Some resp))).
  { eapply loadAcct_storeAcct; exact Hl. }
  split.
  { intros s' H. unfold processAccountResponse in H.
    rewrite Hl in H. cbn [Go.bind] in H. rewrite Hreg, Hl in H.
    cbn [Go.bind] in H. fold resp in H. fold s1 in H.
    apply bind_Ok_inv in H. destruct H as [[[kept1 accounts1] cont1] [_ H]].
    rewrite Hl1 in H. cbn [Go.bind] in H.
    apply bind_Ok_inv in H. destruct H as [[[s2 t3] resumed] [Hcl H]].
    pose proof (classifyAccounts_flags _ _ _ _ _ _ _ _ _ Hcl) as [Hheap _].
    apply classifyAccounts_res in Hcl.
    cbn [at_res atSetPend atSetStateTasks atSetCodeTasks atSetNeedHeal
         atSetNeedState atSetNeedCode atSetRes] in Hcl.
    assert (Hl2 : loadAcct s2 task = Ok (atSetRes t0 (Some resp))).
    { unfold loadAcct in *. rewrite Hheap. exact Hl1. }
    set (t4 := atSetSubTasks t3 (dropAborted (at_SubTasks t3) resumed)) in *.
    pose proof (loadAcct_storeAcct s2 task _ t4 Hl2) as Hl3.
    destruct (at_pend t4 =? 0) eqn:Ep.
    - destruct (forwardAccountTask_frame _ _ _ H)
        as [_ [_ [u [t' [Lu [L' [_ W]]]]]]].
      rewrite Hl3 in Lu. inversion Lu; subst u.
      exists t'. split; [exact L' |].
      destruct W as [_ [_ [_ [Wp _]]]]. apply Z.eqb_eq in Ep.
      intros Hne. exfalso. apply Hne. rewrite Wp. exact Ep.
    - inversion H; subst s'. exists t4. split; [exact Hl3 |].
      intros _. exact Hcl. }
  destruct (trimLoop_spec (at_Last t0) accounts hashes [] cont Hlen (Forall_nil _))
    as [kept [dropped [Hsplit [Htrim [Hkept Hdrop]]]]].
  simpl in Hsplit, Htrim.
  assert (Hk : length (firstn (length kept) accounts) = length kept).
  { rewrite length_firstn. rewrite Hsplit, length_app in Hlen. lia. }
  assert (Hrun : forall P : Result Manager -> Prop,
            Forall plain accounts ->
            (forall u,
               loadAcct (storeAcct s1 task u) task = Ok u ->
               at_res u = Some resp ->
               at_needCode u = repeat false (length kept) ->
               at_needState u = repeat false (length kept) ->
               at_needHeal u = repeat false (length kept) ->
               at_Next u = at_Next t0 ->
               P (forwardAccountTask (storeAcct s1 task u) task)) ->
            P (processAccountResponse s task hashes accounts cont)).
  { intros P Hplain HP.
    unfold processAccountResponse. rewrite Hl. cbn [Go.bind]. rewrite Hreg, Hl.
    cbn [Go.bind]. unfold trimOverflow. rewrite Htrim. cbn [Go.bind].
    fold resp. fold s1. rewrite Hl1. cbn [Go.bind]. rewrite Hk.
    rewrite classifyAccounts_plain by (apply Forall_firstn'; exact Hplain).
    cbn [Go.bind at_pend atSetPend atSetSubTasks]. cbn [Z.eqb].
    apply HP; try reflexivity.
    eapply loadAcct_storeAcct. exact Hl1. }
  split.
  - intros Hplain [h [Hin Hover]].
    assert (Hshort : (length kept < length hashes)%nat).
    { destruct dropped as [| d r].
      - exfalso. rewrite app_nil_r in Hsplit. subst kept.
        rewrite Forall_forall in Hkept. specialize (Hkept h Hin). lia.
      - rewrite Hsplit, length_app. simpl. lia. }
    apply (Hrun (fun r => faults r) Hplain).
    intros u Lu Ru Cu Su Hu _.
    exact (forwardAccountTask_short_flags _ task u resp (length kept)
             Lu Ru Cu Su Hu Hshort).
  - intros Hplain Hwf Hall.
    assert (Hfull : kept = hashes).
    { destruct dropped as [| d r]; [rewrite app_nil_r in Hsplit; auto |].
      exfalso. specialize (Hdrop d r eq_refl).
      assert (In d hashes)
        by (rewrite Hsplit; apply in_or_app; right; left; reflexivity).
      specialize (Hall d H). lia. }
    apply (Hrun (fun r => exists s' t',
                   r = Ok s' /\ loadAcct s' task = Ok t' /\ at_res t' = None /\
                   at_Next t' = last (map incHash hashes) (at_Next t0) /\
                   at_done t' = negb cont) Hplain).
    intros u Lu Ru Cu Su Hu Nu.
    destruct (forwardAccountTask_clear_flags _ task u resp (length kept)
                Lu Ru Cu Su Hu)
      as [s' [t' [H1 [H2 [H3 [H4 H5]]]]]].
    + rewrite Hfull. reflexivity.
    + rewrite Hfull. simpl. lia.
    + exact Hwf.
    + exists s', t'. split; [exact H1 |]. split; [exact H2 |].
      split; [exact H3 |]. split; [rewrite H5, Nu; reflexivity | exact H4].
Qed.

Lemma C5_response_reaching_Last_witness :
  exists t0,
    loadAcct sampleSyncing O = Ok t0 /\
    GoMap.get (at_id t0) (accountTasks (m_tasks sampleSyncing)) = Some O /\
    length [plainAccount; plainAccount] = length [3; 100] /\
    Forall plain [plainAccount; plainAccount] /\
    Forall wellFormedAccount [plainAccount; plainAccount] /\
    at_Last t0 = 100 /\
    (forall h, In h [3; 100] -> h <= at_Last t0) /\
    faults (processAccountResponse sampleSyncing O [3; 200]
              [plainAccount; plainAccount] true) /\
    exists s' t',
      processAccountResponse sampleSyncing O [3; 100]
        [plainAccount; plainAccount] true = Ok s' /\
      loadAcct s' O = Ok t' /\
      at_res t' = None /\
      at_Next t' = 101 /\
      at_done t' = false.
Proof.
  eexists.
  assert (A : loadAcct sampleSyncing O = Ok
                (mkAccountTask 7 0 100 GoMap.make 0 [] [] [] GoMap.nil_map
                   GoMap.nil_map [] NewStackTrie true false None)) by reflexivity.
  assert (C : Forall plain [plainAccount; plainAccount]).
  { repeat constructor. }
  assert (W : Forall wellFormedAccount [plainAccount; plainAccount]).
  { repeat (apply Forall_cons; [exact wellFormed_plainAccount |]).
    apply Forall_nil. }
  assert (B : forall h, In h [3; 100] -> h <= 100).
  { intros h [<- | [<- | []]]; lia. }
  assert (D : exists h, In h [3; 200] /\ 100 < h).
  { exists 200. split; [right; left; reflexivity | reflexivity]. }
  split; [exact A |]. split; [reflexivity |]. split; [reflexivity |].
  split; [exact C |]. split; [exact W |]. split; [reflexivity |].
  split; [exact B |].
  split.
  - exact (proj1 (proj2 (C5_processAccountResponse_forwards_the_response_as_received
                           sampleSyncing O _ [3; 200] [plainAccount; plainAccount]
                           true A eq_refl eq_refl)) C D).
  - exact (proj2 (proj2 (C5_processAccountResponse_forwards_the_response_as_received
                           sampleSyncing O _ [3; 100] [plainAccount; plainAccount]
                           true A eq_refl eq_refl)) C W B).
Defined.

(** X22. An account response that runs past the end of the interval of its
    task, in which no account needs code or storage, makes
    [processAccountResponse] panic: the flag vectors are cut to the
    accounts within the interval, while the forward that follows walks
    the response as it was received. *)
Theorem processAccountResponse_faults_on_overflow
  (s : Manager) (task : ptr) (t0 : accountTask)
  (hashes : list Hash) (accounts : list StateAccount) (cont : bool) :
  loadAcct s task = Ok t0 ->
  GoMap.get (at_id t0) (accountTasks (m_tasks s)) = Some task ->
  length accounts = length hashes ->
  (exists h, In h hashes /\ at_Last t0 < h) ->
  Forall plain accounts ->
  faults (processAccountResponse s task hashes accounts cont).
Proof.
  intros Hl Hreg Hlen [h [Hin Hover]] Hplain.
  unfold processAccountResponse. rewrite Hl. cbn [Go.bind]. rewrite Hreg, Hl.
  cbn [Go.bind].
  destruct (trimLoop_spec (at_Last t0) accounts hashes [] cont Hlen (Forall_nil _))
    as [kept [dropped [Hsplit [Htrim [Hkept Hdrop]]]]].
  simpl in Hsplit, Htrim. unfold trimOverflow. rewrite Htrim. cbn [Go.bind].
  assert (Hshort : (length kept < length hashes)%nat).
  { destruct dropped as [| d r].
    - exfalso. rewrite app_nil_r in Hsplit. subst kept.
      rewrite Forall_forall in Hkept. specialize (Hkept h Hin). lia.
    - rewrite Hsplit, length_app. simpl. lia. }
  set (resp := mkAccountResponse task hashes accounts cont).
  set (s1 := storeAcct s task (atSetRes t0 (Some resp))).
  assert (Hl1 : loadAcct s1 task = Ok (atSetRes t0 (Some resp))).
  { eapply loadAcct_storeAcct; exact Hl. }
  rewrite Hl1. cbn [Go.bind].
  assert (Hk : length (firstn (length kept) accounts) = length kept).
  { rewrite length_firstn. lia. }
  rewrite Hk.
  rewrite classifyAccounts_plain by (apply Forall_firstn'; exact Hplain).
  cbn [Go.bind at_pend atSetPend atSetSubTasks]. cbn [Z.eqb].
  match goal with
  | |- faults (forwardAccountTask (storeAcct ?s0 task ?u) task) =>
      apply (forwardAccountTask_short_flags (storeAcct s0 task u) task u resp
               (length kept) (loadAcct_storeAcct s0 task _ u Hl1))
  end; try reflexivity.
  exact Hshort.
Qed.

Lemma processAccountResponse_faults_witness :
  exists t0,
    loadAcct sampleSyncing O = Ok t0 /\
    GoMap.get (at_id t0) (accountTasks (m_tasks sampleSyncing)) = Some O /\
    length [plainAccount; plainAccount] = length [3; 200] /\
    (exists h, In h [3; 200] /\ at_Last t0 < h) /\
    Forall plain [plainAccount; plainAccount] /\
    faults (processAccountResponse sampleSyncing O [3; 200]
              [plainAccount; plainAccount] true).
Proof.
  eexists.
  assert (A : loadAcct sampleSyncing O = Ok
                (mkAccountTask 7 0 100 GoMap.make 0 [] [] [] GoMap.nil_map
                   GoMap.nil_map [] NewStackTrie true false None)) by reflexivity.
  assert (B : exists h, In h [3; 200] /\ 100 < h).
  { exists 200. split; [right; left; reflexivity | reflexivity]. }
  assert (C : Forall plain [plainAccount; plainAccount]).
  { repeat constructor. }
  split; [exact A |]. split; [reflexivity |]. split; [reflexivity |].
  split; [exact B |]. split; [exact C |].
  exact (processAccountResponse_faults_on_overflow sampleSyncing O _
           [3; 200] [plainAccount; plainAccount] true A eq_refl eq_refl B C).
Defined.

(** ** Cleaning the storage sub-tasks *)

Lemma dropDone_spec (s : Manager) (subtasks : list ptr) :
  forall left,
    dropDone s subtasks = Ok left ->
    Forall (fun q => exists st, loadStor s q = Ok st /\ st_done st = false) left /\
    (forall q, In q left -> In q subtasks).
Proof.
  induction subtasks as [| p rest IH]; simpl; intros left H.
  - inversion H; subst. split; [constructor | auto].
  - apply bind_Ok_inv in H. destruct H as [st [Hst H]].
    apply bind_Ok_inv in H. destruct H as [rest' [Hrest H]].
    destruct (IH _ Hrest) as [F S].
    inversion H; subst left; clear H.
    destruct (st_done st) eqn:Ed.
    + split; [exact F | intros q Hq; right; apply S; exact Hq].
    + split.
      * constructor; [exists st; auto | exact F].
      * intros q [<- | Hq]; [left; reflexivity | right; apply S; exact Hq].
Qed.

Lemma pendingChunks_stors (s s' : Manager) (subtasks : list ptr) :
  m_stors s' = m_stors s -> pendingChunks s subtasks -> pendingChunks s' subtasks.
Proof.
  intros E [Hne F]. split; [exact Hne |].
  eapply Forall_impl; [| exact F].
  intros q [st [Hl Hd]]. exists st. split; [| exact Hd].
  unfold loadStor in *. rewrite E. exact Hl.
Qed.

Lemma entryClean_same (s s' : Manager) (t t' : accountTask) (a : Hash) :
  m_stors s' = m_stors s -> at_SubTasks t' = at_SubTasks t ->
  entryClean s t a -> entryClean s' t' a.
Proof.
  unfold entryClean. intros Es Et. rewrite Et.
  destruct (GoMap.get a (at_SubTasks t)); [apply pendingChunks_stors; exact Es | auto].
Qed.

Lemma get_delete_other {V} k k' (m : GoMap.t V) :
  k <> k' -> GoMap.get k (GoMap.delete k' m) = GoMap.get k m.
Proof.
  intros H. destruct m as [l |]; [| reflexivity].
  unfold GoMap.get; simpl. apply find_remove_other; exact H.
Qed.

Lemma cleanSubTasks_spec (task : ptr) (snapshot : list (Z * list ptr)) :
  forall s s' t,
    cleanSubTasks s task snapshot = Ok s' ->
    loadAcct s task = Ok t ->
    m_stors s' = m_stors s /\ m_tasks s' = m_tasks s /\
    (forall q, q <> task -> nth_error (m_accts s') q = nth_error (m_accts s) q) /\
    exists t',
      loadAcct s' task = Ok t' /\
      (forall a, In a (map fst snapshot) -> entryClean s' t' a) /\
      (forall a, entryClean s t a -> entryClean s' t' a) /\
      (forall a, GoMap.get a (at_SubTasks t) = None ->
                 GoMap.get a (at_SubTasks t') = None).
Proof.
  induction snapshot as [| [account sub0] rest IH]; intros s s' t H Hl.
  - simpl in H. inversion H; subst s'.
    repeat split; try reflexivity.
    exists t. split; [exact Hl |]. split; [intros a [] |]. split; auto.
  - cbn [cleanSubTasks] in H. rewrite Hl in H. cbn [Go.bind] in H.
    assert (Step : forall s2 t2,
              cleanSubTasks s2 task rest = Ok s' ->
              loadAcct s2 task = Ok t2 ->
              m_stors s2 = m_stors s -> m_tasks s2 = m_tasks s ->
              (forall q, q <> task ->
                 nth_error (m_accts s2) q = nth_error (m_accts s) q) ->
              entryClean s2 t2 account ->
              (forall a, a <> account -> entryClean s t a -> entryClean s2 t2 a) ->
              (forall a, GoMap.get a (at_SubTasks t) = None ->
                         GoMap.get a (at_SubTasks t2) = None) ->
              m_stors s' = m_stors s /\ m_tasks s' = m_tasks s /\
              (forall q, q <> task ->
                 nth_error (m_accts s') q = nth_error (m_accts s) q) /\
              exists t',
                loadAcct s' task = Ok t' /\
                (forall a, In a (map fst ((account, sub0) :: rest)) ->
                           entryClean s' t' a) /\
                (forall a, entryClean s t a -> entryClean s' t' a) /\
                (forall a, GoMap.get a (at_SubTasks t) = None ->
                           GoMap.get a (at_SubTasks t') = None)).
    { intros s2 t2 Hc Hl2 Es Et Eo Hacc Hoth Hnone.
      destruct (IH _ _ _ Hc Hl2) as [Es' [Et' [Eo' [t' [Hl' [Hin [Hkeep Hn']]]]]]].
      split; [congruence |]. split; [congruence |].
      split; [intros q Hq; rewrite (Eo' q Hq); apply Eo; exact Hq |].
      exists t'. split; [exact Hl' |].
      split; [| split].
      - intros a [<- | Ha]; [apply Hkeep; exact Hacc | apply Hin; exact Ha].
      - intros a Ha. apply Hkeep.
        destruct (Z.eq_dec a account) as [-> | Hne]; [exact Hacc |].
        apply Hoth; assumption.
      - intros a Ha. apply Hn', Hnone, Ha. }
    destruct (GoMap.get account (at_SubTasks t)) as [subtasks |] eqn:Eg.
    + apply bind_Ok_inv in H. destruct H as [left [Hd H]].
      apply dropDone_spec in Hd. destruct Hd as [Hpend _].
      destruct (0 <? length left)%nat eqn:Elen.
      * apply bind_Ok_inv in H. destruct H as [m [Hm H]].
        eapply Step; [exact H | | | | | | |].
        -- eapply loadAcct_storeAcct; exact Hl.
        -- reflexivity.
        -- reflexivity.
        -- intros q Hq. simpl. apply nth_error_updNth_other. congruence.
        -- unfold entryClean. simpl. rewrite (get_set_same _ _ _ _ Hm).
           split; [| exact Hpend].
           apply Nat.ltb_lt in Elen. destruct left; [simpl in Elen; lia | discriminate].
        -- intros a Hne. unfold entryClean. simpl.
           rewrite (get_set_other _ _ _ _ _ Hm Hne). auto.
        -- intros a Ha. simpl.
           destruct (Z.eq_dec a account) as [-> | Hne]; [congruence |].
           rewrite (get_set_other _ _ _ _ _ Hm Hne). exact Ha.
      * apply bind_Ok_inv in H. destruct H as [res [_ H]].
        apply bind_Ok_inv in H. destruct H as [ns [_ H]].
        apply bind_Ok_inv in H. destruct H as [s2 [Hf H]].
        set (t1 := atSetPend
                     (atSetSubTasks (atSetNeedState t ns)
                        (GoMap.delete account (at_SubTasks t)))
                     (at_pend t - 1)) in *.
        assert (Hl1 : loadAcct (storeAcct s task t1) task = Ok t1).
        { eapply loadAcct_storeAcct; exact Hl. }
        assert (Hmid : exists t2,
                  loadAcct s2 task = Ok t2 /\ at_SubTasks t2 = at_SubTasks t1 /\
                  m_stors s2 = m_stors s /\ m_tasks s2 = m_tasks s /\
                  (forall q, q <> task ->
                     nth_error (m_accts s2) q = nth_error (m_accts s) q)).
        { destruct (at_pend t1 =? 0).
          - destruct (forwardAccountTask_frame _ _ _ Hf)
              as [R [Fo [u [t2 [Lu [L2 [_ W]]]]]]].
            rewrite Hl1 in Lu. inversion Lu; subst u.
            exists t2. split; [exact L2 |].
            destruct W as [_ [_ [Ws _]]]. split; [exact Ws |].
            destruct R as [Rt [_ [_ [_ [Rs _]]]]].
            split; [exact Rs |]. split; [exact Rt |].
            intros q Hq. rewrite (Fo q Hq). simpl.
            apply nth_error_updNth_other. congruence.
          - inversion Hf; subst s2. exists t1.
            split; [exact Hl1 |]. split; [reflexivity |].
            split; [reflexivity |]. split; [reflexivity |].
            intros q Hq. simpl. apply nth_error_updNth_other. congruence. }
        destruct Hmid as [t2 [Hl2 [Hsub [Es [Et Eo]]]]].
        eapply Step; [exact H | exact Hl2 | exact Es | exact Et | exact Eo | | |].
        -- unfold entryClean. rewrite Hsub. simpl. rewrite get_delete_same. exact I.
        -- intros a Hne Ha. unfold entryClean in *. rewrite Hsub. simpl.
           rewrite (get_delete_other _ _ _ Hne).
           destruct (GoMap.get a (at_SubTasks t));
             [eapply pendingChunks_stors; [exact Es | exact Ha] | exact I].
        -- intros a Ha. rewrite Hsub. simpl.
           destruct (Z.eq_dec a account) as [-> | Hne]; [apply get_delete_same |].
           rewrite (get_delete_other _ _ _ Hne). exact Ha.
    + eapply Step; [exact H | exact Hl | reflexivity | reflexivity | reflexivity | | |].
      * unfold entryClean. rewrite Eg. exact I.
      * auto.
      * auto.
Qed.

Lemma get_in_keys {V} (a : Z) (m : GoMap.t V) :
  GoMap.get a m <> None -> In a (map fst (GoMap.items m)).
Proof.
  unfold GoMap.get. intros H.
  destruct (GoMap.find a (GoMap.items m)) as [v |] eqn:E; [| contradiction].
  apply find_In in E. apply in_map_iff. exists (a, v). auto.
Qed.

Lemma cleanStorageLoop_spec (snapshot : list (Z * ptr)) :
  forall s s',
    cleanStorageLoop s snapshot = Ok s' ->
    m_stors s' = m_stors s /\ m_tasks s' = m_tasks s /\
    (forall p, In p (map snd snapshot) ->
       exists t', loadAcct s' p = Ok t' /\ forall a, entryClean s' t' a) /\
    (forall q t, loadAcct s q = Ok t -> (forall a, entryClean s t a) ->
       exists t', loadAcct s' q = Ok t' /\ forall a, entryClean s' t' a).
Proof.
  induction snapshot as [| [k task] rest IH]; intros s s' H.
  - simpl in H. inversion H; subst s'.
    repeat split; try reflexivity.
    + intros p [].
    + intros q t Hl Hc. exists t. auto.
  - cbn [cleanStorageLoop] in H.
    apply bind_Ok_inv in H. destruct H as [t [Hl H]].
    apply bind_Ok_inv in H. destruct H as [s1 [Hc H]].
    destruct (cleanSubTasks_spec _ _ _ _ _ Hc Hl)
      as [Es [Et [Eo [t1 [Hl1 [Hin [Hkeep Hnone]]]]]]].
    destruct (IH _ _ H) as [Es' [Et' [Hall Hpres]]].
    assert (Hclean1 : forall a, entryClean s1 t1 a).
    { intros a. destruct (GoMap.get a (at_SubTasks t)) eqn:Eg.
      - apply Hin. apply get_in_keys. congruence.
      - unfold entryClean. rewrite (Hnone a Eg). exact I. }
    split; [congruence |]. split; [congruence |]. split.
    + intros p [<- | Hp]; [| apply Hall; exact Hp].
      simpl. eapply Hpres; [exact Hl1 | exact Hclean1].
    + intros q tq Hlq Hcq.
      destruct (Nat.eq_dec q task) as [-> | Hne].
      * eapply Hpres; [exact Hl1 | exact Hclean1].
      * eapply (Hpres q tq).
        -- unfold loadAcct in *. rewrite (Eo q Hne). exact Hlq.
        -- intros a. eapply entryClean_same; [exact Es | reflexivity | apply Hcq].
Qed.

(** X23. Whenever [cleanStorageTasks] returns, every account task in the
    registry is left with sub-task entries that hold at least one chunk
    and no chunk flagged done; the storage tasks themselves and the
    registries are untouched. *)
Theorem cleanStorageTasks_leaves_pending_chunks_only (s s' : Manager) :
  cleanStorageTasks s = Ok s' ->
  m_stors s' = m_stors s /\ m_tasks s' = m_tasks s /\
  forall k p,
    GoMap.get k (accountTasks (m_tasks s')) = Some p ->
    exists t',
      loadAcct s' p = Ok t' /\
      forall account subtasks,
        GoMap.get account (at_SubTasks t') = Some subtasks ->
        pendingChunks s' subtasks.
Proof.
  unfold cleanStorageTasks. intros H.
  destruct (cleanStorageLoop_spec _ _ _ H) as [Es [Et [Hall _]]].
  split; [exact Es |]. split; [exact Et |].
  intros k p Hg. rewrite Et in Hg.
  assert (Hin : In p (map snd (GoMap.items (accountTasks (m_tasks s))))).
  { apply find_In in Hg. apply in_map_iff. exists (k, p). auto. }
  destruct (Hall p Hin) as [t' [Hl Hc]].
  exists t'. split; [exact Hl |].
  intros account subtasks Ha. specialize (Hc account).
  unfold entryClean in Hc. rewrite Ha in Hc. exact Hc.
Qed.

Lemma cleanStorageTasks_witness :
  exists s',
    cleanStorageTasks sampleChunked = Ok s' /\
    m_stors s' = m_stors sampleChunked /\ m_tasks s' = m_tasks sampleChunked /\
    forall k p,
      GoMap.get k (accountTasks (m_tasks s')) = Some p ->
      exists t',
        loadAcct s' p = Ok t' /\
        forall account subtasks,
          GoMap.get account (at_SubTasks t') = Some subtasks ->
          pendingChunks s' subtasks.
Proof.
  eexists. split; [vm_compute; reflexivity |].
  apply (cleanStorageTasks_leaves_pending_chunks_only sampleChunked).
  vm_compute; reflexivity.
Defined.

(** ** Completion *)

Lemma writeSize_pos (w : dbWrite) : 0 < writeSize w.
Proof.
  destruct w; unfold writeSize, blen; lia.
Qed.

Lemma ValueSize_zero (b : Batch) : ValueSize b <= 0 -> b = [].
Proof.
  destruct b as [| w b]; [reflexivity |]. intros H. exfalso.
  assert (Hn : 0 <= ValueSize b).
  { clear. induction b as [| w b IH]; simpl; [lia |].
    pose proof (writeSize_pos w). unfold ValueSize in *. simpl. lia. }
  pose proof (writeSize_pos w). unfold ValueSize in *. simpl in H. lia.
Qed.

Lemma forwardAll_spec (l : list (Z * ptr)) :
  forall s s',
    forwardAll s l = Ok s' ->
    sameRegistries s s' /\
    (exists more, db_entries (m_db s') = db_entries (m_db s) ++ more) /\
    (forall q t, loadAcct s q = Ok t -> at_res t = None ->
       exists t', loadAcct s' q = Ok t' /\ at_res t' = None) /\
    (forall k p, In (k, p) l ->
       exists t', loadAcct s' p = Ok t' /\ at_res t' = None).
Proof.
  induction l as [| [k p] l IH]; intros s s' H.
  - simpl in H. inversion H; subst s'.
    split; [unfold sameRegistries; repeat split |].
    split; [exists []; rewrite app_nil_r; reflexivity |].
    split; [intros q t Hl Hr; exists t; auto | intros k p []].
  - cbn [forwardAll] in H.
    apply bind_Ok_inv in H. destruct H as [s1 [Hf H]].
    destruct (forwardAccountTask_frame _ _ _ Hf) as [R [Fo [t [t1 [Lt [L1 [N1 W]]]]]]].
    destruct (forwardAccountTask_store _ _ _ Hf) as [[m1 Hm1] _].
    destruct (IH _ _ H) as [R' [[m2 Hm2] [Hkeep Hall]]].
    assert (Hk1 : forall q tq, loadAcct s q = Ok tq -> at_res tq = None ->
                    exists t', loadAcct s1 q = Ok t' /\ at_res t' = None).
    { intros q tq Hl Hr. destruct (Nat.eq_dec q p) as [-> | Hne].
      - exists t1. auto.
      - exists tq. split; [| exact Hr].
        unfold loadAcct in *. rewrite (Fo q Hne). exact Hl. }
    split.
    { unfold sameRegistries in *.
      destruct R as [A1 [A2 [A3 [A4 [A5 [A6 [A7 [A8 [A9 A10]]]]]]]]].
      destruct R' as [B1 [B2 [B3 [B4 [B5 [B6 [B7 [B8 [B9 B10]]]]]]]]].
      repeat split; congruence. }
    split; [exists (m1 ++ m2); rewrite Hm2, Hm1, app_assoc; reflexivity |].
    split.
    + intros q tq Hl Hr. destruct (Hk1 q tq Hl Hr) as [t' [Hl' Hr']].
      eapply Hkeep; eassumption.
    + intros k' p' [Heq | Hin].
      * inversion Heq; subst k' p'. eapply Hkeep; eassumption.
      * eapply Hall; exact Hin.
Qed.

(** Writing the batches of the tasks (lines 621-636) appends to the store
    and changes nothing else. *)
Lemma writeStorageBatches_spec (l : list ptr) :
  forall s s',
    writeStorageBatches s l = Ok s' ->
    sameRegistries s s' /\ m_accts s' = m_accts s /\ m_stats s' = m_stats s /\
    db_status (m_db s') = db_status (m_db s) /\
    exists more, db_entries (m_db s') = db_entries (m_db s) ++ more.
Proof.
  induction l as [| p l IH]; intros s s' H.
  - simpl in H. inversion H; subst s'.
    split; [unfold sameRegistries; repeat split |].
    repeat split. exists []. rewrite app_nil_r. reflexivity.
  - cbn [writeStorageBatches] in H.
    apply bind_Ok_inv in H. destruct H as [st [_ H]].
    apply IH in H. destruct H as [R [A [S [D [more M]]]]].
    split; [exact R |]. split; [exact A |]. split; [exact S |].
    split; [exact D |].
    exists (st_genBatch st ++ more). rewrite M. simpl.
    rewrite app_assoc. reflexivity.
Qed.

Lemma writeSubTaskBatches_spec (l : list (Z * list ptr)) :
  forall s s',
    writeSubTaskBatches s l = Ok s' ->
    sameRegistries s s' /\ m_accts s' = m_accts s /\ m_stats s' = m_stats s /\
    db_status (m_db s') = db_status (m_db s) /\
    exists more, db_entries (m_db s') = db_entries (m_db s) ++ more.
Proof.
  induction l as [| [account ps] l IH]; intros s s' H.
  - simpl in H. inversion H; subst s'.
    split; [unfold sameRegistries; repeat split |].
    repeat split. exists []. rewrite app_nil_r. reflexivity.
  - cbn [writeSubTaskBatches] in H.
    apply bind_Ok_inv in H. destruct H as [s1 [H1 H]].
    apply writeStorageBatches_spec in H1.
    destruct H1 as [R1 [A1 [S1 [D1 [m1 M1]]]]].
    apply IH in H. destruct H as [R [A [S [D [m2 M]]]]].
    split.
    { unfold sameRegistries in *.
      destruct R1 as [B1 [B2 [B3 [B4 [B5 [B6 [B7 [B8 [B9 B10]]]]]]]]].
      destruct R as [G1 [G2 [G3 [G4 [G5 [G6 [G7 [G8 [G9 G10]]]]]]]]].
      repeat split; congruence. }
    split; [congruence |]. split; [congruence |]. split; [congruence |].
    exists (m1 ++ m2). rewrite M, M1, app_assoc. reflexivity.
Qed.

Lemma writeTaskBatches_spec (l : list (Z * ptr)) :
  forall s s',
    writeTaskBatches s l = Ok s' ->
    sameRegistries s s' /\ m_accts s' = m_accts s /\ m_stats s' = m_stats s /\
    db_status (m_db s') = db_status (m_db s) /\
    exists more, db_entries (m_db s') = db_entries (m_db s) ++ more.
Proof.
  induction l as [| [k p] l IH]; intros s s' H.
  - simpl in H. inversion H; subst s'.
    split; [unfold sameRegistries; repeat split |].
    repeat split. exists []. rewrite app_nil_r. reflexivity.
  - cbn [writeTaskBatches] in H.
    apply bind_Ok_inv in H. destruct H as [t [_ H]].
    apply bind_Ok_inv in H. destruct H as [s2 [H2 H]].
    apply writeSubTaskBatches_spec in H2.
    destruct H2 as [R1 [A1 [S1 [D1 [m1 M1]]]]].
    apply IH in H. destruct H as [R [A [S [D [m2 M]]]]].
    split.
    { unfold sameRegistries in *. simpl in R1.
      destruct R1 as [B1 [B2 [B3 [B4 [B5 [B6 [B7 [B8 [B9 B10]]]]]]]]].
      destruct R as [G1 [G2 [G3 [G4 [G5 [G6 [G7 [G8 [G9 G10]]]]]]]]].
      repeat split; congruence. }
    simpl in A1, S1, D1, M1.
    split; [congruence |]. split; [congruence |]. split; [congruence |].
    exists (at_genBatch t ++ m1 ++ m2). rewrite M, M1.
    rewrite <- !app_assoc. reflexivity.
Qed.

(** X24. Whenever [SyncCompleted] returns, the buffer of the scheduler and
    the pending state writer have been written to the store, in that
    order, and are empty; a checkpoint with the current counters is
    stored; and every account task still registered has no pending
    response and is not flagged done. *)
Theorem SyncCompleted_flushes_and_checkpoints (s s' : Manager) :
  SyncCompleted s = Ok s' ->
  exists sched progress more,
    m_scheduler s = Some sched /\
    m_scheduler s' = Some (mkSync (sc_pending sched) 0 []) /\
    m_stateWriter s' = [] /\
    db_entries (m_db s') =
      db_entries (m_db s) ++ sc_membatch sched ++ m_stateWriter s ++ more /\
    db_status (m_db s') = Some (Some progress) /\
    sp_stats progress = m_stats s' /\
    forall k p,
      GoMap.get k (accountTasks (m_tasks s')) = Some p ->
      exists t, loadAcct s' p = Ok t /\ at_res t = None /\ at_done t = false.
Proof.
  unfold SyncCompleted. intros H.
  apply bind_Ok_inv in H. destruct H as [s1 [H1 H]].
  apply bind_Ok_inv in H. destruct H as [s3 [H3 H]].
  apply bind_Ok_inv in H. destruct H as [s4 [H4 H5]].
  unfold commitHealer in H1.
  apply bind_Ok_inv in H1. destruct H1 as [sched [Hs H1]].
  destruct (m_scheduler s) as [sched0 |] eqn:Esched; [| discriminate].
  inversion Hs; subst sched0; clear Hs.
  cbn [negb andb] in H1. inversion H1; subst s1; clear H1.
  set (s1 := setScheduler (setDb s (dbWriteBatch (m_db s) (sc_membatch sched)))
               (Some (mkSync (sc_pending sched) 0 []))) in *.
  set (s2 := if 0 <? ValueSize (m_stateWriter s1)
             then setStateWriter
                    (setDb s1 (dbWriteBatch (m_db s1) (m_stateWriter s1))) []
             else s1) in *.
  assert (P2 : m_stateWriter s2 = [] /\
               db_entries (m_db s2) =
                 db_entries (m_db s) ++ sc_membatch sched ++ m_stateWriter s /\
               m_scheduler s2 = Some (mkSync (sc_pending sched) 0 []) /\
               m_tasks s2 = m_tasks s /\ m_accts s2 = m_accts s).
  { unfold s2. destruct (0 <? ValueSize (m_stateWriter s1)) eqn:Ev.
    - simpl. rewrite <- app_assoc. repeat split.
    - apply Z.ltb_ge in Ev. apply ValueSize_zero in Ev.
      simpl in Ev. simpl. rewrite Ev, app_nil_r. repeat split. }
  destruct P2 as [W2 [D2 [S2 [T2 A2]]]].
  destruct (forwardAll_spec _ _ _ H3) as [R3 [[more Hm] [_ Hres]]].
  destruct R3 as [T3 [_ [_ [_ [_ [_ [S3 [W3 _]]]]]]]].
  destruct (cleanAccountTasks_get _ _ H4) as [G4 [A4 [D4 St4]]].
  assert (S4 : m_scheduler s4 = m_scheduler s3 /\ m_stateWriter s4 = m_stateWriter s3).
  { clear - H4. unfold cleanAccountTasks in H4.
    destruct (GoMap.len (accountTasks (m_tasks s3)) =? 0);
      [inversion H4; subst; auto |].
    apply bind_Ok_inv in H4. destruct H4 as [sx [Hc H4]].
    assert (Hx : m_scheduler sx = m_scheduler s3 /\
                 m_stateWriter sx = m_stateWriter s3).
    { clear H4. revert Hc. generalize (GoMap.items (accountTasks (m_tasks s3))).
      intros l. revert s3. induction l as [| [k p] l IH]; intros s3 Hc.
      - simpl in Hc. inversion Hc; subst; auto.
      - cbn [cleanDone] in Hc.
        destruct (GoMap.get k (accountTasks (m_tasks s3))).
        + apply bind_Ok_inv in Hc. destruct Hc as [t [_ Hc]].
          destruct (at_done t); apply IH in Hc; exact Hc.
        + apply IH in Hc; exact Hc. }
    destruct (GoMap.len (accountTasks (m_tasks sx)) =? 0);
      inversion H4; subst; exact Hx. }
  destruct S4 as [Sc4 Sw4].
  unfold saveSyncStatus in H5.
  apply bind_Ok_inv in H5. destruct H5 as [s5 [Hw H5]].
  apply bind_Ok_inv in H5. destruct H5 as [saved [_ H5]].
  destruct (finiteSizes (m_stats s5)); [| discriminate].
  inversion H5; subst s'; clear H5.
  apply writeTaskBatches_spec in Hw.
  destruct Hw as [R5 [A5 [St5 [_ [more5 M5]]]]].
  destruct R5 as [T5 [_ [_ [_ [_ [_ [S5 [W5 _]]]]]]]].
  exists sched, (mkSyncProgress saved (m_stats s5)), (more ++ more5).
  cbn [m_scheduler m_stateWriter m_db setDb db_entries db_status sp_stats m_stats
       m_tasks].
  split; [reflexivity |].
  split; [rewrite S5, Sc4, S3; exact S2 |].
  split; [rewrite W5, Sw4, W3; exact W2 |].
  split; [rewrite M5, D4, Hm, D2, <- !app_assoc; reflexivity |].
  split; [reflexivity |]. split; [reflexivity |].
  intros k p Hg. rewrite T5, (G4 k) in Hg.
  destruct (isDone s3 k) eqn:Ed; [discriminate |].
  assert (Hin : In (k, p) (GoMap.items (accountTasks (m_tasks s2)))).
  { rewrite <- T3. apply find_In. exact Hg. }
  destruct (Hres k p Hin) as [t [Hl Hr]].
  exists t. unfold loadAcct in *. simpl. rewrite A5, A4.
  split; [exact Hl |]. split; [exact Hr |].
  unfold isDone in Ed. rewrite Hg in Ed. unfold loadAcct in Ed.
  rewrite Hl in Ed. exact Ed.
Qed.

Lemma SyncCompleted_witness :
  exists s',
    SyncCompleted sampleFinishing = Ok s' /\
    exists sched progress more,
      m_scheduler sampleFinishing = Some sched /\
      m_scheduler s' = Some (mkSync (sc_pending sched) 0 []) /\
      m_stateWriter s' = [] /\
      db_entries (m_db s') =
        db_entries (m_db sampleFinishing) ++ sc_membatch sched
        ++ m_stateWriter sampleFinishing ++ more /\
      db_status (m_db s') = Some (Some progress) /\
      sp_stats progress = m_stats s' /\
      forall k p,
        GoMap.get k (accountTasks (m_tasks s')) = Some p ->
        exists t, loadAcct s' p = Ok t /\ at_res t = None /\ at_done t = false.
Proof.
  eexists. split; [vm_compute; reflexivity |].
  apply (SyncCompleted_flushes_and_checkpoints sampleFinishing).
  vm_compute; reflexivity.
Defined.

(** ** What the retry producer hands out *)

Lemma retryAccounts_spec (n : Z) (snapshot : list (Z * ptr)) :
  forall s acc s' accounts returned,
    retryAccounts n snapshot s acc = Ok (s', accounts, returned) ->
    m_accts s' = m_accts s /\ m_tasks s' = m_tasks s /\
    codeTasks (m_retries s') = codeTasks (m_retries s) /\
    codeTasks (m_requesting s') = codeTasks (m_requesting s) /\
    (slen acc <= n -> slen accounts <= n) /\
    (forall k,
       movedTo (accountTasks (m_requesting s)) (accountTasks (m_retries s)) k ->
       movedTo (accountTasks (m_requesting s')) (accountTasks (m_retries s')) k) /\
    ((forall q, In q acc ->
        exists t, loadAcct s q = Ok t /\
          movedTo (accountTasks (m_requesting s)) (accountTasks (m_retries s))
            (at_id t)) ->
     forall q, In q accounts ->
       exists t, loadAcct s q = Ok t /\
         movedTo (accountTasks (m_requesting s')) (accountTasks (m_retries s'))
           (at_id t)).
Proof.
  induction snapshot as [| [k task] rest IH];
    intros s acc s' accounts returned H.
  - simpl in H. inversion H; subst.
    do 4 (split; [reflexivity |]). split; [auto |]. split; auto.
  - cbn [retryAccounts] in H.
    destruct (negb (GoMap.mem k (accountTasks (m_retries s)))).
    { eapply IH; exact H. }
    destruct (slen acc =? n) eqn:En.
    { inversion H; subst.
      do 4 (split; [reflexivity |]). split; [auto |]. split; auto. }
    apply bind_Ok_inv in H. destruct H as [t [Hl H]].
    apply bind_Ok_inv in H. destruct H as [req [Hreq H]].
    unfold addAccountTask in Hreq.
    apply bind_Ok_inv in Hreq. destruct Hreq as [m [Hm Hreq]].
    inversion Hreq; subst req; clear Hreq.
    destruct (IH _ _ _ _ _ H) as [A [T [C1 [C2 [L [K M]]]]]]; clear IH H.
    simpl in A, T, C1, C2, K, M.
    assert (Step : forall k0,
              movedTo (accountTasks (m_requesting s)) (accountTasks (m_retries s)) k0 ->
              movedTo m (GoMap.delete (at_id t) (accountTasks (m_retries s))) k0).
    { intros k0 [Hq Hr]. split.
      - rewrite (mem_set _ _ _ _ _ Hm), Hq. apply orb_true_r.
      - rewrite mem_delete, Hr. apply andb_false_r. }
    split; [exact A |]. split; [exact T |].
    split; [exact C1 |]. split; [exact C2 |].
    split; [| split].
    + intros Hle. apply L. unfold slen in *. rewrite length_app. simpl.
      apply Z.eqb_neq in En. lia.
    + intros k0 Hk. apply K, Step, Hk.
    + intros Hacc q Hq.
      assert (Hacc' : forall q, In q (acc ++ [task]) ->
                exists t0,
                  loadAcct (setRetries (setRequesting s
                             (setAccountTasks (m_requesting s) m))
                             (deleteAccountTask
                                (m_retries (setRequesting s
                                   (setAccountTasks (m_requesting s) m)))
                                (at_id t))) q = Ok t0 /\
                  movedTo m (GoMap.delete (at_id t) (accountTasks (m_retries s)))
                    (at_id t0)).
      { intros q' Hq'. apply in_app_or in Hq'.
        destruct Hq' as [Hq' | [<- | []]].
        - destruct (Hacc q' Hq') as [t0 [Hl0 Hm0]].
          exists t0. split; [exact Hl0 | apply Step; exact Hm0].
        - exists t. split; [exact Hl |]. split.
          + rewrite (mem_set _ _ _ _ _ Hm), Z.eqb_refl. reflexivity.
          + rewrite mem_delete, Z.eqb_refl. reflexivity. }
      exact (M Hacc' q Hq).
Qed.

Lemma retryCodes_spec (cap : Z) (snapshot : list (Z * unit)) :
  forall s codes s' codes' returned,
    retryCodes cap snapshot s codes = Ok (s', codes', returned) ->
    m_accts s' = m_accts s /\ m_tasks s' = m_tasks s /\
    accountTasks (m_retries s') = accountTasks (m_retries s) /\
    accountTasks (m_requesting s') = accountTasks (m_requesting s) /\
    (slen codes <= cap -> slen codes' <= cap) /\
    ((forall c, In c codes ->
        movedTo (codeTasks (m_requesting s)) (codeTasks (m_retries s)) c) ->
     forall c, In c codes' ->
       movedTo (codeTasks (m_requesting s')) (codeTasks (m_retries s')) c).
Proof.
  induction snapshot as [| [code u] rest IH];
    intros s codes s' codes' returned H.
  - simpl in H. inversion H; subst.
    do 4 (split; [reflexivity |]). split; auto.
  - cbn [retryCodes] in H.
    destruct (negb (GoMap.mem code (codeTasks (m_retries s)))).
    { eapply IH; exact H. }
    destruct (cap <=? slen codes) eqn:En.
    { inversion H; subst.
      do 4 (split; [reflexivity |]). split; auto. }
    apply bind_Ok_inv in H. destruct H as [req [Hreq H]].
    unfold addCodeTask in Hreq.
    apply bind_Ok_inv in Hreq. destruct Hreq as [m [Hm Hreq]].
    inversion Hreq; subst req; clear Hreq.
    destruct (IH _ _ _ _ _ H) as [A [T [C1 [C2 [L M]]]]]; clear IH H.
    simpl in A, T, C1, C2, M.
    split; [exact A |]. split; [exact T |].
    split; [exact C1 |]. split; [exact C2 |].
    split.
    + intros Hle. apply L. unfold slen in *. rewrite length_app. simpl.
      apply Z.leb_gt in En. lia.
    + intros Hc c Hin. apply M; [| exact Hin].
      intros c' Hc'. apply in_app_or in Hc'.
      destruct Hc' as [Hc' | [<- | []]].
      * destruct (Hc c' Hc') as [Hq Hr]. split.
        -- rewrite (mem_set _ _ _ _ _ Hm), Hq. apply orb_true_r.
        -- rewrite mem_delete, Hr. apply andb_false_r.
      * split.
        -- rewrite (mem_set _ _ _ _ _ Hm), Z.eqb_refl. reflexivity.
        -- rewrite mem_delete, Z.eqb_refl. reflexivity.
Qed.

Lemma retryHealers_frame (snapshot : list (Z * healTask)) :
  forall s healtask codetask f1 f2 s' h' c',
    retryHealers snapshot s healtask codetask f1 f2 = Ok (s', h', c') ->
    m_accts s' = m_accts s /\ m_tasks s' = m_tasks s /\
    accountTasks (m_retries s') = accountTasks (m_retries s) /\
    accountTasks (m_requesting s') = accountTasks (m_requesting s) /\
    codeTasks (m_retries s') = codeTasks (m_retries s) /\
    codeTasks (m_requesting s') = codeTasks (m_requesting s).
Proof.
  induction snapshot as [| [id task] rest IH];
    intros s healtask codetask f1 f2 s' h' c' H.
  - simpl in H. inversion H; subst. repeat split; reflexivity.
  - cbn [retryHealers] in H.
    destruct (negb (GoMap.mem id (healer (m_retries s)))).
    { eapply IH; exact H. }
    apply bind_Ok_inv in H. destruct H as [[[s1 h1] g1] [H1 H]].
    apply bind_Ok_inv in H. destruct H as [[[s2 c2] g2] [H2 H]].
    assert (F1 : m_accts s1 = m_accts s /\ m_tasks s1 = m_tasks s /\
                 accountTasks (m_retries s1) = accountTasks (m_retries s) /\
                 accountTasks (m_requesting s1) = accountTasks (m_requesting s) /\
                 codeTasks (m_retries s1) = codeTasks (m_retries s) /\
                 codeTasks (m_requesting s1) = codeTasks (m_requesting s)).
    { destruct (negb f1 && negb (ht_byteCodeReq task)).
      - apply bind_Ok_inv in H1. destruct H1 as [req [Hreq H1]].
        unfold addHealerTask in Hreq.
        apply bind_Ok_inv in Hreq. destruct Hreq as [m [_ Hreq]].
        inversion Hreq; subst req. inversion H1; subst. repeat split; reflexivity.
      - inversion H1; subst. repeat split; reflexivity. }
    assert (F2 : m_accts s2 = m_accts s1 /\ m_tasks s2 = m_tasks s1 /\
                 accountTasks (m_retries s2) = accountTasks (m_retries s1) /\
                 accountTasks (m_requesting s2) = accountTasks (m_requesting s1) /\
                 codeTasks (m_retries s2) = codeTasks (m_retries s1) /\
                 codeTasks (m_requesting s2) = codeTasks (m_requesting s1)).
    { destruct (negb f2 && ht_byteCodeReq task).
      - apply bind_Ok_inv in H2. destruct H2 as [req [Hreq H2]].
        unfold addHealerTask in Hreq.
        apply bind_Ok_inv in Hreq. destruct Hreq as [m [_ Hreq]].
        inversion Hreq; subst req. inversion H2; subst. repeat split; reflexivity.
      - inversion H2; subst. repeat split; reflexivity. }
    destruct F1 as [A1 [B1 [C1 [D1 [E1 G1]]]]].
    destruct F2 as [A2 [B2 [C2 [D2 [E2 G2]]]]].
    destruct (g1 && g2).
    + inversion H; subst. repeat split; congruence.
    + apply IH in H. destruct H as [A [B [C [D [E G]]]]].
      repeat split; congruence.
Qed.

(** X25. Whenever [getBatchFromRetries] returns, the account tasks and the
    code hashes of the batch are together at most [n], and each has moved
    from the retries to the requests in flight; the account tasks
    themselves and the registry of unprocessed work are untouched. *)
Theorem getBatchFromRetries_moves_batch_in_flight
  (s : Manager) (n : Z) (s' : Manager) (b : requestBatch) :
  getBatchFromRetries s n = Ok (s', b) ->
  m_accts s' = m_accts s /\ m_tasks s' = m_tasks s /\
  slen (rb_accounts b) + slen (rb_codes b) <= n /\
  (forall q, In q (rb_accounts b) ->
     exists t, loadAcct s q = Ok t /\
       movedTo (accountTasks (m_requesting s')) (accountTasks (m_retries s'))
         (at_id t)) /\
  (forall c, In c (rb_codes b) ->
     movedTo (codeTasks (m_requesting s')) (codeTasks (m_retries s')) c).
Proof.
  unfold getBatchFromRetries. intros H.
  destruct (n <? 0) eqn:En; [discriminate |]. apply Z.ltb_ge in En.
  apply bind_Ok_inv in H. destruct H as [[[s1 accounts] r1] [H1 H]].
  destruct (retryAccounts_spec _ _ _ _ _ _ _ H1) as [A1 [T1 [_ [_ [L1 [_ M1]]]]]].
  specialize (L1 En).
  assert (M1' : forall q, In q accounts ->
            exists t, loadAcct s q = Ok t /\
              movedTo (accountTasks (m_requesting s1)) (accountTasks (m_retries s1))
                (at_id t)).
  { apply M1. intros q []. }
  clear M1.
  destruct r1.
  { inversion H; subst s' b; clear H. cbn [rb_accounts rb_codes].
    split; [exact A1 |]. split; [exact T1 |].
    split; [unfold slen in *; simpl; lia |].
    split; [exact M1' | intros c []]. }
  apply bind_Ok_inv in H. destruct H as [[[s2 codes] r2] [H2 H]].
  destruct (retryCodes_spec _ _ _ _ _ _ _ H2) as [A2 [T2 [R2 [Q2 [L2 M2]]]]].
  assert (L2' : slen codes <= n - slen accounts).
  { apply L2. unfold slen in *. simpl. lia. }
  assert (M2' : forall c, In c codes ->
            movedTo (codeTasks (m_requesting s2)) (codeTasks (m_retries s2)) c).
  { apply M2. intros c []. }
  clear L2 M2.
  assert (M1'' : forall q, In q accounts ->
            exists t, loadAcct s q = Ok t /\
              movedTo (accountTasks (m_requesting s2)) (accountTasks (m_retries s2))
                (at_id t)).
  { intros q Hq. rewrite R2, Q2. apply M1'; exact Hq. }
  destruct r2.
  { inversion H; subst s' b; clear H. cbn [rb_accounts rb_codes].
    split; [congruence |]. split; [congruence |].
    split; [lia |]. split; assumption. }
  apply bind_Ok_inv in H. destruct H as [[s3 storages] [H3 H]].
  assert (F3 : m_accts s3 = m_accts s2 /\ m_tasks s3 = m_tasks s2 /\
               accountTasks (m_retries s3) = accountTasks (m_retries s2) /\
               accountTasks (m_requesting s3) = accountTasks (m_requesting s2) /\
               codeTasks (m_retries s3) = codeTasks (m_retries s2) /\
               codeTasks (m_requesting s3) = codeTasks (m_requesting s2)).
  { destruct (0 <? GoMap.len (storageTasks (m_retries s2))).
    - apply bind_Ok_inv in H3. destruct H3 as [bd [_ H3]].
      apply bind_Ok_inv in H3. destruct H3 as [req [Hreq H3]].
      unfold addStorageTaskBundle in Hreq.
      apply bind_Ok_inv in Hreq. destruct Hreq as [m [_ Hreq]].
      inversion Hreq; subst req. inversion H3; subst. repeat split; reflexivity.
    - inversion H3; subst. repeat split; reflexivity. }
  destruct F3 as [A3 [T3 [R3 [Q3 [RC3 QC3]]]]].
  apply bind_Ok_inv in H. destruct H as [bundle [_ H]].
  assert (Done3 :
    m_accts s3 = m_accts s /\ m_tasks s3 = m_tasks s /\
    slen accounts + slen codes <= n /\
    (forall q, In q accounts ->
       exists t, loadAcct s q = Ok t /\
         movedTo (accountTasks (m_requesting s3)) (accountTasks (m_retries s3))
           (at_id t)) /\
    (forall c, In c codes ->
       movedTo (codeTasks (m_requesting s3)) (codeTasks (m_retries s3)) c)).
  { split; [congruence |]. split; [congruence |]. split; [lia |].
    rewrite R3, Q3, RC3, QC3. split; assumption. }
  destruct (0 <? slen accounts + slen codes + slen (sb_accounts bundle)).
  { inversion H; subst s' b; clear H. exact Done3. }
  apply bind_Ok_inv in H. destruct H as [[[s4 healtask] codetask] [H4 H]].
  inversion H; subst s' b; clear H. cbn [rb_accounts rb_codes].
  assert (F4 : m_accts s4 = m_accts s3 /\ m_tasks s4 = m_tasks s3 /\
               accountTasks (m_retries s4) = accountTasks (m_retries s3) /\
               accountTasks (m_requesting s4) = accountTasks (m_requesting s3) /\
               codeTasks (m_retries s4) = codeTasks (m_retries s3) /\
               codeTasks (m_requesting s4) = codeTasks (m_requesting s3)).
  { destruct (0 <? GoMap.len (healer (m_retries s3))).
    - eapply retryHealers_frame; exact H4.
    - inversion H4; subst. repeat split; reflexivity. }
  destruct F4 as [A4 [T4 [R4 [Q4 [RC4 QC4]]]]].
  destruct Done3 as [D1 [D2 [D3 [D4 D5]]]].
  split; [congruence |]. split; [congruence |]. split; [exact D3 |].
  rewrite R4, Q4, RC4, QC4. split; assumption.
Qed.

Lemma getBatchFromRetries_moves_witness :
  exists s' b,
    getBatchFromRetries sampleRetrying 1 = Ok (s', b) /\
    m_accts s' = m_accts sampleRetrying /\ m_tasks s' = m_tasks sampleRetrying /\
    slen (rb_accounts b) + slen (rb_codes b) <= 1 /\
    (forall q, In q (rb_accounts b) ->
       exists t, loadAcct sampleRetrying q = Ok t /\
         movedTo (accountTasks (m_requesting s')) (accountTasks (m_retries s'))
           (at_id t)) /\
    (forall c, In c (rb_codes b) ->
       movedTo (codeTasks (m_requesting s')) (codeTasks (m_retries s')) c).
Proof.
  eexists. eexists. split; [vm_compute; reflexivity |].
  apply (getBatchFromRetries_moves_batch_in_flight sampleRetrying 1).
  vm_compute; reflexivity.
Defined.

(** ** The heal tail is out of reach of [GetNextBatch] *)

(** X26. [GetNextBatch] never reaches the heal tail of
    [getBatchFromUnprocessed]: it asks for heal tasks only when the retry
    producer returned neither a heal task nor a bytecode-heal task, and
    by then it has dereferenced both; so its outcome is the same whatever
    the heal tail would do. *)
Theorem GetNextBatch_never_reaches_the_heal_tail
  (StatesPerRequest : Z)
  (tail1 tail2 : Manager -> Z -> Result (Manager * option healTask * option healTask))
  (s : Manager) :
  GetNextBatch StatesPerRequest tail1 s = GetNextBatch StatesPerRequest tail2 s.
Proof.
  unfold GetNextBatch.
  destruct (getBatchFromRetries s StatesPerRequest) as [[s1 b] | p |];
    try reflexivity.
  cbn [Go.bind].
  destruct (rb_storages b) as [storages |]; [| reflexivity].
  cbn [deref Go.bind].
  destruct (rb_healtask b) as [healtask |]; [| reflexivity].
  cbn [deref Go.bind].
  destruct (rb_codetask b) as [codetask |]; [| reflexivity].
  cbn [deref Go.bind].
  match goal with |- (if ?c then _ else _) = _ => destruct c end; [reflexivity |].
  match goal with
  | |- Go.bind ?d _ = _ => destruct d as [done | p |]; reflexivity
  end.
Qed.

